(** * Monte Carlo Arithmetic backend (interflop_mca.c): shallow embedding

    The backend replaces every binary32/binary64 operation of a host
    program by a perturbed one.  Floating-point values are modelled by the
    [spec_float] type of the standard library (sign, integer mantissa,
    exponent; one NaN, no payload), the three IEEE widths by their
    [(prec, emax)] pair, and the arithmetic by the round-to-nearest-even
    operations [SFadd], [SFsub], [SFmul], [SFdiv].  The bit-field views of
    the C unions are records of integers; random draws and the thread-local
    generator are threaded explicitly through every function. *)

From Stdlib Require Import ZArith Bool List String Ascii Lia QArith Qabs Qpower.
From Stdlib Require Import Floats.SpecFloat.
Import ListNotations.

Local Open Scope Z_scope.

(** ** IEEE-754 widths *)

Record format := Format { prec : Z; emax : Z }.

Definition binary32 := Format 24 128.
Definition binary64 := Format 53 1024.
Definition binary128 := Format 113 16384.

(** Width of the mantissa field: 23, 52, 112 (the *_PMAN_SIZE constants). *)
Definition PMAN_SIZE (W : format) : Z := prec W - 1.
(** Width of the exponent field: 8, 11, 15. *)
Definition EXP_SIZE (W : format) : Z := Z.log2 (emax W) + 1.
(** Exponent bias: 127, 1023, 16383 (the *_EXP_COMP constants). *)
Definition EXP_COMP (W : format) : Z := emax W - 1.
(** Smallest exponent of a normal value: -126, -1022, -16382. *)
Definition EXP_MIN (W : format) : Z := 2 - emax W.
(** Exponent of the last mantissa bit of a subnormal value. *)
Definition fmt_emin (W : format) : Z := SpecFloat.emin (prec W) (emax W).

Definition fadd (W : format) := SFadd (prec W) (emax W).
Definition fsub (W : format) := SFsub (prec W) (emax W).
Definition fmul (W : format) := SFmul (prec W) (emax W).
Definition fdiv (W : format) := SFdiv (prec W) (emax W).

(** C conversion between floating types (round to nearest even; exact when
    widening). *)
Definition cast (W : format) (x : spec_float) : spec_float :=
  match x with
  | S754_finite s m e =>
      binary_normalize (prec W) (emax W) (cond_Zopp s (Zpos m)) e s
  | _ => x
  end.

(** Rational value of a finite float (0 for the others). *)
Definition pow2 (e : Z) : Q := Qpower 2 e.

Definition SF2Q (x : spec_float) : Q :=
  match x with
  | S754_finite s m e => inject_Z (cond_Zopp s (Zpos m)) * pow2 e
  | _ => 0%Q
  end.

Definition is_finite (x : spec_float) : bool :=
  match x with
  | S754_finite _ _ _ | S754_zero _ => true
  | _ => false
  end.

(** ** float_struct.h: the bit-field view of a floating value *)

Module FloatStruct.

(** Modelled from the spec: the unions [binary32], [binary64], [binary128]
    of float_struct.h, which is not part of the sources at hand.  Each
    gives a view of the value with [sign : 1 bit], a biased [exponent] of
    8, 11 or 15 bits and a [mantissa] of 23, 52 or 112 bits. *)
Record ieee := { sign : bool; exponent : Z; mantissa : Z }.

Definition EXP_ALL_ONES (W : format) : Z := 2 ^ EXP_SIZE W - 1.

(** Reading the fields of a value (the value is assumed to be a member of
    the width [W]). *)
Definition view (W : format) (x : spec_float) : ieee :=
  match x with
  | S754_zero s => {| sign := s; exponent := 0; mantissa := 0 |}
  | S754_infinity s => {| sign := s; exponent := EXP_ALL_ONES W; mantissa := 0 |}
  | S754_nan =>
      {| sign := false; exponent := EXP_ALL_ONES W;
         mantissa := 2 ^ (PMAN_SIZE W - 1) |}
  | S754_finite s m e =>
      if 2 ^ PMAN_SIZE W <=? Zpos m
      then {| sign := s; exponent := e - fmt_emin W + 1;
              mantissa := Zpos m - 2 ^ PMAN_SIZE W |}
      else {| sign := s; exponent := 0; mantissa := Zpos m |}
  end.

(** The value denoted by three fields. *)
Definition unview (W : format) (v : ieee) : spec_float :=
  if exponent v =? 0 then
    if mantissa v =? 0 then S754_zero (sign v)
    else S754_finite (sign v) (Z.to_pos (mantissa v)) (fmt_emin W)
  else if exponent v =? EXP_ALL_ONES W then
    if mantissa v =? 0 then S754_infinity (sign v) else S754_nan
  else
    S754_finite (sign v) (Z.to_pos (mantissa v + 2 ^ PMAN_SIZE W))
      (exponent v + fmt_emin W - 1).

(** Storing into the [exponent] bit-field keeps the low [EXP_SIZE] bits. *)
Definition set_exponent (W : format) (v : ieee) (e : Z) : ieee :=
  {| sign := sign v; exponent := e mod 2 ^ EXP_SIZE W; mantissa := mantissa v |}.

End FloatStruct.

(** ** float_utils.h: classification, exponent, flushing, representability *)

Module FloatUtils.
Import FloatStruct.

Inductive fpclass := FP_NAN | FP_INFINITE | FP_ZERO | FP_SUBNORMAL | FP_NORMAL.

Definition fpclass_eqb (a b : fpclass) : bool :=
  match a, b with
  | FP_NAN, FP_NAN | FP_INFINITE, FP_INFINITE | FP_ZERO, FP_ZERO
  | FP_SUBNORMAL, FP_SUBNORMAL | FP_NORMAL, FP_NORMAL => true
  | _, _ => false
  end.

(** Modelled from the spec: the macro FPCLASSIFY of float_utils.h, which
    is missing.  "Classification distinguishes NORMAL, SUBNORMAL, ZERO,
    INF, NAN". *)
Definition FPCLASSIFY (W : format) (x : spec_float) : fpclass :=
  match x with
  | S754_nan => FP_NAN
  | S754_infinity _ => FP_INFINITE
  | S754_zero _ => FP_ZERO
  | S754_finite _ m _ =>
      if 2 ^ PMAN_SIZE W <=? Zpos m then FP_NORMAL else FP_SUBNORMAL
  end.

(** Number of leading zeros of the mantissa field. *)
Definition mantissa_clz (W : format) (m : Z) : Z := PMAN_SIZE W - Z.log2 m - 1.

(** Modelled from the spec: the macro GET_EXP_FLT of float_utils.h, which
    is missing.  "GET_EXP(x): unbiased exponent (integer).  For
    subnormals, return the minimum normal exponent minus the number of
    leading zeros of the mantissa". *)
Definition GET_EXP_FLT (W : format) (x : spec_float) : Z :=
  let v := view W x in
  if (exponent v =? 0) && negb (mantissa v =? 0)
  then EXP_MIN W - mantissa_clz W (mantissa v)
  else exponent v - EXP_COMP W.

Definition signed_zero (x : spec_float) : spec_float :=
  match x with
  | S754_finite s _ _ => S754_zero s
  | _ => x
  end.

(** Modelled from the spec: the macro DAZ of float_utils.h, which is
    missing.  "DAZ(x): if x is subnormal, return signed zero; else return
    x". *)
Definition DAZ (W : format) (x : spec_float) : spec_float :=
  if fpclass_eqb (FPCLASSIFY W x) FP_SUBNORMAL then signed_zero x else x.

(** Modelled from the spec: the macro FTZ of float_utils.h, which is
    missing.  "FTZ(x): same mapping applied to results before narrowing". *)
Definition FTZ (W : format) (x : spec_float) : spec_float :=
  if fpclass_eqb (FPCLASSIFY W x) FP_SUBNORMAL then signed_zero x else x.

(** The [n] low bits of [m] (none when [n <= 0]). *)
Definition low_bits (m n : Z) : Z := Z.land m (Z.ones (Z.max 0 n)).

(** Modelled from the spec: the macro _IS_REPRESENTABLE of float_utils.h,
    which is missing.  "the low (M_W − (t − 1)) mantissa bits of x are all
    zero, where M_W is the mantissa width of x's type.  For subnormals, the
    definition is adjusted by the leading-zero count.  Zero and any value
    that is not normal/subnormal is treated as representable". *)
Definition _IS_REPRESENTABLE (W : format) (x : spec_float) (t : Z) : bool :=
  let v := view W x in
  match FPCLASSIFY W x with
  | FP_NORMAL => low_bits (mantissa v) (PMAN_SIZE W - (t - 1)) =? 0
  | FP_SUBNORMAL =>
      low_bits (mantissa v)
        (PMAN_SIZE W - (t - 1) - mantissa_clz W (mantissa v)) =? 0
  | _ => true
  end.

End FloatUtils.

(** ** vfc_rng.h: the per-thread random number generator *)

(** The uniform bit generator itself is an external collaborator, known
    only by its interface: it is seeded by an integer and each draw returns
    a binary64 value and the next generator state. *)
Class UniformGen (G : Type) := {
  gen_seed : Z -> G;
  gen_double01 : G -> spec_float * G
}.

(** [0 < u < 1] for a binary64 value. *)
Definition in_open01 (u : spec_float) : bool :=
  match u with
  | S754_finite false m e => negb (Qle_bool 1 (SF2Q u))
  | _ => false
  end.

(** The contract of the generator: every draw lies in the open interval
    (0, 1) and is a member of binary64. *)
Class UniformGenOk (G : Type) `{UniformGen G} := {
  gen_double01_range : forall g : G, in_open01 (fst (gen_double01 g)) = true;
  gen_double01_valid :
    forall g : G, valid_binary 53 1024 (fst (gen_double01 g)) = true
}.

Module Rng.
Section WithGen.
Context {G : Type} `{UniformGen G}.

(** Modelled from the spec: the type rng_state_t of vfc_rng.h, which is
    missing.  The state is thread-local; [random_state] is [None] until
    the first draw seeds it; [fresh_entropy] stands for the value the
    high-entropy source (time of day, thread id) delivers on that thread
    when it is consulted. *)
Record rng_state_t := {
  rs_choose_seed : bool;
  rs_seed : Z;
  random_state : option G;
  fresh_entropy : Z
}.

Definition seeded (st : rng_state_t) : bool :=
  match random_state st with Some _ => true | None => false end.

(** Modelled from the spec: _init_rng_state_struct of vfc_rng.h, which is
    missing.  "lazily initialized on first use from (seed, thread-id) if
    chooseSeed": the call only records the configured seed in a state that
    has not been seeded yet. *)
Definition _init_rng_state_struct (st : rng_state_t) (choose_seed : bool)
    (seed : Z) (random_state_valid : bool) : rng_state_t :=
  if seeded st then st
  else {| rs_choose_seed := choose_seed; rs_seed := seed;
          random_state := None; fresh_entropy := fresh_entropy st |}.

(** Modelled from the spec: get_rand_double01 of vfc_rng.h, which is
    missing.  "uniform01() returns an independent draw from (0, 1) ...; if
    not yet seeded, it is seeded on first use using (configured seed XOR
    thread id) when chooseSeed, else from a high-entropy source combined
    with thread id".  The thread id is the content of the cell the caller
    passes. *)
Definition get_rand_double01 (st : rng_state_t) (tid : Z)
    : spec_float * rng_state_t :=
  let g :=
    match random_state st with
    | Some g => g
    | None =>
        gen_seed (if rs_choose_seed st then Z.lxor (rs_seed st) tid
                  else Z.lxor (fresh_entropy st) tid)
    end in
  let '(u, g') := gen_double01 g in
  (u, {| rs_choose_seed := rs_choose_seed st; rs_seed := rs_seed st;
         random_state := Some g'; fresh_entropy := fresh_entropy st |}).

(** Modelled from the spec: _mca_skip_eval of vfc_rng.h, which is
    missing.  "skip(sparsity) returns true with probability 1 − sparsity.
    When sparsity ≥ 1, always returns false": below 1 one draw [u] is
    compared with the sparsity. *)
Definition _mca_skip_eval (sparsity : spec_float) (st : rng_state_t)
    (tid : Z) : bool * rng_state_t :=
  if SFleb (cast binary32 (S754_finite false 1 0)) sparsity then (false, st)
  else
    let '(u, st') := get_rand_double01 st tid in
    (SFltb (cast binary64 sparsity) u, st').

End WithGen.
Arguments rng_state_t G : clear implicits.
End Rng.

(** ** logger.h: fatal errors *)

(** [logger_error] reports and terminates the process: what follows it in
    the C text never runs.  [logger_warning] only reports. *)
Inductive outcome (A : Type) : Type :=
  | Ok (a : A)
  | Fatal (msg : string).
Arguments Ok {A} a.
Arguments Fatal {A} msg.

Definition bind {A B} (x : outcome A) (f : A -> outcome B) : outcome B :=
  match x with
  | Ok a => f a
  | Fatal msg => Fatal msg
  end.

Notation "x <- c1 ;; c2" := (bind c1 (fun x => c2))
  (at level 61, c1 at next level, right associativity).

Definition logger_error {A} (msg : string) : outcome A := Fatal msg.

Definition is_fatal {A} (x : outcome A) : bool :=
  match x with Fatal _ => true | Ok _ => false end.

(** ** The C library conversions used by the option parser *)

Module Libc.

Inductive errno_t := ENONE | ERANGE | EOTHER.

Definition LONG_MAX := 2 ^ 63 - 1.
Definition LONG_MIN := - 2 ^ 63.
Definition ULLONG_MAX := 2 ^ 64 - 1.

Definition is_space (c : ascii) : bool :=
  let n := Z.of_nat (nat_of_ascii c) in
  (n =? 32) || ((9 <=? n) && (n <=? 13)).

Definition digit_of (c : ascii) : option Z :=
  let n := Z.of_nat (nat_of_ascii c) in
  if (48 <=? n) && (n <=? 57) then Some (n - 48) else None.

Fixpoint skip_spaces (s : string) : string :=
  match s with
  | String c r => if is_space c then skip_spaces r else s
  | EmptyString => s
  end.

(** Optional sign: [true] for a minus. *)
Definition read_sign (s : string) : bool * string :=
  match s with
  | String "-" r => (true, r)
  | String "+" r => (false, r)
  | _ => (false, s)
  end.

(** Longest prefix of decimal digits: its value, its length, the rest. *)
Fixpoint read_digits (s : string) (acc : Z) (n : Z) : Z * Z * string :=
  match s with
  | String c r =>
      match digit_of c with
      | Some d => read_digits r (10 * acc + d) (n + 1)
      | None => (acc, n, s)
      end
  | EmptyString => (acc, n, s)
  end.

(** [strtol(arg, &endptr, 10)]: the value, what [endptr] points to, and
    the value left in [errno] (which the caller cleared). *)
Definition strtol (arg : string) : Z * string * errno_t :=
  let '(neg, r) := read_sign (skip_spaces arg) in
  let '(v, n, rest) := read_digits r 0 0 in
  if n =? 0 then (0, arg, ENONE)
  else
    let v := if neg then - v else v in
    if LONG_MAX <? v then (LONG_MAX, rest, ERANGE)
    else if v <? LONG_MIN then (LONG_MIN, rest, ERANGE)
    else (v, rest, ENONE).

(** [strtoull(arg, &endptr, 10)]: a minus sign negates modulo 2^64. *)
Definition strtoull (arg : string) : Z * string * errno_t :=
  let '(neg, r) := read_sign (skip_spaces arg) in
  let '(v, n, rest) := read_digits r 0 0 in
  if n =? 0 then (0, arg, ENONE)
  else if ULLONG_MAX <? v then (ULLONG_MAX, rest, ERANGE)
  else ((if neg then - v else v) mod 2 ^ 64, rest, ENONE).

(** Conversion of a [long] to [int] (the low 32 bits, signed). *)
Definition int_of_long (v : Z) : Z := (v + 2 ^ 31) mod 2 ^ 32 - 2 ^ 31.

(** Optional decimal exponent [e<sign><digits>]. *)
Definition read_exponent (s : string) : Z * string :=
  match s with
  | String c r =>
      if (Ascii.eqb c "e" || Ascii.eqb c "E")%bool then
        let '(neg, r') := read_sign r in
        let '(x, n, rest) := read_digits r' 0 0 in
        if n =? 0 then (0, s) else (if neg then - x else x, rest)
      else (0, s)
  | EmptyString => (0, s)
  end.

(** [strtof(arg, &endptr)] on decimal input
    [<spaces><sign><digits>[.<digits>][e<sign><digits>]].  The value
    [N * 10^x] is rounded to nearest even in binary32 by one correctly
    rounded division.  Hexadecimal input and the spellings of infinities
    and NaNs are not covered. *)
Definition strtof (arg : string) : spec_float * string * errno_t :=
  let '(neg, r) := read_sign (skip_spaces arg) in
  let '(ip, n1, r1) := read_digits r 0 0 in
  let '(N, n2, r2) :=
    match r1 with
    | String "." r' =>
        let '(v, n, rest) := read_digits r' ip 0 in
        if (n1 =? 0) && (n =? 0) then (ip, 0, r1) else (v, n, rest)
    | _ => (ip, 0, r1)
    end in
  if (n1 =? 0) && (n2 =? 0) then (S754_zero false, arg, ENONE)
  else
    let '(x, rest) := read_exponent r2 in
    let x := x - n2 in
    match N with
    | Zpos p =>
        let num := if 0 <=? x then Zpos p * 10 ^ x else Zpos p in
        let den := if 0 <=? x then 1 else 10 ^ (- x) in
        let v := SFdiv 24 128 (S754_finite neg (Z.to_pos num) 0)
                   (S754_finite false (Z.to_pos den) 0) in
        (v, rest, if is_finite v then
                    match v with S754_zero _ => ERANGE | _ => ENONE end
                  else ERANGE)
    | _ => (S754_zero neg, rest, ENONE)
    end.

(** [strcasecmp(a, b) == 0]. *)
Definition lower (c : ascii) : ascii :=
  let n := nat_of_ascii c in
  if ((65 <=? n) && (n <=? 90))%nat then ascii_of_nat (n + 32) else c.

Fixpoint strcasecmp_eq (a b : string) : bool :=
  match a, b with
  | EmptyString, EmptyString => true
  | String x a', String y b' => Ascii.eqb (lower x) (lower y) && strcasecmp_eq a' b'
  | _, _ => false
  end.

End Libc.

(** ** interflop_mca.c *)

Module Mca.
Import FloatStruct FloatUtils Rng.

Record t_context := {
  relErr : bool;
  absErr : bool;
  absErr_exp : Z;
  choose_seed : bool;
  seed : Z;
  daz : bool;
  ftz : bool;
  sparsity : spec_float
}.

(** The available MCA modes of operation. *)
Inductive mcamode :=
  | mcamode_ieee
  | mcamode_mca
  | mcamode_pb
  | mcamode_rr
  | _mcamode_end_.

Definition mcamode_eqb (a b : mcamode) : bool :=
  match a, b with
  | mcamode_ieee, mcamode_ieee | mcamode_mca, mcamode_mca
  | mcamode_pb, mcamode_pb | mcamode_rr, mcamode_rr
  | _mcamode_end_, _mcamode_end_ => true
  | _, _ => false
  end.

Definition MCA_PRECISION_BINARY32_MIN := 1.
Definition MCA_PRECISION_BINARY64_MIN := 1.
Definition MCA_PRECISION_BINARY32_MAX := 53.
Definition MCA_PRECISION_BINARY64_MAX := 112.
Definition MCA_PRECISION_BINARY32_DEFAULT := 24.
Definition MCA_PRECISION_BINARY64_DEFAULT := 53.
Definition MCA_MODE_DEFAULT := mcamode_mca.

(** The three file-scope variables of the backend. *)
Record mcalib := {
  MCALIB_MODE : mcamode;
  MCALIB_BINARY32_T : Z;
  MCALIB_BINARY64_T : Z
}.

(** Their static initialisers. *)
Definition mcalib_static : mcalib :=
  {| MCALIB_MODE := MCA_MODE_DEFAULT;
     MCALIB_BINARY32_T := MCA_PRECISION_BINARY32_DEFAULT;
     MCALIB_BINARY64_T := MCA_PRECISION_BINARY64_DEFAULT |}.

(** Possible operations values. *)
Inductive mca_operations := mca_add | mca_sub | mca_mul | mca_div.

(** *** MCA control functions *)

Definition _set_mca_mode (g : mcalib) (mode : mcamode) : outcome mcalib :=
  if mcamode_eqb mode _mcamode_end_
  then logger_error "--mode invalid value provided, must be one of: {ieee, mca, pb, rr}."
  else Ok {| MCALIB_MODE := mode;
             MCALIB_BINARY32_T := MCALIB_BINARY32_T g;
             MCALIB_BINARY64_T := MCALIB_BINARY64_T g |}.

(** Modelled from the spec: the macro _set_precision of options.h, which
    is missing.  "Ranges: binary32 [1, 53], binary64 [1, 112].  Values
    outside are rejected at config time."  It returns the new value of the
    precision variable it is given. *)
Definition _set_precision (precision pmin pmax : Z) : outcome Z :=
  if (precision <? pmin) || (pmax <? precision)
  then logger_error "invalid precision provided"
  else Ok precision.

Definition _set_mca_precision_binary32 (g : mcalib) (precision : Z)
    : outcome mcalib :=
  t <- _set_precision precision MCA_PRECISION_BINARY32_MIN
         MCA_PRECISION_BINARY32_MAX ;;
  Ok {| MCALIB_MODE := MCALIB_MODE g;
        MCALIB_BINARY32_T := t;
        MCALIB_BINARY64_T := MCALIB_BINARY64_T g |}.

Definition _set_mca_precision_binary64 (g : mcalib) (precision : Z)
    : outcome mcalib :=
  t <- _set_precision precision MCA_PRECISION_BINARY64_MIN
         MCA_PRECISION_BINARY64_MAX ;;
  Ok {| MCALIB_MODE := MCALIB_MODE g;
        MCALIB_BINARY32_T := MCALIB_BINARY32_T g;
        MCALIB_BINARY64_T := t |}.

(** *** MCA random functions *)

(** Global thread identifier (its static initialiser). *)
Definition global_tid : Z := 0.

(** The constant 0.5 of a width. *)
Definition half (W : format) : spec_float :=
  S754_finite false (Z.to_pos (2 ^ PMAN_SIZE W)) (- prec W).

Section WithGen.
Context {G : Type} `{UniformGen G}.

Local Abbreviation rng := (rng_state_t G).

(** noise = rand * 2^(exp) *)
Definition _noise_binary64 (exp : Z) (rng_state : rng) : spec_float * rng :=
  let '(u, rng_state) := get_rand_double01 rng_state global_tid in
  let d_rand := fsub binary64 u (half binary64) in
  let b64 := view binary64 d_rand in
  let b64 := set_exponent binary64 b64 (exponent b64 + exp) in
  (unview binary64 b64, rng_state).

(** noise = rand * 2^(exp) *)
Definition _noise_binary128 (exp : Z) (rng_state : rng) : spec_float * rng :=
  let '(u, rng_state) := get_rand_double01 rng_state global_tid in
  (* random number in (-0.5, 0.5) *)
  let noise := fsub binary128 (cast binary128 u) (half binary128) in
  let b128 := view binary128 noise in
  let b128 := set_exponent binary128 b128 (exponent b128 + exp) in
  (unview binary128 b128, rng_state).

Definition _IS_IEEE_MODE (g : mcalib) : bool :=
  mcamode_eqb (MCALIB_MODE g) mcamode_ieee.

Definition _IS_NOT_NORMAL_OR_SUBNORMAL (W : format) (X : spec_float) : bool :=
  negb (fpclass_eqb (FPCLASSIFY W X) FP_NORMAL)
  && negb (fpclass_eqb (FPCLASSIFY W X) FP_SUBNORMAL).

(** Checks if the value X must not be noised. *)
Definition _MUST_NOT_BE_NOISED (g : mcalib) (W : format) (X : spec_float)
    (VIRTUAL_PRECISION : Z) : bool :=
  mcamode_eqb (MCALIB_MODE g) mcamode_ieee
  || (negb (fpclass_eqb (FPCLASSIFY W X) FP_NORMAL)
      && negb (fpclass_eqb (FPCLASSIFY W X) FP_SUBNORMAL))
  || (mcamode_eqb (MCALIB_MODE g) mcamode_rr
      && _IS_REPRESENTABLE W X VIRTUAL_PRECISION).

(** The _Generic selection of the noise function by the working type
    (binary64 and binary128 are the only two in its association list). *)
Definition _NOISE (W : format) (EXP : Z) (RNG_STATE : rng) : spec_float * rng :=
  if prec W =? prec binary64 then _noise_binary64 EXP RNG_STATE
  else _noise_binary128 EXP RNG_STATE.

(** Fast version of _INEXACT that adds noise in relative error.  Always
    adds noise even if X is exact or sparsity is enabled. *)
Definition _FAST_INEXACT (g : mcalib) (W : format) (X : spec_float)
    (VIRTUAL_PRECISION : Z) (CTX : t_context) (RNG_STATE : rng)
    : spec_float * rng :=
  if _IS_IEEE_MODE g || _IS_NOT_NORMAL_OR_SUBNORMAL W X then (X, RNG_STATE)
  else
    let RNG_STATE :=
      _init_rng_state_struct RNG_STATE (choose_seed CTX) (seed CTX) false in
    let e_a := GET_EXP_FLT W X in
    let e_n_rel := e_a - (VIRTUAL_PRECISION - 1) in
    let '(noise_rel, RNG_STATE) := _NOISE W e_n_rel RNG_STATE in
    (fadd W X noise_rel, RNG_STATE).

(** Adds mca noise to X according to the virtual precision
    VIRTUAL_PRECISION. *)
Definition _INEXACT (g : mcalib) (W : format) (X : spec_float)
    (VIRTUAL_PRECISION : Z) (CTX : t_context) (RNG_STATE : rng)
    : spec_float * rng :=
  let RNG_STATE :=
    _init_rng_state_struct RNG_STATE (choose_seed CTX) (seed CTX) false in
  if _MUST_NOT_BE_NOISED g W X VIRTUAL_PRECISION then (X, RNG_STATE)
  else
    let '(skip, RNG_STATE) :=
      _mca_skip_eval (sparsity CTX) RNG_STATE global_tid in
    if skip then (X, RNG_STATE)
    else
      let '(X, RNG_STATE) :=
        if relErr CTX then
          let e_a := GET_EXP_FLT W X in
          let e_n_rel := e_a - (VIRTUAL_PRECISION - 1) in
          let '(noise_rel, RNG_STATE) := _NOISE W e_n_rel RNG_STATE in
          (fadd W X noise_rel, RNG_STATE)
        else (X, RNG_STATE) in
      if absErr CTX then
        let e_n_abs := absErr_exp CTX in
        let '(noise_abs, RNG_STATE) := _NOISE W e_n_abs RNG_STATE in
        (fadd W X noise_abs, RNG_STATE)
      else (X, RNG_STATE).

(** Adds the mca noise to da. *)
Definition _mca_inexact_binary64 (g : mcalib) (da : spec_float)
    (context : t_context) (rng_state : rng) : spec_float * rng :=
  _INEXACT g binary64 da (MCALIB_BINARY32_T g) context rng_state.

(** Adds the mca noise to qa. *)
Definition _mca_inexact_binary128 (g : mcalib) (qa : spec_float)
    (context : t_context) (rng_state : rng) : spec_float * rng :=
  _INEXACT g binary128 qa (MCALIB_BINARY64_T g) context rng_state.

(** The function is chosen depending on the working type. *)
Definition _INEXACT_BINARYN (g : mcalib) (W : format) (A : spec_float)
    (CTX : t_context) (rng_state : rng) : spec_float * rng :=
  if prec W =? prec binary64 then _mca_inexact_binary64 g A CTX rng_state
  else _mca_inexact_binary128 g A CTX rng_state.

(** *** MCA arithmetic functions *)

(** Applies the binary operator (op) to (a) and (b) at the width [W]. *)
Definition PERFORM_BIN_OP (W : format) (OP : mca_operations)
    (A B : spec_float) : spec_float :=
  match OP with
  | mca_add => fadd W A B
  | mca_mul => fmul W A B
  | mca_sub => fsub W A B
  | mca_div => fdiv W A B
  end.

(** Generic function that returns mca(A OP B): [T] is the type of the
    operands and of the result, [W] the type of the intermediate
    computations. *)
Definition _MCA_BINARY_OP (g : mcalib) (T W : format) (A B : spec_float)
    (OP : mca_operations) (CTX : t_context) (rng_state : rng)
    : spec_float * rng :=
  let _A := cast W A in
  let _B := cast W B in
  let '(_A, _B) :=
    if daz CTX then (cast W (DAZ T A), cast W (DAZ T B)) else (_A, _B) in
  let '(_A, _B, rng_state) :=
    if mcamode_eqb (MCALIB_MODE g) mcamode_pb
       || mcamode_eqb (MCALIB_MODE g) mcamode_mca
    then
      let '(_A, rng_state) := _INEXACT_BINARYN g W _A CTX rng_state in
      let '(_B, rng_state) := _INEXACT_BINARYN g W _B CTX rng_state in
      (_A, _B, rng_state)
    else (_A, _B, rng_state) in
  let _RES := PERFORM_BIN_OP W OP _A _B in
  let '(_RES, rng_state) :=
    if mcamode_eqb (MCALIB_MODE g) mcamode_rr
       || mcamode_eqb (MCALIB_MODE g) mcamode_mca
    then _INEXACT_BINARYN g W _RES CTX rng_state
    else (_RES, rng_state) in
  let _RES := if ftz CTX then cast W (FTZ T (cast T _RES)) else _RES in
  (cast T _RES, rng_state).

(** Performs mca(a dop b) where a and b are binary32 values; intermediate
    computations are performed with binary64. *)
Definition _mca_binary32_binary_op (g : mcalib) (a b : spec_float)
    (dop : mca_operations) (context : t_context) (rng_state : rng)
    : spec_float * rng :=
  _MCA_BINARY_OP g binary32 binary64 a b dop context rng_state.

(** Performs mca(a qop b) where a and b are binary64 values; intermediate
    computations are performed with binary128. *)
Definition _mca_binary64_binary_op (g : mcalib) (a b : spec_float)
    (qop : mca_operations) (context : t_context) (rng_state : rng)
    : spec_float * rng :=
  _MCA_BINARY_OP g binary64 binary128 a b qop context rng_state.

(** *** The user-call hook *)

Inductive FTYPES := FFLOAT | FDOUBLE | FQUAD | FTYPES_END.

(** [value] is the content of the cell the pointer argument designates;
    the function returns its new content.  When _FAST_INEXACT returns
    early, the cell is not written. *)
Definition _interflop_usercall_inexact (g : mcalib) (context : t_context)
    (ftype : FTYPES) (value : spec_float) (precision : Z) (rng_state : rng)
    : spec_float * rng :=
  match ftype with
  | FFLOAT =>
      let xd := cast binary64 value in
      let t := if precision <=? 0 then MCALIB_BINARY32_T g + precision
               else precision in
      if _IS_IEEE_MODE g || _IS_NOT_NORMAL_OR_SUBNORMAL binary64 xd
      then (value, rng_state)
      else
        let '(xd, rng_state) :=
          _FAST_INEXACT g binary64 xd t context rng_state in
        (cast binary32 xd, rng_state)
  | FDOUBLE =>
      let xq := cast binary128 value in
      let t := if precision <=? 0 then MCALIB_BINARY64_T g + precision
               else precision in
      if _IS_IEEE_MODE g || _IS_NOT_NORMAL_OR_SUBNORMAL binary128 xq
      then (value, rng_state)
      else
        let '(xq, rng_state) :=
          _FAST_INEXACT g binary128 xq t context rng_state in
        (cast binary64 xq, rng_state)
  | FQUAD =>
      let xq := value in
      if _IS_IEEE_MODE g || _IS_NOT_NORMAL_OR_SUBNORMAL binary128 xq
      then (value, rng_state)
      else
        let '(xq, rng_state) :=
          _FAST_INEXACT g binary128 xq precision context rng_state in
        (xq, rng_state)
  | FTYPES_END =>
      (* logger_warning "Uknown type passed to _interflop_usercall_inexact function" *)
      (value, rng_state)
  end.

(** The arguments of a user call, after the identifier. *)
Inductive user_call :=
  | INTERFLOP_INEXACT_ID (ftype : FTYPES) (value : spec_float) (precision : Z)
  | INTERFLOP_SET_PRECISION_BINARY32 (precision : Z)
  | INTERFLOP_SET_PRECISION_BINARY64 (precision : Z)
  | INTERFLOP_OTHER_ID (id : Z).

(** Returns the file-scope variables, the content of the designated cell
    (if any) and the generator state after the call. *)
Definition _interflop_user_call (g : mcalib) (context : t_context)
    (call : user_call) (rng_state : rng)
    : outcome (mcalib * option spec_float * rng) :=
  match call with
  | INTERFLOP_INEXACT_ID ftype value precision =>
      let '(v, rng_state) :=
        _interflop_usercall_inexact g context ftype value precision rng_state in
      Ok (g, Some v, rng_state)
  | INTERFLOP_SET_PRECISION_BINARY32 precision =>
      g <- _set_mca_precision_binary32 g precision ;;
      Ok (g, None, rng_state)
  | INTERFLOP_SET_PRECISION_BINARY64 precision =>
      g <- _set_mca_precision_binary64 g precision ;;
      Ok (g, None, rng_state)
  | INTERFLOP_OTHER_ID id =>
      (* logger_warning "Unknown interflop_call id" *)
      Ok (g, None, rng_state)
  end.

End WithGen.

(** *** Options *)

Inductive key_args :=
  | KEY_PREC_B32
  | KEY_PREC_B64
  | KEY_ERR_EXP
  | KEY_MODE
  | KEY_ERR_MODE
  | KEY_SEED
  | KEY_DAZ
  | KEY_FTZ
  | KEY_SPARSITY
  | KEY_OTHER (key : Z).

Definition ARGP_ERR_UNKNOWN : Z := 7.

Definition set_err_mode (ctx : t_context) (rel abs : bool) : t_context :=
  {| relErr := rel; absErr := abs; absErr_exp := absErr_exp ctx;
     choose_seed := choose_seed ctx; seed := seed ctx; daz := daz ctx;
     ftz := ftz ctx; sparsity := sparsity ctx |}.

Definition set_absErr_exp (ctx : t_context) (e : Z) : t_context :=
  {| relErr := relErr ctx; absErr := absErr ctx; absErr_exp := e;
     choose_seed := choose_seed ctx; seed := seed ctx; daz := daz ctx;
     ftz := ftz ctx; sparsity := sparsity ctx |}.

Definition set_seed (ctx : t_context) (s : Z) : t_context :=
  {| relErr := relErr ctx; absErr := absErr ctx; absErr_exp := absErr_exp ctx;
     choose_seed := true; seed := s; daz := daz ctx;
     ftz := ftz ctx; sparsity := sparsity ctx |}.

Definition set_daz (ctx : t_context) : t_context :=
  {| relErr := relErr ctx; absErr := absErr ctx; absErr_exp := absErr_exp ctx;
     choose_seed := choose_seed ctx; seed := seed ctx; daz := true;
     ftz := ftz ctx; sparsity := sparsity ctx |}.

Definition set_ftz (ctx : t_context) : t_context :=
  {| relErr := relErr ctx; absErr := absErr ctx; absErr_exp := absErr_exp ctx;
     choose_seed := choose_seed ctx; seed := seed ctx; daz := daz ctx;
     ftz := true; sparsity := sparsity ctx |}.

Definition set_sparsity (ctx : t_context) (s : spec_float) : t_context :=
  {| relErr := relErr ctx; absErr := absErr ctx; absErr_exp := absErr_exp ctx;
     choose_seed := choose_seed ctx; seed := seed ctx; daz := daz ctx;
     ftz := ftz ctx; sparsity := s |}.

Definition errno_set (e : Libc.errno_t) : bool :=
  match e with Libc.ENONE => false | _ => true end.

(** The option callback: the integer returned to argp, the context and the
    file-scope variables after the call, or a fatal error. *)
Definition parse_opt (key : key_args) (arg : string) (ctx : t_context)
    (g : mcalib) : outcome (Z * t_context * mcalib) :=
  match key with
  | KEY_PREC_B32 =>
      (* precision for binary32 *)
      let '(v, endptr, errno) := Libc.strtol arg in
      let val := Libc.int_of_long v in
      if errno_set errno || (val <=? 0)
      then logger_error "--precision-binary32 invalid value provided, must be a positive integer"
      else g <- _set_mca_precision_binary32 g val ;; Ok (0, ctx, g)
  | KEY_PREC_B64 =>
      (* precision for binary64 *)
      let '(v, endptr, errno) := Libc.strtol arg in
      let val := Libc.int_of_long v in
      if errno_set errno || (val <=? 0)
      then logger_error "--precision-binary64 invalid value provided, must be a positive integer"
      else g <- _set_mca_precision_binary64 g val ;; Ok (0, ctx, g)
  | KEY_MODE =>
      (* mca mode *)
      if Libc.strcasecmp_eq "ieee" arg then
        g <- _set_mca_mode g mcamode_ieee ;; Ok (0, ctx, g)
      else if Libc.strcasecmp_eq "mca" arg then
        g <- _set_mca_mode g mcamode_mca ;; Ok (0, ctx, g)
      else if Libc.strcasecmp_eq "pb" arg then
        g <- _set_mca_mode g mcamode_pb ;; Ok (0, ctx, g)
      else if Libc.strcasecmp_eq "rr" arg then
        g <- _set_mca_mode g mcamode_rr ;; Ok (0, ctx, g)
      else logger_error "--mode invalid value provided, must be one of: {ieee, mca, pb, rr}."
  | KEY_ERR_MODE =>
      (* mca error mode *)
      if Libc.strcasecmp_eq "rel" arg then Ok (0, set_err_mode ctx true false, g)
      else if Libc.strcasecmp_eq "abs" arg then Ok (0, set_err_mode ctx false true, g)
      else if Libc.strcasecmp_eq "all" arg then Ok (0, set_err_mode ctx true true, g)
      else logger_error "--error-mode invalid value provided, must be one of: {rel, abs, all}."
  | KEY_ERR_EXP =>
      (* exponent of the maximum absolute error *)
      let '(v, endptr, errno) := Libc.strtol arg in
      let ctx := set_absErr_exp ctx (Libc.int_of_long v) in
      if errno_set errno
      then logger_error "--max-abs-error-exponent invalid value provided, must be an integer"
      else Ok (0, ctx, g)
  | KEY_SEED =>
      (* seed *)
      let '(v, endptr, errno) := Libc.strtoull arg in
      let ctx := set_seed ctx v in
      if errno_set errno
      then logger_error "--seed invalid value provided, must be an integer"
      else Ok (0, ctx, g)
  | KEY_DAZ =>
      (* denormals-are-zero *)
      Ok (0, set_daz ctx, g)
  | KEY_FTZ =>
      (* flush-to-zero *)
      Ok (0, set_ftz ctx, g)
  | KEY_SPARSITY =>
      (* sparse perturbations *)
      let '(v, endptr, errno) := Libc.strtof arg in
      let ctx := set_sparsity ctx v in
      let errno :=
        if SFleb (sparsity ctx) (S754_zero false) then Libc.EOTHER else errno in
      if errno_set errno
      then logger_error "--sparsity invalid value provided, must be positive"
      else Ok (0, ctx, g)
  | KEY_OTHER _ => Ok (ARGP_ERR_UNKNOWN, ctx, g)
  end.

Definition init_context : t_context :=
  {| relErr := true; absErr := false; absErr_exp := 112;
     choose_seed := false; seed := 0; daz := false; ftz := false;
     sparsity := cast binary32 (S754_finite false 1 0) |}.

(** [argp_parse] hands each option of the command line to [parse_opt] in
    order; an option the callback does not know ends the process. *)
Fixpoint argp_parse (argv : list (key_args * string)) (ctx : t_context)
    (g : mcalib) : outcome (t_context * mcalib) :=
  match argv with
  | [] => Ok (ctx, g)
  | (key, arg) :: rest =>
      r <- parse_opt key arg ctx g ;;
      let '(err, ctx, g) := r in
      if err =? 0 then argp_parse rest ctx g
      else Fatal "unrecognized option"
  end.

Section WithGenInit.
Context {G : Type} `{UniformGen G}.

(** Initialisation of the backend: the context, the file-scope variables
    and the (not yet seeded) generator state of the calling thread. *)
Definition interflop_init (argv : list (key_args * string))
    (rng_state : rng_state_t G)
    : outcome (t_context * mcalib * rng_state_t G) :=
  g <- _set_mca_precision_binary32 mcalib_static MCA_PRECISION_BINARY32_DEFAULT ;;
  g <- _set_mca_precision_binary64 g MCA_PRECISION_BINARY64_DEFAULT ;;
  g <- _set_mca_mode g MCA_MODE_DEFAULT ;;
  let ctx := init_context in
  (* Parse backend arguments *)
  r <- argp_parse argv ctx g ;;
  let '(ctx, g) := r in
  (* The seed for the RNG is initialized upon the first request for a
     random number *)
  Ok (ctx, g, _init_rng_state_struct rng_state (choose_seed ctx) (seed ctx) false).

End WithGenInit.
End Mca.

(** * Rounding to nearest even on integers

    A positive dyadic number is handled as an integer [X], standing for
    [X * 2^c] at a fixed scale [c] not above the smallest exponent of the
    format.  The section relates [binary_round] of the standard library to
    an integer rounding function and proves that rounding is bracketed by
    the members of the format. *)

Module Rounding.

(** Round to nearest, ties to even, of [m / 2^n]. *)
Definition rne (m n : Z) : Z :=
  let q := m / 2 ^ n in
  match 2 * (m mod 2 ^ n) ?= 2 ^ n with
  | Lt => q
  | Gt => q + 1
  | Eq => if Z.even q then q else q + 1
  end.

Lemma digits2_pos_size p : digits2_pos p = Pos.size p.
Proof. induction p; simpl; congruence. Qed.

Lemma digits2_pos_log2 p : Zpos (digits2_pos p) = Z.log2 (Zpos p) + 1.
Proof.
  rewrite digits2_pos_size.
  destruct p; simpl; try reflexivity; rewrite Pos.add_1_r; reflexivity.
Qed.

Lemma Zdigits2_log2 m : 0 < m -> Zdigits2 m = Z.log2 m + 1.
Proof.
  destruct m; try lia. intros _. apply digits2_pos_log2.
Qed.

Lemma iter_pos_nat {A} (f : A -> A) p x :
  iter_pos f p x = Nat.iter (Pos.to_nat p) f x.
Proof.
  revert x. induction p; intros x; cbn [iter_pos].
  - rewrite !IHp. rewrite Pos2Nat.inj_xI.
    replace (S (2 * Pos.to_nat p)) with (Pos.to_nat p + S (Pos.to_nat p))%nat by lia.
    rewrite Nat.iter_add. f_equal. simpl. rewrite Nat.iter_swap. reflexivity.
  - rewrite !IHp. rewrite Pos2Nat.inj_xO.
    replace (2 * Pos.to_nat p)%nat with (Pos.to_nat p + Pos.to_nat p)%nat by lia.
    rewrite Nat.iter_add. reflexivity.
  - reflexivity.
Qed.

Lemma shr_1_nonneg m r s :
  0 <= m ->
  shr_1 (Build_shr_record m r s) = Build_shr_record (m / 2) (Z.odd m) (r || s).
Proof.
  intros Hm. rewrite <- Z.div2_div.
  destruct m as [|p|p]; try lia; [reflexivity|].
  destruct p; reflexivity.
Qed.

Lemma shr_iter k : forall m r s,
  0 <= m ->
  Nat.iter (S k) shr_1 (Build_shr_record m r s)
  = Build_shr_record (m / 2 ^ Z.of_nat (S k)) (Z.testbit m (Z.of_nat k))
      (r || s || negb (m mod 2 ^ Z.of_nat k =? 0)).
Proof.
  induction k; intros m r s Hm.
  - unfold Nat.iter; cbn [nat_rect]. rewrite shr_1_nonneg by assumption.
    change (Z.of_nat 0) with 0. change (Z.of_nat 1) with 1.
    rewrite Z.pow_0_r, Z.pow_1_r, Z.mod_1_r, Z.bit0_odd. simpl.
    rewrite orb_false_r. reflexivity.
  - rewrite Nat.iter_succ_r. rewrite shr_1_nonneg by assumption.
    rewrite IHk by (apply Z.div_pos; lia).
    f_equal.
    + rewrite Z.div_div by lia. f_equal.
      rewrite (Nat2Z.inj_succ (S k)), Z.pow_succ_r by lia. reflexivity.
    + rewrite (Nat2Z.inj_succ k). apply Z.div2_bits. lia.
    + rewrite (Nat2Z.inj_succ k), Z.pow_succ_r by lia.
      rewrite Z.rem_mul_r by lia.
      rewrite Zodd_mod.
      assert (H2 : 0 <= m mod 2 < 2) by (apply Z.mod_pos_bound; lia).
      assert (Hk : 0 <= (m / 2) mod 2 ^ Z.of_nat k).
      { apply Z.mod_pos_bound. lia. }
      destruct (Z.eqb_spec (m mod 2) 1); destruct (Z.eqb_spec ((m / 2) mod 2 ^ Z.of_nat k) 0);
        destruct (Z.eqb_spec (m mod 2 + 2 * ((m / 2) mod 2 ^ Z.of_nat k)) 0);
        destruct r, s; simpl; try reflexivity; try lia.
Qed.


Lemma rne_0 m : rne m 0 = m.
Proof.
  unfold rne. rewrite Z.pow_0_r, Z.mod_1_r, Z.div_1_r. reflexivity.
Qed.

Lemma shr_exact m e n :
  0 <= m -> 0 < n ->
  shr (Build_shr_record m false false) e n
  = (Build_shr_record (m / 2 ^ n) (Z.testbit m (n - 1))
       (negb (m mod 2 ^ (n - 1) =? 0)), e + n).
Proof.
  intros Hm Hn. destruct n as [|p|p]; try lia.
  unfold shr. rewrite iter_pos_nat.
  destruct (Pos.to_nat p) as [|k] eqn:Ek; [lia|].
  rewrite shr_iter by assumption.
  assert (Hp : Z.pos p = Z.of_nat (S k)) by lia.
  rewrite Hp. replace (Z.of_nat (S k) - 1) with (Z.of_nat k) by lia.
  reflexivity.
Qed.

Lemma round_loc m n :
  0 <= m -> 0 < n ->
  round_nearest_even (m / 2 ^ n)
    (loc_of_shr_record
       (Build_shr_record (m / 2 ^ n) (Z.testbit m (n - 1))
          (negb (m mod 2 ^ (n - 1) =? 0))))
  = rne m n.
Proof.
  intros Hm Hn. unfold rne.
  assert (Hpow : 2 ^ n = 2 ^ (n - 1) * 2).
  { replace n with (Z.succ (n - 1)) at 1 by lia. rewrite Z.pow_succ_r; lia. }
  assert (Hpos : 0 < 2 ^ (n - 1)) by (apply Z.pow_pos_nonneg; lia).
  assert (Hmod : m mod 2 ^ n
                 = m mod 2 ^ (n - 1) + 2 ^ (n - 1) * ((m / 2 ^ (n - 1)) mod 2)).
  { rewrite Hpow. apply Z.rem_mul_r; lia. }
  assert (Hlow : 0 <= m mod 2 ^ (n - 1) < 2 ^ (n - 1))
    by (apply Z.mod_pos_bound; lia).
  assert (Hbit : 0 <= (m / 2 ^ (n - 1)) mod 2 < 2)
    by (apply Z.mod_pos_bound; lia).
  destruct (Z.testbit m (n - 1)) eqn:Eb.
  - apply Z.testbit_true in Eb; [|lia].
    destruct (Z.eqb_spec (m mod 2 ^ (n - 1)) 0) as [E0|E0].
    + replace (2 * (m mod 2 ^ n) ?= 2 ^ n) with Eq; [reflexivity|].
      symmetry. apply Z.compare_eq_iff. nia.
    + replace (2 * (m mod 2 ^ n) ?= 2 ^ n) with Gt; [reflexivity|].
      symmetry. apply Z.compare_gt_iff. nia.
  - apply Z.testbit_false in Eb; [|lia].
    replace (2 * (m mod 2 ^ n) ?= 2 ^ n) with Lt.
    + destruct (Z.eqb_spec (m mod 2 ^ (n - 1)) 0); reflexivity.
    + symmetry. apply Z.compare_lt_iff. nia.
Qed.

Lemma rne_bounds m n : m / 2 ^ n <= rne m n <= m / 2 ^ n + 1.
Proof.
  unfold rne. destruct (_ ?= _); [destruct (Z.even _)| |]; lia.
Qed.

Lemma rne_nonneg m n : 0 <= m -> 0 <= rne m n.
Proof.
  intros Hm. pose proof (rne_bounds m n).
  destruct (Z.le_gt_cases 0 n) as [Hn|Hn].
  - assert (0 <= m / 2 ^ n) by (apply Z.div_pos; [lia | apply Z.pow_pos_nonneg; lia]).
    lia.
  - rewrite Z.pow_neg_r in H by lia. rewrite Z.div_0_r in H. lia.
Qed.

Lemma rne_shift m n k :
  0 <= n -> 0 <= k -> rne (m * 2 ^ k) (n + k) = rne m n.
Proof.
  intros Hn Hk. unfold rne.
  assert (Hn2 : 0 < 2 ^ n) by (apply Z.pow_pos_nonneg; lia).
  assert (Hk2 : 0 < 2 ^ k) by (apply Z.pow_pos_nonneg; lia).
  rewrite Z.pow_add_r by lia.
  rewrite Z.div_mul_cancel_r by lia.
  rewrite Z.mul_mod_distr_r by lia.
  rewrite Z.mul_assoc, <- Zmult_compare_compat_r by lia.
  reflexivity.
Qed.

Lemma rne_exact a n : 0 <= n -> rne (a * 2 ^ n) n = a.
Proof.
  intros Hn. pose proof (rne_shift a 0 n) as H. rewrite Z.add_0_l in H.
  rewrite H by lia. apply rne_0.
Qed.

Lemma iter_xO m d : Zpos (Pos.iter xO m d) = Zpos m * 2 ^ Zpos d.
Proof.
  induction d using Pos.peano_ind.
  - simpl. lia.
  - rewrite Pos.iter_succ, Pos2Z.inj_xO, IHd.
    rewrite Pos2Z.inj_succ, Z.pow_succ_r by lia. lia.
Qed.

Lemma log2_lower m : 0 < m -> 2 ^ Z.log2 m <= m < 2 ^ (Z.log2 m + 1).
Proof.
  intros Hm. pose proof (Z.log2_spec m Hm). unfold Z.succ in H. exact H.
Qed.

Section Format.
Variables prec emax : Z.

Local Abbreviation fexp := (SpecFloat.fexp prec emax).
Local Abbreviation emin := (SpecFloat.emin prec emax).

(** What [binary_round_aux] does with an exact mantissa whose exponent is
    not above the one of its format. *)
Lemma binary_round_aux_exact s m e :
  0 <= m ->
  let E := fexp (Zdigits2 m + e) in
  e <= E ->
  binary_round_aux prec emax s m e loc_Exact =
  let q := rne m (E - e) in
  let n2 := fexp (Zdigits2 q + E) - E in
  match (if 0 <? n2 then q / 2 ^ n2 else q) with
  | Z0 => S754_zero s
  | Zpos m' =>
      if E + Z.max 0 n2 <=? emax - prec
      then S754_finite s m' (E + Z.max 0 n2)
      else S754_infinity s
  | Zneg _ => S754_nan
  end.
Proof.
  intros Hm E HE. unfold binary_round_aux.
  assert (H1 : shr_fexp prec emax m e loc_Exact
               = (if 0 <? E - e
                  then Build_shr_record (m / 2 ^ (E - e)) (Z.testbit m (E - e - 1))
                         (negb (m mod 2 ^ (E - e - 1) =? 0))
                  else Build_shr_record m false false, E)).
  { unfold shr_fexp. fold E. simpl shr_record_of_loc.
    destruct (Z.ltb_spec 0 (E - e)) as [Hlt|Hge].
    - rewrite shr_exact by assumption. f_equal. lia.
    - replace (E - e) with 0 by lia. simpl. f_equal. lia. }
  rewrite H1. clear H1.
  assert (H2 : round_nearest_even
                 (shr_m (if 0 <? E - e
                  then Build_shr_record (m / 2 ^ (E - e)) (Z.testbit m (E - e - 1))
                         (negb (m mod 2 ^ (E - e - 1) =? 0))
                  else Build_shr_record m false false))
                 (loc_of_shr_record (if 0 <? E - e
                  then Build_shr_record (m / 2 ^ (E - e)) (Z.testbit m (E - e - 1))
                         (negb (m mod 2 ^ (E - e - 1) =? 0))
                  else Build_shr_record m false false))
               = rne m (E - e)).
  { destruct (Z.ltb_spec 0 (E - e)) as [Hlt|Hge].
    - simpl shr_m. apply round_loc; assumption.
    - replace (E - e) with 0 by lia. rewrite rne_0. reflexivity. }
  rewrite H2. clear H2.
  set (q := rne m (E - e)).
  assert (Hq : 0 <= q).
  { unfold q, rne.
    assert (0 <= m / 2 ^ (E - e)) by (apply Z.div_pos; [lia | apply Z.pow_pos_nonneg; lia]).
    destruct (_ ?= _); [destruct (Z.even _)| |]; lia. }
  cbv zeta.
  set (n2 := fexp (Zdigits2 q + E) - E).
  unfold shr_fexp. fold n2. simpl shr_record_of_loc.
  destruct (Z.ltb_spec 0 n2) as [Hlt|Hge].
  - rewrite shr_exact by assumption. simpl shr_m.
    replace (Z.max 0 n2) with n2 by lia. reflexivity.
  - replace (Z.max 0 n2) with 0 by lia. rewrite Z.add_0_r.
    destruct n2; try lia; reflexivity.
Qed.


Hypothesis prec_pos : 0 < prec.

(** The exponent of the last place of a positive dyadic [X * 2^c]. *)
Definition zexp (c X : Z) : Z := fexp (Z.log2 X + 1 + c).

(** Rounding to nearest even of [X * 2^c] in the format, as a multiple of
    [2^c]. *)
Definition RNz (c X : Z) : Z :=
  let n := zexp c X - c in rne X n * 2 ^ n.

(** The float of sign [s] and magnitude [Y * 2^c], for [Y] on the grid of
    the format. *)
Definition SFofZ (s : bool) (c Y : Z) : spec_float :=
  if Y =? 0 then S754_zero s
  else if zexp c Y <=? emax - prec
       then S754_finite s (Z.to_pos (Y / 2 ^ (zexp c Y - c))) (zexp c Y)
       else S754_infinity s.

Lemma fexp_ge_emin e : emin <= fexp e.
Proof. unfold SpecFloat.fexp. lia. Qed.

Lemma fexp_mono a b : a <= b -> fexp a <= fexp b.
Proof. unfold SpecFloat.fexp. lia. Qed.

Lemma binary_round_eq s m e c :
  c <= e -> c <= emin ->
  binary_round prec emax s m e = SFofZ s c (RNz c (Zpos m * 2 ^ (e - c))).
Proof.
  intros Hce Hcm.
  set (k := e - c). set (X := Zpos m * 2 ^ k).
  assert (Hk2 : 0 < 2 ^ k) by (apply Z.pow_pos_nonneg; lia).
  assert (HX : 0 < X) by (unfold X; lia).
  assert (HlogX : Z.log2 X = k + Z.log2 (Zpos m)).
  { unfold X. apply Z.log2_mul_pow2; lia. }
  set (E := fexp (Zpos (digits2_pos m) + e)).
  assert (HzX : zexp c X = E).
  { unfold zexp, E. f_equal. rewrite HlogX, digits2_pos_log2. lia. }
  assert (HE : emin <= E) by apply fexp_ge_emin.
  unfold binary_round. fold E.
  unfold RNz. rewrite HzX.
  set (n := E - c). assert (Hn : 0 <= n) by lia.
  unfold shl_align.
  destruct (E - e) as [|d|d] eqn:Ed.
  - (* the mantissa is already at the exponent of the format *)
    assert (Ee : E = e) by lia.
    pose proof (binary_round_aux_exact s (Zpos m) e) as B.
    cbv zeta in B. change (Zdigits2 (Zpos m)) with (Zpos (digits2_pos m)) in B.
    fold E in B. rewrite B by lia. clear B.
    replace (E - e) with 0 by lia. rewrite rne_0.
    change (Zdigits2 (Zpos m)) with (Zpos (digits2_pos m)).
    assert (HEE : fexp (Zpos (digits2_pos m) + E) = E).
    { replace (Zpos (digits2_pos m) + E) with (Zpos (digits2_pos m) + e) by lia.
      reflexivity. }
    rewrite HEE, Z.sub_diag. simpl (0 <? 0).
    cbv iota. rewrite Z.add_0_r.
    replace n with k by lia. unfold X. rewrite rne_exact by lia.
    fold X. unfold SFofZ. rewrite HzX.
    destruct (Z.eqb_spec X 0); [lia|].
    replace (E - c) with k by lia. unfold X. rewrite Z.div_mul by lia.
    reflexivity.
  - (* rounding *)
    pose proof (binary_round_aux_exact s (Zpos m) e) as B.
    cbv zeta in B. change (Zdigits2 (Zpos m)) with (Zpos (digits2_pos m)) in B.
    fold E in B. rewrite B by lia. clear B.
    rewrite Ed.
    assert (Hq : rne X n = rne (Zpos m) (Zpos d)).
    { unfold X. replace n with (Zpos d + k) by lia. apply rne_shift; lia. }
    rewrite Hq. set (q := rne (Zpos m) (Zpos d)).
    assert (Hq0 : 0 <= q) by (apply rne_nonneg; lia).
    assert (Hn2 : 0 < 2 ^ n) by (apply Z.pow_pos_nonneg; lia).
    destruct (Z.eqb_spec q 0) as [Eq0|Nq0].
    + rewrite Eq0. simpl (0 * _). unfold SFofZ. simpl (0 =? 0).
      destruct (0 <? _); reflexivity.
    + assert (Hqpos : 0 < q) by lia.
      rewrite (Zdigits2_log2 q Hqpos).
      set (E' := fexp (Z.log2 q + 1 + E)).
      assert (HzY : zexp c (q * 2 ^ n) = E').
      { unfold zexp, E'. f_equal. rewrite Z.log2_mul_pow2 by lia. lia. }
      (* the second shift is not negative *)
      assert (HE' : E <= E').
      { unfold E'. destruct (Z.eq_dec E emin) as [Em|Em].
        - rewrite Em. apply fexp_ge_emin.
        - assert (Edp : E = Zpos (digits2_pos m) + e - prec)
            by (unfold E, SpecFloat.fexp in *; lia).
          rewrite digits2_pos_log2 in Edp.
          assert (Hd : Zpos d = Z.log2 (Zpos m) + 1 - prec) by lia.
          assert (Hfl : 2 ^ (Z.log2 (Zpos m) - Zpos d) <= q).
          { pose proof (rne_bounds (Zpos m) (Zpos d)). fold q in H.
            pose proof (log2_lower (Zpos m) ltac:(lia)) as [Hl _].
            apply Z.le_trans with (Zpos m / 2 ^ Zpos d); [|lia].
            replace (Z.log2 (Zpos m)) with (Z.log2 (Zpos m) - Zpos d + Zpos d) in Hl
              at 1 by lia.
            rewrite Z.pow_add_r in Hl by lia.
            apply Z.div_le_lower_bound; [apply Z.pow_pos_nonneg; lia | lia]. }
          assert (Hlq : Z.log2 (Zpos m) - Zpos d <= Z.log2 q).
          { apply Z.log2_le_pow2; [lia | exact Hfl]. }
          apply Z.le_trans with (fexp (Z.log2 (Zpos m) + 1 + e)).
          + unfold E. rewrite digits2_pos_log2. apply Z.le_refl.
          + apply fexp_mono. lia. }
      (* and it keeps the mantissa positive *)
      assert (Hm'' : 0 < q / 2 ^ (E' - E)).
      { apply Z.div_str_pos. split; [apply Z.pow_pos_nonneg; lia|].
        destruct (Z.eq_dec E' emin) as [Em|Em].
        - replace (E' - E) with 0 by lia. simpl. lia.
        - assert (E'q : E' = Z.log2 q + 1 + E - prec)
            by (unfold E', SpecFloat.fexp in *; lia).
          pose proof (log2_lower q Hqpos) as [Hl _].
          apply Z.le_trans with (2 ^ Z.log2 q); [|exact Hl].
          apply Z.pow_le_mono_r; lia. }
      unfold SFofZ. rewrite HzY.
      destruct (Z.eqb_spec (q * 2 ^ n) 0) as [Y0|_]; [nia|].
      replace (q * 2 ^ n / 2 ^ (E' - c)) with (q / 2 ^ (E' - E)).
      2:{ replace (E' - c) with (E' - E + n) by lia.
          rewrite Z.pow_add_r by lia.
          rewrite Z.div_mul_cancel_r; [reflexivity | | lia].
          apply Z.pow_nonzero; lia. }
      replace (E + Z.max 0 (E' - E)) with E' by lia.
      destruct (Z.ltb_spec 0 (E' - E)) as [Hlt|Hge].
      * destruct (q / 2 ^ (E' - E)) eqn:Em; try lia. reflexivity.
      * replace (E' - E) with 0 in * by lia.
        rewrite Z.pow_0_r, Z.div_1_r in *.
        destruct q; try lia. reflexivity.
  - (* the mantissa is shifted left to the exponent of the format *)
    assert (HEl : fexp (Z.log2 (Zpos m) + 1 + e) = E)
      by (unfold E; rewrite digits2_pos_log2; reflexivity).
    assert (Hdig : fexp (Zdigits2 (Zpos (Pos.iter xO m d)) + E) = E).
    { change (Zdigits2 (Zpos (Pos.iter xO m d))) with
          (Zpos (digits2_pos (Pos.iter xO m d))).
      rewrite digits2_pos_log2, iter_xO, Z.log2_mul_pow2 by lia.
      rewrite <- HEl at 2. f_equal. lia. }
    rewrite binary_round_aux_exact; [| lia | rewrite Hdig; lia].
    cbv zeta.
    rewrite Hdig, Z.sub_diag, rne_0, Hdig, Z.sub_diag. simpl (0 <? 0).
    cbv iota. rewrite Z.add_0_r.
    assert (HXm : X = Zpos (Pos.iter xO m d) * 2 ^ n).
    { unfold X. rewrite iter_xO. rewrite <- Z.mul_assoc, <- Z.pow_add_r by lia.
      f_equal. f_equal. lia. }
    rewrite HXm at 1. rewrite rne_exact by lia. rewrite <- HXm.
    unfold SFofZ. rewrite HzX.
    destruct (Z.eqb_spec X 0); [lia|].
    fold n. rewrite HXm, Z.div_mul by (apply Z.pow_nonzero; lia).
    reflexivity.
Qed.


(** [X * 2^c] is a multiple of the last place of its binade. *)
Definition on_grid (c X : Z) : Prop := X mod 2 ^ (zexp c X - c) = 0.

Lemma zexp_ge c X : c <= emin -> 0 <= zexp c X - c.
Proof. intros Hc. unfold zexp. pose proof (fexp_ge_emin (Z.log2 X + 1 + c)). lia. Qed.

Lemma zexp_mono c X Y : Z.log2 X <= Z.log2 Y -> zexp c X <= zexp c Y.
Proof. intros H. unfold zexp. apply fexp_mono. lia. Qed.

Lemma rne_le_of_le X a n : 0 <= n -> X <= a * 2 ^ n -> rne X n <= a.
Proof.
  intros Hn H.
  assert (Hp : 0 < 2 ^ n) by (apply Z.pow_pos_nonneg; lia).
  destruct (Z.lt_ge_cases (X / 2 ^ n) a) as [Hlt|Hge].
  - pose proof (rne_bounds X n). lia.
  - assert (HX : X = a * 2 ^ n).
    { pose proof (Z.mul_div_le X (2 ^ n) Hp). nia. }
    rewrite HX, rne_exact by lia. lia.
Qed.

Lemma rne_ge_of_ge X a n : 0 <= n -> a * 2 ^ n <= X -> a <= rne X n.
Proof.
  intros Hn H.
  assert (Hp : 0 < 2 ^ n) by (apply Z.pow_pos_nonneg; lia).
  pose proof (rne_bounds X n).
  assert (a <= X / 2 ^ n) by (apply Z.div_le_lower_bound; lia).
  lia.
Qed.

Lemma RNz_on_grid c X : c <= emin -> on_grid c X -> RNz c X = X.
Proof.
  intros Hc Hg. unfold RNz, on_grid in *. cbv zeta.
  pose proof (zexp_ge c X Hc) as Hn.
  set (n := zexp c X - c) in *.
  assert (Hp : 0 < 2 ^ n) by (apply Z.pow_pos_nonneg; lia).
  assert (HX : X = X / 2 ^ n * 2 ^ n).
  { pose proof (Z.div_mod X (2 ^ n) ltac:(lia)). lia. }
  rewrite HX at 1. rewrite rne_exact by lia. lia.
Qed.

Lemma RNz_ge c F X :
  c <= emin -> 0 < F -> F <= X -> on_grid c F -> F <= RNz c X.
Proof.
  intros Hc HF HFX Hg. unfold RNz. cbv zeta.
  pose proof (zexp_ge c X Hc) as Hn. pose proof (zexp_ge c F Hc) as HnF.
  assert (HL : Z.log2 F <= Z.log2 X) by (apply Z.log2_le_mono; lia).
  pose proof (zexp_mono c F X HL) as Hmono.
  unfold on_grid in Hg.
  set (n := zexp c X - c) in *. set (nF := zexp c F - c) in *.
  assert (Hp : 0 < 2 ^ n) by (apply Z.pow_pos_nonneg; lia).
  assert (HpF : 0 < 2 ^ nF) by (apply Z.pow_pos_nonneg; lia).
  assert (HFm : F = F / 2 ^ nF * 2 ^ nF).
  { pose proof (Z.div_mod F (2 ^ nF) ltac:(lia)). lia. }
  pose proof (log2_lower F HF) as [HF1 HF2].
  pose proof (log2_lower X ltac:(lia)) as [HX1 HX2].
  destruct (Z.eq_dec (Z.log2 F) (Z.log2 X)) as [El|Nl].
  - assert (En : nF = n) by (unfold nF, n, zexp; rewrite El; reflexivity).
    rewrite En in HFm.
    assert (F / 2 ^ n <= rne X n) by (apply rne_ge_of_ge; lia).
    nia.
  - assert (Hlt : Z.log2 F + 1 <= Z.log2 X) by lia.
    assert (HFX2 : F < 2 ^ Z.log2 X).
    { apply Z.lt_le_trans with (2 ^ (Z.log2 F + 1)); [lia|].
      apply Z.pow_le_mono_r; lia. }
    destruct (Z.le_gt_cases n (Z.log2 X)) as [Hnl|Hnl].
    + assert (2 ^ (Z.log2 X - n) <= rne X n).
      { apply rne_ge_of_ge; [lia|].
        rewrite <- Z.pow_add_r by lia.
        replace (Z.log2 X - n + n) with (Z.log2 X) by lia. lia. }
      assert (2 ^ Z.log2 X = 2 ^ (Z.log2 X - n) * 2 ^ n).
      { rewrite <- Z.pow_add_r by lia. f_equal. lia. }
      nia.
    + exfalso.
      assert (En : zexp c X = emin).
      { unfold n, zexp, SpecFloat.fexp in *. lia. }
      assert (EnF : nF = n).
      { unfold nF, n in *. pose proof (fexp_ge_emin (Z.log2 F + 1 + c)).
        unfold zexp in *. lia. }
      rewrite EnF in HFm.
      assert (1 <= F / 2 ^ n).
      { destruct (Z.le_gt_cases 1 (F / 2 ^ n)); [assumption|].
        assert (F / 2 ^ n <= 0) by lia.
        assert (0 <= F / 2 ^ n) by (apply Z.div_pos; lia). nia. }
      assert (2 ^ (Z.log2 X + 1) <= 2 ^ n) by (apply Z.pow_le_mono_r; lia).
      nia.
Qed.

Lemma RNz_le c F X :
  c <= emin -> 0 < X -> X <= F -> on_grid c F -> RNz c X <= F.
Proof.
  intros Hc HX HXF Hg. unfold RNz. cbv zeta.
  pose proof (zexp_ge c X Hc) as Hn. pose proof (zexp_ge c F Hc) as HnF.
  assert (HL : Z.log2 X <= Z.log2 F) by (apply Z.log2_le_mono; lia).
  pose proof (zexp_mono c X F HL) as Hmono.
  unfold on_grid in Hg.
  set (n := zexp c X - c) in *. set (nF := zexp c F - c) in *.
  assert (Hp : 0 < 2 ^ n) by (apply Z.pow_pos_nonneg; lia).
  assert (HpF : 0 < 2 ^ nF) by (apply Z.pow_pos_nonneg; lia).
  assert (HFm : F = F / 2 ^ nF * 2 ^ nF).
  { pose proof (Z.div_mod F (2 ^ nF) ltac:(lia)). lia. }
  pose proof (log2_lower F ltac:(lia)) as [HF1 HF2].
  pose proof (log2_lower X HX) as [HX1 HX2].
  destruct (Z.eq_dec (Z.log2 X) (Z.log2 F)) as [El|Nl].
  - assert (En : nF = n) by (unfold nF, n, zexp; rewrite El; reflexivity).
    rewrite En in HFm.
    assert (rne X n <= F / 2 ^ n) by (apply rne_le_of_le; lia).
    nia.
  - assert (Hlt : Z.log2 X + 1 <= Z.log2 F) by lia.
    assert (HXF2 : 2 ^ (Z.log2 X + 1) <= F).
    { apply Z.le_trans with (2 ^ Z.log2 F); [|lia].
      apply Z.pow_le_mono_r; lia. }
    destruct (Z.le_gt_cases n (Z.log2 X + 1)) as [Hnl|Hnl].
    + assert (rne X n <= 2 ^ (Z.log2 X + 1 - n)).
      { apply rne_le_of_le; [lia|].
        rewrite <- Z.pow_add_r by lia.
        replace (Z.log2 X + 1 - n + n) with (Z.log2 X + 1) by lia. lia. }
      assert (2 ^ (Z.log2 X + 1) = 2 ^ (Z.log2 X + 1 - n) * 2 ^ n).
      { rewrite <- Z.pow_add_r by lia. f_equal. lia. }
      nia.
    + assert (Hsmall : 2 * X < 2 ^ n).
      { pose proof (Z.log2_nonneg X) as HlX.
        assert (2 ^ (Z.log2 X + 1 + 1) <= 2 ^ n) by (apply Z.pow_le_mono_r; lia).
        rewrite (Z.pow_add_r 2 (Z.log2 X + 1) 1) in H by lia.
        change (2 ^ 1) with 2 in H. lia. }
      assert (Hr : rne X n = 0).
      { unfold rne. rewrite Z.mod_small, Z.div_small by lia.
        unfold Z.lt in Hsmall. rewrite Hsmall. reflexivity. }
      rewrite Hr. lia.
Qed.

End Format.
End Rounding.

(** ** The arithmetic operations as integer roundings *)

Module RoundingOps.
Import Rounding.

Section Format.
Variables prec emax : Z.
Hypothesis prec_pos : 0 < prec.

Local Abbreviation fexp := (SpecFloat.fexp prec emax).
Local Abbreviation emin := (SpecFloat.emin prec emax).
Local Abbreviation zexp := (Rounding.zexp prec emax).
Local Abbreviation RNz := (Rounding.RNz prec emax).
Local Abbreviation SFofZ := (Rounding.SFofZ prec emax).
Local Abbreviation on_grid := (Rounding.on_grid prec emax).

(** The magnitude of a finite float as a multiple of [2^c]. *)
Definition Zmag (c : Z) (x : spec_float) : Z :=
  match x with
  | S754_finite _ m e => Zpos m * 2 ^ (e - c)
  | _ => 0
  end.

Definition sign_of (x : spec_float) : bool :=
  match x with
  | S754_finite s _ _ | S754_zero s | S754_infinity s => s
  | S754_nan => false
  end.

(** The signed value of a finite float as a multiple of [2^c]. *)
Definition Zval (c : Z) (x : spec_float) : Z := cond_Zopp (sign_of x) (Zmag c x).

Lemma zexp_scaled c m e :
  c <= e -> zexp c (Zpos m * 2 ^ (e - c)) = fexp (Zpos (digits2_pos m) + e).
Proof.
  intros Hc. unfold Rounding.zexp. f_equal.
  rewrite Z.log2_mul_pow2 by lia. rewrite digits2_pos_log2. lia.
Qed.

Lemma valid_on_grid s m e c :
  c <= e ->
  valid_binary prec emax (S754_finite s m e) = true ->
  on_grid c (Zpos m * 2 ^ (e - c))
  /\ SFofZ s c (Zpos m * 2 ^ (e - c)) = S754_finite s m e.
Proof.
  intros Hc Hv. simpl in Hv. unfold bounded, canonical_mantissa in Hv.
  apply andb_true_iff in Hv. destruct Hv as [Hcan Hb].
  apply Z.eqb_eq in Hcan. apply Z.leb_le in Hb.
  assert (Hp : 0 < 2 ^ (e - c)) by (apply Z.pow_pos_nonneg; lia).
  split.
  - unfold Rounding.on_grid. rewrite zexp_scaled, Hcan by assumption.
    apply Z.mod_mul. lia.
  - unfold Rounding.SFofZ. rewrite zexp_scaled, Hcan by assumption.
    destruct (Z.eqb_spec (Zpos m * 2 ^ (e - c)) 0); [lia|].
    rewrite Z.div_mul by lia.
    destruct (Z.leb_spec e (emax - prec)); [reflexivity | lia].
Qed.

Lemma shl_align_fst m e e' :
  e' <= e -> Zpos (fst (shl_align m e e')) = Zpos m * 2 ^ (e - e').
Proof.
  intros H. unfold shl_align.
  destruct (e' - e) as [|d|d] eqn:E; simpl fst.
  - replace (e - e') with 0 by lia. simpl. lia.
  - lia.
  - rewrite iter_xO. f_equal. f_equal. lia.
Qed.

Lemma binary_normalize_eq M e sz c :
  c <= e -> c <= emin ->
  binary_normalize prec emax M e sz
  = if M =? 0 then S754_zero sz
    else SFofZ (M <? 0) c (RNz c (Z.abs M * 2 ^ (e - c))).
Proof.
  intros Hce Hcm. unfold binary_normalize.
  destruct M as [|m|m]; simpl (_ =? 0); cbv iota.
  - reflexivity.
  - rewrite (binary_round_eq prec emax prec_pos false m e c) by assumption.
    reflexivity.
  - rewrite (binary_round_eq prec emax prec_pos true m e c) by assumption.
    reflexivity.
Qed.

Lemma cond_Zopp_scale s m k : cond_Zopp s m * k = cond_Zopp s (m * k).
Proof. destruct s; simpl; lia. Qed.

Lemma SFadd_finite c sx mx ex sy my ey :
  c <= ex -> c <= ey -> c <= emin ->
  let x := S754_finite sx mx ex in
  let y := S754_finite sy my ey in
  SFadd prec emax x y
  = let Z := Zval c x + Zval c y in
    if Z =? 0 then S754_zero false
    else SFofZ (Z <? 0) c (RNz c (Z.abs Z)).
Proof.
  intros Hx Hy Hc x y. unfold x, y, SFadd. cbv zeta.
  set (ez := Z.min ex ey).
  rewrite (binary_normalize_eq _ ez false c) by lia.
  rewrite !shl_align_fst by lia.
  set (M := cond_Zopp sx (Zpos mx * 2 ^ (ex - ez))
            + cond_Zopp sy (Zpos my * 2 ^ (ey - ez))).
  assert (Hp : 0 < 2 ^ (ez - c)) by (apply Z.pow_pos_nonneg; lia).
  assert (HZ : Zval c (S754_finite sx mx ex) + Zval c (S754_finite sy my ey)
               = M * 2 ^ (ez - c)).
  { unfold Zval, M. simpl sign_of. simpl Zmag.
    rewrite Z.mul_add_distr_r, !cond_Zopp_scale.
    rewrite <- !Z.mul_assoc, <- !Z.pow_add_r by lia.
    replace (ex - ez + (ez - c)) with (ex - c) by lia.
    replace (ey - ez + (ez - c)) with (ey - c) by lia. reflexivity. }
  rewrite HZ.
  replace (M * 2 ^ (ez - c) =? 0) with (M =? 0)
    by (destruct (Z.eqb_spec M 0), (Z.eqb_spec (M * 2 ^ (ez - c)) 0); nia).
  replace (M * 2 ^ (ez - c) <? 0) with (M <? 0)
    by (destruct (Z.ltb_spec M 0), (Z.ltb_spec (M * 2 ^ (ez - c)) 0); nia).
  rewrite Z.abs_mul, (Z.abs_eq (2 ^ (ez - c))) by lia.
  reflexivity.
Qed.

Lemma SFsub_finite c sx mx ex sy my ey :
  c <= ex -> c <= ey -> c <= emin ->
  let x := S754_finite sx mx ex in
  let y := S754_finite sy my ey in
  SFsub prec emax x y
  = let Z := Zval c x - Zval c y in
    if Z =? 0 then S754_zero false
    else SFofZ (Z <? 0) c (RNz c (Z.abs Z)).
Proof.
  intros Hx Hy Hc x y. unfold x, y, SFsub. cbv zeta.
  set (ez := Z.min ex ey).
  rewrite (binary_normalize_eq _ ez false c) by lia.
  rewrite !shl_align_fst by lia.
  set (M := cond_Zopp sx (Zpos mx * 2 ^ (ex - ez))
            - cond_Zopp sy (Zpos my * 2 ^ (ey - ez))).
  assert (Hp : 0 < 2 ^ (ez - c)) by (apply Z.pow_pos_nonneg; lia).
  assert (HZ : Zval c (S754_finite sx mx ex) - Zval c (S754_finite sy my ey)
               = M * 2 ^ (ez - c)).
  { unfold Zval, M. simpl sign_of. simpl Zmag.
    rewrite Z.mul_sub_distr_r, !cond_Zopp_scale.
    rewrite <- !Z.mul_assoc, <- !Z.pow_add_r by lia.
    replace (ex - ez + (ez - c)) with (ex - c) by lia.
    replace (ey - ez + (ez - c)) with (ey - c) by lia. reflexivity. }
  rewrite HZ.
  replace (M * 2 ^ (ez - c) =? 0) with (M =? 0)
    by (destruct (Z.eqb_spec M 0), (Z.eqb_spec (M * 2 ^ (ez - c)) 0); nia).
  replace (M * 2 ^ (ez - c) <? 0) with (M <? 0)
    by (destruct (Z.ltb_spec M 0), (Z.ltb_spec (M * 2 ^ (ez - c)) 0); nia).
  rewrite Z.abs_mul, (Z.abs_eq (2 ^ (ez - c))) by lia.
  reflexivity.
Qed.


Lemma rne_small X n : 0 <= X -> 2 * X < 2 ^ n -> rne X n = 0.
Proof.
  intros HX H. unfold rne.
  assert (X < 2 ^ n) by lia.
  rewrite Z.mod_small, Z.div_small by lia.
  unfold Z.lt in H. rewrite H. reflexivity.
Qed.

(** The rounded value lies on the grid of its own binade. *)
Lemma RNz_grid c X : c <= emin -> 0 < X -> on_grid c (RNz c X).
Proof.
  intros Hc HX. unfold Rounding.on_grid.
  pose proof (zexp_ge prec emax c X Hc) as Hn.
  pose proof (zexp_ge prec emax c (RNz c X) Hc) as Hn'.
  unfold Rounding.RNz in *. cbv zeta in *.
  set (n := zexp c X - c) in *.
  set (q := rne X n) in *.
  set (n' := zexp c (q * 2 ^ n) - c) in *.
  assert (Hp : 0 < 2 ^ n) by (apply Z.pow_pos_nonneg; lia).
  assert (Hq : 0 <= q) by (apply rne_nonneg; lia).
  destruct (Z.eq_dec q 0) as [E0|N0].
  - rewrite E0. simpl. apply Zmod_0_l.
  - pose proof (log2_lower X HX) as [HX1 HX2].
    pose proof (Z.log2_nonneg X) as HLX.
    assert (Hnle : n <= Z.log2 X + 1).
    { destruct (Z.le_gt_cases n (Z.log2 X + 1)); [assumption|].
      exfalso. apply N0. apply rne_small; [lia|].
      assert (2 ^ (Z.log2 X + 1 + 1) <= 2 ^ n) by (apply Z.pow_le_mono_r; lia).
      rewrite (Z.pow_add_r 2 (Z.log2 X + 1) 1) in H0 by lia.
      change (2 ^ 1) with 2 in H0. lia. }
    assert (Hqle : q <= 2 ^ (Z.log2 X + 1 - n)).
    { apply rne_le_of_le; [lia|]. rewrite <- Z.pow_add_r by lia.
      replace (Z.log2 X + 1 - n + n) with (Z.log2 X + 1) by lia. lia. }
    assert (HlogY : Z.log2 (q * 2 ^ n) = n + Z.log2 q)
      by (apply Z.log2_mul_pow2; lia).
    destruct (Z.le_gt_cases (Z.log2 q + n) (Z.log2 X)) as [Hlow|Hhigh].
    + (* same binade *)
      assert (Hnn : n' <= n).
      { assert (Hz : zexp c (q * 2 ^ n) <= zexp c X)
          by (apply zexp_mono; lia).
        assert (En : n = zexp c X - c) by reflexivity.
        assert (En' : n' = zexp c (q * 2 ^ n) - c) by reflexivity.
        lia. }
      replace n with (n - n' + n') by lia.
      rewrite Z.pow_add_r, Z.mul_assoc by lia.
      apply Z.mod_mul. apply Z.pow_nonzero; lia.
    + (* the rounding carried to the next power of two *)
      pose proof (log2_lower q ltac:(lia)) as [Hq1 Hq2].
      assert (Eq : q = 2 ^ (Z.log2 X + 1 - n)).
      { assert (2 ^ (Z.log2 X + 1 - n) <= 2 ^ Z.log2 q)
          by (apply Z.pow_le_mono_r; lia).
        lia. }
      assert (HY : q * 2 ^ n = 2 ^ (Z.log2 X + 1)).
      { rewrite Eq, <- Z.pow_add_r by lia. f_equal. lia. }
      rewrite HY.
      assert (Hn'le : n' <= Z.log2 X + 1).
      { assert (En : n = zexp c X - c) by reflexivity.
        assert (En' : n' = zexp c (2 ^ (Z.log2 X + 1)) - c)
          by (unfold n'; rewrite HY; reflexivity).
        unfold Rounding.zexp in En, En'.
        rewrite Z.log2_pow2 in En' by lia.
        unfold SpecFloat.fexp in En, En'. lia. }
      replace (Z.log2 X + 1) with (Z.log2 X + 1 - n' + n') by lia.
      rewrite Z.pow_add_r by lia.
      apply Z.mod_mul. apply Z.pow_nonzero; lia.
Qed.

Lemma pow2_pos e : (0 < pow2 e)%Q.
Proof. unfold pow2. apply Qpower_0_lt. reflexivity. Qed.

Lemma pow2_add a b : (pow2 (a + b) == pow2 a * pow2 b)%Q.
Proof. unfold pow2. apply Qpower_plus. discriminate. Qed.

Lemma inject_Z_pow2 n : 0 <= n -> (inject_Z (2 ^ n) == pow2 n)%Q.
Proof. intros Hn. unfold pow2. apply (Zpower_Qpower 2 n Hn). Qed.

Lemma inject_Z_cond_Zopp s a :
  (inject_Z (cond_Zopp s a) == (if s then -1 else 1) * inject_Z a)%Q.
Proof.
  destruct s; simpl.
  - rewrite inject_Z_opp. ring.
  - ring.
Qed.

(** The rational value of the float built from an integer on the grid. *)
Lemma SF2Q_SFofZ s c Y :
  c <= emin -> 0 < Y -> on_grid c Y -> zexp c Y <= emax - prec ->
  (SF2Q (SFofZ s c Y) == inject_Z (cond_Zopp s Y) * pow2 c)%Q.
Proof.
  intros Hc HY Hg Hov.
  pose proof (zexp_ge prec emax c Y Hc) as Hn.
  unfold Rounding.SFofZ, Rounding.on_grid in *.
  destruct (Z.eqb_spec Y 0) as [|_]; [lia|].
  destruct (Z.leb_spec (zexp c Y) (emax - prec)) as [_|]; [|lia].
  set (n := zexp c Y - c) in *.
  assert (Hp : 0 < 2 ^ n) by (apply Z.pow_pos_nonneg; lia).
  assert (HYm : Y = Y / 2 ^ n * 2 ^ n).
  { pose proof (Z.div_mod Y (2 ^ n) ltac:(lia)). lia. }
  assert (Hm : 0 < Y / 2 ^ n) by nia.
  unfold SF2Q.
  rewrite !inject_Z_cond_Zopp.
  rewrite Z2Pos.id by assumption.
  assert (HQ : (inject_Z Y == inject_Z (Y / 2 ^ n) * pow2 n)%Q).
  { rewrite <- inject_Z_pow2, <- inject_Z_mult by lia.
    rewrite <- HYm. reflexivity. }
  rewrite HQ.
  replace (zexp c Y) with (n + c) by (unfold n; lia).
  rewrite pow2_add. ring.
Qed.


Lemma on_grid_pow2 c j : c <= emin -> emin - c <= j -> on_grid c (2 ^ j).
Proof.
  intros Hc Hj. unfold Rounding.on_grid, Rounding.zexp.
  assert (0 <= j) by lia.
  rewrite Z.log2_pow2 by lia.
  set (n := fexp (j + 1 + c) - c).
  assert (Hn : 0 <= n <= j) by (unfold n, SpecFloat.fexp; lia).
  replace j with (j - n + n) at 1 by lia.
  rewrite Z.pow_add_r by lia. apply Z.mod_mul. apply Z.pow_nonzero; lia.
Qed.

Lemma on_grid_mult c a j :
  c <= emin -> 0 < a -> 0 <= j -> zexp c (a * 2 ^ j) - c <= j ->
  on_grid c (a * 2 ^ j).
Proof.
  intros Hc Ha Hj Hz. unfold Rounding.on_grid.
  pose proof (zexp_ge prec emax c (a * 2 ^ j) Hc) as Hn.
  set (n := zexp c (a * 2 ^ j) - c) in *.
  replace j with (j - n + n) at 1 by lia.
  rewrite Z.pow_add_r, Z.mul_assoc by lia.
  apply Z.mod_mul. apply Z.pow_nonzero; lia.
Qed.

(** What [SFofZ] builds from a rounded value in the normal range. *)
Lemma SFofZ_normal s c Y :
  c <= emin -> 0 < Y -> on_grid c Y ->
  emin + prec - 1 <= Z.log2 Y + c -> Z.log2 Y + c < emax ->
  exists m,
    SFofZ s c Y = S754_finite s m (Z.log2 Y + 1 + c - prec)
    /\ Zpos m * 2 ^ (Z.log2 Y + 1 - prec) = Y
    /\ 2 ^ (prec - 1) <= Zpos m < 2 ^ prec
    /\ valid_binary prec emax (S754_finite s m (Z.log2 Y + 1 + c - prec)) = true.
Proof.
  intros Hc HY Hg Hlo Hhi.
  assert (Hz : zexp c Y = Z.log2 Y + 1 + c - prec).
  { unfold Rounding.zexp, SpecFloat.fexp. lia. }
  unfold Rounding.on_grid in Hg. rewrite Hz in Hg.
  set (n := Z.log2 Y + 1 - prec).
  replace (Z.log2 Y + 1 + c - prec - c) with n in Hg by (unfold n; lia).
  assert (Hn : 0 <= n) by (unfold n; lia).
  assert (Hp : 0 < 2 ^ n) by (apply Z.pow_pos_nonneg; lia).
  assert (HYm : Y = Y / 2 ^ n * 2 ^ n).
  { pose proof (Z.div_mod Y (2 ^ n) ltac:(lia)). lia. }
  assert (Hm : 0 < Y / 2 ^ n) by nia.
  exists (Z.to_pos (Y / 2 ^ n)).
  rewrite Z2Pos.id by assumption.
  assert (Hlog : Z.log2 (Y / 2 ^ n) = prec - 1).
  { assert (Z.log2 Y = n + Z.log2 (Y / 2 ^ n)).
    { rewrite HYm at 1. apply Z.log2_mul_pow2; lia. }
    unfold n in *. lia. }
  pose proof (log2_lower (Y / 2 ^ n) Hm) as Hb. rewrite Hlog in Hb.
  replace (prec - 1 + 1) with prec in Hb by lia.
  repeat split; try lia.
  - unfold Rounding.SFofZ. rewrite Hz.
    destruct (Z.eqb_spec Y 0) as [|_]; [lia|].
    destruct (Z.leb_spec (Z.log2 Y + 1 + c - prec) (emax - prec)) as [_|]; [|lia].
    replace (Z.log2 Y + 1 + c - prec - c) with n by (unfold n; lia).
    reflexivity.
  - simpl. unfold bounded, canonical_mantissa.
    rewrite digits2_pos_log2, Z2Pos.id, Hlog by assumption.
    apply andb_true_iff. split.
    + apply Z.eqb_eq. unfold SpecFloat.fexp. lia.
    + apply Z.leb_le. lia.
Qed.

(** The difference [u - 1/2] for [u] in (0, 1), not 1/2, whose distance to
    1/2 is at least 2^-54: it is a normal number of magnitude at most 1/2. *)
Lemma sub_half_normal su mu eu :
  53 <= prec -> 64 <= emax ->
  let c := emin in
  let u := S754_finite su mu eu in
  let h := S754_finite false (Z.to_pos (2 ^ (prec - 1))) (- prec) in
  su = false -> c <= eu ->
  Zmag c u < 2 ^ (- c) ->
  Zmag c u <> 2 ^ (- 1 - c) ->
  (Zmag c u mod 2 ^ (- 54 - c) = 0 \/ Zmag c u < 2 ^ (- 2 - c)) ->
  exists sd md ed,
    SFsub prec emax u h = S754_finite sd md ed
    /\ valid_binary prec emax (S754_finite sd md ed) = true
    /\ 2 ^ (prec - 1) <= Zpos md < 2 ^ prec
    /\ - 53 - prec <= ed <= - prec
    /\ Zpos md * 2 ^ (ed + prec + 53) <= 2 ^ (prec + 52).
Proof.
  intros Hp He c u h Hs Hcu Hlt Hne Hgran.
  assert (Ec : c = 3 - emax - prec) by reflexivity.
  assert (Hc : c <= emin) by (unfold c; lia).
  assert (Hc' : emin <= c) by (unfold c; lia).
  assert (Hc0 : c <= - 56 - prec) by lia.
  assert (HU : 0 < Zmag c u).
  { unfold u, Zmag. apply Z.mul_pos_pos; [lia | apply Z.pow_pos_nonneg; lia]. }
  assert (Hh : Zmag c h = 2 ^ (- 1 - c)).
  { unfold h, Zmag. rewrite Z2Pos.id by (apply Z.pow_pos_nonneg; lia).
    rewrite <- Z.pow_add_r by lia. f_equal. lia. }
  unfold u, h.
  rewrite (SFsub_finite c) by lia. fold u h. cbv zeta.
  unfold Zval. rewrite Hh.
  change (sign_of u) with su. change (sign_of h) with false.
  rewrite Hs. cbn [cond_Zopp].
  set (U := Zmag c u) in *.
  set (D := U - 2 ^ (- 1 - c)).
  assert (H1 : 2 ^ (- 1 - c) = 2 ^ (- 54 - c) * 2 ^ 53).
  { rewrite <- Z.pow_add_r by lia. f_equal. lia. }
  assert (H2 : 2 ^ (- c) = 2 ^ (- 1 - c) * 2).
  { replace (- c) with (- 1 - c + 1) by lia. rewrite Z.pow_add_r by lia.
    reflexivity. }
  assert (H3 : 2 ^ (- 1 - c) = 2 ^ (- 2 - c) * 2).
  { replace (- 1 - c) with (- 2 - c + 1) by lia. rewrite Z.pow_add_r by lia.
    reflexivity. }
  assert (P54 : 0 < 2 ^ (- 54 - c)) by (apply Z.pow_pos_nonneg; lia).
  assert (P2 : 0 < 2 ^ (- 2 - c)) by (apply Z.pow_pos_nonneg; lia).
  assert (P53 : 2 ^ 53 = 9007199254740992) by reflexivity.
  assert (HD : 2 ^ (- 54 - c) <= Z.abs D <= 2 ^ (- 1 - c)).
  { split.
    - destruct Hgran as [Hm|Hsm].
      + apply Z.mod_divide in Hm; [|lia]. destruct Hm as [a Ha].
        unfold D. rewrite Ha, H1.
        assert (a <> 2 ^ 53) by (intro; apply Hne; rewrite Ha, H1; nia).
        nia.
      + unfold D. nia.
    - unfold D. lia. }
  destruct (Z.eqb_spec D 0) as [D0|_]; [unfold D in D0; lia|].
  set (Y := RNz c (Z.abs D)).
  assert (HYlo : 2 ^ (- 54 - c) <= Y).
  { apply (RNz_ge prec emax prec_pos); try lia.
    apply on_grid_pow2; lia. }
  assert (HYhi : Y <= 2 ^ (- 1 - c)).
  { apply (RNz_le prec emax); try lia.
    apply on_grid_pow2; lia. }
  assert (HYg : on_grid c Y) by (apply RNz_grid; lia).
  assert (HlogY : - 54 - c <= Z.log2 Y <= - 1 - c).
  { split.
    - apply Z.log2_le_pow2; lia.
    - rewrite <- (Z.log2_pow2 (- 1 - c)) by lia. apply Z.log2_le_mono. exact HYhi. }
  destruct (SFofZ_normal (D <? 0) c Y) as (md & Hd & Hmd & Hmb & Hv);
    try lia; try assumption.
  exists (D <? 0), md, (Z.log2 Y + 1 + c - prec).
  repeat split; try assumption; try lia.
  (* the magnitude is at most one half *)
  destruct (Z.eq_dec (Z.log2 Y) (- 1 - c)) as [El|Nl].
  - assert (Y = 2 ^ (- 1 - c)).
    { pose proof (log2_lower Y ltac:(lia)) as [Hl _]. rewrite El in Hl. lia. }
    assert (Zpos md = 2 ^ (prec - 1)).
    { rewrite El in Hmd. rewrite H in Hmd.
      replace (- 1 - c + 1 - prec) with (- 1 - c - (prec - 1)) in Hmd by lia.
      assert (2 ^ (- 1 - c) = 2 ^ (prec - 1) * 2 ^ (- 1 - c - (prec - 1))).
      { rewrite <- Z.pow_add_r by lia. f_equal. lia. }
      assert (0 < 2 ^ (- 1 - c - (prec - 1))) by (apply Z.pow_pos_nonneg; lia).
      nia. }
    rewrite H0, El, <- Z.pow_add_r by lia.
    apply Z.pow_le_mono_r; lia.
  - apply Z.le_trans with (2 ^ prec * 2 ^ (Z.log2 Y + 1 + c - prec + prec + 53)).
    + assert (0 <= 2 ^ (Z.log2 Y + 1 + c - prec + prec + 53))
        by (apply Z.pow_nonneg; lia).
      nia.
    + rewrite <- Z.pow_add_r by lia. apply Z.pow_le_mono_r; lia.
Qed.


Lemma pow2_split a b : 0 <= a -> 0 <= b -> 2 ^ (a + b) = 2 ^ a * 2 ^ b.
Proof. intros. apply Z.pow_add_r; assumption. Qed.

(** Adding to a normal [R] a noise of magnitude at most
    [2^(e_R + prec - t - 1)]: the sum is rounded to a float within
    [2^(e_R + prec - t)] of [R], excluded. *)
Lemma add_noise_Z sR mR eR sd md en t :
  let c := emin in
  let j := eR - c in
  let B := 2 ^ (prec - t - 1) * 2 ^ j in
  1 < prec ->
  1 <= t <= prec - 1 ->
  emin <= eR -> eR + 1 <= emax - prec ->
  2 ^ (prec - 1) <= Zpos mR < 2 ^ prec ->
  emin <= en ->
  Zpos md * 2 ^ (en - c) <= B ->
  exists Y,
    SFadd prec emax (S754_finite sR mR eR) (S754_finite sd md en) = SFofZ sR c Y
    /\ 0 < Y /\ on_grid c Y /\ zexp c Y <= emax - prec
    /\ Z.abs (Y - Zpos mR * 2 ^ j) < 2 * B.
Proof.
  intros c j B Hprec Ht HeR Hov HmR Hen HN.
  assert (Ec : c = emin) by reflexivity.
  assert (Hj : 0 <= j) by (unfold j; lia).
  assert (Pj : 0 < 2 ^ j) by (apply Z.pow_pos_nonneg; lia).
  set (b := 2 ^ (prec - t - 1)) in *.
  assert (Pb : 0 < b) by (apply Z.pow_pos_nonneg; lia).
  assert (Hb : 2 * b <= 2 ^ (prec - 1)).
  { unfold b. replace (prec - 1) with (prec - t - 1 + t) by lia.
    rewrite Z.pow_add_r by lia.
    assert (2 ^ 1 <= 2 ^ t) by (apply Z.pow_le_mono_r; lia).
    change (2 ^ 1) with 2 in H. nia. }
  assert (Hpp : 2 ^ prec = 2 * 2 ^ (prec - 1)).
  { replace prec with (prec - 1 + 1) at 1 by lia.
    rewrite Z.pow_add_r by lia. change (2 ^ 1) with 2. lia. }
  set (XR := Zpos mR * 2 ^ j).
  set (XN := Zpos md * 2 ^ (en - c)) in *.
  assert (PN : 0 < XN).
  { unfold XN. apply Z.mul_pos_pos; [lia | apply Z.pow_pos_nonneg; lia]. }
  assert (HBR : 2 * B <= XR) by (unfold B, XR; nia).
  rewrite (SFadd_finite c) by lia. cbv zeta.
  unfold Zval. cbn [sign_of Zmag]. fold j XR XN.
  set (S := cond_Zopp sR XR + cond_Zopp sd XN).
  assert (HZabs : XR - B <= Z.abs S <= XR + B).
  { unfold S. destruct sR, sd; simpl; lia. }
  assert (HZneg : (S <? 0) = sR).
  { unfold S. destruct sR, sd; simpl; apply Z.ltb_lt || apply Z.ltb_ge; lia. }
  destruct (Z.eqb_spec S 0) as [S0|_]; [rewrite S0 in HZabs; simpl in HZabs; lia|].
  rewrite HZneg.
  set (Y := RNz c (Z.abs S)).
  (* the lower bracket *)
  assert (Glo : on_grid c ((Zpos mR - b) * 2 ^ j)).
  { apply on_grid_mult; try lia.
    unfold Rounding.zexp. rewrite Z.log2_mul_pow2 by lia.
    assert (Z.log2 (Zpos mR - b) <= prec - 1).
    { apply Z.lt_succ_r. apply Z.log2_lt_pow2; [lia|]. unfold Z.succ.
      replace (prec - 1 + 1) with prec by lia. lia. }
    unfold SpecFloat.fexp, j. lia. }
  assert (Ylo : (Zpos mR - b) * 2 ^ j <= Y).
  { apply (RNz_ge prec emax prec_pos); try lia; try assumption;
      unfold B, XR in *; nia. }
  (* the upper bracket: a grid point not above XR + B + 2^j *)
  assert (Yhi : exists a, on_grid c (a * 2 ^ j) /\ Zpos mR + b <= a
                          /\ (a <= Zpos mR + b \/ (a <= Zpos mR + b + 1 /\ 2 <= b))
                          /\ a < 2 * 2 ^ prec).
  { destruct (Z.le_gt_cases (Zpos mR + b) (2 ^ prec)) as [Hin|Hout].
    - exists (Zpos mR + b). repeat split; try lia.
      destruct (Z.eq_dec (Zpos mR + b) (2 ^ prec)) as [Ep|Np].
      + rewrite Ep, <- Z.pow_add_r by lia. apply on_grid_pow2; lia.
      + apply on_grid_mult; try lia.
        unfold Rounding.zexp. rewrite Z.log2_mul_pow2 by lia.
        assert (Z.log2 (Zpos mR + b) <= prec - 1).
        { apply Z.lt_succ_r. apply Z.log2_lt_pow2; [lia|]. unfold Z.succ.
          replace (prec - 1 + 1) with prec by lia. lia. }
        unfold SpecFloat.fexp, j. lia.
    - set (a := 2 * ((Zpos mR + b + 1) / 2)).
      assert (Ha : Zpos mR + b <= a <= Zpos mR + b + 1).
      { unfold a. pose proof (Z.div_mod (Zpos mR + b + 1) 2 ltac:(lia)).
        pose proof (Z.mod_pos_bound (Zpos mR + b + 1) 2 ltac:(lia)). lia. }
      exists a. repeat split; try lia.
      set (q := (Zpos mR + b + 1) / 2) in *.
        assert (Eq2 : a = 2 * q) by reflexivity.
        assert (Eaq : a * 2 ^ j = q * 2 ^ (j + 1)).
        { rewrite Eq2, Z.pow_add_r by lia. change (2 ^ 1) with 2. ring. }
        rewrite Eaq.
        assert (Hh : 2 ^ (prec - 1) < q) by lia.
        assert (Hh2 : q < 2 ^ prec) by lia.
        apply on_grid_mult; try lia.
        unfold Rounding.zexp. rewrite Z.log2_mul_pow2 by lia.
        assert (Z.log2 q <= prec - 1).
        { apply Z.lt_succ_r. apply Z.log2_lt_pow2; [lia|]. unfold Z.succ.
          replace (prec - 1 + 1) with prec by lia. lia. }
        unfold SpecFloat.fexp, j. lia.
  }
  destruct Yhi as (a & Ga & Ha1 & Ha2 & Ha3).
  assert (Yhi : Y <= a * 2 ^ j).
  { apply (RNz_le prec emax); try lia; try assumption.
    unfold B, XR in *. nia. }
  assert (HY0 : 0 < Y) by nia.
  exists Y. repeat split; try assumption.
  - apply RNz_grid; lia.
  - unfold Rounding.zexp.
    assert (Z.log2 Y <= prec + j).
    { apply Z.lt_succ_r. apply Z.log2_lt_pow2; [lia|]. unfold Z.succ.
      rewrite Z.pow_add_r, Z.pow_add_r by lia. change (2 ^ 1) with 2. nia. }
    unfold SpecFloat.fexp, j in *. lia.
  - fold XR. unfold B, XR in *. destruct Ha2 as [Ha2|[Ha2 Hb2]]; nia.
Qed.

End Format.
End RoundingOps.

(** ** A small concrete generator

    It cycles through four fixed draws, 0.25, 0.75, 0.3125 and 0.5; the
    state is the index of the next one and the seed selects the first. *)

Module CycleGen.

Definition quarter : spec_float := S754_finite false (2 ^ 52) (-54).

Definition table : list spec_float :=
  [ quarter;
    S754_finite false (3 * 2 ^ 51) (-53);
    S754_finite false (5 * 2 ^ 50) (-54);
    S754_finite false (2 ^ 52) (-53) ].

Definition draw (n : nat) : spec_float := nth (n mod 4)%nat table quarter.

#[global] Instance cycle_gen : UniformGen nat :=
  {| gen_seed z := Z.to_nat (z mod 4);
     gen_double01 n := (draw n, S n) |}.

(** A thread whose generator is already seeded and about to deliver the
    draw of index [i]. *)
Definition seeded_at (i : nat) : Rng.rng_state_t nat :=
  {| Rng.rs_choose_seed := true; Rng.rs_seed := 0;
     Rng.random_state := Some i; Rng.fresh_entropy := 0 |}.

End CycleGen.

(** * Properties *)

Module MCAProofs.
Import FloatStruct FloatUtils Rng Mca.

Lemma draw_cases (n : nat) :
  In (CycleGen.draw n) CycleGen.table.
Proof.
  unfold CycleGen.draw.
  assert (Hlt : (n mod 4 < 4)%nat) by (apply Nat.mod_upper_bound; discriminate).
  destruct (n mod 4)%nat as [|[|[|[|k]]]]; simpl; auto.
  exfalso; lia.
Qed.

#[global] Instance cycle_gen_ok : UniformGenOk nat.
Proof.
  split; intros g; simpl;
    destruct (draw_cases g) as [E|[E|[E|[E|[]]]]]; rewrite <- E; reflexivity.
Qed.

Section WithGen.
Context {G : Type} `{UniformGen G}.

Local Abbreviation rng := (rng_state_t G).

(** *** Values outside the normal and subnormal classes *)

Definition special (W : format) (x : spec_float) : bool :=
  match FPCLASSIFY W x with
  | FP_ZERO | FP_INFINITE | FP_NAN => true
  | _ => false
  end.

Lemma special_not_noised W x :
  special W x = true -> _IS_NOT_NORMAL_OR_SUBNORMAL W x = true.
Proof.
  unfold special, _IS_NOT_NORMAL_OR_SUBNORMAL.
  destruct (FPCLASSIFY W x); simpl; congruence.
Qed.

Lemma special_cast W W' x : special W x = true -> cast W' x = x.
Proof.
  destruct x; simpl; try reflexivity.
  unfold special; simpl. destruct (_ <=? _); discriminate.
Qed.

Lemma special_FTZ W W' x : special W x = true -> FTZ W' x = x.
Proof.
  destruct x; unfold FTZ; simpl; try reflexivity.
  unfold special; simpl. destruct (_ <=? _); discriminate.
Qed.

Lemma init_random_state (st : rng) c s v :
  random_state (_init_rng_state_struct st c s v) = random_state st.
Proof.
  unfold _init_rng_state_struct, seeded.
  destruct (random_state st) eqn:E; simpl; auto.
Qed.

Lemma _INEXACT_special g W x t ctx (st : rng) :
  special W x = true ->
  _INEXACT g W x t ctx st
  = (x, _init_rng_state_struct st (choose_seed ctx) (seed ctx) false).
Proof.
  intros Hs. apply special_not_noised in Hs.
  unfold _INEXACT, _MUST_NOT_BE_NOISED.
  unfold _IS_NOT_NORMAL_OR_SUBNORMAL in Hs. rewrite Hs.
  rewrite orb_true_r. reflexivity.
Qed.

Lemma _FAST_INEXACT_special g W x t ctx (st : rng) :
  special W x = true -> _FAST_INEXACT g W x t ctx st = (x, st).
Proof.
  intros Hs. apply special_not_noised in Hs.
  unfold _FAST_INEXACT. rewrite Hs, orb_true_r. reflexivity.
Qed.

Lemma _INEXACT_BINARYN_special g W x ctx (st : rng) :
  special W x = true ->
  _INEXACT_BINARYN g W x ctx st
  = (x, _init_rng_state_struct st (choose_seed ctx) (seed ctx) false).
Proof.
  intros Hs. unfold _INEXACT_BINARYN, _mca_inexact_binary64,
    _mca_inexact_binary128.
  destruct (prec W =? prec binary64) eqn:E.
  - apply Z.eqb_eq in E.
    assert (Hs' : special binary64 x = true).
    { revert Hs. unfold special, FPCLASSIFY, PMAN_SIZE. rewrite E. auto. }
    apply _INEXACT_special; assumption.
  - destruct x; try (apply _INEXACT_special; reflexivity).
    revert Hs. unfold special; simpl. destruct (_ <=? _); discriminate.
Qed.

(** *** The stages of the binary-op driver *)

(** The operands at the working width, after the optional flush. *)
Definition widen_operand (T W : format) (ctx : t_context) (A : spec_float)
    : spec_float :=
  cast W (if daz ctx then DAZ T A else A).

(** Inbound perturbation (modes pb and mca). *)
Definition noise_inputs (g : mcalib) (W : format) (A B : spec_float)
    (ctx : t_context) (st : rng) : spec_float * spec_float * rng :=
  if mcamode_eqb (MCALIB_MODE g) mcamode_pb
     || mcamode_eqb (MCALIB_MODE g) mcamode_mca
  then
    let '(A, st) := _INEXACT_BINARYN g W A ctx st in
    let '(B, st) := _INEXACT_BINARYN g W B ctx st in
    (A, B, st)
  else (A, B, st).

(** Outbound perturbation (modes rr and mca). *)
Definition noise_result (g : mcalib) (W : format) (R : spec_float)
    (ctx : t_context) (st : rng) : spec_float * rng :=
  if mcamode_eqb (MCALIB_MODE g) mcamode_rr
     || mcamode_eqb (MCALIB_MODE g) mcamode_mca
  then _INEXACT_BINARYN g W R ctx st
  else (R, st).

(** Optional flush of the narrowed result, then narrowing. *)
Definition narrow_result (T W : format) (ctx : t_context) (R : spec_float)
    : spec_float :=
  cast T (if ftz ctx then cast W (FTZ T (cast T R)) else R).

Lemma _MCA_BINARY_OP_stages g T W A B OP ctx (st : rng) :
  _MCA_BINARY_OP g T W A B OP ctx st =
  let '(A', B', st1) :=
    noise_inputs g W (widen_operand T W ctx A) (widen_operand T W ctx B) ctx st in
  let '(R, st2) := noise_result g W (PERFORM_BIN_OP W OP A' B') ctx st1 in
  (narrow_result T W ctx R, st2).
Proof.
  unfold _MCA_BINARY_OP, noise_inputs, noise_result, narrow_result,
    widen_operand.
  destruct (daz ctx);
    destruct (mcamode_eqb (MCALIB_MODE g) mcamode_pb
              || mcamode_eqb (MCALIB_MODE g) mcamode_mca);
    repeat match goal with
           | |- context [_INEXACT_BINARYN ?g ?W ?x ?c ?s] =>
               destruct (_INEXACT_BINARYN g W x c s)
           end;
    destruct (mcamode_eqb (MCALIB_MODE g) mcamode_rr
              || mcamode_eqb (MCALIB_MODE g) mcamode_mca);
    repeat match goal with
           | |- context [_INEXACT_BINARYN ?g ?W ?x ?c ?s] =>
               destruct (_INEXACT_BINARYN g W x c s)
           end;
    reflexivity.
Qed.

(** The perturbation stages read neither [daz] nor [ftz]. *)
Definition with_flags (ctx : t_context) (d f : bool) : t_context :=
  {| relErr := relErr ctx; absErr := absErr ctx; absErr_exp := absErr_exp ctx;
     choose_seed := choose_seed ctx; seed := seed ctx; daz := d; ftz := f;
     sparsity := sparsity ctx |}.

Lemma _INEXACT_with_flags g W x t ctx d f (st : rng) :
  _INEXACT g W x t (with_flags ctx d f) st = _INEXACT g W x t ctx st.
Proof. reflexivity. Qed.

Lemma noise_inputs_with_flags g W A B ctx d f (st : rng) :
  noise_inputs g W A B (with_flags ctx d f) st = noise_inputs g W A B ctx st.
Proof. reflexivity. Qed.

Lemma noise_result_with_flags g W R ctx d f (st : rng) :
  noise_result g W R (with_flags ctx d f) st = noise_result g W R ctx st.
Proof. reflexivity. Qed.

Lemma noise_result_special g W R ctx (st : rng) :
  special W R = true ->
  fst (noise_result g W R ctx st) = R
  /\ random_state (snd (noise_result g W R ctx st)) = random_state st.
Proof.
  intros Hs. unfold noise_result.
  destruct (_ || _); simpl; auto.
  rewrite _INEXACT_BINARYN_special by assumption. simpl.
  split; [reflexivity | apply init_random_state].
Qed.

Lemma narrow_result_special T W ctx R :
  special W R = true -> narrow_result T W ctx R = R.
Proof.
  intros Hs. unfold narrow_result.
  destruct (ftz ctx).
  - rewrite (special_cast W T R Hs), (special_FTZ W T R Hs).
    rewrite (special_cast W W R Hs). apply (special_cast W T R Hs).
  - apply (special_cast W T R Hs).
Qed.

(** *** Class preservation *)

(** C3 (as amended).  In every mode and error mode, the inexact operator
    (guarded and fast variants) returns a working-precision value of class
    ZERO, INF or NAN unchanged and consumes no random draw; in the driver
    such an operand reaches the operation unperturbed, and a
    working-precision result of one of these classes is returned
    bit-exactly, without a draw. *)
Theorem class_preservation g T W x t A B OP ctx (st : rng) :
  special W x = true ->
  (fst (_INEXACT g W x t ctx st) = x
   /\ random_state (snd (_INEXACT g W x t ctx st)) = random_state st)
  /\ _FAST_INEXACT g W x t ctx st = (x, st)
  /\ (fst (fst (noise_inputs g W x B ctx st)) = x
      /\ snd (fst (noise_inputs g W B x ctx st)) = x)
  /\ (let '(A', B', st1) :=
        noise_inputs g W (widen_operand T W ctx A) (widen_operand T W ctx B)
          ctx st in
      PERFORM_BIN_OP W OP A' B' = x ->
      _MCA_BINARY_OP g T W A B OP ctx st
      = (x, snd (noise_result g W x ctx st1))
      /\ random_state (snd (noise_result g W x ctx st1)) = random_state st1).
Proof.
  intros Hs. repeat split.
  - rewrite _INEXACT_special by assumption. reflexivity.
  - rewrite _INEXACT_special by assumption. apply init_random_state.
  - apply _FAST_INEXACT_special; assumption.
  - unfold noise_inputs. destruct (_ || _); [|reflexivity].
    rewrite _INEXACT_BINARYN_special by assumption.
    destruct (_INEXACT_BINARYN g W B ctx _). reflexivity.
  - unfold noise_inputs. destruct (_ || _); [|reflexivity].
    destruct (_INEXACT_BINARYN g W B ctx st) as [B' st'].
    rewrite _INEXACT_BINARYN_special by assumption. reflexivity.
  - rewrite _MCA_BINARY_OP_stages.
    destruct (noise_inputs g W _ _ ctx st) as [[A' B'] st1].
    intros ->.
    destruct (noise_result_special g W x ctx st1 Hs) as [E1 E2].
    destruct (noise_result g W x ctx st1) as [R st2]. simpl in *. subst R.
    rewrite narrow_result_special by assumption. auto.
Qed.

(** *** Random rounding of exact results *)

Definition ieee_mode (g : mcalib) : mcalib :=
  {| MCALIB_MODE := mcamode_ieee;
     MCALIB_BINARY32_T := MCALIB_BINARY32_T g;
     MCALIB_BINARY64_T := MCALIB_BINARY64_T g |}.

(** The virtual precision the driver of working width [W] uses. *)
Definition virtual_precision (g : mcalib) (W : format) : Z :=
  if prec W =? prec binary64 then MCALIB_BINARY32_T g else MCALIB_BINARY64_T g.

(** The working type the driver perturbs at ([binary128] for every width
    but [binary64]). *)
Definition noise_width (W : format) : format :=
  if prec W =? prec binary64 then binary64 else binary128.

Lemma _INEXACT_BINARYN_eq g W x ctx (st : rng) :
  _INEXACT_BINARYN g W x ctx st
  = _INEXACT g (noise_width W) x (virtual_precision g W) ctx st.
Proof.
  unfold _INEXACT_BINARYN, noise_width, virtual_precision,
    _mca_inexact_binary64, _mca_inexact_binary128.
  destruct (prec W =? prec binary64); reflexivity.
Qed.

End WithGen.

(** The driver on 1.0 + 1.0 at the default precision of binary32. *)
Definition one32 : spec_float := cast binary32 (S754_finite false 1 0).

Definition rr_defaults : mcalib :=
  {| MCALIB_MODE := mcamode_rr; MCALIB_BINARY32_T := 24;
     MCALIB_BINARY64_T := 53 |}.

Lemma class_preservation_witness :
  _FAST_INEXACT rr_defaults binary64 (S754_infinity false) 24 init_context
    (CycleGen.seeded_at 0)
  = (S754_infinity false, CycleGen.seeded_at 0).
Proof.
  apply (class_preservation rr_defaults binary32 binary64 (S754_infinity false)
           24 one32 one32 mca_add init_context (CycleGen.seeded_at 0)).
  reflexivity.
Defined.

(** binop_f64(1e308, 10.0, * ) with inbound perturbation (mode pb) and
    the absolute error mode at the default exponent 112. *)
Definition pb_defaults : mcalib :=
  {| MCALIB_MODE := mcamode_pb; MCALIB_BINARY32_T := 24;
     MCALIB_BINARY64_T := 53 |}.

Definition abs_context : t_context := set_err_mode init_context false true.

Definition d1e308 : spec_float :=
  cast binary64 (S754_finite false (Z.to_pos (10 ^ 308)) 0).

Definition d10 : spec_float := cast binary64 (S754_finite false 10 0).

(** The operand 10.0 is of class NORMAL, so it is perturbed: with the
    draws 0.75 and 0.3125 it becomes 10 - 0.1875 * 2^112, and the driver
    returns -inf; in mode ieee it returns +inf. *)
Lemma class_preservation_counterexample :
  absErr_exp abs_context = 112
  /\ in_open01 (CycleGen.draw 1) = true
  /\ in_open01 (CycleGen.draw 2) = true
  /\ fst (_mca_binary64_binary_op pb_defaults d1e308 d10 mca_mul abs_context
            (CycleGen.seeded_at 1)) = S754_infinity true
  /\ fst (_mca_binary64_binary_op (ieee_mode pb_defaults) d1e308 d10 mca_mul
            abs_context (CycleGen.seeded_at 1)) = S754_infinity false.
Proof. repeat split; vm_compute; reflexivity. Qed.

(** *** Defaults *)

Section Defaults.
Context {G : Type} `{UniformGen G}.

(** C10.  Without backend options, [interflop_init] leaves mode = mca,
    relative error only, absErr_exp = 112, t32 = 24, t64 = 53, no chosen
    seed (seed 0), daz and ftz off, sparsity 1. *)
Theorem default_configuration (st : rng_state_t G) :
  interflop_init [] st
  = Ok (init_context, mcalib_static,
        _init_rng_state_struct st false 0 false)
  /\ MCALIB_MODE mcalib_static = mcamode_mca
  /\ MCALIB_BINARY32_T mcalib_static = 24
  /\ MCALIB_BINARY64_T mcalib_static = 53
  /\ relErr init_context = true
  /\ absErr init_context = false
  /\ absErr_exp init_context = 112
  /\ choose_seed init_context = false
  /\ seed init_context = 0
  /\ daz init_context = false
  /\ ftz init_context = false
  /\ sparsity init_context = S754_finite false (2 ^ 23) (-23)
  /\ (SF2Q (sparsity init_context) == 1)%Q.
Proof. repeat split. Qed.

End Defaults.

(** *** Option values *)

(** C7 (the code at the failing inputs).  A sparsity of 2 is stored and the
    callback returns normally; so is a precision followed by trailing
    characters, an exponent that is no number, and a seed followed by
    trailing characters. *)
Lemma option_values_accepted :
  parse_opt KEY_SPARSITY "2" init_context mcalib_static
  = Ok (0, set_sparsity init_context (S754_finite false (2 ^ 23) (-22)),
        mcalib_static)
  /\ parse_opt KEY_PREC_B32 "24abc" init_context mcalib_static
     = Ok (0, init_context, mcalib_static)
  /\ parse_opt KEY_ERR_EXP "abc" init_context mcalib_static
     = Ok (0, set_absErr_exp init_context 0, mcalib_static)
  /\ parse_opt KEY_SEED "7x" init_context mcalib_static
     = Ok (0, set_seed init_context 7, mcalib_static)
  /\ parse_opt KEY_SPARSITY "0.5abc" init_context mcalib_static
     = Ok (0, set_sparsity init_context (S754_finite false (2 ^ 23) (-24)),
        mcalib_static).
Proof. repeat split. Qed.

(** *** The noise generator on a draw of one half *)

(** C5 (the code at the failing input).  0.5 is a draw of the open
    interval; [u - 0.5] is then zero, its exponent field is 0, and adding
    77 to it stays in the normal range: the generator returns 2^(77-1023)
    and not 0. *)
Lemma noise_of_half_draw :
  in_open01 (CycleGen.draw 3) = true
  /\ fsub binary64 (CycleGen.draw 3) (half binary64) = S754_zero false
  /\ exponent (view binary64 (S754_zero false)) + 77 = 77
  /\ fst (_noise_binary64 77 (CycleGen.seeded_at 3))
     = S754_finite false (2 ^ 52) (77 - 1023 - 52)
  /\ fst (_noise_binary128 77 (CycleGen.seeded_at 3))
     = S754_finite false (2 ^ 112) (77 - 16383 - 112).
Proof. repeat split. Qed.

(** *** Denormals-are-zero and flush-to-zero *)

Section Flush.
Context {G : Type} `{UniformGen G}.

Lemma DAZ_subnormal T x :
  FPCLASSIFY T x = FP_SUBNORMAL -> DAZ T x = signed_zero x.
Proof. intros E. unfold DAZ. rewrite E. reflexivity. Qed.

Lemma FTZ_subnormal T x :
  FPCLASSIFY T x = FP_SUBNORMAL -> FTZ T x = signed_zero x.
Proof. intros E. unfold FTZ. rewrite E. reflexivity. Qed.

Lemma DAZ_idempotent T x : DAZ T (DAZ T x) = DAZ T x.
Proof.
  unfold DAZ. destruct (fpclass_eqb (FPCLASSIFY T x) FP_SUBNORMAL) eqn:E.
  - destruct x; reflexivity.
  - rewrite E. reflexivity.
Qed.

(** C9.  With daz set, the driver behaves as on the operands flushed at
    their own width (a subnormal operand is a signed zero before any
    noise); with ftz set, a result that is subnormal at the return width is
    returned as a zero of the same sign; with both flags clear the operands
    are only widened and the result only narrowed. *)
Theorem daz_ftz_flushing g T W A B OP ctx (st : rng_state_t G) :
  (daz ctx = true ->
   _MCA_BINARY_OP g T W A B OP ctx st
   = _MCA_BINARY_OP g T W (DAZ T A) (DAZ T B) OP
       (with_flags ctx false (ftz ctx)) st
   /\ widen_operand T W ctx A = cast W (DAZ T A)
   /\ widen_operand T W ctx B = cast W (DAZ T B)
   /\ forall x, FPCLASSIFY T x = FP_SUBNORMAL ->
        DAZ T x = signed_zero x /\ special W (cast W (DAZ T x)) = true)
  /\ (ftz ctx = true ->
      forall r st',
        _MCA_BINARY_OP g T W A B OP (with_flags ctx (daz ctx) false) st
        = (r, st') ->
        FPCLASSIFY T r = FP_SUBNORMAL ->
        _MCA_BINARY_OP g T W A B OP ctx st = (signed_zero r, st'))
  /\ (daz ctx = false -> ftz ctx = false ->
      _MCA_BINARY_OP g T W A B OP ctx st
      = let '(A', B', st1) := noise_inputs g W (cast W A) (cast W B) ctx st in
        let '(R, st2) := noise_result g W (PERFORM_BIN_OP W OP A' B') ctx st1 in
        (cast T R, st2)).
Proof.
  split; [|split].
  - intros Hd. split; [|split; [|split]].
    + rewrite !_MCA_BINARY_OP_stages.
      rewrite noise_inputs_with_flags.
      unfold widen_operand. rewrite Hd. simpl.
      destruct (noise_inputs g W _ _ ctx st) as [[A' B'] st1].
      rewrite noise_result_with_flags.
      destruct (noise_result g W _ ctx st1) as [R st2].
      reflexivity.
    + unfold widen_operand. rewrite Hd. reflexivity.
    + unfold widen_operand. rewrite Hd. reflexivity.
    + intros x Hx. rewrite (DAZ_subnormal T x Hx). split; [reflexivity|].
      destruct x; try discriminate. reflexivity.
  - intros Hf r st'. rewrite !_MCA_BINARY_OP_stages.
    rewrite noise_inputs_with_flags.
    unfold widen_operand at 1 2. simpl daz.
    fold (widen_operand T W ctx A). fold (widen_operand T W ctx B).
    destruct (noise_inputs g W _ _ ctx st) as [[A' B'] st1].
    rewrite noise_result_with_flags.
    destruct (noise_result g W _ ctx st1) as [R st2].
    unfold narrow_result. simpl ftz. rewrite Hf.
    intros E Hr. inversion E; subst r st'; clear E.
    rewrite (FTZ_subnormal T _ Hr).
    destruct (cast T R); try discriminate. reflexivity.
  - intros Hd Hf. rewrite _MCA_BINARY_OP_stages.
    unfold widen_operand, narrow_result. rewrite Hd, Hf. reflexivity.
Qed.

End Flush.

(** The smallest positive binary32 value, 2^-149. *)
Definition tiny32 : spec_float := S754_finite false 1 (-149).

Definition ieee_defaults : mcalib := ieee_mode mcalib_static.

Lemma daz_ftz_flushing_witness :
  _MCA_BINARY_OP ieee_defaults binary32 binary64 tiny32 tiny32 mca_add
    (set_daz init_context) (CycleGen.seeded_at 0)
  = (S754_zero false, CycleGen.seeded_at 0)
  /\ _MCA_BINARY_OP ieee_defaults binary32 binary64 tiny32 tiny32 mca_add
       (set_ftz init_context) (CycleGen.seeded_at 0)
     = (S754_zero false, CycleGen.seeded_at 0)
  /\ _MCA_BINARY_OP ieee_defaults binary32 binary64 tiny32 tiny32 mca_add
       init_context (CycleGen.seeded_at 0)
     = (S754_finite false 2 (-149), CycleGen.seeded_at 0).
Proof.
  split; [|split].
  - destruct (daz_ftz_flushing ieee_defaults binary32 binary64 tiny32 tiny32
                mca_add (set_daz init_context) (CycleGen.seeded_at 0))
      as (Hd & _ & _).
    destruct (Hd eq_refl) as (E & _). rewrite E. vm_compute. reflexivity.
  - destruct (daz_ftz_flushing ieee_defaults binary32 binary64 tiny32 tiny32
                mca_add (set_ftz init_context) (CycleGen.seeded_at 0))
      as (_ & Hf & _).
    apply (Hf eq_refl (S754_finite false 2 (-149)) (CycleGen.seeded_at 0));
      vm_compute; reflexivity.
  - destruct (daz_ftz_flushing ieee_defaults binary32 binary64 tiny32 tiny32
                mca_add init_context (CycleGen.seeded_at 0))
      as (_ & _ & Hn).
    rewrite (Hn eq_refl eq_refl). vm_compute. reflexivity.
Defined.

(** *** The user-call hook *)

Section UserCall.
Context {G : Type} `{UniformGen G}.

(** Whether the fast perturbation applies to [x]: the mode is not ieee and
    [x] is normal or subnormal. *)
Definition perturbable (g : mcalib) (W : format) (x : spec_float) : bool :=
  negb (_IS_IEEE_MODE g || _IS_NOT_NORMAL_OR_SUBNORMAL W x).

(** The fast relative perturbation at virtual precision [t]:
    [x + noise(GET_EXP(x) - (t - 1))]. *)
Definition fast_relative (W : format) (x : spec_float) (t : Z)
    (ctx : t_context) (st : rng_state_t G) : spec_float * rng_state_t G :=
  let st := _init_rng_state_struct st (choose_seed ctx) (seed ctx) false in
  let '(n, st) := _NOISE W (GET_EXP_FLT W x - (t - 1)) st in
  (fadd W x n, st).

Lemma _FAST_INEXACT_perturbable g W x t ctx (st : rng_state_t G) :
  perturbable g W x = true ->
  _FAST_INEXACT g W x t ctx st = fast_relative W x t ctx st.
Proof.
  unfold perturbable, _FAST_INEXACT, fast_relative.
  destruct (_ || _); [discriminate|]. reflexivity.
Qed.

(** C8 (as amended).  For FLOAT and DOUBLE a precision argument [p <= 0]
    is an offset from the configured virtual precision of that type and
    [p > 0] is taken as it is; for QUAD, which has no configured virtual
    precision, [p] is used as it is whatever its sign.  The hook then
    applies the fast relative perturbation to the widened value and stores
    it back narrowed; when the mode is ieee or the value is neither normal
    nor subnormal, the cell is left as it is and no draw is made. *)
Theorem usercall_inexact_precision g ctx v p (st : rng_state_t G) :
  (perturbable g binary64 (cast binary64 v) = true ->
   (p <= 0 ->
    _interflop_usercall_inexact g ctx FFLOAT v p st
    = let '(x, st') :=
        fast_relative binary64 (cast binary64 v) (MCALIB_BINARY32_T g + p) ctx st in
      (cast binary32 x, st'))
   /\ (0 < p ->
       _interflop_usercall_inexact g ctx FFLOAT v p st
       = let '(x, st') := fast_relative binary64 (cast binary64 v) p ctx st in
         (cast binary32 x, st')))
  /\ (perturbable g binary128 (cast binary128 v) = true ->
      (p <= 0 ->
       _interflop_usercall_inexact g ctx FDOUBLE v p st
       = let '(x, st') :=
           fast_relative binary128 (cast binary128 v) (MCALIB_BINARY64_T g + p)
             ctx st in
         (cast binary64 x, st'))
      /\ (0 < p ->
          _interflop_usercall_inexact g ctx FDOUBLE v p st
          = let '(x, st') := fast_relative binary128 (cast binary128 v) p ctx st in
            (cast binary64 x, st')))
  /\ (perturbable g binary128 v = true ->
      _interflop_usercall_inexact g ctx FQUAD v p st
      = fast_relative binary128 v p ctx st)
  /\ (perturbable g binary64 (cast binary64 v) = false ->
      _interflop_usercall_inexact g ctx FFLOAT v p st = (v, st))
  /\ (perturbable g binary128 (cast binary128 v) = false ->
      _interflop_usercall_inexact g ctx FDOUBLE v p st = (v, st))
  /\ (perturbable g binary128 v = false ->
      _interflop_usercall_inexact g ctx FQUAD v p st = (v, st)).
Proof.
  unfold _interflop_usercall_inexact.
  repeat match goal with |- _ /\ _ => split end; intros Hp;
    try (split; intros Hs);
    try (rewrite _FAST_INEXACT_perturbable by assumption);
    unfold perturbable in Hp;
    destruct (_IS_IEEE_MODE g || _) eqn:E; try discriminate; try reflexivity.
  - replace (p <=? 0) with true by (symmetry; apply Z.leb_le; assumption).
    reflexivity.
  - replace (p <=? 0) with false by (symmetry; apply Z.leb_gt; assumption).
    reflexivity.
  - replace (p <=? 0) with true by (symmetry; apply Z.leb_le; assumption).
    reflexivity.
  - replace (p <=? 0) with false by (symmetry; apply Z.leb_gt; assumption).
    reflexivity.
  - destruct (fast_relative binary128 v p ctx st). reflexivity.
Qed.

End UserCall.

Definition mca_defaults : mcalib := mcalib_static.

(** 1.0 in binary128. *)
Definition q1 : spec_float := cast binary128 (S754_finite false 1 0).

(** QUAD with [p = -10] and the draw 0.25: the perturbation is made at
    precision -10, that is with noise -0.25 * 2^11, and 1.0 becomes -511;
    at precision 53 - 10 the noise would be -0.25 * 2^-42. *)
Lemma usercall_inexact_precision_counterexample :
  MCALIB_BINARY64_T mca_defaults = 53
  /\ fst (_interflop_usercall_inexact mca_defaults init_context FQUAD q1 (-10)
            (CycleGen.seeded_at 0))
     = cast binary128 (S754_finite true 511 0)
  /\ fst (fast_relative binary128 q1 (53 + -10) init_context
            (CycleGen.seeded_at 0))
     = cast binary128 (S754_finite false (2 ^ 44 - 1) (-44))
  /\ fst (fast_relative binary128 q1 (-10) init_context (CycleGen.seeded_at 0))
     = cast binary128 (S754_finite true 511 0).
Proof. repeat split; vm_compute; reflexivity. Qed.

Lemma usercall_inexact_precision_witness :
  fst (_interflop_usercall_inexact mca_defaults init_context FDOUBLE d10 (-10)
         (CycleGen.seeded_at 0))
  = cast binary64 (S754_finite false (10 * 2 ^ 41 - 1) (-41)).
Proof.
  destruct (usercall_inexact_precision mca_defaults init_context d10 (-10)
              (CycleGen.seeded_at 0)) as (_ & Hd & _).
  destruct (Hd eq_refl) as (Hneg & _).
  rewrite Hneg by (vm_compute; discriminate).
  vm_compute. reflexivity.
Defined.

(** *** Reproducibility under a configured seed *)

Section Reproducibility.
Context {G : Type} `{UniformGen G}.

Local Abbreviation rng := (rng_state_t G).

(** What a host thread asks of the backend. *)
Inductive operation :=
  | op_float (a b : spec_float) (op : mca_operations)
  | op_double (a b : spec_float) (op : mca_operations)
  | op_user (call : user_call).

(** One operation: the file-scope variables, the value handed back (the
    result, or the content of the designated cell) and the generator. *)
Definition run_op (g : mcalib) (ctx : t_context) (o : operation) (st : rng)
    : outcome (mcalib * option spec_float * rng) :=
  match o with
  | op_float a b op =>
      let '(r, st) := _mca_binary32_binary_op g a b op ctx st in
      Ok (g, Some r, st)
  | op_double a b op =>
      let '(r, st) := _mca_binary64_binary_op g a b op ctx st in
      Ok (g, Some r, st)
  | op_user call => _interflop_user_call g ctx call st
  end.

(** The outputs of a sequence of operations, in program order (a fatal
    error ends the sequence). *)
Fixpoint run_ops (g : mcalib) (ctx : t_context) (ops : list operation)
    (st : rng) : list (option spec_float) :=
  match ops with
  | [] => []
  | o :: rest =>
      match run_op g ctx o st with
      | Ok (g, out, st) => out :: run_ops g ctx rest st
      | Fatal _ => []
      end
  end.

(** The generator state of a thread that never drew: zero-initialised
    thread-local storage; [entropy] is what the entropy source would
    deliver. *)
Definition thread_start (entropy : Z) : rng :=
  {| rs_choose_seed := false; rs_seed := 0; random_state := None;
     fresh_entropy := entropy |}.

(** One run of a single-threaded host: initialisation with the backend
    options, then the operations. *)
Definition run_program (argv : list (key_args * string))
    (ops : list operation) (entropy : Z) : outcome (list (option spec_float)) :=
  r <- interflop_init argv (thread_start entropy) ;;
  let '(ctx, g, st) := r in
  Ok (run_ops g ctx ops st).

(** Two generator states that deliver the same draws. *)
Definition same_draws (s1 s2 : rng) : Prop :=
  random_state s1 = random_state s2
  /\ (random_state s1 = None ->
      rs_choose_seed s1 = true /\ rs_choose_seed s2 = true
      /\ rs_seed s1 = rs_seed s2).

Lemma same_draws_init (s1 s2 : rng) sd :
  random_state s1 = random_state s2 ->
  same_draws (_init_rng_state_struct s1 true sd false)
             (_init_rng_state_struct s2 true sd false).
Proof.
  intros E. unfold same_draws, _init_rng_state_struct, seeded.
  rewrite <- E. destruct (random_state s1) eqn:E1; simpl.
  - rewrite E1. split; [congruence | discriminate].
  - auto.
Qed.

Lemma same_draws_state (s1 s2 : rng) :
  same_draws s1 s2 -> random_state s1 = random_state s2.
Proof. intros [E _]; exact E. Qed.

Lemma same_draws_get (s1 s2 : rng) tid :
  same_draws s1 s2 ->
  fst (get_rand_double01 s1 tid) = fst (get_rand_double01 s2 tid)
  /\ same_draws (snd (get_rand_double01 s1 tid)) (snd (get_rand_double01 s2 tid)).
Proof.
  intros [E N]. unfold get_rand_double01. rewrite <- E.
  destruct (random_state s1) as [g|].
  - destruct (gen_double01 g) as [u g']. simpl.
    split; [reflexivity|]. split; simpl; [reflexivity | discriminate].
  - destruct (N eq_refl) as (C1 & C2 & S). rewrite C1, C2, S.
    destruct (gen_double01 _) as [u g']. simpl.
    split; [reflexivity|]. split; simpl; [reflexivity | discriminate].
Qed.

(** Pairs of results that agree on the value and deliver the same draws. *)
Definition agree {A} (r1 r2 : A * rng) : Prop :=
  fst r1 = fst r2 /\ same_draws (snd r1) (snd r2).

Lemma agree_get (s1 s2 : rng) tid :
  same_draws s1 s2 ->
  agree (get_rand_double01 s1 tid) (get_rand_double01 s2 tid).
Proof. apply same_draws_get. Qed.

Lemma agree_skip sp (s1 s2 : rng) tid :
  same_draws s1 s2 ->
  agree (_mca_skip_eval sp s1 tid) (_mca_skip_eval sp s2 tid).
Proof.
  intros S. unfold _mca_skip_eval.
  destruct (SFleb _ sp); [split; auto|].
  destruct (agree_get s1 s2 tid S) as [E S'].
  destruct (get_rand_double01 s1 tid), (get_rand_double01 s2 tid).
  simpl in *. subst. split; auto.
Qed.

Lemma agree_NOISE W e (s1 s2 : rng) :
  same_draws s1 s2 -> agree (_NOISE W e s1) (_NOISE W e s2).
Proof.
  intros S. unfold _NOISE, _noise_binary64, _noise_binary128.
  destruct (agree_get s1 s2 global_tid S) as [E S'].
  destruct (get_rand_double01 s1 _), (get_rand_double01 s2 _).
  simpl in *. subst.
  destruct (prec W =? _); split; auto.
Qed.

Lemma agree_INEXACT g W x t ctx (s1 s2 : rng) :
  choose_seed ctx = true ->
  random_state s1 = random_state s2 ->
  agree (_INEXACT g W x t ctx s1) (_INEXACT g W x t ctx s2).
Proof.
  intros C E. unfold _INEXACT. rewrite C.
  pose proof (same_draws_init s1 s2 (seed ctx) E) as S.
  set (i1 := _init_rng_state_struct s1 true (seed ctx) false) in *.
  set (i2 := _init_rng_state_struct s2 true (seed ctx) false) in *.
  destruct (_MUST_NOT_BE_NOISED g W x t); [split; auto|].
  destruct (agree_skip (sparsity ctx) i1 i2 global_tid S) as [E1 S1].
  destruct (_mca_skip_eval _ i1 _) as [k1 j1],
           (_mca_skip_eval _ i2 _) as [k2 j2].
  simpl in *. subst k2.
  destruct k1; [split; auto|].
  assert (A1 : agree
    (if relErr ctx
     then let '(n, r) := _NOISE W (GET_EXP_FLT W x - (t - 1)) j1 in (fadd W x n, r)
     else (x, j1))
    (if relErr ctx
     then let '(n, r) := _NOISE W (GET_EXP_FLT W x - (t - 1)) j2 in (fadd W x n, r)
     else (x, j2))).
  { destruct (relErr ctx); [|split; auto].
    destruct (agree_NOISE W (GET_EXP_FLT W x - (t - 1)) j1 j2 S1) as [E2 S2].
    destruct (_NOISE W _ j1), (_NOISE W _ j2). simpl in *. subst.
    split; auto. }
  destruct A1 as [E3 S3].
  destruct (if relErr ctx then _ else _) as [x1 r1].
  destruct (if relErr ctx then _ else _) as [x2 r2].
  simpl in *. subst x2.
  destruct (absErr ctx); [|split; auto].
  destruct (agree_NOISE W (absErr_exp ctx) r1 r2 S3) as [E4 S4].
  destruct (_NOISE W _ r1), (_NOISE W _ r2). simpl in *. subst.
  split; auto.
Qed.

Lemma agree_FAST_INEXACT g W x t ctx (s1 s2 : rng) :
  choose_seed ctx = true ->
  same_draws s1 s2 ->
  agree (_FAST_INEXACT g W x t ctx s1) (_FAST_INEXACT g W x t ctx s2).
Proof.
  intros C S. unfold _FAST_INEXACT. rewrite C.
  destruct (_ || _); [split; auto|].
  pose proof (same_draws_init s1 s2 (seed ctx) (same_draws_state _ _ S)) as S0.
  destruct (agree_NOISE W (GET_EXP_FLT W x - (t - 1)) _ _ S0) as [E1 S1].
  destruct (_NOISE W _ _), (_NOISE W _ _). simpl in *. subst.
  split; auto.
Qed.

Lemma agree_INEXACT_BINARYN g W x ctx (s1 s2 : rng) :
  choose_seed ctx = true ->
  same_draws s1 s2 ->
  agree (_INEXACT_BINARYN g W x ctx s1) (_INEXACT_BINARYN g W x ctx s2).
Proof.
  intros C S. rewrite !_INEXACT_BINARYN_eq.
  apply agree_INEXACT; [assumption | apply same_draws_state, S].
Qed.

Lemma agree_MCA_BINARY_OP g T W A B OP ctx (s1 s2 : rng) :
  choose_seed ctx = true ->
  same_draws s1 s2 ->
  agree (_MCA_BINARY_OP g T W A B OP ctx s1) (_MCA_BINARY_OP g T W A B OP ctx s2).
Proof.
  intros C S. rewrite !_MCA_BINARY_OP_stages.
  unfold noise_inputs, noise_result.
  set (A0 := widen_operand T W ctx A). set (B0 := widen_operand T W ctx B).
  destruct (mcamode_eqb (MCALIB_MODE g) mcamode_pb
            || mcamode_eqb (MCALIB_MODE g) mcamode_mca);
  destruct (mcamode_eqb (MCALIB_MODE g) mcamode_rr
            || mcamode_eqb (MCALIB_MODE g) mcamode_mca).
  - destruct (agree_INEXACT_BINARYN g W A0 ctx s1 s2 C S) as [E1 S1].
    destruct (_INEXACT_BINARYN g W A0 ctx s1) as [a1 r1],
             (_INEXACT_BINARYN g W A0 ctx s2) as [a2 r2].
    simpl in *. subst a2.
    destruct (agree_INEXACT_BINARYN g W B0 ctx r1 r2 C S1) as [E2 S2].
    destruct (_INEXACT_BINARYN g W B0 ctx r1) as [b1 t1],
             (_INEXACT_BINARYN g W B0 ctx r2) as [b2 t2].
    simpl in *. subst b2.
    destruct (agree_INEXACT_BINARYN g W (PERFORM_BIN_OP W OP a1 b1) ctx
                t1 t2 C S2) as [E3 S3].
    destruct (_INEXACT_BINARYN g W _ ctx t1), (_INEXACT_BINARYN g W _ ctx t2).
    simpl in *. subst. split; auto.
  - destruct (agree_INEXACT_BINARYN g W A0 ctx s1 s2 C S) as [E1 S1].
    destruct (_INEXACT_BINARYN g W A0 ctx s1) as [a1 r1],
             (_INEXACT_BINARYN g W A0 ctx s2) as [a2 r2].
    simpl in *. subst a2.
    destruct (agree_INEXACT_BINARYN g W B0 ctx r1 r2 C S1) as [E2 S2].
    destruct (_INEXACT_BINARYN g W B0 ctx r1) as [b1 t1],
             (_INEXACT_BINARYN g W B0 ctx r2) as [b2 t2].
    simpl in *. subst b2. split; auto.
  - destruct (agree_INEXACT_BINARYN g W (PERFORM_BIN_OP W OP A0 B0) ctx
                s1 s2 C S) as [E3 S3].
    destruct (_INEXACT_BINARYN g W _ ctx s1), (_INEXACT_BINARYN g W _ ctx s2).
    simpl in *. subst. split; auto.
  - split; auto.
Qed.

Lemma agree_usercall_inexact g ctx ft v p (s1 s2 : rng) :
  choose_seed ctx = true ->
  same_draws s1 s2 ->
  agree (_interflop_usercall_inexact g ctx ft v p s1)
        (_interflop_usercall_inexact g ctx ft v p s2).
Proof.
  intros C S. unfold _interflop_usercall_inexact.
  destruct ft;
    try (destruct (_IS_IEEE_MODE g || _); [split; auto|]);
    try (split; auto; fail);
    match goal with
    | |- context [_FAST_INEXACT ?g ?W ?x ?t ?c s1] =>
        destruct (agree_FAST_INEXACT g W x t c s1 s2 C S) as [E1 S1];
        destruct (_FAST_INEXACT g W x t c s1), (_FAST_INEXACT g W x t c s2)
    end;
    simpl in *; subst; split; auto.
Qed.

(** Two outcomes of one operation that agree. *)
Definition agree_outcome
    (r1 r2 : outcome (mcalib * option spec_float * rng)) : Prop :=
  match r1, r2 with
  | Ok (g1, o1, t1), Ok (g2, o2, t2) =>
      g1 = g2 /\ o1 = o2 /\ same_draws t1 t2
  | Fatal m1, Fatal m2 => m1 = m2
  | _, _ => False
  end.

Lemma agree_run_op g ctx o (s1 s2 : rng) :
  choose_seed ctx = true ->
  same_draws s1 s2 ->
  agree_outcome (run_op g ctx o s1) (run_op g ctx o s2).
Proof.
  intros C S. destruct o as [a b op|a b op|call]; simpl.
  - destruct (agree_MCA_BINARY_OP g binary32 binary64 a b op ctx s1 s2 C S)
      as [E1 S1].
    unfold _mca_binary32_binary_op.
    destruct (_MCA_BINARY_OP g _ _ a b op ctx s1),
             (_MCA_BINARY_OP g _ _ a b op ctx s2).
    simpl in *. subst. auto.
  - destruct (agree_MCA_BINARY_OP g binary64 binary128 a b op ctx s1 s2 C S)
      as [E1 S1].
    unfold _mca_binary64_binary_op.
    destruct (_MCA_BINARY_OP g _ _ a b op ctx s1),
             (_MCA_BINARY_OP g _ _ a b op ctx s2).
    simpl in *. subst. auto.
  - destruct call as [ft v p|p|p|id]; simpl.
    + destruct (agree_usercall_inexact g ctx ft v p s1 s2 C S) as [E1 S1].
      destruct (_interflop_usercall_inexact g ctx ft v p s1),
               (_interflop_usercall_inexact g ctx ft v p s2).
      simpl in *. subst. auto.
    + destruct (_set_mca_precision_binary32 g p); simpl; auto.
    + destruct (_set_mca_precision_binary64 g p); simpl; auto.
    + auto.
Qed.

Lemma agree_run_ops ctx ops :
  choose_seed ctx = true ->
  forall g (s1 s2 : rng),
    same_draws s1 s2 -> run_ops g ctx ops s1 = run_ops g ctx ops s2.
Proof.
  intros C. induction ops as [|o rest IH]; intros g s1 s2 S; simpl.
  - reflexivity.
  - pose proof (agree_run_op g ctx o s1 s2 C S) as A.
    destruct (run_op g ctx o s1) as [[[g1 o1] t1]|m1],
             (run_op g ctx o s2) as [[[g2 o2] t2]|m2];
      simpl in A; try contradiction; auto.
    destruct A as (-> & -> & S'). f_equal. apply IH, S'.
Qed.

(** A seed option leaves [choose_seed] set, and no option clears it. *)
Lemma parse_opt_choose_seed key arg ctx g err ctx' g' :
  parse_opt key arg ctx g = Ok (err, ctx', g') ->
  (choose_seed ctx = true \/ key = KEY_SEED) ->
  choose_seed ctx' = true.
Proof.
  intros E Hc.
  assert (K : key = KEY_SEED -> choose_seed ctx' = true).
  { intros ->. simpl in E.
    destruct (Libc.strtoull arg) as [[v e] n].
    destruct (errno_set n); inversion E; reflexivity. }
  destruct Hc as [Hc|Hk]; [|auto].
  destruct key; auto; simpl in E;
    repeat match type of E with
           | context [Libc.strtol ?a] => destruct (Libc.strtol a) as [[? ?] ?]
           | context [Libc.strtof ?a] => destruct (Libc.strtof a) as [[? ?] ?]
           | context [if ?c then _ else _] => destruct c
           | bind ?x _ = _ => destruct x; simpl in E
           end;
    inversion E; subst; simpl; auto.
Qed.

Lemma argp_parse_choose_seed argv :
  forall ctx g ctx' g',
    argp_parse argv ctx g = Ok (ctx', g') ->
    (choose_seed ctx = true \/ In KEY_SEED (map fst argv)) ->
    choose_seed ctx' = true.
Proof.
  induction argv as [|[key arg] rest IH]; intros ctx g ctx' g' E Hc; simpl in *.
  - inversion E; subst. destruct Hc as [Hc|[]]; exact Hc.
  - destruct (parse_opt key arg ctx g) as [[[err c1] g1]|m] eqn:P;
      simpl in E; [|discriminate].
    destruct (err =? 0); [|discriminate].
    apply (IH c1 g1 ctx' g' E).
    destruct Hc as [Hc|[Hk|Hin]]; auto; left;
      apply (parse_opt_choose_seed key arg ctx g err c1 g1 P); auto.
Qed.

(** C6.  Two runs of a single-threaded host with the same backend options,
    among them a seed, and the same sequence of operations return the same
    outputs, bit for bit, whatever the entropy source would have delivered
    in each run. *)
Theorem seed_reproducibility (argv : list (key_args * string))
    (ops : list operation) (entropy1 entropy2 : Z) :
  In KEY_SEED (map fst argv) ->
  run_program argv ops entropy1 = run_program argv ops entropy2.
Proof.
  intros Hs. unfold run_program, interflop_init.
  change (_set_mca_precision_binary32 mcalib_static
            MCA_PRECISION_BINARY32_DEFAULT) with (Ok mcalib_static).
  cbn [bind].
  change (_set_mca_precision_binary64 mcalib_static
            MCA_PRECISION_BINARY64_DEFAULT) with (Ok mcalib_static).
  cbn [bind].
  change (_set_mca_mode mcalib_static MCA_MODE_DEFAULT) with (Ok mcalib_static).
  cbn [bind].
  destruct (argp_parse argv init_context mcalib_static) as [[ctx g]|m] eqn:P;
    cbn [bind]; [|reflexivity].
  pose proof (argp_parse_choose_seed argv _ _ _ _ P (or_intror Hs)) as C.
  f_equal. apply agree_run_ops; [exact C|].
  rewrite C. apply same_draws_init. reflexivity.
Qed.

End Reproducibility.

(** Two runs seeded with 1 in mode rr computing 1/3 and 1 + 1 in binary32. *)
Definition f3 : spec_float := cast binary32 (S754_finite false 3 0).

Lemma seed_reproducibility_witness :
  run_program (G := nat) [(KEY_MODE, "rr"); (KEY_SEED, "1")]%string
    [op_float one32 f3 mca_div; op_float one32 one32 mca_add] 2024
  = run_program (G := nat) [(KEY_MODE, "rr"); (KEY_SEED, "1")]%string
      [op_float one32 f3 mca_div; op_float one32 one32 mca_add] 7.
Proof.
  apply (seed_reproducibility (G := nat)). simpl. auto.
Defined.

End MCAProofs.

(** * The perturbation of a result in mode rr *)

Module NoiseProofs.
Import FloatStruct FloatUtils Rng Mca Rounding RoundingOps MCAProofs.

(** The formats the backend computes in. *)
Definition working (W : format) : Prop := W = binary64 \/ W = binary128.

Lemma working_facts W :
  working W ->
  53 <= prec W /\ 64 <= emax W /\ 971 <= emax W - prec W
  /\ 2 ^ EXP_SIZE W = 2 * emax W
  /\ fmt_emin W = 3 - emax W - prec W
  /\ fmt_emin W <= -1074.
Proof. intros [->| ->]; repeat split; vm_compute; congruence. Qed.

(** Fields of a normal value. *)
Lemma view_normal W s m e :
  2 ^ PMAN_SIZE W <= Zpos m ->
  view W (S754_finite s m e)
  = {| sign := s; exponent := e - fmt_emin W + 1;
       mantissa := Zpos m - 2 ^ PMAN_SIZE W |}.
Proof.
  intros H. unfold view.
  destruct (Z.leb_spec (2 ^ PMAN_SIZE W) (Zpos m)); [reflexivity | lia].
Qed.

(** Adding [k] to the exponent field of a normal value scales it by
    [2^k], as long as the field stays in the normal range. *)
Lemma noise_scale W s m e k :
  2 ^ PMAN_SIZE W <= Zpos m ->
  1 <= e - fmt_emin W + 1 + k <= EXP_ALL_ONES W - 1 ->
  let v := view W (S754_finite s m e) in
  unview W (set_exponent W v (exponent v + k)) = S754_finite s m (e + k).
Proof.
  intros Hm Hk v. unfold v. rewrite view_normal by assumption.
  unfold set_exponent, unview. cbn [sign exponent mantissa].
  unfold EXP_ALL_ONES in *.
  rewrite Z.mod_small by lia.
  destruct (Z.eqb_spec (e - fmt_emin W + 1 + k) 0); [lia|].
  destruct (Z.eqb_spec (e - fmt_emin W + 1 + k) (2 ^ EXP_SIZE W - 1)); [lia|].
  f_equal; [|lia].
  replace (Zpos m - 2 ^ PMAN_SIZE W + 2 ^ PMAN_SIZE W) with (Zpos m) by lia.
  reflexivity.
Qed.

(** A member of a format is left as it is by the conversion to it. *)
Lemma cast_valid W x :
  0 < prec W ->
  valid_binary (prec W) (emax W) x = true -> cast W x = x.
Proof.
  intros Hp Hv. destruct x as [| | |s m e]; try reflexivity.
  unfold cast.
  set (c := SpecFloat.emin (prec W) (emax W)).
  assert (He : c <= e).
  { simpl in Hv. unfold bounded, canonical_mantissa in Hv.
    apply andb_true_iff in Hv. destruct Hv as [Hc _]. apply Z.eqb_eq in Hc.
    pose proof (fexp_ge_emin (prec W) (emax W) (Zpos (digits2_pos m) + e)).
    unfold c. lia. }
  rewrite (binary_normalize_eq (prec W) (emax W) Hp _ e s c) by (unfold c; lia).
  destruct (valid_on_grid (prec W) (emax W) s m e c He Hv) as [Hg Hf].
  assert (Hx : 0 < Zpos m * 2 ^ (e - c))
    by (apply Z.mul_pos_pos; [lia | apply Z.pow_pos_nonneg; lia]).
  destruct s; cbn [cond_Zopp Z.opp Z.eqb Z.ltb Z.compare Z.abs];
    rewrite RNz_on_grid by (assumption || (unfold c; lia));
    exact Hf.
Qed.


Section Format.
Variable W : format.
Hypothesis prec_pos : 0 < prec W.

Local Abbreviation c := (SpecFloat.emin (prec W) (emax W)).
Local Abbreviation zexpW := (Rounding.zexp (prec W) (emax W)).
Local Abbreviation RNzW := (Rounding.RNz (prec W) (emax W)).
Local Abbreviation SFofZW := (Rounding.SFofZ (prec W) (emax W)).
Local Abbreviation on_gridW := (Rounding.on_grid (prec W) (emax W)).

(** The float built from a positive integer on the grid. *)
Lemma SFofZ_finite s Y :
  0 < Y -> on_gridW c Y -> zexpW c Y <= emax W - prec W ->
  exists m e,
    SFofZW s c Y = S754_finite s m e
    /\ Zpos m * 2 ^ (e - c) = Y /\ c <= e
    /\ valid_binary (prec W) (emax W) (S754_finite s m e) = true.
Proof.
  intros HY Hg Hov.
  pose proof (zexp_ge (prec W) (emax W) c Y (Z.le_refl _)) as Hn.
  unfold Rounding.on_grid in Hg.
  set (n := zexpW c Y - c) in *.
  assert (Hp : 0 < 2 ^ n) by (apply Z.pow_pos_nonneg; lia).
  assert (HYm : Y = Y / 2 ^ n * 2 ^ n).
  { pose proof (Z.div_mod Y (2 ^ n) ltac:(lia)). lia. }
  assert (Hm : 0 < Y / 2 ^ n) by nia.
  exists (Z.to_pos (Y / 2 ^ n)), (zexpW c Y).
  rewrite Z2Pos.id by assumption. fold n.
  repeat split; try lia.
  - unfold Rounding.SFofZ.
    destruct (Z.eqb_spec Y 0) as [|_]; [lia|].
    destruct (Z.leb_spec (zexpW c Y) (emax W - prec W)) as [_|]; [|lia].
    reflexivity.
  - simpl. unfold bounded, canonical_mantissa.
    apply andb_true_iff. split; [|apply Z.leb_le; lia].
    apply Z.eqb_eq. rewrite digits2_pos_log2, Z2Pos.id by assumption.
    assert (Hl : Z.log2 Y = n + Z.log2 (Y / 2 ^ n)).
    { rewrite HYm at 1. apply Z.log2_mul_pow2; lia. }
    assert (En : n = zexpW c Y - c) by reflexivity.
    replace (Z.log2 (Y / 2 ^ n) + 1 + zexpW c Y) with (Z.log2 Y + 1 + c) by lia.
    reflexivity.
Qed.

End Format.

(** A binary64 value converted to a working format: the conversion is
    exact. *)
Lemma cast_working W s mu eu :
  working W ->
  valid_binary 53 1024 (S754_finite s mu eu) = true ->
  let c := fmt_emin W in
  exists m e,
    cast W (S754_finite s mu eu) = S754_finite s m e
    /\ Zpos m * 2 ^ (e - c) = Zpos mu * 2 ^ (eu - c) /\ c <= e
    /\ valid_binary (prec W) (emax W) (S754_finite s m e) = true.
Proof.
  intros HW Hv c.
  destruct (working_facts W HW) as (Hp & He & Hpe & H2 & Hc & Hc64).
  fold c in Hc, Hc64.
  assert (Ec : c = SpecFloat.emin (prec W) (emax W)) by reflexivity.
  simpl in Hv. unfold bounded, canonical_mantissa in Hv.
  apply andb_true_iff in Hv. destruct Hv as [Hcan Hb].
  apply Z.eqb_eq in Hcan. apply Z.leb_le in Hb.
  unfold SpecFloat.fexp, SpecFloat.emin in Hcan.
  set (X := Zpos mu * 2 ^ (eu - c)).
  assert (HX : 0 < X)
    by (apply Z.mul_pos_pos; [lia | apply Z.pow_pos_nonneg; lia]).
  assert (Hz : Rounding.zexp (prec W) (emax W) c X
               = SpecFloat.fexp (prec W) (emax W) (Zpos (digits2_pos mu) + eu)).
  { apply zexp_scaled. lia. }
  assert (Hzle : Rounding.zexp (prec W) (emax W) c X <= eu).
  { rewrite Hz. unfold SpecFloat.fexp. rewrite <- Ec. lia. }
  assert (Hg : Rounding.on_grid (prec W) (emax W) c X).
  { unfold X. apply on_grid_mult; try lia. fold X. lia. }
  unfold cast.
  rewrite (binary_normalize_eq (prec W) (emax W) ltac:(lia) _ eu s c) by lia.
  replace (cond_Zopp s (Zpos mu) =? 0) with false by (destruct s; reflexivity).
  replace (cond_Zopp s (Zpos mu) <? 0) with s by (destruct s; reflexivity).
  replace (Z.abs (cond_Zopp s (Zpos mu))) with (Zpos mu) by (destruct s; reflexivity).
  fold X. rewrite RNz_on_grid by (assumption || lia).
  assert (Hpp : 0 < prec W) by lia.
  destruct (SFofZ_finite W s X HX) as (m & e & H1 & H3 & H4 & H5).
  - exact Hg.
  - change (Rounding.zexp (prec W) (emax W) c X <= emax W - prec W). lia.
  - exists m, e. repeat split; assumption.
Qed.

Lemma Zlt_of_Qlt_one m e c0 :
  c0 <= e -> c0 <= 0 ->
  Qle_bool 1 (inject_Z (Zpos m) * pow2 e) = false ->
  Zpos m * 2 ^ (e - c0) < 2 ^ (- c0).
Proof.
  intros Hce Hc0 Hq.
  destruct (Z.lt_ge_cases (Zpos m * 2 ^ (e - c0)) (2 ^ (- c0))) as [|Hge];
    [assumption|].
  exfalso.
  assert (Hb : Qle_bool 1 (inject_Z (Zpos m) * pow2 e) = true); [|congruence].
  apply Qle_bool_iff.
  rewrite Zle_Qle in Hge.
  rewrite inject_Z_mult, !inject_Z_pow2 in Hge by lia.
  replace (e - c0) with (e + - c0) in Hge by lia.
  rewrite pow2_add in Hge.
  rewrite Qmult_assoc in Hge.
  apply Qmult_le_r with (z := pow2 (- c0)); [apply pow2_pos|].
  rewrite Qmult_1_l. exact Hge.
Qed.

(** What is known of a draw once it is converted to the working format. *)
Lemma draw_facts W u :
  working W ->
  valid_binary 53 1024 u = true ->
  in_open01 u = true ->
  u <> half binary64 ->
  let c := fmt_emin W in
  exists m e,
    cast W u = S754_finite false m e
    /\ valid_binary (prec W) (emax W) (S754_finite false m e) = true
    /\ c <= e
    /\ Zpos m * 2 ^ (e - c) < 2 ^ (- c)
    /\ Zpos m * 2 ^ (e - c) <> 2 ^ (- 1 - c)
    /\ ((Zpos m * 2 ^ (e - c)) mod 2 ^ (- 54 - c) = 0
        \/ Zpos m * 2 ^ (e - c) < 2 ^ (- 2 - c)).
Proof.
  intros HW Hv Ho Hne c.
  destruct (working_facts W HW) as (Hp & He & Hpe & H2 & Hc & Hc64).
  fold c in Hc, Hc64.
  destruct u as [| | |s mu eu]; try discriminate.
  destruct s; [discriminate|].
  unfold in_open01, SF2Q in Ho. cbn [cond_Zopp] in Ho.
  apply negb_true_iff in Ho.
  destruct (cast_working W false mu eu HW Hv) as (m & e & Hcast & Hval & Hce & Hvw).
  fold c in Hval, Hce.
  assert (Hv' := Hv).
  simpl in Hv'. unfold bounded, canonical_mantissa in Hv'.
  apply andb_true_iff in Hv'. destruct Hv' as [Hcan Hb].
  apply Z.eqb_eq in Hcan. apply Z.leb_le in Hb.
  rewrite digits2_pos_log2 in Hcan.
  unfold SpecFloat.fexp, SpecFloat.emin in Hcan.
  assert (Heu : c <= eu) by lia.
  pose proof (log2_lower (Zpos mu) ltac:(lia)) as [Hl1 Hl2].
  pose proof (Z.log2_nonneg (Zpos mu)) as Hl0.
  exists m, e. rewrite Hval.
  assert (Hlt : Zpos mu * 2 ^ (eu - c) < 2 ^ (- c))
    by (apply Zlt_of_Qlt_one; [lia | lia | exact Ho]).
  assert (Pe : 0 < 2 ^ (eu - c)) by (apply Z.pow_pos_nonneg; lia).
  repeat split; try assumption.
  - (* not one half *)
    intros Eh. apply Hne. unfold half.
    assert (Hlog : Z.log2 (Zpos mu * 2 ^ (eu - c)) = - 1 - c)
      by (rewrite Eh; apply Z.log2_pow2; lia).
    rewrite Z.log2_mul_pow2 in Hlog by lia.
    assert (Eeu : eu = - 53) by lia.
    subst eu.
    assert (Em : Zpos mu = 2 ^ 52).
    { replace (- 1 - c) with (52 + (- 53 - c)) in Eh by lia.
      rewrite Z.pow_add_r in Eh by lia. nia. }
    change (PMAN_SIZE binary64) with 52. change (- prec binary64) with (- 53).
    f_equal. apply Pos2Z.inj. rewrite Em. reflexivity.
  - (* granularity *)
    destruct (Z.le_gt_cases (- 54) eu) as [Hbig|Hsmall].
    + left. replace (eu - c) with (eu + 54 + (- 54 - c)) by lia.
      rewrite Z.pow_add_r, Z.mul_assoc by lia.
      apply Z.mod_mul. apply Z.pow_nonzero; lia.
    + right.
      assert (Z.log2 (Zpos mu) <= 52) by lia.
      assert (Zpos mu < 2 ^ 53).
      { apply Z.lt_le_trans with (2 ^ (Z.log2 (Zpos mu) + 1)); [lia|].
        apply Z.pow_le_mono_r; lia. }
      assert (2 ^ 53 * 2 ^ (eu - c) <= 2 ^ (- 2 - c)).
      { rewrite <- Z.pow_add_r by lia. apply Z.pow_le_mono_r; lia. }
      nia.
Qed.


Lemma pow2_eq a b : a = b -> (pow2 a == pow2 b)%Q.
Proof. intros ->. reflexivity. Qed.

Lemma Qabs_inject_Z z : (Qabs (inject_Z z) == inject_Z (Z.abs z))%Q.
Proof. unfold Qabs, inject_Z. simpl. reflexivity. Qed.

(** The rational form of [add_noise_Z]. *)
Lemma add_noise_Q W sR mR eR sd md en t :
  let c := fmt_emin W in
  1 < prec W ->
  1 <= t <= prec W - 1 ->
  c <= eR -> eR + 1 <= emax W - prec W ->
  2 ^ (prec W - 1) <= Zpos mR < 2 ^ prec W ->
  c <= en ->
  Zpos md * 2 ^ (en - c) <= 2 ^ (prec W - t - 1) * 2 ^ (eR - c) ->
  let R := S754_finite sR mR eR in
  let R' := fadd W R (S754_finite sd md en) in
  is_finite R' = true
  /\ (Qabs (SF2Q R' - SF2Q R) < pow2 (eR + prec W - t))%Q.
Proof.
  intros c Hp Ht HeR Hov HmR Hen HN R R'.
  assert (Hpp : 0 < prec W) by lia.
  destruct (add_noise_Z (prec W) (emax W) Hpp sR mR eR sd md en t
              Hp Ht HeR Hov HmR Hen HN) as (Y & HY & HY0 & HYg & HYov & HYb).
  fold c in HY, HYg, HYov, HYb.
  unfold R', fadd, R. rewrite HY. fold R.
  destruct (SFofZ_finite W sR Y HY0 HYg HYov) as (m & e & Hf & _).
  split.
  - rewrite Hf. reflexivity.
  - change (SpecFloat.emin (prec W) (emax W)) with c.
    rewrite (SF2Q_SFofZ (prec W) (emax W) sR c Y) by (assumption || apply Z.le_refl).
    assert (Pj : 0 < 2 ^ (eR - c)) by (apply Z.pow_pos_nonneg; lia).
    assert (HR : (SF2Q R == inject_Z (cond_Zopp sR (Zpos mR * 2 ^ (eR - c))) * pow2 c)%Q).
    { unfold R, SF2Q. rewrite !inject_Z_cond_Zopp.
      rewrite inject_Z_mult, inject_Z_pow2 by lia.
      replace eR with (eR - c + c) at 1 by lia.
      rewrite pow2_add. ring. }
    rewrite HR.
    set (XR := Zpos mR * 2 ^ (eR - c)) in *.
    assert (Hd : (inject_Z (cond_Zopp sR Y) * pow2 c
                  - inject_Z (cond_Zopp sR XR) * pow2 c
                  == inject_Z (cond_Zopp sR (Y - XR)) * pow2 c)%Q).
    { rewrite !inject_Z_cond_Zopp. unfold Z.sub.
      rewrite inject_Z_plus, inject_Z_opp. ring. }
    rewrite Hd, Qabs_Qmult, Qabs_inject_Z.
    rewrite (Qabs_pos (pow2 c)) by (apply Qlt_le_weak, pow2_pos).
    replace (Z.abs (cond_Zopp sR (Y - XR))) with (Z.abs (Y - XR))
      by (destruct sR; simpl; lia).
    assert (Hk : (pow2 (eR + prec W - t)
                  == inject_Z (2 * (2 ^ (prec W - t - 1) * 2 ^ (eR - c))) * pow2 c)%Q).
    { rewrite !inject_Z_mult, !inject_Z_pow2 by lia.
      change (inject_Z 2) with (pow2 1).
      rewrite <- !pow2_add. apply pow2_eq. lia. }
    rewrite Hk.
    apply Qmult_lt_r; [apply pow2_pos|].
    rewrite <- Zlt_Qlt. exact HYb.
Qed.


Section WithGen.
Context {G : Type} `{UniformGenOk G}.

Lemma get_rand_ok (st : rng_state_t G) tid :
  in_open01 (fst (get_rand_double01 st tid)) = true
  /\ valid_binary 53 1024 (fst (get_rand_double01 st tid)) = true.
Proof.
  unfold get_rand_double01.
  set (g := match random_state st with Some g => g | None => _ end).
  pose proof (gen_double01_range g) as Hr.
  pose proof (gen_double01_valid g) as Hv.
  destruct (gen_double01 g) as [u g']. simpl in *. auto.
Qed.

(** The centred draw at the working precision. *)
Definition centred (W : format) (u : spec_float) : spec_float :=
  fsub W (cast W u) (half W).

Lemma centred_normal W u :
  working W ->
  valid_binary 53 1024 u = true ->
  in_open01 u = true ->
  u <> half binary64 ->
  exists sd md ed,
    centred W u = S754_finite sd md ed
    /\ 2 ^ (prec W - 1) <= Zpos md < 2 ^ prec W
    /\ - 53 - prec W <= ed <= - prec W
    /\ Zpos md * 2 ^ (ed + prec W + 53) <= 2 ^ (prec W + 52).
Proof.
  intros HW Hv Ho Hne.
  destruct (working_facts W HW) as (Hp & He & Hpe & H2 & Hc & Hc64).
  destruct (draw_facts W u HW Hv Ho Hne) as (m & e & Hcast & Hvw & Hce & Hlt & Hnh & Hgr).
  unfold centred. rewrite Hcast.
  destruct (sub_half_normal (prec W) (emax W) ltac:(lia) false m e Hp He
              eq_refl Hce Hlt Hnh Hgr)
    as (sd & md & ed & Hsub & _ & Hmd & Hed & Hmag).
  exists sd, md, ed. repeat split; try lia.
  exact Hsub.
Qed.

Lemma _NOISE_centred W k (st : rng_state_t G) :
  working W ->
  _NOISE W k st =
  let d := centred W (fst (get_rand_double01 st global_tid)) in
  let v := view W d in
  (unview W (set_exponent W v (exponent v + k)),
   snd (get_rand_double01 st global_tid)).
Proof.
  intros [->| ->]; unfold _NOISE, _noise_binary64, _noise_binary128, centred.
  - change (prec binary64 =? prec binary64) with true. cbv iota.
    destruct (get_rand_ok st global_tid) as [_ Hv].
    destruct (get_rand_double01 st global_tid) as [u st']. simpl fst in *.
    rewrite (cast_valid binary64 u) by (reflexivity || exact Hv).
    reflexivity.
  - change (prec binary128 =? prec binary64) with false. cbv iota.
    destruct (get_rand_double01 st global_tid) as [u st']. reflexivity.
Qed.

(** The noise is the centred draw scaled by [2^k]. *)
Lemma _NOISE_value W k (st : rng_state_t G) :
  working W ->
  fst (get_rand_double01 st global_tid) <> half binary64 ->
  fmt_emin W + 53 + prec W <= k <= emax W ->
  exists sd md ed,
    centred W (fst (get_rand_double01 st global_tid)) = S754_finite sd md ed
    /\ fst (_NOISE W k st) = S754_finite sd md (ed + k)
    /\ 2 ^ (prec W - 1) <= Zpos md < 2 ^ prec W
    /\ - 53 - prec W <= ed <= - prec W
    /\ Zpos md * 2 ^ (ed + prec W + 53) <= 2 ^ (prec W + 52).
Proof.
  intros HW Hne Hk.
  destruct (working_facts W HW) as (Hp & He & Hpe & H2 & Hc & Hc64).
  destruct (get_rand_ok st global_tid) as [Ho Hv].
  destruct (centred_normal W _ HW Hv Ho Hne) as (sd & md & ed & Hd & Hmd & Hed & Hmag).
  exists sd, md, ed. repeat split; try lia; try assumption.
  rewrite _NOISE_centred by assumption. cbv zeta. simpl fst.
  rewrite Hd. apply noise_scale.
  - unfold PMAN_SIZE. lia.
  - unfold EXP_ALL_ONES. lia.
Qed.


Lemma GET_EXP_FLT_normal W s m e :
  working W -> 2 ^ PMAN_SIZE W <= Zpos m -> fmt_emin W <= e ->
  GET_EXP_FLT W (S754_finite s m e) = e + prec W - 1.
Proof.
  intros HW Hm He.
  destruct (working_facts W HW) as (Hp & Hx & Hpe & H2 & Hc & Hc64).
  unfold GET_EXP_FLT. rewrite view_normal by assumption.
  cbn [exponent mantissa].
  destruct (Z.eqb_spec (e - fmt_emin W + 1) 0); [lia|].
  cbn [andb]. unfold EXP_COMP. lia.
Qed.

Lemma not_representable_precision W R t :
  FPCLASSIFY W R = FP_NORMAL ->
  _IS_REPRESENTABLE W R t = false ->
  t <= prec W - 1.
Proof.
  intros Hc Hr. unfold _IS_REPRESENTABLE in Hr. rewrite Hc in Hr.
  destruct (Z.le_gt_cases t (prec W - 1)) as [|Hgt]; [assumption|].
  exfalso. unfold low_bits, PMAN_SIZE in Hr.
  replace (Z.max 0 (prec W - 1 - (t - 1))) with 0 in Hr by lia.
  change (Z.ones 0) with 0 in Hr. rewrite Z.land_0_r in Hr. discriminate.
Qed.

Lemma normal_valid_fields W R :
  working W ->
  valid_binary (prec W) (emax W) R = true ->
  FPCLASSIFY W R = FP_NORMAL ->
  exists s m e,
    R = S754_finite s m e
    /\ 2 ^ (prec W - 1) <= Zpos m < 2 ^ prec W
    /\ fmt_emin W <= e <= emax W - prec W.
Proof.
  intros HW Hv Hc.
  destruct (working_facts W HW) as (Hp & Hx & Hpe & H2 & Hce & Hc64).
  destruct R as [| | |s m e]; try discriminate.
  exists s, m, e. split; [reflexivity|].
  unfold FPCLASSIFY, PMAN_SIZE in Hc.
  destruct (Z.leb_spec (2 ^ (prec W - 1)) (Zpos m)) as [Hm|]; [|discriminate].
  simpl in Hv. unfold bounded, canonical_mantissa in Hv.
  apply andb_true_iff in Hv. destruct Hv as [Hcan Hb].
  apply Z.eqb_eq in Hcan. apply Z.leb_le in Hb.
  rewrite digits2_pos_log2 in Hcan.
  pose proof (log2_lower (Zpos m) ltac:(lia)) as [Hl1 Hl2].
  assert (Hlog : Z.log2 (Zpos m) + 1 <= prec W)
    by (unfold SpecFloat.fexp in Hcan; lia).
  assert (2 ^ (Z.log2 (Zpos m) + 1) <= 2 ^ prec W)
    by (apply Z.pow_le_mono_r; lia).
  pose proof (fexp_ge_emin (prec W) (emax W) (Z.log2 (Zpos m) + 1 + e)).
  unfold fmt_emin. repeat split; lia.
Qed.

(** In mode rr with the relative error mode and sparsity 1, a normal value
    that is not representable is perturbed by one scaled draw. *)
Lemma _INEXACT_rr g W R t ctx (st : rng_state_t G) :
  MCALIB_MODE g = mcamode_rr ->
  relErr ctx = true -> absErr ctx = false ->
  sparsity ctx = cast binary32 (S754_finite false 1 0) ->
  FPCLASSIFY W R = FP_NORMAL ->
  _IS_REPRESENTABLE W R t = false ->
  _INEXACT g W R t ctx st =
  let st1 := _init_rng_state_struct st (choose_seed ctx) (seed ctx) false in
  let n := _NOISE W (GET_EXP_FLT W R - (t - 1)) st1 in
  (fadd W R (fst n), snd n).
Proof.
  intros Hm Hrel Habs Hsp Hc Hr.
  unfold _INEXACT, _MUST_NOT_BE_NOISED, _mca_skip_eval.
  rewrite Hm, Hc, Hr, Hrel, Habs, Hsp. cbn [mcamode_eqb fpclass_eqb negb andb orb].
  change (SFleb (cast binary32 (S754_finite false 1 0))
            (cast binary32 (S754_finite false 1 0))) with true.
  cbv iota beta zeta.
  destruct (_NOISE W _ _) as [n st2]. reflexivity.
Qed.

(** The perturbation of one value in mode rr. *)
Lemma _INEXACT_rr_bound g W R t ctx (st : rng_state_t G) :
  working W ->
  MCALIB_MODE g = mcamode_rr ->
  relErr ctx = true -> absErr ctx = false ->
  sparsity ctx = cast binary32 (S754_finite false 1 0) ->
  1 <= t ->
  valid_binary (prec W) (emax W) R = true ->
  FPCLASSIFY W R = FP_NORMAL ->
  _IS_REPRESENTABLE W R t = false ->
  EXP_MIN W + 53 + t <= GET_EXP_FLT W R <= EXP_COMP W - 1 ->
  fst (get_rand_double01
         (_init_rng_state_struct st (choose_seed ctx) (seed ctx) false)
         global_tid) <> half binary64 ->
  let R' := fst (_INEXACT g W R t ctx st) in
  is_finite R' = true
  /\ (Qabs (SF2Q R' - SF2Q R) < pow2 (GET_EXP_FLT W R - (t - 1)))%Q.
Proof.
  intros HW Hm Hrel Habs Hsp Ht Hv Hc Hr Hrange Hu R'.
  destruct (working_facts W HW) as (Hp & Hx & Hpe & H2 & Hce & Hc64).
  pose proof (not_representable_precision W R t Hc Hr) as Htp.
  destruct (normal_valid_fields W R HW Hv Hc) as (s & m & e & -> & Hmb & He).
  unfold R'. rewrite _INEXACT_rr by assumption. cbv zeta. cbn [fst].
  rewrite GET_EXP_FLT_normal in * by (unfold PMAN_SIZE; lia || assumption).
  unfold EXP_MIN, EXP_COMP in Hrange.
  set (st1 := _init_rng_state_struct st (choose_seed ctx) (seed ctx) false) in *.
  destruct (_NOISE_value W (e + prec W - 1 - (t - 1)) st1 HW Hu ltac:(lia))
    as (sd & md & ed & _ & Hn & Hmd & Hed & Hmag).
  rewrite Hn.
  replace (e + prec W - 1 - (t - 1)) with (e + prec W - t) by lia.
  apply add_noise_Q; try lia.
  set (c := fmt_emin W) in *.
  replace (ed + (e + prec W - t) - c)
    with (ed + prec W + 53 + (e - t - c - 53)) by lia.
  rewrite Z.pow_add_r, Z.mul_assoc by lia.
  assert (P : 0 < 2 ^ (e - t - c - 53)) by (apply Z.pow_pos_nonneg; lia).
  apply Z.le_trans with (2 ^ (prec W + 52) * 2 ^ (e - t - c - 53)); [nia|].
  rewrite <- !Z.pow_add_r by lia. apply Z.pow_le_mono_r; lia.
Qed.


(** The driver in mode rr with the relative error mode and sparsity 1:
    when the result [R] computed at the working precision is a normal
    member of the working format, not representable in the virtual
    precision [t], with the exponent of the noise inside the normal range
    of the working format, then for every draw other than 0.5 the value
    [R'] that the driver narrows is finite and
    [|R' - R| < 2^(GET_EXP(R) - (t - 1))]. *)
Lemma rr_perturbation_in_range g T W A B OP ctx (st : rng_state_t G) :
  working W ->
  MCALIB_MODE g = mcamode_rr ->
  relErr ctx = true -> absErr ctx = false ->
  sparsity ctx = cast binary32 (S754_finite false 1 0) ->
  let t := virtual_precision g W in
  let R := PERFORM_BIN_OP W OP (widen_operand T W ctx A)
             (widen_operand T W ctx B) in
  1 <= t ->
  valid_binary (prec W) (emax W) R = true ->
  FPCLASSIFY W R = FP_NORMAL ->
  _IS_REPRESENTABLE W R t = false ->
  EXP_MIN W + 53 + t <= GET_EXP_FLT W R <= EXP_COMP W - 1 ->
  fst (get_rand_double01
         (_init_rng_state_struct st (choose_seed ctx) (seed ctx) false)
         global_tid) <> half binary64 ->
  exists R',
    fst (_MCA_BINARY_OP g T W A B OP ctx st) = narrow_result T W ctx R'
    /\ is_finite R' = true
    /\ (Qabs (SF2Q R' - SF2Q R) < pow2 (GET_EXP_FLT W R - (t - 1)))%Q.
Proof.
  intros HW Hm Hrel Habs Hsp t R Ht Hv Hc Hr Hrange Hu.
  exists (fst (_INEXACT g W R t ctx st)).
  split.
  - rewrite _MCA_BINARY_OP_stages.
    unfold noise_inputs, noise_result. rewrite Hm.
    cbn [mcamode_eqb orb]. fold R.
    rewrite _INEXACT_BINARYN_eq.
    replace (noise_width W) with W
      by (destruct HW as [->| ->]; reflexivity).
    fold t. destruct (_INEXACT g W R t ctx st). reflexivity.
  - apply _INEXACT_rr_bound; assumption.
Qed.

End WithGen.

End NoiseProofs.

(** * Rounding twice

    The drivers compute in a format wider than the one of their operands
    and convert the result back.  This part proves that, for the four
    operations, rounding to the wide format and then to the narrow one is
    rounding to the narrow one, when the wide format has at least twice
    the precision of the narrow one plus two bits; and it bounds the
    exponent of the results computed in the wide format. *)

Module DoubleRounding.
Import Rounding RoundingOps.

Lemma rne_zero n : 0 <= n -> rne 0 n = 0.
Proof.
  intros Hn. apply rne_small; [lia|].
  assert (0 < 2 ^ n) by (apply Z.pow_pos_nonneg; lia). lia.
Qed.

(** Rounding at position [n] of a number strictly below the middle of its
    interval, or strictly above it. *)
Lemma rne_below X n J :
  0 < n -> J * 2 ^ n <= X -> X < J * 2 ^ n + 2 ^ (n - 1) -> rne X n = J.
Proof.
  intros Hn H1 H2.
  assert (Hp : 2 ^ n = 2 * 2 ^ (n - 1)).
  { replace n with (n - 1 + 1) at 1 by lia. rewrite Z.pow_add_r by lia.
    change (2 ^ 1) with 2. lia. }
  assert (Hh : 0 < 2 ^ (n - 1)) by (apply Z.pow_pos_nonneg; lia).
  assert (Hq : X / 2 ^ n = J).
  { symmetry. apply Z.div_unique with (r := X - J * 2 ^ n); lia. }
  assert (Hr : X mod 2 ^ n = X - J * 2 ^ n).
  { symmetry. apply Z.mod_unique with (q := J); lia. }
  unfold rne. rewrite Hq, Hr.
  assert (Hc : 2 * (X - J * 2 ^ n) < 2 ^ n) by lia.
  unfold Z.lt in Hc. rewrite Hc. reflexivity.
Qed.

Lemma rne_above X n J :
  0 < n -> J * 2 ^ n + 2 ^ (n - 1) < X -> X < (J + 1) * 2 ^ n ->
  rne X n = J + 1.
Proof.
  intros Hn H1 H2.
  assert (Hp : 2 ^ n = 2 * 2 ^ (n - 1)).
  { replace n with (n - 1 + 1) at 1 by lia. rewrite Z.pow_add_r by lia.
    change (2 ^ 1) with 2. lia. }
  assert (Hh : 0 < 2 ^ (n - 1)) by (apply Z.pow_pos_nonneg; lia).
  assert (Hq : X / 2 ^ n = J).
  { symmetry. apply Z.div_unique with (r := X - J * 2 ^ n); lia. }
  assert (Hr : X mod 2 ^ n = X - J * 2 ^ n).
  { symmetry. apply Z.mod_unique with (q := J); lia. }
  unfold rne. rewrite Hq, Hr.
  assert (Hc : 2 * (X - J * 2 ^ n) > 2 ^ n) by lia.
  unfold Z.gt in Hc. rewrite Hc. reflexivity.
Qed.

(** The sticky representative of [N / D]: twice the integer part, plus one
    when the division is not exact. *)
Definition sticky (N D : Z) : Z := 2 * (N / D) + (if N mod D =? 0 then 0 else 1).

(** The two guard bits of a location. *)
Definition loc_code (l : location) : Z :=
  match l with
  | loc_Exact => 0
  | loc_Inexact Lt => 1
  | loc_Inexact Eq => 2
  | loc_Inexact Gt => 3
  end.

Lemma log2_guard q k : 0 < q -> 0 <= k < 4 -> Z.log2 (4 * q + k) = Z.log2 q + 2.
Proof.
  intros Hq Hk. pose proof (log2_lower q Hq) as [H1 H2].
  pose proof (Z.log2_nonneg q) as H0.
  apply Z.log2_unique; [lia|]. unfold Z.succ.
  replace (Z.log2 q + 2 + 1) with (Z.log2 q + 1 + 2) by lia.
  rewrite !(Z.pow_add_r 2 _ 2) by lia.
  change (2 ^ 2) with 4. lia.
Qed.

Lemma loc_code_range l : 0 <= loc_code l < 4.
Proof. destruct l as [|[| |]]; simpl; lia. Qed.

Lemma round_guard q l :
  round_nearest_even q l = rne (4 * q + loc_code l) 2.
Proof.
  pose proof (loc_code_range l) as Hl.
  unfold rne. change (2 ^ 2) with 4.
  assert (Hd : (4 * q + loc_code l) / 4 = q).
  { symmetry. apply Z.div_unique with (r := loc_code l); lia. }
  assert (Hr : (4 * q + loc_code l) mod 4 = loc_code l).
  { symmetry. apply Z.mod_unique with (q := q); lia. }
  rewrite Hd, Hr. destruct l as [|[| |]]; reflexivity.
Qed.

Lemma sticky_exact N D : 0 < D -> N mod D = 0 -> sticky N D * D = 2 * N.
Proof.
  intros HD H0. unfold sticky. rewrite H0. simpl (0 =? 0). cbv iota.
  pose proof (Z.div_mod N D ltac:(lia)). nia.
Qed.

Lemma sticky_inexact N D :
  0 < D -> N mod D <> 0 ->
  sticky N D = 2 * (N / D) + 1 /\ 2 * (N / D) * D < 2 * N < (2 * (N / D) + 2) * D.
Proof.
  intros HD H0. unfold sticky.
  destruct (Z.eqb_spec (N mod D) 0); [contradiction|].
  pose proof (Z.div_mod N D ltac:(lia)).
  pose proof (Z.mod_pos_bound N D HD). split; [reflexivity | nia].
Qed.

Lemma div_located m D :
  0 <= m -> 0 < D ->
  4 * (m / D) + loc_code (new_location D (m mod D)) = sticky (2 * m) D.
Proof.
  intros Hm HD.
  pose proof (Z.div_mod m D ltac:(lia)) as Hdm.
  pose proof (Z.mod_pos_bound m D HD) as Hmb.
  set (q := m / D) in *. set (r := m mod D) in *.
  assert (Hloc : loc_code (new_location D r)
                 = if r =? 0 then 0
                   else match 2 * r ?= D with Lt => 1 | Eq => 2 | Gt => 3 end).
  { unfold new_location. destruct (Z.even D) eqn:Ev.
    - unfold new_location_even. destruct (r =? 0); [reflexivity|].
      destruct (2 * r ?= D); reflexivity.
    - unfold new_location_odd. destruct (r =? 0); [reflexivity|].
      destruct (Z.compare_spec (2 * r) D) as [Ec|Lc|Gc];
        destruct (Z.compare_spec (2 * r + 1) D); try reflexivity; try lia.
      all: rewrite <- Ec, Z.even_mul in Ev; discriminate. }
  rewrite Hloc. unfold sticky.
  destruct (Z.compare_spec (2 * r) D) as [Ec|Lc|Gc].
  - assert (Hd : 2 * m / D = 2 * q + 1)
      by (symmetry; apply Z.div_unique with (r := 0); lia).
    assert (Hr : (2 * m) mod D = 0)
      by (symmetry; apply Z.mod_unique with (q := 2 * q + 1); lia).
    rewrite Hd, Hr.
    destruct (Z.eqb_spec r 0); [lia|]. change (0 =? 0) with true.
    cbv iota. lia.
  - assert (Hd : 2 * m / D = 2 * q)
      by (symmetry; apply Z.div_unique with (r := 2 * r); lia).
    assert (Hr : (2 * m) mod D = 2 * r)
      by (symmetry; apply Z.mod_unique with (q := 2 * q); lia).
    rewrite Hd, Hr.
    destruct (Z.eqb_spec r 0); destruct (Z.eqb_spec (2 * r) 0); cbv iota; lia.
  - assert (Hd : 2 * m / D = 2 * q + 1)
      by (symmetry; apply Z.div_unique with (r := 2 * r - D); lia).
    assert (Hr : (2 * m) mod D = 2 * r - D)
      by (symmetry; apply Z.mod_unique with (q := 2 * q + 1); lia).
    rewrite Hd, Hr.
    destruct (Z.eqb_spec r 0); destruct (Z.eqb_spec (2 * r - D) 0);
      cbv iota; lia.
Qed.

Lemma sticky_pos N D : 0 < N -> 0 < D -> 0 < sticky N D.
Proof.
  intros HN HD. unfold sticky.
  assert (0 <= N / D) by (apply Z.div_pos; lia).
  destruct (Z.eqb_spec (N mod D) 0) as [Ez|Nz]; [|lia].
  pose proof (Z.div_mod N D ltac:(lia)). nia.
Qed.

(** The sticky representative is within one of twice the quotient. *)
Lemma sticky_near N D :
  0 < D -> 2 * N - D < sticky N D * D < 2 * N + D.
Proof.
  intros HD. destruct (Z.eq_dec (N mod D) 0) as [E0|N0].
  - pose proof (sticky_exact N D HD E0). lia.
  - destruct (sticky_inexact N D HD N0) as [-> H]. lia.
Qed.

Lemma sticky_scale N D k : 0 < D -> 0 < k -> sticky (N * k) (D * k) = sticky N D.
Proof.
  intros HD Hk. unfold sticky.
  rewrite Z.div_mul_cancel_r, Z.mul_mod_distr_r by lia.
  destruct (Z.eqb_spec (N mod D * k) 0), (Z.eqb_spec (N mod D) 0); nia.
Qed.

Lemma sticky_bounds A B k p :
  0 < A < 2 ^ p -> 0 < B < 2 ^ p -> 0 <= p <= k ->
  2 ^ (k - p + 1) <= sticky (A * 2 ^ k) B <= 2 ^ (k + 1 + p).
Proof.
  intros HA HB Hk.
  assert (Hpk : 0 < 2 ^ k) by (apply Z.pow_pos_nonneg; lia).
  assert (Hpp : 0 < 2 ^ (k - p)) by (apply Z.pow_pos_nonneg; lia).
  assert (Ek : 2 ^ k = 2 ^ (k - p) * 2 ^ p).
  { rewrite <- Z.pow_add_r by lia. f_equal. lia. }
  set (N := A * 2 ^ k).
  assert (HN : 2 ^ k <= N) by (unfold N; nia).
  pose proof (sticky_near N B ltac:(lia)) as Hnear.
  split.
  - assert (Hq : 2 ^ (k - p) <= N / B).
    { apply Z.div_le_lower_bound; [lia|]. nia. }
    rewrite (Z.pow_add_r 2 (k - p) 1) by lia. change (2 ^ 1) with 2.
    unfold sticky. destruct (N mod B =? 0); lia.
  - assert (H1 : sticky N B * B < (2 * N + 1) * B) by nia.
    assert (H2 : sticky N B < 2 * N + 1)
      by (apply (Z.mul_lt_mono_pos_r B); lia).
    replace (k + 1 + p) with (p + k + 1) by lia.
    rewrite !Z.pow_add_r by lia. change (2 ^ 1) with 2.
    unfold N in *. nia.
Qed.

Section Format.
Variables prec emax : Z.
Hypothesis prec_pos : 0 < prec.

Local Abbreviation fexp := (SpecFloat.fexp prec emax).
Local Abbreviation emin := (SpecFloat.emin prec emax).
Local Abbreviation zexp := (Rounding.zexp prec emax).
Local Abbreviation RNz := (Rounding.RNz prec emax).
Local Abbreviation SFofZ := (Rounding.SFofZ prec emax).
Local Abbreviation on_grid := (Rounding.on_grid prec emax).

(** [binary_round_aux] on an exact mantissa is the integer rounding. *)
Lemma binary_round_aux_eq s m e c :
  0 < m -> e <= fexp (Zdigits2 m + e) -> c <= e -> c <= emin ->
  binary_round_aux prec emax s m e loc_Exact
  = SFofZ s c (RNz c (m * 2 ^ (e - c))).
Proof.
  intros Hm HeE Hce Hcm.
  set (k := e - c). set (X := m * 2 ^ k).
  assert (Hk2 : 0 < 2 ^ k) by (apply Z.pow_pos_nonneg; lia).
  assert (HX : 0 < X) by (unfold X; lia).
  assert (HlogX : Z.log2 X = k + Z.log2 m).
  { unfold X. apply Z.log2_mul_pow2; lia. }
  rewrite (Zdigits2_log2 m Hm) in HeE.
  set (E := fexp (Z.log2 m + 1 + e)) in *.
  assert (HzX : zexp c X = E).
  { unfold Rounding.zexp, E. f_equal. rewrite HlogX. lia. }
  assert (HE : emin <= E) by apply fexp_ge_emin.
  unfold Rounding.RNz. rewrite HzX.
  set (n := E - c). assert (Hn : 0 <= n) by lia.
  pose proof (binary_round_aux_exact prec emax s m e) as B.
  cbv zeta in B. rewrite (Zdigits2_log2 m Hm) in B.
  fold E in B. rewrite B by lia. clear B.
  assert (Hq : rne X n = rne m (E - e)).
  { unfold X. replace n with (E - e + k) by lia. apply rne_shift; lia. }
  rewrite Hq. set (q := rne m (E - e)).
  assert (Hq0 : 0 <= q) by (apply rne_nonneg; lia).
  assert (Hn2 : 0 < 2 ^ n) by (apply Z.pow_pos_nonneg; lia).
  destruct (Z.eqb_spec q 0) as [Eq0|Nq0].
  - rewrite Eq0. simpl (0 * _). unfold Rounding.SFofZ. simpl (0 =? 0).
    destruct (0 <? _); reflexivity.
  - assert (Hqpos : 0 < q) by lia.
    rewrite (Zdigits2_log2 q Hqpos).
    set (E' := fexp (Z.log2 q + 1 + E)).
    assert (HzY : zexp c (q * 2 ^ n) = E').
    { unfold Rounding.zexp, E'. f_equal. rewrite Z.log2_mul_pow2 by lia. lia. }
    assert (HE' : E <= E').
    { unfold E'. destruct (Z.eq_dec E emin) as [Em|Em].
      - rewrite Em. apply fexp_ge_emin.
      - assert (Edp : E = Z.log2 m + 1 + e - prec)
          by (unfold E, SpecFloat.fexp in *; lia).
        pose proof (Z.log2_nonneg m) as HLm.
        assert (Hfl : 2 ^ (Z.log2 m - (E - e)) <= q).
        { pose proof (rne_bounds m (E - e)) as Hb. fold q in Hb.
          pose proof (log2_lower m Hm) as [Hl _].
          apply Z.le_trans with (m / 2 ^ (E - e)); [|lia].
          replace (Z.log2 m) with (Z.log2 m - (E - e) + (E - e)) in Hl
            at 1 by lia.
          rewrite Z.pow_add_r in Hl by lia.
          apply Z.div_le_lower_bound; [apply Z.pow_pos_nonneg; lia | lia]. }
        assert (Hlq : Z.log2 m - (E - e) <= Z.log2 q).
        { apply Z.log2_le_pow2; [lia | exact Hfl]. }
        apply Z.le_trans with (fexp (Z.log2 m + 1 + e)).
        + apply Z.le_refl.
        + apply fexp_mono. lia. }
    assert (Hm'' : 0 < q / 2 ^ (E' - E)).
    { apply Z.div_str_pos. split; [apply Z.pow_pos_nonneg; lia|].
      destruct (Z.eq_dec E' emin) as [Em|Em].
      - replace (E' - E) with 0 by lia. simpl. lia.
      - assert (E'q : E' = Z.log2 q + 1 + E - prec)
          by (unfold E', SpecFloat.fexp in *; lia).
        pose proof (log2_lower q Hqpos) as [Hl _].
        apply Z.le_trans with (2 ^ Z.log2 q); [|exact Hl].
        apply Z.pow_le_mono_r; lia. }
    unfold Rounding.SFofZ. rewrite HzY.
    destruct (Z.eqb_spec (q * 2 ^ n) 0) as [Y0|_]; [nia|].
    replace (q * 2 ^ n / 2 ^ (E' - c)) with (q / 2 ^ (E' - E)).
    2:{ replace (E' - c) with (E' - E + n) by lia.
        rewrite Z.pow_add_r by lia.
        rewrite Z.div_mul_cancel_r; [reflexivity | | lia].
        apply Z.pow_nonzero; lia. }
    replace (E + Z.max 0 (E' - E)) with E' by lia.
    destruct (Z.ltb_spec 0 (E' - E)) as [Hlt|Hge].
    + destruct (q / 2 ^ (E' - E)) eqn:Em; try lia. reflexivity.
    + replace (E' - E) with 0 in * by lia.
      rewrite Z.pow_0_r, Z.div_1_r in *.
      destruct q; try lia. reflexivity.
Qed.

Lemma canonical_digits s m e :
  valid_binary prec emax (S754_finite s m e) = true ->
  fexp (Z.log2 (Zpos m) + 1 + e) = e /\ e <= emax - prec.
Proof.
  intros Hv. simpl in Hv. unfold bounded, canonical_mantissa in Hv.
  apply andb_true_iff in Hv. destruct Hv as [Hcan Hb].
  apply Z.eqb_eq in Hcan. apply Z.leb_le in Hb.
  rewrite digits2_pos_log2 in Hcan. split; assumption.
Qed.

Lemma SFmul_finite c sx mx ex sy my ey :
  emin <= 0 -> c <= ex + ey -> c <= emin ->
  valid_binary prec emax (S754_finite sx mx ex) = true ->
  valid_binary prec emax (S754_finite sy my ey) = true ->
  SFmul prec emax (S754_finite sx mx ex) (S754_finite sy my ey)
  = SFofZ (xorb sx sy) c (RNz c (Zpos mx * Zpos my * 2 ^ (ex + ey - c))).
Proof.
  intros Hem Hc Hcm Hx Hy.
  apply canonical_digits in Hx, Hy. destruct Hx as [Hx _], Hy as [Hy _].
  unfold SFmul. rewrite Pos2Z.inj_mul.
  apply binary_round_aux_eq; try lia.
  rewrite Zdigits2_log2 by lia.
  pose proof (Z.log2_mul_below (Zpos mx) (Zpos my) ltac:(lia) ltac:(lia)) as Hl.
  pose proof (Z.log2_nonneg (Zpos mx)). pose proof (Z.log2_nonneg (Zpos my)).
  unfold SpecFloat.fexp in *. lia.
Qed.

(** A located mantissa rounds as the exact mantissa that carries the
    location in two more bits. *)
Lemma binary_round_aux_located s q e l :
  0 <= q -> e <= fexp (Zdigits2 q + e) ->
  binary_round_aux prec emax s q e l
  = binary_round_aux prec emax s (4 * q + loc_code l) (e - 2) loc_Exact.
Proof.
  intros Hq He.
  pose proof (loc_code_range l) as Hl.
  set (M := 4 * q + loc_code l).
  set (E := fexp (Zdigits2 q + e)) in *.
  assert (HEM : fexp (Zdigits2 M + (e - 2)) = E).
  { destruct (Z.eq_dec q 0) as [E0|N0].
    - assert (EE : E = fexp e) by (unfold E; rewrite E0; reflexivity).
      assert (Hd : 0 <= Zdigits2 M <= 2).
      { unfold M. rewrite E0. destruct l as [|[| |]]; simpl; lia. }
      unfold SpecFloat.fexp in *. lia.
    - unfold E. rewrite !Zdigits2_log2 by lia. unfold M.
      rewrite log2_guard by lia. f_equal. lia. }
  assert (HM : 0 <= M) by (unfold M; lia).
  assert (Hfirst :
    (let '(mrs', e') := shr_fexp prec emax q e l in
     (round_nearest_even (shr_m mrs') (loc_of_shr_record mrs'), e'))
    = (rne M (E - e + 2), E)).
  { unfold shr_fexp. fold E.
    destruct (E - e) as [|p|p] eqn:En; try lia.
    - unfold shr. cbv beta iota. f_equal; [|lia].
      replace (round_nearest_even _ _) with (round_nearest_even q l)
        by (destruct l as [|[| |]]; reflexivity).
      apply round_guard.
    - unfold shr. rewrite iter_pos_nat.
      destruct (Pos.to_nat p) as [|k] eqn:Ek; [lia|].
      assert (Hp : Z.pos p = Z.of_nat (S k)) by lia.
      assert (Hrec : exists r t, shr_record_of_loc q l = Build_shr_record q r t
                                 /\ loc_code l = 2 * Z.b2z r + Z.b2z t).
      { destruct l as [|[| |]]; simpl; eauto. }
      destruct Hrec as (r & t & Hrec & Hcode). rewrite Hrec.
      rewrite shr_iter by assumption.
      cbv beta iota. simpl shr_m. f_equal; [|lia].
      rewrite <- (round_loc M (Z.pos p + 2)) by lia.
      assert (H2k : 0 < 2 ^ Z.of_nat k) by (apply Z.pow_pos_nonneg; lia).
      assert (Hd4 : M / 4 = q).
      { symmetry. apply Z.div_unique with (r := loc_code l); unfold M; lia. }
      assert (E1 : M / 2 ^ (Z.pos p + 2) = q / 2 ^ Z.of_nat (S k)).
      { rewrite Hp, Z.add_comm, Z.pow_add_r by lia. change (2 ^ 2) with 4.
        rewrite <- Z.div_div by lia. rewrite Hd4. reflexivity. }
      assert (E2 : Z.testbit M (Z.pos p + 2 - 1) = Z.testbit q (Z.of_nat k)).
      { replace (Z.pos p + 2 - 1) with (Z.of_nat k + 2) by lia.
        rewrite <- Z.div_pow2_bits by lia. change (2 ^ 2) with 4.
        rewrite Hd4. reflexivity. }
      assert (E3 : negb (M mod 2 ^ (Z.pos p + 2 - 1) =? 0)
                   = (r || t || negb (q mod 2 ^ Z.of_nat k =? 0))%bool).
      { replace (Z.pos p + 2 - 1) with (2 + Z.of_nat k) by lia.
        rewrite Z.pow_add_r by lia. change (2 ^ 2) with 4.
        rewrite Z.rem_mul_r by lia. rewrite Hd4.
        assert (Hm4 : M mod 4 = loc_code l).
        { symmetry. apply Z.mod_unique with (q := q); unfold M; lia. }
        rewrite Hm4.
        pose proof (Z.mod_pos_bound q (2 ^ Z.of_nat k) H2k) as Hb.
        destruct (Z.eqb_spec (q mod 2 ^ Z.of_nat k) 0) as [Ez|Nz];
          destruct (Z.eqb_spec (loc_code l + 4 * (q mod 2 ^ Z.of_nat k)) 0)
            as [Ec|Nc];
          destruct r, t; cbn [Z.b2z orb negb] in *; try reflexivity; lia. }
      rewrite E1, E2, E3. reflexivity. }
  assert (Hsecond :
    (let '(mrs', e') := shr_fexp prec emax M (e - 2) loc_Exact in
     (round_nearest_even (shr_m mrs') (loc_of_shr_record mrs'), e'))
    = (rne M (E - e + 2), E)).
  { unfold shr_fexp. rewrite HEM. simpl shr_record_of_loc.
    rewrite shr_exact by lia. cbv beta iota. simpl shr_m. f_equal; [|lia].
    replace (E - (e - 2)) with (E - e + 2) by lia.
    apply round_loc; lia. }
  unfold binary_round_aux.
  destruct (shr_fexp prec emax q e l) as [m1 e1].
  destruct (shr_fexp prec emax M (e - 2) loc_Exact) as [m2 e2].
  injection Hfirst as H1 H1'. injection Hsecond as H2 H2'.
  rewrite H1, H1', H2, H2'. reflexivity.
Qed.

(** Two numbers strictly inside the same cell of width [2^k] round alike
    at any position above [k]. *)
Lemma RNz_same_cell c X1 X2 u k :
  c <= emin -> 0 <= u -> 0 <= k ->
  u * 2 ^ k < X1 < (u + 1) * 2 ^ k ->
  u * 2 ^ k < X2 < (u + 1) * 2 ^ k ->
  k + 1 <= zexp c X1 - c ->
  RNz c X1 = RNz c X2.
Proof.
  intros Hc Hu Hk H1 H2 Hn.
  assert (Hpk : 0 < 2 ^ k) by (apply Z.pow_pos_nonneg; lia).
  assert (HU0 : 0 <= u * 2 ^ k) by (apply Z.mul_nonneg_nonneg; lia).
  assert (Hz : zexp c X2 = zexp c X1).
  { destruct (Z.eq_dec u 0) as [E0|N0].
    - rewrite E0 in *.
      assert (Z.log2 X1 < k) by (apply Z.log2_lt_pow2; lia).
      assert (Z.log2 X2 < k) by (apply Z.log2_lt_pow2; lia).
      unfold Rounding.zexp, SpecFloat.fexp in *. lia.
    - assert (Hup : 0 < u) by lia.
      pose proof (log2_lower u Hup) as [Hl1 Hl2].
      pose proof (Z.log2_nonneg u) as Hl0.
      assert (Hlow : 2 ^ (Z.log2 u + k) <= u * 2 ^ k).
      { rewrite Z.pow_add_r by lia. apply Z.mul_le_mono_nonneg_r; lia. }
      assert (Hupp : (u + 1) * 2 ^ k <= 2 ^ (Z.log2 u + k + 1)).
      { replace (Z.log2 u + k + 1) with (Z.log2 u + 1 + k) by lia.
        rewrite (Z.pow_add_r 2 (Z.log2 u + 1) k) by lia.
        apply Z.mul_le_mono_nonneg_r; lia. }
      assert (L1 : Z.log2 X1 = Z.log2 u + k)
        by (apply Z.log2_unique; unfold Z.succ; lia).
      assert (L2 : Z.log2 X2 = Z.log2 u + k)
        by (apply Z.log2_unique; unfold Z.succ; lia).
      unfold Rounding.zexp. rewrite L1, L2. reflexivity. }
  unfold Rounding.RNz. cbv zeta. rewrite Hz.
  set (n := zexp c X1 - c) in *. f_equal.
  set (h := 2 ^ (n - 1)).
  assert (Hh : 0 < h) by (apply Z.pow_pos_nonneg; lia).
  assert (Hhk : h = 2 ^ (n - 1 - k) * 2 ^ k).
  { unfold h. rewrite <- Z.pow_add_r by lia. f_equal. lia. }
  assert (Hp : 2 ^ n = 2 * h).
  { unfold h. replace n with (n - 1 + 1) at 1 by lia.
    rewrite Z.pow_add_r by lia. change (2 ^ 1) with 2. lia. }
  set (w := 2 ^ (n - 1 - k)) in *.
  assert (Hw : 0 < w) by (apply Z.pow_pos_nonneg; lia).
  (* the cell lies between two consecutive multiples of the half unit *)
  set (K := u / w).
  pose proof (Z.div_mod u w ltac:(lia)) as Hdm. fold K in Hdm.
  pose proof (Z.mod_pos_bound u w Hw) as Hmb.
  assert (HK0 : 0 <= K) by (apply Z.div_pos; lia).
  assert (HKlo : K * h <= u * 2 ^ k).
  { rewrite Hhk, Z.mul_assoc. apply Z.mul_le_mono_nonneg_r; lia. }
  assert (HKhi : (u + 1) * 2 ^ k <= (K + 1) * h).
  { rewrite Hhk, Z.mul_assoc. apply Z.mul_le_mono_nonneg_r; lia. }
  set (J := K / 2).
  pose proof (Z.div_mod K 2 ltac:(lia)) as HJ. fold J in HJ.
  pose proof (Z.mod_pos_bound K 2 ltac:(lia)) as HJb.
  destruct (Z.eq_dec (K mod 2) 0) as [Ev|Od].
  - assert (EK : K = 2 * J) by lia.
    rewrite (rne_below X1 n J), (rne_below X2 n J); try reflexivity; try lia;
      fold h; rewrite ?Hp; nia.
  - assert (EK : K = 2 * J + 1) by lia.
    rewrite (rne_above X1 n J), (rne_above X2 n J); try reflexivity; try lia;
      fold h; rewrite ?Hp; nia.
Qed.

(** Refining the scale of a sticky representative does not change its
    rounding. *)
Lemma RNz_sticky c N D j :
  c <= emin -> 0 < N -> 0 < D -> 0 <= j ->
  j + 2 <= zexp c (sticky N D * 2 ^ j) - c ->
  RNz c (sticky N D * 2 ^ j) = RNz c (sticky (N * 2 ^ j) D).
Proof.
  intros Hc HN HD Hj Hn.
  assert (Hpj : 0 < 2 ^ j) by (apply Z.pow_pos_nonneg; lia).
  destruct (Z.eq_dec (N mod D) 0) as [E0|N0].
  - f_equal.
    assert (E0' : (N * 2 ^ j) mod D = 0).
    { rewrite <- Z.mul_mod_idemp_l, E0 by lia. reflexivity. }
    pose proof (sticky_exact N D HD E0) as H1.
    pose proof (sticky_exact (N * 2 ^ j) D HD E0') as H2.
    apply (Z.mul_reg_r _ _ D); nia.
  - pose proof (sticky_inexact N D HD N0) as [H1 H1'].
    set (F := N / D) in *.
    assert (HF : 0 <= F) by (apply Z.div_pos; lia).
    apply (RNz_same_cell c _ _ F (j + 1)); try lia.
    + rewrite H1, (Z.pow_add_r 2 j 1) by lia. change (2 ^ 1) with 2. lia.
    + rewrite (Z.pow_add_r 2 j 1) by lia. change (2 ^ 1) with 2.
      set (N' := N * 2 ^ j).
      pose proof (Z.div_mod N' D ltac:(lia)) as Hdm.
      pose proof (Z.mod_pos_bound N' D HD) as Hmb.
      assert (Hlo : F * 2 ^ j <= N' / D).
      { apply Z.div_le_lower_bound; [lia|]. unfold N'. nia. }
      assert (Hhi : N' / D < (F + 1) * 2 ^ j).
      { apply Z.div_lt_upper_bound; [lia|]. unfold N'. nia. }
      unfold sticky. fold N'.
      destruct (Z.eqb_spec (N' mod D) 0) as [Ez|Nz]; [|lia].
      assert (F * 2 ^ j <> N' / D); [|lia].
      intros Eq. rewrite Ez, <- Eq in Hdm. unfold N' in Hdm. nia.
Qed.

(** Division of finite numbers is the rounding of the sticky quotient. *)
Lemma SFdiv_finite c sx mx ex sy my ey :
  c + 2 <= emin -> c + 2 <= ex - ey ->
  SFdiv prec emax (S754_finite sx mx ex) (S754_finite sy my ey)
  = SFofZ (xorb sx sy) c
      (RNz c (sticky (Zpos mx * 2 ^ (ex - ey - c - 1)) (Zpos my))).
Proof.
  intros Hc Hce. unfold SFdiv, SFdiv_core_binary.
  rewrite !Zdigits2_log2 by lia.
  set (l1 := Z.log2 (Zpos mx)). set (l2 := Z.log2 (Zpos my)).
  set (D0 := l1 + 1 + ex - (l2 + 1 + ey)).
  set (e' := Z.min (fexp D0) (ex - ey)).
  set (sh := ex - ey - e').
  assert (Hsh : 0 <= sh) by (unfold sh, e'; lia).
  set (m' := match sh with
             | 0 => Zpos mx
             | Zpos _ => Z.shiftl (Zpos mx) sh
             | Zneg _ => 0
             end).
  assert (Hm' : m' = Zpos mx * 2 ^ sh).
  { unfold m'. destruct sh as [|p|p] eqn:Es; try lia.
    rewrite Z.shiftl_mul_pow2 by lia. reflexivity. }
  assert (Hps : 0 < 2 ^ sh) by (apply Z.pow_pos_nonneg; lia).
  assert (Hm'pos : 0 < m') by (rewrite Hm'; lia).
  assert (Hde : Z.div_eucl m' (Zpos my) = (m' / Zpos my, m' mod Zpos my)).
  { unfold Z.div, Z.modulo. destruct (Z.div_eucl m' (Zpos my)). reflexivity. }
  rewrite Hde.
  set (q := m' / Zpos my). set (r := m' mod Zpos my).
  assert (Hq0 : 0 <= q) by (apply Z.div_pos; lia).
  pose proof (Z.div_mod m' (Zpos my) ltac:(lia)) as Hdm. fold q r in Hdm.
  pose proof (Z.mod_pos_bound m' (Zpos my) ltac:(lia)) as Hmb. fold r in Hmb.
  pose proof (log2_lower (Zpos mx) ltac:(lia)) as [Hx1 Hx2]. fold l1 in Hx1, Hx2.
  pose proof (log2_lower (Zpos my) ltac:(lia)) as [Hy1 Hy2]. fold l2 in Hy1, Hy2.
  pose proof (Z.log2_nonneg (Zpos mx)) as Hl1. fold l1 in Hl1.
  pose proof (Z.log2_nonneg (Zpos my)) as Hl2. fold l2 in Hl2.
  assert (Hm'lo : 2 ^ (l1 + sh) <= m').
  { rewrite Hm', Z.pow_add_r by lia. apply Z.mul_le_mono_nonneg_r; lia. }
  (* the first shift is not negative *)
  assert (Hshift : e' <= fexp (Zdigits2 q + e')).
  { destruct (Z.eq_dec q 0) as [E0|N0].
    - rewrite E0. simpl Zdigits2. rewrite Z.add_0_l.
      assert (m' < Zpos my) by lia.
      assert (l1 + sh < l2 + 1).
      { apply (Z.pow_lt_mono_r_iff 2); lia. }
      assert (D0 <= e') by (unfold D0, sh in *; lia).
      assert (e' <= fexp D0) by (unfold e'; lia).
      unfold SpecFloat.fexp in *. lia.
    - rewrite Zdigits2_log2 by lia.
      assert (Hql : l1 + sh - l2 - 1 <= Z.log2 q).
      { destruct (Z.le_gt_cases 0 (l1 + sh - l2 - 1)) as [Hp|Hn].
        - apply Z.log2_le_pow2; [lia|].
          apply Z.div_le_lower_bound; [lia|].
          apply Z.le_trans with (2 ^ (l1 + sh)); [|exact Hm'lo].
          assert (Es : 2 ^ (l1 + sh) = 2 ^ (l2 + 1) * 2 ^ (l1 + sh - l2 - 1)).
          { rewrite <- Z.pow_add_r by lia. f_equal. lia. }
          rewrite Es.
          apply Z.mul_le_mono_nonneg_r; [apply Z.pow_nonneg; lia | lia].
        - pose proof (Z.log2_nonneg q). lia. }
      apply Z.le_trans with (fexp D0); [unfold e'; lia|].
      apply fexp_mono. unfold D0, sh. lia. }
  rewrite (binary_round_aux_located _ q e' _ Hq0 Hshift).
  unfold r, q. rewrite (div_located m' (Zpos my)) by lia.
  set (M := sticky (2 * m') (Zpos my)).
  assert (HM : 0 < M).
  { unfold M, sticky.
    assert (0 <= 2 * m' / Zpos my) by (apply Z.div_pos; lia).
    destruct (Z.eqb_spec ((2 * m') mod Zpos my) 0) as [Ez|Nz]; [|lia].
    pose proof (Z.div_mod (2 * m') (Zpos my) ltac:(lia)). nia. }
  assert (HMq : M = 4 * q + loc_code (new_location (Zpos my) r)).
  { unfold M, q, r. symmetry. apply div_located; lia. }
  assert (HshiftM : e' <= fexp (Zdigits2 M + (e' - 2))).
  { destruct (Z.eq_dec q 0) as [E0|N0].
    - pose proof (fexp_ge_emin prec emax (Zdigits2 M + (e' - 2))).
      rewrite E0 in Hshift. simpl Zdigits2 in Hshift.
      unfold SpecFloat.fexp in *. lia.
    - rewrite Zdigits2_log2 by lia. rewrite HMq.
      rewrite log2_guard by (try apply loc_code_range; lia).
      rewrite Zdigits2_log2 in Hshift by lia.
      replace (Z.log2 q + 2 + 1 + (e' - 2)) with (Z.log2 q + 1 + e') by lia.
      lia. }
  assert (He'c : c + 2 <= e').
  { pose proof (fexp_ge_emin prec emax D0). unfold e'. lia. }
  rewrite (binary_round_aux_eq _ M (e' - 2) c) by lia.
  f_equal.
  assert (Hzn : e' - 2 - c + 2 <= zexp c (M * 2 ^ (e' - 2 - c)) - c).
  { assert (zexp c (M * 2 ^ (e' - 2 - c)) = fexp (Zdigits2 M + (e' - 2))).
    { unfold Rounding.zexp. rewrite Z.log2_mul_pow2 by lia.
      rewrite Zdigits2_log2 by lia. f_equal. lia. }
    lia. }
  unfold M in *. rewrite RNz_sticky by lia.
  f_equal. f_equal. rewrite Hm'.
  replace (ex - ey - c - 1) with (1 + sh + (e' - 2 - c)) by (unfold sh; lia).
  rewrite !Z.pow_add_r by lia. change (2 ^ 1) with 2. lia.
Qed.

(** The float of a positive integer on the grid. *)
Lemma SFofZ_pos s c Y :
  c <= emin -> 0 < Y -> on_grid c Y ->
  let n := zexp c Y - c in
  0 < Y / 2 ^ n /\ Y / 2 ^ n * 2 ^ n = Y
  /\ SFofZ s c Y
     = if zexp c Y <=? emax - prec
       then S754_finite s (Z.to_pos (Y / 2 ^ n)) (zexp c Y)
       else S754_infinity s.
Proof.
  intros Hc HY Hg n.
  pose proof (zexp_ge prec emax c Y Hc) as Hn. fold n in Hn.
  unfold Rounding.on_grid in Hg. fold n in Hg.
  assert (Hp : 0 < 2 ^ n) by (apply Z.pow_pos_nonneg; lia).
  assert (HYm : Y / 2 ^ n * 2 ^ n = Y).
  { pose proof (Z.div_mod Y (2 ^ n) ltac:(lia)). lia. }
  repeat split; [nia | exact HYm |].
  unfold Rounding.SFofZ. destruct (Z.eqb_spec Y 0); [lia | reflexivity].
Qed.


(** The float of a rounded integer is a member of the format. *)
Lemma SFofZ_valid s c Y :
  c <= emin -> 0 <= Y -> (0 < Y -> on_grid c Y) ->
  valid_binary prec emax (SFofZ s c Y) = true.
Proof.
  intros Hc HY Hg.
  destruct (Z.eq_dec Y 0) as [E0|N0]; [rewrite E0; reflexivity|].
  assert (HYp : 0 < Y) by lia. specialize (Hg HYp).
  destruct (SFofZ_pos s c Y Hc HYp Hg) as (Hm & HYm & HS).
  pose proof (zexp_ge prec emax c Y Hc) as Hn.
  set (n := zexp c Y - c) in *.
  rewrite HS.
  destruct (Z.leb_spec (zexp c Y) (emax - prec)) as [Hok|Hov]; [|reflexivity].
  simpl. unfold bounded, canonical_mantissa.
  apply andb_true_iff. split; [|apply Z.leb_le; lia].
  apply Z.eqb_eq. rewrite digits2_pos_log2, Z2Pos.id by assumption.
  assert (Hl : Z.log2 Y = n + Z.log2 (Y / 2 ^ n)).
  { rewrite <- HYm at 1. apply Z.log2_mul_pow2; lia. }
  assert (En : n = zexp c Y - c) by reflexivity.
  replace (Z.log2 (Y / 2 ^ n) + 1 + zexp c Y) with (Z.log2 Y + 1 + c) by lia.
  reflexivity.
Qed.

(** Rounding keeps a number between two powers of two of the grid. *)
Lemma RNz_bounds c X lo hi :
  c <= emin -> emin - c <= lo -> 2 ^ lo <= X <= 2 ^ hi ->
  2 ^ lo <= RNz c X <= 2 ^ hi.
Proof.
  intros Hc Hlo [H1 H2].
  assert (Hl0 : 0 <= lo) by lia.
  assert (Hplo : 0 < 2 ^ lo) by (apply Z.pow_pos_nonneg; lia).
  assert (Hhi : lo <= hi).
  { destruct (Z.le_gt_cases lo hi) as [|Hgt]; [assumption|].
    exfalso.
    destruct (Z.le_gt_cases 0 hi) as [Hh|Hh].
    - assert (2 ^ hi < 2 ^ lo) by (apply Z.pow_lt_mono_r; lia). lia.
    - rewrite (Z.pow_neg_r 2 hi) in H2 by lia. lia. }
  split.
  - apply (RNz_ge prec emax prec_pos); try assumption.
    apply on_grid_pow2; assumption.
  - apply (RNz_le prec emax); try assumption; try lia.
    apply on_grid_pow2; lia.
Qed.

(** The exponent of a rounded integer with a full mantissa. *)
Lemma SFofZ_exponent s c Y s' m e :
  c <= emin -> 0 < Y -> on_grid c Y ->
  SFofZ s c Y = S754_finite s' m e -> 2 ^ (prec - 1) <= Zpos m ->
  e + prec - 1 = Z.log2 Y + c.
Proof.
  intros Hc HY Hg HS Hm.
  destruct (SFofZ_pos s c Y Hc HY Hg) as (Hmp & HYm & HS').
  pose proof (zexp_ge prec emax c Y Hc) as Hn.
  set (n := zexp c Y - c) in *.
  rewrite HS' in HS.
  destruct (zexp c Y <=? emax - prec); [|discriminate].
  injection HS as _ Em Ee.
  assert (Em' : Zpos m = Y / 2 ^ n) by (rewrite <- Em, Z2Pos.id; [reflexivity | assumption]).
  assert (Hl : Z.log2 Y = n + Z.log2 (Zpos m)).
  { rewrite <- HYm at 1. rewrite <- Em'. apply Z.log2_mul_pow2; lia. }
  assert (Hlm : prec - 1 <= Z.log2 (Zpos m)) by (apply Z.log2_le_pow2; lia).
  assert (En : n = zexp c Y - c) by reflexivity.
  unfold Rounding.zexp, SpecFloat.fexp in En, Ee. lia.
Qed.

(** The result of a rounding: a member of the format whose exponent, when
    the mantissa is full, is between those of the bounds. *)
Lemma rounded_range s c X lo hi :
  c <= emin -> emin - c <= lo -> 2 ^ lo <= X <= 2 ^ hi ->
  valid_binary prec emax (SFofZ s c (RNz c X)) = true
  /\ forall s' m e,
       SFofZ s c (RNz c X) = S754_finite s' m e -> 2 ^ (prec - 1) <= Zpos m ->
       lo + c <= e + prec - 1 <= hi + c.
Proof.
  intros Hc Hlo HX.
  assert (Hplo : 0 < 2 ^ lo) by (apply Z.pow_pos_nonneg; lia).
  pose proof (RNz_bounds c X lo hi Hc Hlo HX) as [HY1 HY2].
  assert (HXp : 0 < X) by lia.
  assert (Hhi0 : 0 <= hi).
  { destruct (Z.le_gt_cases 0 hi) as [|Hneg]; [assumption|].
    rewrite (Z.pow_neg_r 2 hi) in HX by lia. lia. }
  pose proof (RNz_grid prec emax prec_pos c X Hc HXp) as Hg.
  set (Y := RNz c X) in *.
  split.
  - apply SFofZ_valid; [assumption | lia | intros _; exact Hg].
  - intros s' m e HS Hm.
    rewrite (SFofZ_exponent s c Y s' m e) by (assumption || lia).
    assert (lo <= Z.log2 Y) by (apply Z.log2_le_pow2; lia).
    assert (Z.log2 Y <= hi).
    { destruct (Z.eq_dec Y (2 ^ hi)) as [->|Ne].
      - rewrite Z.log2_pow2 by lia. lia.
      - assert (Z.log2 Y < hi); [|lia]. apply Z.log2_lt_pow2; lia. }
    lia.
Qed.

End Format.

Section TwoFormats.
Variables pT xT pW xW : Z.
Hypothesis pT_pos : 0 < pT.
Hypothesis pW_gt : pT < pW.
Hypothesis emin_lt : SpecFloat.emin pW xW < SpecFloat.emin pT xT.

Local Abbreviation eminT := (SpecFloat.emin pT xT).
Local Abbreviation eminW := (SpecFloat.emin pW xW).
Local Abbreviation zexpT := (Rounding.zexp pT xT).
Local Abbreviation zexpW := (Rounding.zexp pW xW).
Local Abbreviation RNzT := (Rounding.RNz pT xT).
Local Abbreviation RNzW := (Rounding.RNz pW xW).

(** [X] is a member of the wide format, or it is further than half a unit
    in the last place of the wide format from the middle of the two
    neighbouring members of the narrow format. *)
Definition clear_of_midpoint (c X : Z) : Prop :=
  let nW := zexpW c X - c in
  let nT := zexpT c X - c in
  X mod 2 ^ nW = 0
  \/ 2 ^ nW < 2 * Z.abs (X - (X / 2 ^ nT * 2 ^ nT + 2 ^ (nT - 1))).

Lemma zexp_finer c X : zexpW c X + 1 <= zexpT c X.
Proof. unfold Rounding.zexp, SpecFloat.fexp. lia. Qed.

Lemma RNz_zero c : c <= eminT -> RNzT c 0 = 0.
Proof.
  intros Hc. unfold Rounding.RNz. cbv zeta.
  rewrite rne_zero; [reflexivity|]. apply zexp_ge. exact Hc.
Qed.

Theorem double_round c X :
  c <= eminW -> 0 < X -> clear_of_midpoint c X ->
  RNzT c (RNzW c X) = RNzT c X.
Proof.
  intros Hc HX HM.
  assert (HcT : c <= eminT) by lia.
  pose proof (zexp_finer c X) as Hfin.
  pose proof (zexp_ge pW xW c X Hc) as HnW.
  unfold clear_of_midpoint in HM. cbv zeta in HM.
  destruct HM as [Hg|Hfar].
  { rewrite (RNz_on_grid pW xW c X Hc Hg). reflexivity. }
  set (nW := zexpW c X - c) in *.
  assert (EnT : zexpT c X - c = zexpT c X - c) by reflexivity.
  set (n := zexpT c X - c) in Hfar, EnT at 1.
  assert (Hn : nW + 1 <= n) by (unfold n, nW; lia).
  set (P := 2 ^ n). set (h := 2 ^ (n - 1)) in *.
  assert (HP : P = 2 * h).
  { unfold P, h. replace n with (n - 1 + 1) at 1 by lia.
    rewrite Z.pow_add_r by lia. change (2 ^ 1) with 2. lia. }
  assert (Hh : 0 < h) by (apply Z.pow_pos_nonneg; lia).
  assert (HpW : 0 < 2 ^ nW) by (apply Z.pow_pos_nonneg; lia).
  fold P in Hfar.
  set (J := X / P) in *.
  assert (HJ : J * P <= X < J * P + P).
  { pose proof (Z.div_mod X P ltac:(lia)).
    pose proof (Z.mod_pos_bound X P ltac:(lia)). unfold J. lia. }
  assert (HJ0 : 0 <= J) by (apply Z.div_pos; lia).
  (* the half unit of the narrow format in units of the wide one *)
  set (k := 2 ^ (n - 1 - nW)).
  assert (Hk : h = k * 2 ^ nW).
  { unfold h, k. rewrite <- Z.pow_add_r by lia. f_equal. lia. }
  assert (Hk0 : 0 < k) by (apply Z.pow_pos_nonneg; lia).
  set (q := rne X nW).
  assert (HY : RNzW c X = q * 2 ^ nW) by reflexivity.
  set (Y := RNzW c X) in *.
  assert (Hlo : J * P <= Y).
  { rewrite HY. assert (2 * J * k <= q); [|nia].
    apply rne_ge_of_ge; [lia|]. nia. }
  assert (Hhi : Y <= J * P + P).
  { rewrite HY. assert (q <= 2 * (J + 1) * k); [|nia].
    apply rne_le_of_le; [lia|]. nia. }
  pose proof (rne_bounds X nW) as Hqb. fold q in Hqb.
  pose proof (Z.div_mod X (2 ^ nW) ltac:(lia)) as Hdm.
  pose proof (Z.mod_pos_bound X (2 ^ nW) ltac:(lia)) as Hmb.
  pose proof (log2_lower X HX) as [HL1 HL2].
  pose proof (Z.log2_nonneg X) as HL0.
  assert (EnL : n = Z.max (Z.log2 X + 1 - pT) (eminT - c)).
  { unfold n, Rounding.zexp, SpecFloat.fexp. lia. }
  destruct (Z.lt_ge_cases X (J * P + h)) as [Hbelow|Habove].
  - (* below the midpoint: both roundings give J * P *)
    assert (HTX : RNzT c X = J * P).
    { unfold Rounding.RNz. cbv zeta. fold n. fold P.
      rewrite (rne_below X n J); unfold P, h in *; lia. }
    rewrite HTX.
    assert (HYmu : Y < J * P + h).
    { rewrite Z.abs_neq in Hfar by lia.
      rewrite HY. assert (q < (2 * J + 1) * k); [|nia].
      destruct (Z.lt_ge_cases (X / 2 ^ nW + 1) ((2 * J + 1) * k)) as [|Hge];
        [lia|].
      assert (Hq1 : X / 2 ^ nW = (2 * J + 1) * k - 1) by nia.
      assert (Hsmall : 2 * (X mod 2 ^ nW) < 2 ^ nW) by nia.
      assert (q = X / 2 ^ nW).
      { unfold q, rne. unfold Z.lt in Hsmall. rewrite Hsmall. reflexivity. }
      lia. }
    destruct (Z.eq_dec Y (J * P)) as [EY|NY].
    + rewrite EY.
      destruct (Z.eq_dec J 0) as [J0|J0].
      * rewrite J0. simpl. apply RNz_zero. exact HcT.
      * apply (RNz_on_grid pT xT c _ HcT).
        unfold P. apply on_grid_mult; try lia.
        assert (zexpT c (J * 2 ^ n) <= zexpT c X); [|lia].
        apply zexp_mono. apply Z.log2_le_mono. fold P. lia.
    + assert (HzY : zexpT c Y - c = n).
      { destruct (Z.le_gt_cases n (Z.log2 X)) as [HnL|HnL].
        - assert (E2 : 2 ^ Z.log2 X = 2 ^ (Z.log2 X - n) * P).
          { unfold P. rewrite <- Z.pow_add_r by lia. f_equal. lia. }
          assert (E3 : 2 ^ (Z.log2 X + 1) = 2 * 2 ^ (Z.log2 X - n) * P).
          { rewrite Z.pow_add_r by lia. change (2 ^ 1) with 2. lia. }
          assert (0 < 2 ^ (Z.log2 X - n)) by (apply Z.pow_pos_nonneg; lia).
          assert (2 ^ (Z.log2 X - n) <= J) by nia.
          assert (J + 1 <= 2 * 2 ^ (Z.log2 X - n)) by nia.
          assert (Z.log2 Y = Z.log2 X).
          { apply Z.log2_unique; [lia|]. split; nia. }
          unfold Rounding.zexp. rewrite H2. reflexivity.
        - destruct (Z.eq_dec n (Z.log2 X + 1)) as [En1|Nn1].
          + exfalso. unfold P, h in *. rewrite En1 in *.
            replace (Z.log2 X + 1 - 1) with (Z.log2 X) in * by lia.
            assert (J = 0) by nia. subst J. lia.
          + assert (Hem : n = eminT - c) by lia.
            assert (J = 0).
            { assert (2 ^ (Z.log2 X + 1) <= P)
                by (unfold P; apply Z.pow_le_mono_r; lia). nia. }
            assert (HYh : Y < 2 ^ (n - 1)) by (unfold h in *; nia).
            assert (HY0 : 0 < Y) by nia.
            assert (Z.log2 Y < n - 1) by (apply Z.log2_lt_pow2; lia).
            unfold Rounding.zexp, SpecFloat.fexp. lia. }
      unfold Rounding.RNz. cbv zeta. rewrite HzY. fold P.
      rewrite (rne_below Y n J); unfold P, h in *; lia.
  - (* above the midpoint: both roundings give (J + 1) * P *)
    assert (Hne : X <> J * P + h).
    { intros E. rewrite E in Hfar.
      replace (J * P + h - (J * P + h)) with 0 in Hfar by lia.
      simpl in Hfar. lia. }
    assert (Habove' : J * P + h < X) by lia.
    assert (HTX : RNzT c X = (J + 1) * P).
    { unfold Rounding.RNz. cbv zeta. fold n. fold P.
      rewrite (rne_above X n J); unfold P, h in *; lia. }
    rewrite HTX.
    assert (HYmu : J * P + h < Y).
    { rewrite Z.abs_eq in Hfar by lia.
      rewrite HY. assert ((2 * J + 1) * k < q); [|nia].
      destruct (Z.lt_ge_cases ((2 * J + 1) * k) (X / 2 ^ nW)) as [|Hle];
        [lia|].
      assert (Hq1 : X / 2 ^ nW = (2 * J + 1) * k) by nia.
      assert (Hbig : 2 * (X mod 2 ^ nW) > 2 ^ nW) by nia.
      assert (q = X / 2 ^ nW + 1).
      { unfold q, rne. unfold Z.gt in Hbig. rewrite Hbig. reflexivity. }
      lia. }
    destruct (Z.eq_dec Y ((J + 1) * P)) as [EY|NY].
    + rewrite EY.
      apply (RNz_on_grid pT xT c _ HcT).
      destruct (Z.le_gt_cases n (Z.log2 X + 1)) as [HnL|HnL].
      * assert (E3 : 2 ^ (Z.log2 X + 1) = 2 ^ (Z.log2 X + 1 - n) * P).
        { unfold P. rewrite <- Z.pow_add_r by lia. f_equal. lia. }
        assert (0 < 2 ^ (Z.log2 X + 1 - n)) by (apply Z.pow_pos_nonneg; lia).
        assert (Hle : J + 1 <= 2 ^ (Z.log2 X + 1 - n)) by nia.
        destruct (Z.eq_dec (J + 1) (2 ^ (Z.log2 X + 1 - n))) as [Ep|Np].
        -- rewrite Ep, <- E3. apply on_grid_pow2; lia.
        -- unfold P. apply on_grid_mult; try lia.
           assert (Z.log2 ((J + 1) * 2 ^ n) <= Z.log2 X).
           { apply Z.lt_succ_r. apply Z.log2_lt_pow2; [nia|].
             unfold Z.succ. fold P. nia. }
           assert (zexpT c ((J + 1) * 2 ^ n) <= zexpT c X); [|lia].
           apply zexp_mono. assumption.
      * assert (EJ : J = 0).
        { assert (2 ^ (Z.log2 X + 1) <= P)
            by (unfold P; apply Z.pow_le_mono_r; lia). nia. }
        rewrite EJ. replace ((0 + 1) * P) with P by lia.
        unfold P. apply on_grid_pow2; lia.
    + assert (HzY : zexpT c Y - c = n).
      { destruct (Z.le_gt_cases n (Z.log2 X + 1)) as [HnL|HnL].
        - assert (E3 : 2 ^ (Z.log2 X + 1) = 2 ^ (Z.log2 X + 1 - n) * P).
          { unfold P. rewrite <- Z.pow_add_r by lia. f_equal. lia. }
          assert (0 < 2 ^ (Z.log2 X + 1 - n)) by (apply Z.pow_pos_nonneg; lia).
          assert (HJ1 : J + 1 <= 2 ^ (Z.log2 X + 1 - n)).
          { apply Z.lt_succ_r. unfold Z.succ.
            apply (Z.mul_lt_mono_pos_r P); lia. }
          assert (HPJ : (J + 1) * P <= 2 ^ (Z.log2 X + 1 - n) * P)
            by (apply Z.mul_le_mono_nonneg_r; lia).
          assert (H1 : Z.log2 Y = Z.log2 X).
          { apply Z.log2_unique; [lia|]. split; [|lia].
            destruct (Z.le_gt_cases n (Z.log2 X)) as [HnL2|HnL2].
            - assert (E2 : 2 ^ Z.log2 X = 2 ^ (Z.log2 X - n) * P).
              { unfold P. rewrite <- Z.pow_add_r by lia. f_equal. lia. }
              assert (2 ^ (Z.log2 X - n) < J + 1)
                by (apply (Z.mul_lt_mono_pos_r P); lia).
              assert (2 ^ (Z.log2 X - n) * P <= J * P)
                by (apply Z.mul_le_mono_nonneg_r; lia).
              lia.
            - assert (n = Z.log2 X + 1) by lia.
              assert (E2 : h = 2 ^ Z.log2 X) by (unfold h; f_equal; lia).
              assert (0 <= J * P) by (apply Z.mul_nonneg_nonneg; lia).
              lia. }
          unfold Rounding.zexp. rewrite H1. reflexivity.
        - exfalso.
          assert (2 ^ (Z.log2 X + 1) <= h)
            by (unfold h; apply Z.pow_le_mono_r; lia).
          assert (0 <= J * P) by (apply Z.mul_nonneg_nonneg; lia).
          lia. }
      unfold Rounding.RNz. cbv zeta. rewrite HzY. fold P.
      rewrite (rne_above Y n J); unfold P, h in *; lia.
Qed.

End TwoFormats.

(** ** A narrow format inside a wide one *)

Section Widening.
Variables T W : format.
Hypothesis precT_pos : 1 <= prec T.
Hypothesis prec_wide : 2 * prec T + 2 <= prec W.
Hypothesis emaxT_min : 3 <= emax T.
Hypothesis emax_wide : emax T <= emax W.
Hypothesis range_wide : 2 * emax T + 2 * prec T + 1 <= emax W + prec W.

Local Abbreviation eminT := (SpecFloat.emin (prec T) (emax T)).
Local Abbreviation eminW := (SpecFloat.emin (prec W) (emax W)).
Local Abbreviation zexpT := (Rounding.zexp (prec T) (emax T)).
Local Abbreviation zexpW := (Rounding.zexp (prec W) (emax W)).
Local Abbreviation RNzT := (Rounding.RNz (prec T) (emax T)).
Local Abbreviation RNzW := (Rounding.RNz (prec W) (emax W)).
Local Abbreviation SFofZT := (Rounding.SFofZ (prec T) (emax T)).
Local Abbreviation SFofZW := (Rounding.SFofZ (prec W) (emax W)).
Local Abbreviation on_gridT := (Rounding.on_grid (prec T) (emax T)).
Local Abbreviation on_gridW := (Rounding.on_grid (prec W) (emax W)).

Lemma emin_facts :
  eminT = 3 - emax T - prec T /\ eminW = 3 - emax W - prec W
  /\ eminW + prec T + 1 <= eminT - emax T /\ eminT <= 0 /\ 0 < prec W.
Proof. unfold SpecFloat.emin. lia. Qed.

(** Members of the narrow format are members of the wide one. *)
Lemma on_grid_wide c X : on_gridT c X -> c <= eminW -> on_gridW c X.
Proof.
  unfold Rounding.on_grid. intros Hg Hc.
  pose proof (zexp_finer (prec T) (emax T) (prec W) (emax W)
                ltac:(lia) ltac:(unfold SpecFloat.emin; lia) c X) as Hf.
  pose proof (zexp_ge (prec W) (emax W) c X Hc) as Hn.
  set (nT := zexpT c X - c) in *. set (nW := zexpW c X - c) in *.
  replace nT with (nT - nW + nW) in Hg by lia.
  rewrite Z.pow_add_r in Hg by lia.
  apply Z.mod_divide in Hg; [|apply Z.neq_mul_0; split; apply Z.pow_nonzero; lia].
  apply Z.mod_divide; [apply Z.pow_nonzero; lia|].
  destruct Hg as [z Hz]. exists (z * 2 ^ (nT - nW)). lia.
Qed.

(** Conversion to the wide format is exact, and does not look at the
    sign. *)
Lemma widen_finite s m e :
  valid_binary (prec T) (emax T) (S754_finite s m e) = true ->
  exists m' e',
    (forall s', cast W (S754_finite s' m e) = S754_finite s' m' e')
    /\ eminW <= e' <= e /\ Zpos m' = Zpos m * 2 ^ (e - e')
    /\ valid_binary (prec W) (emax W) (S754_finite s m' e') = true.
Proof.
  intros Hv.
  destruct emin_facts as (ET & EW & Hr & HT0 & HpW).
  set (c := eminW) in *.
  pose proof (canonical_digits (prec T) (emax T) s m e Hv) as [Hcan Hb].
  assert (HeT : eminT <= e).
  { pose proof (fexp_ge_emin (prec T) (emax T) (Z.log2 (Zpos m) + 1 + e)). lia. }
  assert (Hce : c <= e) by lia.
  destruct (valid_on_grid (prec T) (emax T) s m e c Hce Hv) as [Hg _].
  set (X := Zpos m * 2 ^ (e - c)) in *.
  assert (HX : 0 < X)
    by (apply Z.mul_pos_pos; [lia | apply Z.pow_pos_nonneg; lia]).
  assert (HgW : on_gridW c X) by (apply on_grid_wide; [assumption | lia]).
  assert (Hz : zexpW c X = SpecFloat.fexp (prec W) (emax W) (Z.log2 (Zpos m) + 1 + e)).
  { unfold X. rewrite zexp_scaled, digits2_pos_log2 by lia. reflexivity. }
  pose proof (Z.log2_nonneg (Zpos m)) as Hl0.
  assert (Hzle : zexpW c X <= e).
  { rewrite Hz. unfold SpecFloat.fexp in *. lia. }
  assert (Hzov : zexpW c X <= emax W - prec W).
  { rewrite Hz. unfold SpecFloat.fexp in *. lia. }
  pose proof (zexp_ge (prec W) (emax W) c X (Z.le_refl _)) as Hn.
  set (n := zexpW c X - c) in *.
  assert (Hp : 0 < 2 ^ n) by (apply Z.pow_pos_nonneg; lia).
  assert (En : n = zexpW c X - c) by reflexivity.
  destruct (SFofZ_pos (prec W) (emax W) s c X ltac:(lia) HX HgW) as (Hm & HYm & _).
  fold n in Hm, HYm.
  exists (Z.to_pos (X / 2 ^ n)), (zexpW c X).
  rewrite Z2Pos.id by assumption.
  assert (Hmm : X / 2 ^ n = Zpos m * 2 ^ (e - zexpW c X)).
  { apply (Z.mul_reg_r _ _ (2 ^ n)); [lia|]. rewrite HYm.
    rewrite <- Z.mul_assoc, <- Z.pow_add_r by lia.
    unfold X at 1. f_equal. f_equal. lia. }
  split; [|repeat split; try lia; try assumption].
  - intros s'. unfold cast.
    rewrite (binary_normalize_eq (prec W) (emax W) HpW _ e s' c) by lia.
    replace (cond_Zopp s' (Zpos m) =? 0) with false by (destruct s'; reflexivity).
    replace (cond_Zopp s' (Zpos m) <? 0) with s' by (destruct s'; reflexivity).
    replace (Z.abs (cond_Zopp s' (Zpos m))) with (Zpos m)
      by (destruct s'; reflexivity).
    fold X. rewrite RNz_on_grid by (assumption || lia).
    destruct (SFofZ_pos (prec W) (emax W) s' c X ltac:(lia) HX HgW) as (_ & _ & HS).
    apply Z.leb_le in Hzov. rewrite Hzov in HS. exact HS.
  - simpl. unfold bounded, canonical_mantissa.
    apply andb_true_iff. split; [|apply Z.leb_le; lia].
    apply Z.eqb_eq. rewrite digits2_pos_log2, Z2Pos.id by assumption.
    assert (Hl : Z.log2 X = n + Z.log2 (X / 2 ^ n)).
    { rewrite <- HYm at 1. apply Z.log2_mul_pow2; lia. }
    replace (Z.log2 (X / 2 ^ n) + 1 + zexpW c X) with (Z.log2 X + 1 + c) by lia.
    reflexivity.
Qed.

(** Conversion of a rounded integer to the narrow format rounds it
    again. *)
Lemma cast_SFofZ s c Y :
  c <= eminW -> 0 <= Y -> (0 < Y -> on_gridW c Y) ->
  cast T (SFofZW s c Y) = SFofZT s c (RNzT c Y).
Proof.
  intros Hc HY Hg.
  destruct emin_facts as (ET & EW & Hr & HT0 & HpW).
  assert (HcT : c <= eminT) by lia.
  destruct (Z.eq_dec Y 0) as [E0|N0].
  - rewrite E0.
    rewrite (RNz_zero (prec T) (emax T) c HcT). reflexivity.
  - assert (HYp : 0 < Y) by lia. specialize (Hg HYp).
    destruct (SFofZ_pos (prec W) (emax W) s c Y Hc HYp Hg) as (Hm & HYm & HS).
    pose proof (zexp_ge (prec W) (emax W) c Y Hc) as Hn.
    set (n := zexpW c Y - c) in *.
    rewrite HS.
    destruct (Z.leb_spec (zexpW c Y) (emax W - prec W)) as [Hok|Hov].
    + unfold cast.
      rewrite (binary_normalize_eq (prec T) (emax T) ltac:(lia) _ _ s c) by lia.
      set (m := Z.to_pos (Y / 2 ^ n)).
      replace (cond_Zopp s (Zpos m) =? 0) with false by (destruct s; reflexivity).
      replace (cond_Zopp s (Zpos m) <? 0) with s by (destruct s; reflexivity).
      replace (Z.abs (cond_Zopp s (Zpos m))) with (Zpos m)
        by (destruct s; reflexivity).
      unfold m. rewrite Z2Pos.id by assumption. fold n. rewrite HYm.
      reflexivity.
    + (* beyond the wide format, hence beyond the narrow one *)
      simpl cast.
      pose proof (log2_lower Y HYp) as [HL1 HL2].
      pose proof (Z.log2_nonneg Y) as HL0.
      assert (HL : emax W < Z.log2 Y + 1 + c).
      { unfold Rounding.zexp, SpecFloat.fexp in Hov. lia. }
      assert (Hpg : on_gridT c (2 ^ Z.log2 Y)) by (apply on_grid_pow2; lia).
      pose proof (RNz_ge (prec T) (emax T) ltac:(lia) c (2 ^ Z.log2 Y) Y HcT
                    ltac:(apply Z.pow_pos_nonneg; lia) HL1 Hpg) as Hge.
      set (R := RNzT c Y) in *.
      assert (HR : 0 < R).
      { assert (0 < 2 ^ Z.log2 Y) by (apply Z.pow_pos_nonneg; lia). lia. }
      assert (HLR : Z.log2 Y <= Z.log2 R) by (apply Z.log2_le_pow2; lia).
      unfold Rounding.SFofZ.
      destruct (Z.eqb_spec R 0); [lia|].
      destruct (Z.leb_spec (zexpT c R) (emax T - prec T)) as [Hle|]; [|reflexivity].
      exfalso. unfold Rounding.zexp, SpecFloat.fexp in Hle. lia.
Qed.

Lemma widen_Zmag m m' e e' c :
  c <= e' <= e -> Zpos m' = Zpos m * 2 ^ (e - e') ->
  Zpos m' * 2 ^ (e' - c) = Zpos m * 2 ^ (e - c).
Proof.
  intros He Hm. rewrite Hm, <- Z.mul_assoc, <- Z.pow_add_r by lia.
  f_equal. f_equal. lia.
Qed.

Lemma valid_emin s m e :
  valid_binary (prec T) (emax T) (S754_finite s m e) = true -> eminT <= e.
Proof.
  intros Hv.
  pose proof (canonical_digits (prec T) (emax T) s m e Hv) as [Hcan _].
  pose proof (fexp_ge_emin (prec T) (emax T) (Z.log2 (Zpos m) + 1 + e)). lia.
Qed.

Lemma mantissa_bound s m e :
  valid_binary (prec T) (emax T) (S754_finite s m e) = true ->
  0 < Zpos m < 2 ^ prec T /\ eminT <= e <= emax T - prec T.
Proof.
  intros Hv.
  pose proof (canonical_digits (prec T) (emax T) s m e Hv) as [Hcan Hb].
  pose proof (valid_emin s m e Hv).
  pose proof (log2_lower (Zpos m) ltac:(lia)) as [_ Hl].
  pose proof (Z.log2_nonneg (Zpos m)).
  assert (Z.log2 (Zpos m) + 1 <= prec T) by (unfold SpecFloat.fexp in Hcan; lia).
  assert (2 ^ (Z.log2 (Zpos m) + 1) <= 2 ^ prec T)
    by (apply Z.pow_le_mono_r; lia).
  lia.
Qed.

(** Widening then narrowing gives the value back. *)
Lemma narrow_widen x :
  valid_binary (prec T) (emax T) x = true -> cast T (cast W x) = x.
Proof.
  intros Hv. destruct x as [| | |s m e]; try reflexivity.
  destruct emin_facts as (ET & EW & Hr & HT0 & HpW).
  destruct (widen_finite s m e Hv) as (m' & e' & Hc & He & Hm & Hv').
  pose proof (valid_emin s m e Hv) as HeT.
  rewrite (Hc s). unfold cast.
  rewrite (binary_normalize_eq (prec T) (emax T) ltac:(lia) _ e' s eminW) by lia.
  replace (cond_Zopp s (Zpos m') =? 0) with false by (destruct s; reflexivity).
  replace (cond_Zopp s (Zpos m') <? 0) with s by (destruct s; reflexivity).
  replace (Z.abs (cond_Zopp s (Zpos m'))) with (Zpos m') by (destruct s; reflexivity).
  rewrite (widen_Zmag m m' e e' eminW) by (assumption || lia).
  destruct (valid_on_grid (prec T) (emax T) s m e eminW ltac:(lia) Hv) as [Hg Hf].
  rewrite RNz_on_grid by (assumption || lia). exact Hf.
Qed.

Lemma RNz_nonneg c X : c <= eminW -> 0 <= X -> 0 <= RNzW c X.
Proof.
  intros Hc HX. unfold Rounding.RNz. cbv zeta.
  pose proof (zexp_ge (prec W) (emax W) c X Hc).
  apply Z.mul_nonneg_nonneg; [apply rne_nonneg; lia | apply Z.pow_nonneg; lia].
Qed.

(** Rounding to the wide format and then to the narrow one, away from the
    midpoints of the narrow format, is rounding to the narrow format. *)
Lemma narrow_rounded s c X :
  c <= eminW -> 0 < X ->
  clear_of_midpoint (prec T) (emax T) (prec W) (emax W) c X ->
  cast T (SFofZW s c (RNzW c X)) = SFofZT s c (RNzT c X).
Proof.
  intros Hc HX HM.
  destruct emin_facts as (ET & EW & Hr & HT0 & HpW).
  rewrite cast_SFofZ.
  - rewrite (double_round (prec T) (emax T) (prec W) (emax W)); try lia.
    + reflexivity.
    + assumption.
  - assumption.
  - apply RNz_nonneg; lia.
  - intros _. apply RNz_grid; lia.
Qed.

Lemma grid_facts c X :
  c <= eminT -> 0 < X -> on_gridT c X ->
  let g := zexpT c X - c in
  eminT - c <= g /\ Z.log2 X + 1 - prec T <= g
  /\ X = X / 2 ^ g * 2 ^ g /\ X < 2 ^ (g + prec T).
Proof.
  intros Hc HX Hg g. unfold Rounding.on_grid in Hg. fold g in Hg.
  assert (Eg : g = Z.max (Z.log2 X + 1 - prec T) (eminT - c)).
  { unfold g, Rounding.zexp, SpecFloat.fexp. lia. }
  assert (Hp : 0 < 2 ^ g) by (apply Z.pow_pos_nonneg; lia).
  pose proof (Z.div_mod X (2 ^ g) ltac:(lia)) as Hdm.
  pose proof (log2_lower X HX) as [_ HL].
  pose proof (Z.log2_nonneg X) as HL0.
  repeat split; try lia.
  apply Z.lt_le_trans with (2 ^ (Z.log2 X + 1)); [exact HL|].
  apply Z.pow_le_mono_r; lia.
Qed.

Lemma multiple_mod a j n : 0 <= n <= j -> (a * 2 ^ j) mod 2 ^ n = 0.
Proof.
  intros H. replace j with (j - n + n) by lia.
  rewrite Z.pow_add_r, Z.mul_assoc by lia.
  apply Z.mod_mul. apply Z.pow_nonzero; lia.
Qed.

(** Sums and differences of two members of the narrow format are clear
    of its midpoints. *)
Lemma add_clear_ordered c Xa Xb X :
  c <= eminW -> 0 < Xa -> 0 < Xb -> on_gridT c Xa -> on_gridT c Xb ->
  zexpT c Xb <= zexpT c Xa ->
  0 < X -> X = Xa + Xb \/ X = Z.abs (Xa - Xb) ->
  clear_of_midpoint (prec T) (emax T) (prec W) (emax W) c X.
Proof.
  intros Hc HXa HXb Hga Hgb Hord HX Hsum.
  destruct emin_facts as (ET & EW & Hr & HT0 & HpW).
  destruct (grid_facts c Xa ltac:(lia) HXa Hga) as (Ha1 & Ha2 & Ha3 & Ha4).
  destruct (grid_facts c Xb ltac:(lia) HXb Hgb) as (Hb1 & Hb2 & Hb3 & Hb4).
  set (ga := zexpT c Xa - c) in *. set (gb := zexpT c Xb - c) in *.
  assert (Hgab : gb <= ga) by (unfold ga, gb; lia).
  set (Ka := Xa / 2 ^ ga) in *. set (Kb := Xb / 2 ^ gb) in *.
  unfold clear_of_midpoint. cbv zeta.
  assert (EnW : zexpW c X - c = Z.max (Z.log2 X + 1 - prec W) (eminW - c)).
  { unfold Rounding.zexp, SpecFloat.fexp. lia. }
  assert (EnT : zexpT c X - c = Z.max (Z.log2 X + 1 - prec T) (eminT - c)).
  { unfold Rounding.zexp, SpecFloat.fexp. lia. }
  set (nW := zexpW c X - c) in *. set (nT := zexpT c X - c) in *.
  pose proof (log2_lower X HX) as [HL1 HL2].
  pose proof (Z.log2_nonneg X) as HL0.
  set (L := Z.log2 X) in *.
  assert (Hpgb : 0 < 2 ^ gb) by (apply Z.pow_pos_nonneg; lia).
  assert (EXa : Xa = Ka * 2 ^ (ga - gb) * 2 ^ gb).
  { rewrite <- Z.mul_assoc, <- Z.pow_add_r by lia.
    replace (ga - gb + gb) with ga by lia. exact Ha3. }
  destruct (Z.le_gt_cases nW gb) as [Hfine|Hcoarse].
  - (* the sum is a member of the wide format *)
    left.
    assert (Hm : exists z, X = z * 2 ^ gb).
    { destruct Hsum as [->| ->].
      - exists (Ka * 2 ^ (ga - gb) + Kb). lia.
      - exists (Z.abs (Ka * 2 ^ (ga - gb) - Kb)).
        rewrite EXa, Hb3 at 1.
        rewrite <- Z.mul_sub_distr_r, Z.abs_mul, (Z.abs_eq (2 ^ gb)) by lia.
        reflexivity. }
    destruct Hm as [z ->]. apply multiple_mod. lia.
  - (* the small operand is far below the last place of the narrow format *)
    right.
    assert (EW' : nW = L + 1 - prec W) by lia.
    assert (ET' : nT = L + 1 - prec T) by lia.
    assert (HLp : 2 * prec T + 1 <= L) by lia.
    clear EnW EnT.
    set (h := 2 ^ (nT - 1)).
    assert (Hh : 0 < h) by (apply Z.pow_pos_nonneg; lia).
    assert (H2h : 2 ^ nT = 2 * h).
    { unfold h. replace nT with (nT - 1 + 1) at 1 by lia.
      rewrite Z.pow_add_r by lia. change (2 ^ 1) with 2. lia. }
    assert (HhW : 2 ^ nW <= h) by (apply Z.pow_le_mono_r; lia).
    assert (HXb4 : 4 * Xb < h).
    { assert (2 ^ (gb + prec T) <= 2 ^ (nT - 1 - 2))
        by (apply Z.pow_le_mono_r; lia).
      assert (h = 2 ^ (nT - 1 - 2) * 4).
      { unfold h. replace (nT - 1) with (nT - 1 - 2 + 2) at 1 by lia.
        rewrite Z.pow_add_r by lia. reflexivity. }
      lia. }
    assert (HLh : 2 ^ L = 2 ^ prec T * h).
    { unfold h. rewrite <- Z.pow_add_r by lia. f_equal. lia. }
    assert (Hpp : 2 <= 2 ^ prec T).
    { change 2 with (2 ^ 1) at 1. apply Z.pow_le_mono_r; lia. }
    assert (H2hL : 2 * h <= 2 ^ L).
    { rewrite HLh. apply Z.mul_le_mono_nonneg_r; lia. }
    (* the large operand is a multiple of the last place *)
    assert (HXaX : Xa = X - Xb \/ Xa = X + Xb) by lia.
    clear Hsum.
    assert (HXah : exists k, Xa = k * (2 * h)).
    { destruct (Z.le_gt_cases L (Z.log2 Xa)) as [Hbig|Hsmall].
      - exists (Ka * 2 ^ (ga - nT)).
        rewrite <- H2h, <- Z.mul_assoc, <- Z.pow_add_r by lia.
        replace (ga - nT + nT) with ga by lia. exact Ha3.
      - exfalso.
        assert (HXalt : Xa < 2 ^ L).
        { apply Z.log2_lt_pow2; lia. }
        assert (HXalo : 2 ^ (L - 1) <= Xa).
        { assert (2 ^ L = 2 * 2 ^ (L - 1)).
          { replace L with (L - 1 + 1) at 1 by lia.
            rewrite Z.pow_add_r by lia. change (2 ^ 1) with 2. lia. }
          lia. }
        assert (L - 1 <= Z.log2 Xa) by (apply Z.log2_le_pow2; lia).
        assert (Hgh : nT - 1 <= ga) by lia.
        assert (EXah : Xa = Ka * 2 ^ (ga - (nT - 1)) * h).
        { unfold h. rewrite <- Z.mul_assoc, <- Z.pow_add_r by lia.
          replace (ga - (nT - 1) + (nT - 1)) with ga by lia. exact Ha3. }
        set (k := Ka * 2 ^ (ga - (nT - 1))) in *.
        assert (k < 2 ^ prec T) by (apply (Z.mul_lt_mono_pos_r h); lia).
        assert (k * h <= (2 ^ prec T - 1) * h)
          by (apply Z.mul_le_mono_nonneg_r; lia).
        lia. }
    destruct HXah as [k Hk].
    assert (Hq : X / 2 ^ nT * 2 ^ nT + h = Xa + h /\ X = Xa + Xb
                 \/ X / 2 ^ nT * 2 ^ nT + h = Xa - h /\ X = Xa - Xb).
    { rewrite H2h. destruct HXaX as [E|E].
      - left. split; [|lia].
        assert (X / (2 * h) = k)
          by (symmetry; apply Z.div_unique with (r := Xb); lia).
        lia.
      - right. split; [|lia].
        assert (X / (2 * h) = k - 1)
          by (symmetry; apply Z.div_unique with (r := 2 * h - Xb); lia).
        lia. }
    fold h. destruct Hq as [[-> E]|[-> E]]; lia.
Qed.

Lemma add_clear c Xa Xb X :
  c <= eminW -> 0 < Xa -> 0 < Xb -> on_gridT c Xa -> on_gridT c Xb ->
  0 < X -> X = Xa + Xb \/ X = Z.abs (Xa - Xb) ->
  clear_of_midpoint (prec T) (emax T) (prec W) (emax W) c X.
Proof.
  intros Hc HXa HXb Hga Hgb HX Hsum.
  destruct (Z.le_gt_cases (zexpT c Xb) (zexpT c Xa)) as [Hord|Hord].
  - apply (add_clear_ordered c Xa Xb X); assumption.
  - apply (add_clear_ordered c Xb Xa X); try assumption; lia.
Qed.

Lemma Zval_widen s m e m' e' c :
  c <= e' <= e -> Zpos m' = Zpos m * 2 ^ (e - e') ->
  Zval c (S754_finite s m' e') = Zval c (S754_finite s m e).
Proof.
  intros He Hm. unfold Zval, Zmag, sign_of.
  rewrite (widen_Zmag m m' e e' c He Hm). reflexivity.
Qed.

Lemma sum_magnitude sa sb Xa Xb :
  0 < Xa -> 0 < Xb ->
  let S := cond_Zopp sa Xa + cond_Zopp sb Xb in
  Z.abs S = Xa + Xb \/ Z.abs S = Z.abs (Xa - Xb).
Proof. intros Ha Hb. destruct sa, sb; simpl; lia. Qed.

Lemma difference_magnitude sa sb Xa Xb :
  0 < Xa -> 0 < Xb ->
  let S := cond_Zopp sa Xa - cond_Zopp sb Xb in
  Z.abs S = Xa + Xb \/ Z.abs S = Z.abs (Xa - Xb).
Proof. intros Ha Hb. destruct sa, sb; simpl; lia. Qed.

(** What the drivers rely on for a result computed in the wide format: it
    is a member of that format and, when its mantissa is full, its
    exponent is within twice the range of the narrow format. *)
Definition in_range (R : spec_float) : Prop :=
  valid_binary (prec W) (emax W) R = true
  /\ forall s m e,
       R = S754_finite s m e -> 2 ^ (prec W - 1) <= Zpos m ->
       2 * eminT - 3 <= e + prec W - 1 <= 2 * emax T + prec T.

Lemma in_range_special R :
  match R with S754_finite _ _ _ => False | _ => True end -> in_range R.
Proof.
  intros Hf. split.
  - destruct R; try reflexivity. contradiction.
  - intros s m e ->. contradiction.
Qed.

Lemma in_range_rounded s c X lo hi :
  c <= eminW -> eminW - c <= lo -> 2 ^ lo <= X <= 2 ^ hi ->
  2 * eminT - 3 <= lo + c -> hi + c <= 2 * emax T + prec T ->
  in_range (SFofZW s c (RNzW c X)).
Proof.
  intros Hc Hlo HX H1 H2.
  destruct emin_facts as (ET & EW & Hr & HT0 & HpW).
  destruct (rounded_range (prec W) (emax W) HpW s c X lo hi Hc Hlo HX) as [Hv He].
  split; [exact Hv|].
  intros s' m e HS Hm. specialize (He s' m e HS Hm). lia.
Qed.

Lemma in_range_widened s s' m e m' e' :
  valid_binary (prec T) (emax T) (S754_finite s m e) = true ->
  eminW <= e' <= e -> Zpos m' = Zpos m * 2 ^ (e - e') ->
  valid_binary (prec W) (emax W) (S754_finite s m' e') = true ->
  in_range (S754_finite s' m' e').
Proof.
  intros Hv He Hm Hv'.
  destruct emin_facts as (ET & EW & Hr & HT0 & HpW).
  split; [exact Hv'|].
  intros s0 m0 e0 E Hfull. injection E as _ <- <-.
  destruct (mantissa_bound s m e Hv) as [HmT HeT].
  pose proof (canonical_digits (prec T) (emax T) s m e Hv) as [HcT _].
  pose proof (canonical_digits (prec W) (emax W) s m' e' Hv') as [HcW _].
  assert (Hl : Z.log2 (Zpos m') = Z.log2 (Zpos m) + (e - e')).
  { rewrite Hm. rewrite Z.log2_mul_pow2 by lia. lia. }
  assert (Hlm : prec W - 1 <= Z.log2 (Zpos m')) by (apply Z.log2_le_pow2; lia).
  pose proof (Z.log2_nonneg (Zpos m)) as Hl0.
  unfold SpecFloat.fexp in HcT, HcW. lia.
Qed.

(** The magnitudes of the members of the narrow format. *)
Lemma magnitude_bounds s m e c :
  valid_binary (prec T) (emax T) (S754_finite s m e) = true -> c <= eminT ->
  let X := Zpos m * 2 ^ (e - c) in
  X < 2 ^ (emax T - c)
  /\ exists z, 0 < z /\ X = z * 2 ^ (eminT - c).
Proof.
  intros Hv Hc X.
  destruct emin_facts as (ET & EW & Hr & HT0 & HpW).
  destruct (mantissa_bound s m e Hv) as [Hm He].
  split.
  - unfold X.
    assert (E : 2 ^ (emax T - c) = 2 ^ prec T * 2 ^ (emax T - prec T - c)).
    { rewrite <- Z.pow_add_r by lia. f_equal. lia. }
    assert (2 ^ (e - c) <= 2 ^ (emax T - prec T - c))
      by (apply Z.pow_le_mono_r; lia).
    assert (0 < 2 ^ (e - c)) by (apply Z.pow_pos_nonneg; lia).
    rewrite E. nia.
  - exists (Zpos m * 2 ^ (e - eminT)). split.
    + apply Z.mul_pos_pos; [lia | apply Z.pow_pos_nonneg; lia].
    + unfold X. rewrite <- Z.mul_assoc, <- Z.pow_add_r by lia.
      f_equal. f_equal. lia.
Qed.

Lemma sum_bounds c Xa Xb S za zb :
  c <= eminT ->
  0 < za -> 0 < zb ->
  Xa = za * 2 ^ (eminT - c) -> Xb = zb * 2 ^ (eminT - c) ->
  Xa < 2 ^ (emax T - c) -> Xb < 2 ^ (emax T - c) ->
  S <> 0 -> Z.abs S = Xa + Xb \/ Z.abs S = Z.abs (Xa - Xb) ->
  2 ^ (eminT - c) <= Z.abs S <= 2 ^ (emax T + 1 - c).
Proof.
  intros Hc Hza Hzb Ea Eb Ha Hb HS Hmag.
  destruct emin_facts as (ET & EW & Hr & HT0 & HpW).
  set (u := 2 ^ (eminT - c)) in *.
  assert (Hu : 0 < u) by (apply Z.pow_pos_nonneg; lia).
  assert (Eh : 2 ^ (emax T + 1 - c) = 2 * 2 ^ (emax T - c)).
  { replace (emax T + 1 - c) with (emax T - c + 1) by lia.
    rewrite Z.pow_add_r by lia. change (2 ^ 1) with 2. lia. }
  assert (HXa : 0 < Xa) by nia. assert (HXb : 0 < Xb) by nia.
  split.
  - assert (Hz : exists z, Z.abs S = Z.abs z * u).
    { destruct Hmag as [E|E]; rewrite E, Ea, Eb.
      - exists (za + zb). rewrite Z.abs_eq by lia. ring.
      - exists (za - zb).
        rewrite <- Z.mul_sub_distr_r, Z.abs_mul, (Z.abs_eq u) by lia.
        reflexivity. }
    destruct Hz as [z Hz]. rewrite Hz.
    assert (z <> 0) by (intros ->; simpl in Hz; lia).
    assert (1 <= Z.abs z) by lia. nia.
  - rewrite Eh. lia.
Qed.

Lemma fadd_finite_wide sa ma ea sb mb eb :
  valid_binary (prec T) (emax T) (S754_finite sa ma ea) = true ->
  valid_binary (prec T) (emax T) (S754_finite sb mb eb) = true ->
  let R := fadd W (cast W (S754_finite sa ma ea)) (cast W (S754_finite sb mb eb)) in
  cast T R = fadd T (S754_finite sa ma ea) (S754_finite sb mb eb)
  /\ in_range R.
Proof.
  intros Hva Hvb R. unfold R. clear R.
  destruct emin_facts as (ET & EW & Hr & HT0 & HpW).
  destruct (widen_finite sa ma ea Hva) as (ma' & ea' & Hca & Hea & Hma & Hva').
  destruct (widen_finite sb mb eb Hvb) as (mb' & eb' & Hcb & Heb & Hmb & Hvb').
  pose proof (valid_emin sa ma ea Hva) as HeaT.
  pose proof (valid_emin sb mb eb Hvb) as HebT.
  set (c := eminW) in *.
  rewrite (Hca sa), (Hcb sb). unfold fadd.
  rewrite (SFadd_finite (prec W) (emax W) HpW c) by lia.
  rewrite (SFadd_finite (prec T) (emax T) ltac:(lia) c) by lia.
  cbv zeta.
  rewrite (Zval_widen sa ma ea ma' ea' c) by (assumption || lia).
  rewrite (Zval_widen sb mb eb mb' eb' c) by (assumption || lia).
  unfold Zval, Zmag, sign_of.
  destruct (valid_on_grid (prec T) (emax T) sa ma ea c ltac:(lia) Hva) as [Hga _].
  destruct (valid_on_grid (prec T) (emax T) sb mb eb c ltac:(lia) Hvb) as [Hgb _].
  destruct (magnitude_bounds sa ma ea c Hva ltac:(lia)) as (Hua & za & Hza & Eza).
  destruct (magnitude_bounds sb mb eb c Hvb ltac:(lia)) as (Hub & zb & Hzb & Ezb).
  set (Xa := Zpos ma * 2 ^ (ea - c)) in *.
  set (Xb := Zpos mb * 2 ^ (eb - c)) in *.
  assert (HXa : 0 < Xa)
    by (apply Z.mul_pos_pos; [lia | apply Z.pow_pos_nonneg; lia]).
  assert (HXb : 0 < Xb)
    by (apply Z.mul_pos_pos; [lia | apply Z.pow_pos_nonneg; lia]).
  pose proof (sum_magnitude sa sb Xa Xb HXa HXb) as Hmag. cbv zeta in Hmag.
  set (S := cond_Zopp sa Xa + cond_Zopp sb Xb) in *.
  destruct (Z.eqb_spec S 0) as [E0|N0];
    [split; [reflexivity | apply in_range_special; exact I]|].
  split.
  - apply narrow_rounded; [lia | lia |].
    apply (add_clear c Xa Xb); try assumption; lia.
  - pose proof (sum_bounds c Xa Xb S za zb ltac:(lia) Hza Hzb Eza Ezb Hua Hub
                  N0 Hmag) as HS.
    apply (in_range_rounded _ c _ (eminT - c) (emax T + 1 - c));
      try assumption; lia.
Qed.

Lemma fsub_finite_wide sa ma ea sb mb eb :
  valid_binary (prec T) (emax T) (S754_finite sa ma ea) = true ->
  valid_binary (prec T) (emax T) (S754_finite sb mb eb) = true ->
  let R := fsub W (cast W (S754_finite sa ma ea)) (cast W (S754_finite sb mb eb)) in
  cast T R = fsub T (S754_finite sa ma ea) (S754_finite sb mb eb)
  /\ in_range R.
Proof.
  intros Hva Hvb R. unfold R. clear R.
  destruct emin_facts as (ET & EW & Hr & HT0 & HpW).
  destruct (widen_finite sa ma ea Hva) as (ma' & ea' & Hca & Hea & Hma & Hva').
  destruct (widen_finite sb mb eb Hvb) as (mb' & eb' & Hcb & Heb & Hmb & Hvb').
  pose proof (valid_emin sa ma ea Hva) as HeaT.
  pose proof (valid_emin sb mb eb Hvb) as HebT.
  set (c := eminW) in *.
  rewrite (Hca sa), (Hcb sb). unfold fsub.
  rewrite (SFsub_finite (prec W) (emax W) HpW c) by lia.
  rewrite (SFsub_finite (prec T) (emax T) ltac:(lia) c) by lia.
  cbv zeta.
  rewrite (Zval_widen sa ma ea ma' ea' c) by (assumption || lia).
  rewrite (Zval_widen sb mb eb mb' eb' c) by (assumption || lia).
  unfold Zval, Zmag, sign_of.
  destruct (valid_on_grid (prec T) (emax T) sa ma ea c ltac:(lia) Hva) as [Hga _].
  destruct (valid_on_grid (prec T) (emax T) sb mb eb c ltac:(lia) Hvb) as [Hgb _].
  destruct (magnitude_bounds sa ma ea c Hva ltac:(lia)) as (Hua & za & Hza & Eza).
  destruct (magnitude_bounds sb mb eb c Hvb ltac:(lia)) as (Hub & zb & Hzb & Ezb).
  set (Xa := Zpos ma * 2 ^ (ea - c)) in *.
  set (Xb := Zpos mb * 2 ^ (eb - c)) in *.
  assert (HXa : 0 < Xa)
    by (apply Z.mul_pos_pos; [lia | apply Z.pow_pos_nonneg; lia]).
  assert (HXb : 0 < Xb)
    by (apply Z.mul_pos_pos; [lia | apply Z.pow_pos_nonneg; lia]).
  pose proof (difference_magnitude sa sb Xa Xb HXa HXb) as Hmag. cbv zeta in Hmag.
  set (S := cond_Zopp sa Xa - cond_Zopp sb Xb) in *.
  destruct (Z.eqb_spec S 0) as [E0|N0];
    [split; [reflexivity | apply in_range_special; exact I]|].
  split.
  - apply narrow_rounded; [lia | lia |].
    apply (add_clear c Xa Xb); try assumption; lia.
  - pose proof (sum_bounds c Xa Xb S za zb ltac:(lia) Hza Hzb Eza Ezb Hua Hub
                  N0 Hmag) as HS.
    apply (in_range_rounded _ c _ (eminT - c) (emax T + 1 - c));
      try assumption; lia.
Qed.

Lemma fmul_finite_wide sa ma ea sb mb eb :
  valid_binary (prec T) (emax T) (S754_finite sa ma ea) = true ->
  valid_binary (prec T) (emax T) (S754_finite sb mb eb) = true ->
  let R := fmul W (cast W (S754_finite sa ma ea)) (cast W (S754_finite sb mb eb)) in
  cast T R = fmul T (S754_finite sa ma ea) (S754_finite sb mb eb)
  /\ in_range R.
Proof.
  intros Hva Hvb R. unfold R. clear R.
  destruct emin_facts as (ET & EW & Hr & HT0 & HpW).
  destruct (widen_finite sa ma ea Hva) as (ma' & ea' & Hca & Hea & Hma & Hva').
  destruct (widen_finite sb mb eb Hvb) as (mb' & eb' & Hcb & Heb & Hmb & Hvb').
  destruct (mantissa_bound sa ma ea Hva) as [HmaT HeaT].
  destruct (mantissa_bound sb mb eb Hvb) as [HmbT HebT].
  pose proof (canonical_digits (prec T) (emax T) sa ma ea Hva) as [Hda _].
  pose proof (canonical_digits (prec T) (emax T) sb mb eb Hvb) as [Hdb _].
  set (c := 2 * eminW).
  rewrite (Hca sa), (Hcb sb). unfold fmul.
  rewrite (SFmul_finite (prec W) (emax W) HpW c) by (assumption || (unfold c; lia)).
  rewrite (SFmul_finite (prec T) (emax T) ltac:(lia) c)
    by (assumption || (unfold c; lia)).
  assert (HX : Zpos ma' * Zpos mb' * 2 ^ (ea' + eb' - c)
               = Zpos ma * Zpos mb * 2 ^ (ea + eb - c)).
  { rewrite Hma, Hmb.
    replace (ea + eb - c) with ((ea - ea') + (eb - eb') + (ea' + eb' - c)) by lia.
    rewrite !Z.pow_add_r by (unfold c; lia). ring. }
  rewrite HX.
  set (X := Zpos ma * Zpos mb * 2 ^ (ea + eb - c)).
  assert (Hpe : 0 < 2 ^ (ea + eb - c))
    by (apply Z.pow_pos_nonneg; unfold c; lia).
  assert (HXp : 0 < X) by (unfold X; apply Z.mul_pos_pos; lia).
  assert (Hg : on_gridW c X).
  { unfold X. apply on_grid_mult; try (unfold c; lia). fold X.
    assert (HL : Z.log2 X = Z.log2 (Zpos ma * Zpos mb) + (ea + eb - c)).
    { unfold X. rewrite Z.log2_mul_pow2 by (unfold c; lia). lia. }
    pose proof (Z.log2_mul_above (Zpos ma) (Zpos mb) ltac:(lia) ltac:(lia)).
    unfold Rounding.zexp. rewrite HL.
    unfold SpecFloat.fexp in *. unfold c in *. lia. }
  split.
  - rewrite (RNz_on_grid (prec W) (emax W) c X) by (assumption || (unfold c; lia)).
    rewrite cast_SFofZ; try (unfold c; lia). reflexivity.
    intros _. exact Hg.
  - apply (in_range_rounded _ c X (2 * eminT - c) (2 * emax T - c));
      try (unfold c; lia).
    split.
    + apply Z.le_trans with (1 * 2 ^ (ea + eb - c)).
      * rewrite Z.mul_1_l. apply Z.pow_le_mono_r; unfold c; lia.
      * unfold X. apply Z.mul_le_mono_nonneg_r; lia.
    + assert (E : 2 ^ (2 * emax T - c)
                  = 2 ^ prec T * 2 ^ prec T * 2 ^ (2 * emax T - 2 * prec T - c)).
      { rewrite <- !Z.pow_add_r by (unfold c; lia). f_equal. lia. }
      assert (2 ^ (ea + eb - c) <= 2 ^ (2 * emax T - 2 * prec T - c))
        by (apply Z.pow_le_mono_r; unfold c; lia).
      assert (Zpos ma * Zpos mb <= 2 ^ prec T * 2 ^ prec T)
        by (apply Z.mul_le_mono_nonneg; lia).
      rewrite E. unfold X.
      apply Z.mul_le_mono_nonneg; lia.
Qed.

(** Quotients of two members of the narrow format are clear of its
    midpoints. *)
Lemma div_clear c A B k :
  c + 2 <= eminW -> 0 < A < 2 ^ prec T -> 0 < B < 2 ^ prec T -> 0 <= k ->
  eminW - c + prec T <= k + 1 ->
  clear_of_midpoint (prec T) (emax T) (prec W) (emax W) c (sticky (A * 2 ^ k) B).
Proof.
  intros Hc HA HB Hk Hkg.
  destruct emin_facts as (ET & EW & Hr & HT0 & HpW).
  assert (Hpk : 0 < 2 ^ k) by (apply Z.pow_pos_nonneg; lia).
  set (N := A * 2 ^ k). assert (HN : 0 < N) by (unfold N; nia).
  pose proof (sticky_pos N B HN ltac:(lia)) as HX.
  pose proof (sticky_near N B ltac:(lia)) as Hnear.
  set (X := sticky N B) in *.
  unfold clear_of_midpoint. cbv zeta.
  assert (EnW : zexpW c X - c = Z.max (Z.log2 X + 1 - prec W) (eminW - c)).
  { unfold Rounding.zexp, SpecFloat.fexp. lia. }
  assert (EnT : zexpT c X - c = Z.max (Z.log2 X + 1 - prec T) (eminT - c)).
  { unfold Rounding.zexp, SpecFloat.fexp. lia. }
  set (nW := zexpW c X - c) in *. set (nT := zexpT c X - c) in *.
  pose proof (Z.log2_nonneg X) as HL0.
  assert (HXN : X <= 2 * N).
  { assert (X * B < (2 * N + 1) * B) by nia.
    assert (X < 2 * N + 1) by (apply (Z.mul_lt_mono_pos_r B); lia). lia. }
  assert (HLk : Z.log2 X <= prec T + k).
  { apply Z.lt_succ_r. apply Z.log2_lt_pow2; [lia|]. unfold Z.succ.
    assert (2 * N < 2 ^ (prec T + k + 1)); [|lia].
    replace (prec T + k + 1) with (prec T + (k + 1)) by lia.
    rewrite Z.pow_add_r, (Z.pow_add_r 2 k 1) by lia. change (2 ^ 1) with 2.
    unfold N. nia. }
  set (g := nW + prec T).
  assert (HgT : g <= nT - 1) by (unfold g; lia).
  assert (Hgk : g <= k + 1) by (unfold g; lia).
  assert (HnW2 : 2 <= nW) by lia.
  set (q := 2 ^ nW). set (P := 2 ^ g).
  assert (Hq : 0 < q) by (apply Z.pow_pos_nonneg; lia).
  assert (HP : P = q * 2 ^ prec T).
  { unfold P, q, g. apply Z.pow_add_r; lia. }
  assert (HPB : q * B + q <= P).
  { rewrite HP. assert (B + 1 <= 2 ^ prec T) by lia. nia. }
  set (mu := X / 2 ^ nT * 2 ^ nT + 2 ^ (nT - 1)).
  set (mu' := X / 2 ^ nT * 2 ^ (nT - g) + 2 ^ (nT - 1 - g)).
  assert (Hmu : mu = mu' * P).
  { unfold mu, mu', P. rewrite Z.mul_add_distr_r.
    rewrite <- Z.mul_assoc, <- !Z.pow_add_r by lia.
    replace (nT - g + g) with nT by lia.
    replace (nT - 1 - g + g) with (nT - 1) by lia. reflexivity. }
  set (d := A * 2 ^ (k + 1 - g) - mu' * B).
  assert (Hd : 2 * N - mu * B = d * P).
  { assert (E2 : 2 * 2 ^ k = 2 ^ (k + 1 - g) * P).
    { unfold P. rewrite <- Z.pow_add_r by lia.
      replace (k + 1 - g + g) with (k + 1) by lia.
      rewrite (Z.pow_add_r 2 k 1) by lia. change (2 ^ 1) with 2. lia. }
    unfold d, N. rewrite Hmu, Z.mul_sub_distr_r.
    rewrite <- (Z.mul_assoc A), <- E2. ring. }
  assert (HDB : (X - mu) * B = X * B - 2 * N + d * P) by lia.
  clear EnW EnT.
  destruct (Z.lt_trichotomy d 0) as [Hneg|[Hz|Hpos]].
  - right. fold mu.
    assert (d * P <= - P) by nia.
    assert ((X - mu) * B < - (q - 1) * B) by lia.
    assert (X - mu < - (q - 1)) by (apply (Z.mul_lt_mono_pos_r B); lia).
    lia.
  - left. rewrite Hz in HDB.
    assert (- 1 * B < (X - mu) * B < 1 * B) by lia.
    assert (- 1 < X - mu < 1)
      by (split; apply (Z.mul_lt_mono_pos_r B); lia).
    assert (EX : X = mu' * P) by lia.
    rewrite EX. unfold P. apply multiple_mod. unfold g. lia.
  - right. fold mu.
    assert (P <= d * P) by nia.
    assert ((q - 1) * B < (X - mu) * B) by lia.
    assert (q - 1 < X - mu) by (apply (Z.mul_lt_mono_pos_r B); lia).
    lia.
Qed.

Lemma fdiv_finite_wide sa ma ea sb mb eb :
  valid_binary (prec T) (emax T) (S754_finite sa ma ea) = true ->
  valid_binary (prec T) (emax T) (S754_finite sb mb eb) = true ->
  let R := fdiv W (cast W (S754_finite sa ma ea)) (cast W (S754_finite sb mb eb)) in
  cast T R = fdiv T (S754_finite sa ma ea) (S754_finite sb mb eb)
  /\ in_range R.
Proof.
  intros Hva Hvb R. unfold R. clear R.
  destruct emin_facts as (ET & EW & Hr & HT0 & HpW).
  destruct (widen_finite sa ma ea Hva) as (ma' & ea' & Hca & Hea & Hma & Hva').
  destruct (widen_finite sb mb eb Hvb) as (mb' & eb' & Hcb & Heb & Hmb & Hvb').
  destruct (mantissa_bound sa ma ea Hva) as [HmaT HeaT].
  destruct (mantissa_bound sb mb eb Hvb) as [HmbT HebT].
  pose proof (canonical_digits (prec W) (emax W) sb mb' eb' Hvb') as [_ Hbb].
  set (c := eminW - emax W - 2).
  rewrite (Hca sa), (Hcb sb). unfold fdiv.
  rewrite (SFdiv_finite (prec W) (emax W) HpW c) by (unfold c; lia).
  rewrite (SFdiv_finite (prec T) (emax T) ltac:(lia) c) by (unfold c; lia).
  set (k := ea - eb - c - 1).
  assert (Hk : 0 <= k) by (unfold k, c; lia).
  assert (Hs : sticky (Zpos ma' * 2 ^ (ea' - eb' - c - 1)) (Zpos mb')
               = sticky (Zpos ma * 2 ^ k) (Zpos mb)).
  { rewrite <- (sticky_scale (Zpos ma * 2 ^ k) (Zpos mb) (2 ^ (eb - eb')))
      by (try apply Z.pow_pos_nonneg; lia).
    rewrite Hma, Hmb. f_equal.
    rewrite <- !Z.mul_assoc, <- !Z.pow_add_r by (unfold k, c; lia).
    f_equal. f_equal. unfold k. lia. }
  rewrite Hs.
  split.
  - apply narrow_rounded.
    + unfold c. lia.
    + apply sticky_pos; [|lia].
      apply Z.mul_pos_pos; [lia | apply Z.pow_pos_nonneg; lia].
    + apply div_clear; try lia; unfold k, c; lia.
  - pose proof (sticky_bounds (Zpos ma) (Zpos mb) k (prec T) HmaT HmbT
                  ltac:(unfold k, c; lia)) as Hb.
    apply (in_range_rounded _ c _ (k - prec T + 1) (k + 1 + prec T));
      try assumption; unfold k, c; lia.
Qed.

(** A sign-flipped member of the narrow format survives the round trip
    as well. *)
Lemma narrow_widened s s' m e m' e' :
  valid_binary (prec T) (emax T) (S754_finite s m e) = true ->
  cast W (S754_finite s' m e) = S754_finite s' m' e' ->
  cast T (S754_finite s' m' e') = S754_finite s' m e.
Proof.
  intros Hv Hc. rewrite <- Hc. apply narrow_widen. exact Hv.
Qed.

(** The operation carried out in the wide format and narrowed is the
    operation of the narrow format, and its result before the narrowing
    is in range. *)
Theorem perform_wide OP a b :
  valid_binary (prec T) (emax T) a = true ->
  valid_binary (prec T) (emax T) b = true ->
  let R := Mca.PERFORM_BIN_OP W OP (cast W a) (cast W b) in
  cast T R = Mca.PERFORM_BIN_OP T OP a b /\ in_range R.
Proof.
  intros Hva Hvb R. unfold R. clear R.
  destruct a as [sa|sa| |sa ma ea], b as [sb|sb| |sb mb eb];
    try (destruct OP;
         (split; [reflexivity | apply in_range_special; exact I]));
    try (destruct OP, sa, sb;
         (split; [reflexivity | apply in_range_special; exact I])).
  - (* zero and finite *)
    destruct (widen_finite sb mb eb Hvb) as (mb' & eb' & Hcb & Heb & Hmb & Hvb').
    destruct OP; cbn [Mca.PERFORM_BIN_OP];
      unfold fadd, fsub, fmul, fdiv;
      rewrite (Hcb sb); cbn [cast SFadd SFsub SFmul SFdiv];
      try (split; [reflexivity | apply in_range_special; exact I]).
    + split.
      * apply (narrow_widened sb sb mb eb); [assumption | apply Hcb].
      * apply (in_range_widened sb sb mb eb); assumption.
    + split.
      * apply (narrow_widened sb (negb sb) mb eb); [assumption | apply Hcb].
      * apply (in_range_widened sb (negb sb) mb eb); assumption.
  - (* infinity and finite *)
    destruct (widen_finite sb mb eb Hvb) as (mb' & eb' & Hcb & _).
    destruct OP; cbn [Mca.PERFORM_BIN_OP];
      unfold fadd, fsub, fmul, fdiv;
      rewrite (Hcb sb);
      (split; [reflexivity | apply in_range_special; exact I]).
  - (* finite and zero *)
    destruct (widen_finite sa ma ea Hva) as (ma' & ea' & Hca & Hea & Hma & Hva').
    destruct OP; cbn [Mca.PERFORM_BIN_OP];
      unfold fadd, fsub, fmul, fdiv;
      rewrite (Hca sa); cbn [cast SFadd SFsub SFmul SFdiv];
      try (split; [reflexivity | apply in_range_special; exact I]).
    + split.
      * apply (narrow_widened sa sa ma ea); [assumption | apply Hca].
      * apply (in_range_widened sa sa ma ea); assumption.
    + split.
      * apply (narrow_widened sa sa ma ea); [assumption | apply Hca].
      * apply (in_range_widened sa sa ma ea); assumption.
  - (* finite and infinity *)
    destruct (widen_finite sa ma ea Hva) as (ma' & ea' & Hca & _).
    destruct OP; cbn [Mca.PERFORM_BIN_OP];
      unfold fadd, fsub, fmul, fdiv;
      rewrite (Hca sa);
      (split; [reflexivity | apply in_range_special; exact I]).
  - (* finite and not a number *)
    destruct (widen_finite sa ma ea Hva) as (ma' & ea' & Hca & _).
    destruct OP; cbn [Mca.PERFORM_BIN_OP];
      unfold fadd, fsub, fmul, fdiv;
      rewrite (Hca sa);
      (split; [reflexivity | apply in_range_special; exact I]).
  - (* finite and finite *)
    destruct OP; cbn [Mca.PERFORM_BIN_OP].
    + apply fadd_finite_wide; assumption.
    + apply fsub_finite_wide; assumption.
    + apply fmul_finite_wide; assumption.
    + apply fdiv_finite_wide; assumption.
Qed.

End Widening.

End DoubleRounding.

(** ** The drivers in mode ieee *)

Module IeeeProofs.
Import FloatStruct FloatUtils Rng Mca Rounding RoundingOps MCAProofs.
Import DoubleRounding.

(** The two instances of the generic driver: binary32 operands computed
    in binary64 ([_mca_binary32_binary_op]) and binary64 operands computed
    in binary128 ([_mca_binary64_binary_op]). *)
Definition widening (T W : format) : Prop :=
  (T = binary32 /\ W = binary64) \/ (T = binary64 /\ W = binary128).

Section WithGen.
Context {G : Type} `{UniformGen G}.

(** C1, amended: in mode ieee with daz and ftz off, for all operands
    that are members of the operand format (finite or not) and for each of
    the four operators, the driver returns the result of the IEEE-754
    operation of the operand format: the rounding to the working format
    followed by the rounding to the operand format is the rounding to the
    operand format. *)
Theorem ieee_mode_native g T W A B OP ctx (st : rng_state_t G) :
  widening T W ->
  MCALIB_MODE g = mcamode_ieee ->
  daz ctx = false -> ftz ctx = false ->
  valid_binary (prec T) (emax T) A = true ->
  valid_binary (prec T) (emax T) B = true ->
  _MCA_BINARY_OP g T W A B OP ctx st = (PERFORM_BIN_OP T OP A B, st).
Proof.
  intros HW Hmode Hdaz Hftz HA HB.
  rewrite _MCA_BINARY_OP_stages.
  unfold noise_inputs, noise_result, narrow_result, widen_operand.
  rewrite Hmode, Hdaz, Hftz. cbn [mcamode_eqb orb].
  f_equal.
  destruct HW as [[-> ->]|[-> ->]].
  - apply (perform_wide binary32 binary64); try assumption;
      vm_compute; congruence.
  - apply (perform_wide binary64 binary128); try assumption;
      vm_compute; congruence.
Qed.

End WithGen.

(** 1.0 / 3.0 in binary32: the driver returns the binary32 quotient
    11184811 * 2^-25. *)
Lemma ieee_mode_native_witness :
  _MCA_BINARY_OP ieee_defaults binary32 binary64 one32 f3 mca_div
    init_context (CycleGen.seeded_at 0)
  = (S754_finite false 11184811 (-25), CycleGen.seeded_at 0).
Proof.
  rewrite (ieee_mode_native ieee_defaults binary32 binary64 one32 f3
             mca_div init_context (CycleGen.seeded_at 0)).
  - vm_compute. reflexivity.
  - left. split; reflexivity.
  - reflexivity.
  - reflexivity.
  - reflexivity.
  - vm_compute. reflexivity.
  - vm_compute. reflexivity.
Defined.

(** Mode ieee with daz set: 2^-149 + 2^-149 in binary32 is 2^-148, and
    the driver returns +0. *)
Lemma ieee_mode_native_counterexample :
  MCALIB_MODE ieee_defaults = mcamode_ieee
  /\ valid_binary 24 128 tiny32 = true
  /\ is_finite tiny32 = true
  /\ PERFORM_BIN_OP binary32 mca_add tiny32 tiny32 = S754_finite false 2 (-149)
  /\ fst (_mca_binary32_binary_op ieee_defaults tiny32 tiny32 mca_add
            (set_daz init_context) (CycleGen.seeded_at 0))
     = S754_zero false.
Proof. repeat split; vm_compute; reflexivity. Qed.

End IeeeProofs.

(** ** The drivers in mode rr *)

Module RrProofs.
Import FloatStruct FloatUtils Rng Mca Rounding RoundingOps MCAProofs NoiseProofs.
Import DoubleRounding IeeeProofs.

Lemma DAZ_valid T x :
  valid_binary (prec T) (emax T) x = true ->
  valid_binary (prec T) (emax T) (DAZ T x) = true.
Proof.
  intros Hv. unfold DAZ.
  destruct (fpclass_eqb (FPCLASSIFY T x) FP_SUBNORMAL); [|exact Hv].
  destruct x; try exact Hv. reflexivity.
Qed.

Lemma widening_working T W : widening T W -> working W.
Proof. intros [[_ ->]|[_ ->]]; [left | right]; reflexivity. Qed.

(** The result the drivers compute at the working precision is a member
    of the working format and, when normal, leaves room for the noise. *)
Lemma working_result_range T W ctx A B OP t :
  widening T W ->
  valid_binary (prec T) (emax T) A = true ->
  valid_binary (prec T) (emax T) B = true ->
  let R := PERFORM_BIN_OP W OP (widen_operand T W ctx A)
             (widen_operand T W ctx B) in
  FPCLASSIFY W R = FP_NORMAL -> t <= prec W - 1 ->
  valid_binary (prec W) (emax W) R = true
  /\ EXP_MIN W + 53 + t <= GET_EXP_FLT W R <= EXP_COMP W - 1.
Proof.
  intros HTW HA HB R Hc Ht.
  pose proof (widening_working T W HTW) as HW.
  assert (HA' : valid_binary (prec T) (emax T) (if daz ctx then DAZ T A else A) = true)
    by (destruct (daz ctx); [apply DAZ_valid|]; assumption).
  assert (HB' : valid_binary (prec T) (emax T) (if daz ctx then DAZ T B else B) = true)
    by (destruct (daz ctx); [apply DAZ_valid|]; assumption).
  assert (Hr : in_range T W R).
  { unfold R, widen_operand.
    destruct HTW as [[-> ->]|[-> ->]].
    - apply (perform_wide binary32 binary64); try assumption;
        vm_compute; congruence.
    - apply (perform_wide binary64 binary128); try assumption;
        vm_compute; congruence. }
  destruct Hr as [Hv He]. split; [exact Hv|].
  destruct (normal_valid_fields W R HW Hv Hc) as (s & m & e & ER & Hm & Hee).
  specialize (He s m e ER ltac:(lia)).
  rewrite ER.
  rewrite GET_EXP_FLT_normal by (unfold PMAN_SIZE; lia || assumption).
  destruct HTW as [[-> ->]|[-> ->]];
    unfold EXP_MIN, EXP_COMP in *; cbn [prec emax binary32 binary64 binary128] in *;
    unfold SpecFloat.emin in He; lia.
Qed.

Section Exact.
Context {G : Type} `{UniformGen G}.

(** C2.  In mode rr, whenever the result computed at the working precision
    is representable in the virtual precision, the driver returns, for
    every state of the generator, exactly what it returns in mode ieee:
    the unperturbed working-precision result narrowed to the operand type;
    no random draw is consumed.  With daz and ftz off and operands that
    are members of the operand type, this is the result of the IEEE-754
    operation of the operand type. *)
Theorem rr_exact_result_unperturbed g T W A B OP ctx (st : rng_state_t G) :
  MCALIB_MODE g = mcamode_rr ->
  _IS_REPRESENTABLE (noise_width W)
    (PERFORM_BIN_OP W OP (widen_operand T W ctx A) (widen_operand T W ctx B))
    (virtual_precision g W) = true ->
  fst (_MCA_BINARY_OP g T W A B OP ctx st)
  = fst (_MCA_BINARY_OP (ieee_mode g) T W A B OP ctx st)
  /\ fst (_MCA_BINARY_OP g T W A B OP ctx st)
     = narrow_result T W ctx
         (PERFORM_BIN_OP W OP (widen_operand T W ctx A) (widen_operand T W ctx B))
  /\ random_state (snd (_MCA_BINARY_OP g T W A B OP ctx st)) = random_state st
  /\ (widening T W -> daz ctx = false -> ftz ctx = false ->
      valid_binary (prec T) (emax T) A = true ->
      valid_binary (prec T) (emax T) B = true ->
      fst (_MCA_BINARY_OP g T W A B OP ctx st) = PERFORM_BIN_OP T OP A B).
Proof.
  intros Hm Hr.
  assert (E : _MCA_BINARY_OP g T W A B OP ctx st
              = (narrow_result T W ctx
                   (PERFORM_BIN_OP W OP (widen_operand T W ctx A)
                      (widen_operand T W ctx B)),
                 _init_rng_state_struct st (choose_seed ctx) (seed ctx) false)).
  { rewrite _MCA_BINARY_OP_stages.
    unfold noise_inputs, noise_result. rewrite Hm. cbn [mcamode_eqb orb].
    rewrite _INEXACT_BINARYN_eq.
    unfold _INEXACT, _MUST_NOT_BE_NOISED. rewrite Hm, Hr.
    cbn [mcamode_eqb andb]. rewrite orb_true_r. reflexivity. }
  rewrite E. cbn [fst snd].
  split; [|split; [|split]].
  - rewrite _MCA_BINARY_OP_stages.
    unfold noise_inputs, noise_result. reflexivity.
  - reflexivity.
  - apply init_random_state.
  - intros HTW Hd Hf HA HB.
    unfold narrow_result, widen_operand. rewrite Hd, Hf.
    destruct HTW as [[-> ->]|[-> ->]].
    + apply (perform_wide binary32 binary64); try assumption;
        vm_compute; congruence.
    + apply (perform_wide binary64 binary128); try assumption;
        vm_compute; congruence.
Qed.

End Exact.

(** 1.0 + 1.0 in binary32 at the default precision: the result 2.0 of
    the binary32 addition, for the draw that would have been made. *)
Lemma rr_exact_result_unperturbed_witness :
  fst (_MCA_BINARY_OP rr_defaults binary32 binary64 one32 one32 mca_add
         init_context (CycleGen.seeded_at 0))
  = cast binary32 (S754_finite false 2 0)
  /\ fst (_MCA_BINARY_OP rr_defaults binary32 binary64 one32 one32 mca_add
            init_context (CycleGen.seeded_at 0))
     = fadd binary32 one32 one32.
Proof.
  destruct (rr_exact_result_unperturbed rr_defaults binary32 binary64
              one32 one32 mca_add init_context (CycleGen.seeded_at 0))
    as (_ & E & _ & N).
  - reflexivity.
  - vm_compute. reflexivity.
  - split.
    + rewrite E. vm_compute. reflexivity.
    + apply N; try reflexivity. left. split; reflexivity.
Defined.

(** ** The value returned after a perturbation *)

Section Grid.
Variables prec emax : Z.
Hypothesis prec_pos : 0 < prec.

Local Abbreviation emin := (SpecFloat.emin prec emax).
Local Abbreviation zexp := (Rounding.zexp prec emax).
Local Abbreviation RNz := (Rounding.RNz prec emax).
Local Abbreviation on_grid := (Rounding.on_grid prec emax).

(** The exponent of the last place inside one binade. *)
Lemma zexp_binade c X k :
  0 <= k -> 2 ^ k <= X < 2 ^ (k + 1) ->
  zexp c X - c = Z.max (k + 1 - prec) (emin - c).
Proof.
  intros Hk HX.
  assert (HL : Z.log2 X = k) by (apply Z.log2_unique; [lia | exact HX]).
  unfold Rounding.zexp, SpecFloat.fexp. lia.
Qed.

(** A multiple of [2^k] not above [2^h] is on the grid as soon as [2^k]
    is at least the spacing of the grid below [2^h]. *)
Lemma on_grid_below c a k h :
  c <= emin -> 0 < a -> 0 <= k -> a * 2 ^ k <= 2 ^ h ->
  h - prec <= k -> emin - c <= k -> on_grid c (a * 2 ^ k).
Proof.
  intros Hc Ha Hk Hle Hp He.
  assert (Pk : 0 < 2 ^ k) by (apply Z.pow_pos_nonneg; lia).
  assert (Hkh : k <= h).
  { destruct (Z.le_gt_cases k h) as [|Hgt]; [assumption|]. exfalso.
    destruct (Z.le_gt_cases 0 h) as [Hh|Hh].
    - assert (2 ^ h < 2 ^ k) by (apply Z.pow_lt_mono_r; lia). nia.
    - rewrite (Z.pow_neg_r 2 h) in Hle by lia. nia. }
  destruct (Z.eq_dec (a * 2 ^ k) (2 ^ h)) as [E|N].
  - rewrite E. apply on_grid_pow2; lia.
  - apply on_grid_mult; try lia.
    assert (HL : Z.log2 (a * 2 ^ k) < h) by (apply Z.log2_lt_pow2; lia).
    unfold Rounding.zexp, SpecFloat.fexp. lia.
Qed.

(** Rounding at position [n] of the middle of an interval whose lower end
    is even. *)
Lemma rne_tie_even X n J :
  0 < n -> X = J * 2 ^ n + 2 ^ (n - 1) -> Z.even J = true -> rne X n = J.
Proof.
  intros Hn HX He.
  assert (Hp : 2 ^ n = 2 * 2 ^ (n - 1)).
  { replace n with (n - 1 + 1) at 1 by lia. rewrite Z.pow_add_r by lia.
    change (2 ^ 1) with 2. lia. }
  assert (Hh : 0 < 2 ^ (n - 1)) by (apply Z.pow_pos_nonneg; lia).
  assert (Hq : X / 2 ^ n = J).
  { symmetry. apply Z.div_unique with (r := 2 ^ (n - 1)); lia. }
  assert (Hr : X mod 2 ^ n = 2 ^ (n - 1)).
  { symmetry. apply Z.mod_unique with (q := J); lia. }
  unfold rne. rewrite Hq, Hr, <- Hp, Z.compare_refl, He. reflexivity.
Qed.

(** A number not above the middle of the interval over a grid point is
    rounded to that point at most, the tie going to an even point. *)
Lemma RNz_upto_half c Y J n :
  c <= emin -> 0 < n -> 0 < Y -> on_grid c (J * 2 ^ n) ->
  (J * 2 ^ n < Y -> zexp c Y - c = n) ->
  Y <= J * 2 ^ n + 2 ^ (n - 1) ->
  (Y = J * 2 ^ n + 2 ^ (n - 1) -> Z.even J = true) ->
  RNz c Y <= J * 2 ^ n.
Proof.
  intros Hc Hn HY Hg Hz Hle Hev.
  destruct (Z.le_gt_cases Y (J * 2 ^ n)) as [H1|H1].
  - apply RNz_le; assumption.
  - unfold Rounding.RNz. cbv zeta. rewrite (Hz ltac:(lia)).
    destruct (Z.eq_dec Y (J * 2 ^ n + 2 ^ (n - 1))) as [E|N].
    + rewrite (rne_tie_even Y n J) by auto. lia.
    + rewrite (rne_below Y n J) by lia. lia.
Qed.

(** A number above the middle of the interval under a grid point is
    rounded to that point at least. *)
Lemma RNz_from_half c Y J n :
  c <= emin -> 0 < n -> 0 < J -> on_grid c (J * 2 ^ n) ->
  (Y < J * 2 ^ n -> zexp c Y - c = n) ->
  (J - 1) * 2 ^ n + 2 ^ (n - 1) < Y ->
  J * 2 ^ n <= RNz c Y.
Proof.
  intros Hc Hn HJ Hg Hz Hlt.
  assert (Pn : 0 < 2 ^ n) by (apply Z.pow_pos_nonneg; lia).
  destruct (Z.le_gt_cases (J * 2 ^ n) Y) as [H1|H1].
  - apply RNz_ge; try assumption. nia.
  - unfold Rounding.RNz. cbv zeta. rewrite (Hz ltac:(lia)).
    rewrite (rne_above Y n (J - 1)) by lia. lia.
Qed.

End Grid.


(** Linear arithmetic over the powers of two of the context, taken as
    unknowns. *)
Ltac hide_powers :=
  repeat match goal with
         | |- context [2 ^ ?k] =>
             let x := fresh "p" in set (x := 2 ^ k) in *; clearbody x
         | H : context [2 ^ ?k] |- _ =>
             let x := fresh "p" in set (x := 2 ^ k) in *; clearbody x
         end.

Ltac plia := first [solve [hide_powers; lia] | lia].

Section Returned.
Variables T W : format.
Hypothesis precT_min : 2 <= prec T.
Hypothesis prec_wide : 2 * prec T + 2 <= prec W.
Hypothesis emaxT_min : 3 <= emax T.
Hypothesis emax_wide : emax T <= emax W.
Hypothesis range_wide : 2 * emax T + 2 * prec T + 1 <= emax W + prec W.

Local Abbreviation eminT := (SpecFloat.emin (prec T) (emax T)).
Local Abbreviation eminW := (SpecFloat.emin (prec W) (emax W)).
Local Abbreviation zexpT := (Rounding.zexp (prec T) (emax T)).
Local Abbreviation RNzT := (Rounding.RNz (prec T) (emax T)).
Local Abbreviation RNzW := (Rounding.RNz (prec W) (emax W)).
Local Abbreviation on_gridT := (Rounding.on_grid (prec T) (emax T)).
Local Abbreviation on_gridW := (Rounding.on_grid (prec W) (emax W)).

(** A mantissa [m] of the working format that is not representable in
    [t] bits lies strictly inside a cell [q * 2^(prec W - t)],
    [(q + 1) * 2^(prec W - t)] of the virtual precision. *)
Lemma cell_facts j m t :
  0 <= j -> 1 <= t <= prec W - 2 ->
  2 ^ (prec W - 1) <= m < 2 ^ prec W ->
  m mod 2 ^ (prec W - t) <> 0 ->
  exists q,
    2 ^ (t - 1) <= q < 2 ^ t
    /\ q * 2 ^ (prec W - t + j) + 2 ^ j <= m * 2 ^ j
    /\ m * 2 ^ j + 2 ^ j <= (q + 1) * 2 ^ (prec W - t + j)
    /\ 2 ^ (prec W - 1 + j) <= q * 2 ^ (prec W - t + j)
    /\ (q + 1) * 2 ^ (prec W - t + j) <= 2 ^ (prec W + j).
Proof.
  intros Hj Ht Hm Hr.
  assert (Pd : 0 < 2 ^ (prec W - t)) by (apply Z.pow_pos_nonneg; lia).
  assert (Pj : 0 < 2 ^ j) by (apply Z.pow_pos_nonneg; lia).
  assert (Pt : 0 < 2 ^ (t - 1)) by (apply Z.pow_pos_nonneg; lia).
  pose proof (Z.div_mod m (2 ^ (prec W - t)) ltac:(lia)) as Hdm.
  pose proof (Z.mod_pos_bound m (2 ^ (prec W - t)) Pd) as Hb.
  exists (m / 2 ^ (prec W - t)).
  set (q := m / 2 ^ (prec W - t)) in *.
  set (r := m mod 2 ^ (prec W - t)) in *.
  assert (E1 : 2 ^ (prec W - 1) = 2 ^ (t - 1) * 2 ^ (prec W - t))
    by (rewrite <- Z.pow_add_r by lia; f_equal; lia).
  assert (E2 : 2 ^ prec W = 2 ^ t * 2 ^ (prec W - t))
    by (rewrite <- Z.pow_add_r by lia; f_equal; lia).
  assert (E3 : 2 ^ (prec W - t + j) = 2 ^ (prec W - t) * 2 ^ j)
    by (apply Z.pow_add_r; lia).
  assert (E4 : 2 ^ (prec W - 1 + j) = 2 ^ (prec W - 1) * 2 ^ j)
    by (apply Z.pow_add_r; lia).
  assert (E5 : 2 ^ (prec W + j) = 2 ^ prec W * 2 ^ j)
    by (apply Z.pow_add_r; lia).
  assert (E6 : 2 ^ t = 2 * 2 ^ (t - 1)).
  { replace t with (t - 1 + 1) at 1 by lia. rewrite Z.pow_add_r by lia.
    change (2 ^ 1) with 2. lia. }
  assert (Hq : 2 ^ (t - 1) <= q < 2 ^ t) by nia.
  rewrite E3, E4, E5.
  repeat split; try lia; try nia.
Qed.


(** The powers of two that delimit the cells. *)
Lemma cell_powers j t :
  0 <= j -> 1 <= t <= prec W - 2 ->
  0 < 2 ^ j
  /\ 2 ^ (prec W - t + j) = 2 * 2 ^ (prec W - t - 1 + j)
  /\ 2 ^ (prec W - t - 1 + j) = 2 ^ (prec W - t - 1) * 2 ^ j
  /\ 2 * 2 ^ j <= 2 ^ (prec W - t - 1 + j)
  /\ 2 ^ (prec W + j) = 2 * 2 ^ (prec W - 1 + j)
  /\ 2 ^ (prec W + j + 1) = 2 * 2 ^ (prec W + j)
  /\ 2 ^ (prec W - 1 + j) = 2 * 2 ^ (prec W - 2 + j)
  /\ 2 ^ (prec W + j) = 2 ^ t * 2 ^ (prec W - t + j)
  /\ 2 ^ (prec W - 1 + j) = 2 ^ (t - 1) * 2 ^ (prec W - t + j)
  /\ 2 ^ (prec W - t - 1 + j) <= 2 ^ (prec W - 2 + j)
  /\ 0 < 2 ^ (prec W - t - 1).
Proof.
  intros Hj Ht.
  assert (S1 : forall k, 0 <= k -> 2 ^ (k + 1) = 2 * 2 ^ k).
  { intros k Hk. rewrite Z.pow_add_r by lia. change (2 ^ 1) with 2. lia. }
  assert (Pj : 0 < 2 ^ j) by (apply Z.pow_pos_nonneg; lia).
  assert (Pd : 0 < 2 ^ (prec W - t - 2)) by (apply Z.pow_pos_nonneg; lia).
  repeat split.
  - exact Pj.
  - rewrite <- S1 by lia. f_equal. lia.
  - apply Z.pow_add_r; lia.
  - replace (prec W - t - 1 + j) with (prec W - t - 2 + (j + 1)) by lia.
    rewrite Z.pow_add_r, S1 by lia. nia.
  - rewrite <- S1 by lia. f_equal. lia.
  - apply S1. lia.
  - rewrite <- S1 by lia. f_equal. lia.
  - rewrite <- Z.pow_add_r by lia. f_equal. lia.
  - rewrite <- Z.pow_add_r by lia. f_equal. lia.
  - apply Z.pow_le_mono_r; lia.
  - apply Z.pow_pos_nonneg; lia.
Qed.

(** The perturbed value, rounded to the working format and then to the
    operand type, stays below the value plus one unit of the virtual
    precision. *)
Lemma narrowed_upper j m t X :
  0 <= j -> 1 <= t <= prec T ->
  2 ^ (prec W - 1) <= m < 2 ^ prec W ->
  m mod 2 ^ (prec W - t) <> 0 ->
  eminT - eminW <= j + prec W - prec T ->
  0 < X <= m * 2 ^ j + 2 ^ (prec W - t - 1 + j) ->
  0 < RNzW eminW X ->
  RNzT eminW (RNzW eminW X) < m * 2 ^ j + 2 ^ (prec W - t + j).
Proof.
  intros Hj Ht Hm Hr HeT HX HY.
  assert (HcT : eminW <= eminT) by (unfold SpecFloat.emin; lia).
  assert (HpT : 0 < prec T) by lia.
  assert (HpW : 0 < prec W) by lia.
  destruct (cell_facts j m t Hj ltac:(lia) Hm Hr) as (q & Hq & Hlo & Hhi & HL & HU).
  destruct (cell_powers j t Hj ltac:(lia))
    as (Pj & EG & EH & Ha & ET & ET1 & EB & ETt & EBt & HH & Pd).
  assert (Pq : 0 < 2 ^ (t - 1)) by (apply Z.pow_pos_nonneg; lia).
  assert (EqG : q * 2 ^ (prec W - t + j)
                = 2 * (q * 2 ^ (prec W - t - 1 + j)))
    by (rewrite EG; ring).
  set (Y := RNzW eminW X) in *.
  destruct (Z.le_gt_cases (m * 2 ^ j + 2 ^ (prec W - t - 1 + j))
              ((q + 1) * 2 ^ (prec W - t + j))) as [CA|CB].
  - (* not above the next point of the virtual precision *)
    assert (GW : on_gridW eminW ((q + 1) * 2 ^ (prec W - t + j)))
      by (apply on_grid_below with (h := prec W + j); plia).
    assert (GT : on_gridT eminW ((q + 1) * 2 ^ (prec W - t + j)))
      by (apply on_grid_below with (h := prec W + j); plia).
    assert (Y <= (q + 1) * 2 ^ (prec W - t + j))
      by (apply RNz_le; plia || assumption).
    assert (RNzT eminW Y <= (q + 1) * 2 ^ (prec W - t + j))
      by (apply RNz_le; plia || assumption).
    plia.
  - assert (GWF : on_gridW eminW ((2 * q + 3) * 2 ^ (prec W - t - 1 + j)))
      by (apply on_grid_below with (h := prec W + j + 1); plia).
    assert (YF : Y <= (2 * q + 3) * 2 ^ (prec W - t - 1 + j))
      by (apply RNz_le; plia || assumption).
    destruct (Z.eq_dec (q + 1) (2 ^ t)) as [Etop|Ntop].
    + (* the next point is the power of two over the binade *)
      assert (EU : (q + 1) * 2 ^ (prec W - t + j) = 2 ^ (prec W + j))
        by (rewrite Etop; plia).
      destruct (Z.le_gt_cases t (prec T - 2)) as [Hs|Hb].
      * assert (GTF : on_gridT eminW ((2 * q + 3) * 2 ^ (prec W - t - 1 + j)))
          by (apply on_grid_below with (h := prec W + j + 1); plia).
        assert (RNzT eminW Y <= (2 * q + 3) * 2 ^ (prec W - t - 1 + j))
          by (apply RNz_le; plia || assumption).
        plia.
      * apply Z.le_lt_trans with (2 ^ (prec W + j)); [|plia].
        assert (EJ : 2 ^ (prec W + j)
                     = 2 ^ (prec T - 1) * 2 ^ (j + prec W - prec T + 1))
          by (rewrite <- Z.pow_add_r by plia; f_equal; plia).
        assert (HHn : 2 ^ (prec W - t - 1 + j) <= 2 ^ (j + prec W - prec T))
          by (apply Z.pow_le_mono_r; plia).
        rewrite EJ.
        apply RNz_upto_half; try plia.
        -- rewrite <- EJ. apply on_grid_pow2; plia.
        -- intros HYU.
           rewrite (zexp_binade (prec T) (emax T) eminW Y (prec W + j)) by plia.
           plia.
        -- replace (j + prec W - prec T + 1 - 1) with (j + prec W - prec T) by plia.
           plia.
        -- intros _. rewrite Z.even_pow by plia. reflexivity.
    + assert (HU' : (q + 2) * 2 ^ (prec W - t + j) <= 2 ^ (prec W + j))
        by (rewrite ETt; apply Z.mul_le_mono_nonneg_r; plia).
      destruct (Z.le_gt_cases t (prec T - 1)) as [Hs|Hb].
      * assert (GTF : on_gridT eminW ((2 * q + 3) * 2 ^ (prec W - t - 1 + j)))
          by (apply on_grid_below with (h := prec W + j); plia).
        assert (RNzT eminW Y <= (2 * q + 3) * 2 ^ (prec W - t - 1 + j))
          by (apply RNz_le; plia || assumption).
        plia.
      * apply Z.le_lt_trans with ((q + 1) * 2 ^ (prec W - t + j)); [|plia].
        assert (E2 : ((2 * q + 3) * 2 ^ (prec W - t - 1) - 1) * 2 ^ j
                     = 2 * (q * 2 ^ (prec W - t - 1 + j))
                       + 3 * 2 ^ (prec W - t - 1 + j) - 2 ^ j)
          by (rewrite EH; ring).
        assert (GW2 : on_gridW eminW
                        (((2 * q + 3) * 2 ^ (prec W - t - 1) - 1) * 2 ^ j)).
        { apply on_grid_below with (h := prec W + j); plia. }
        assert (Y2 : Y <= ((2 * q + 3) * 2 ^ (prec W - t - 1) - 1) * 2 ^ j)
          by (apply RNz_le; try assumption; plia).
        rewrite E2 in Y2.
        apply RNz_upto_half; try plia.
        -- apply on_grid_below with (h := prec W + j); plia.
        -- intros HYU.
           rewrite (zexp_binade (prec T) (emax T) eminW Y (prec W - 1 + j)).
           ++ plia.
           ++ plia.
           ++ replace (prec W - 1 + j + 1) with (prec W + j) by plia. plia.
        -- replace (prec W - t + j - 1) with (prec W - t - 1 + j) by plia. plia.
        -- intros E. exfalso.
           replace (prec W - t + j - 1) with (prec W - t - 1 + j) in E by plia.
           plia.
Qed.


(** It also stays above the value minus one unit of the virtual
    precision. *)
Lemma narrowed_lower j m t X :
  0 <= j -> 1 <= t <= prec T ->
  2 ^ (prec W - 1) <= m < 2 ^ prec W ->
  m mod 2 ^ (prec W - t) <> 0 ->
  eminT - eminW <= j + prec W - prec T ->
  m * 2 ^ j - 2 ^ (prec W - t - 1 + j) <= X ->
  m * 2 ^ j - 2 ^ (prec W - t + j) < RNzT eminW (RNzW eminW X).
Proof.
  intros Hj Ht Hm Hr HeT HX.
  assert (HcT : eminW <= eminT) by (unfold SpecFloat.emin; lia).
  assert (HpT : 0 < prec T) by lia.
  assert (HpW : 0 < prec W) by lia.
  destruct (cell_facts j m t Hj ltac:(lia) Hm Hr) as (q & Hq & Hlo & Hhi & HL & HU).
  destruct (cell_powers j t Hj ltac:(lia))
    as (Pj & EG & EH & Ha & ET & ET1 & EB & ETt & EBt & HH & Pd).
  assert (Pq : 0 < 2 ^ (t - 1)) by (apply Z.pow_pos_nonneg; lia).
  assert (EqG : q * 2 ^ (prec W - t + j)
                = 2 * (q * 2 ^ (prec W - t - 1 + j)))
    by (rewrite EG; ring).
  assert (PB : 0 < 2 ^ (prec W - 2 + j)) by (apply Z.pow_pos_nonneg; plia).
  set (Y := RNzW eminW X) in *.
  destruct (Z.le_gt_cases (q * 2 ^ (prec W - t + j))
              (m * 2 ^ j - 2 ^ (prec W - t - 1 + j))) as [CA|CB].
  - (* not below the previous point of the virtual precision *)
    assert (GW : on_gridW eminW (q * 2 ^ (prec W - t + j)))
      by (apply on_grid_below with (h := prec W + j); plia).
    assert (GT : on_gridT eminW (q * 2 ^ (prec W - t + j)))
      by (apply on_grid_below with (h := prec W + j); plia).
    assert (q * 2 ^ (prec W - t + j) <= Y)
      by (apply RNz_ge; plia || assumption).
    assert (q * 2 ^ (prec W - t + j) <= RNzT eminW Y)
      by (apply RNz_ge; plia || assumption).
    plia.
  - assert (GWF : on_gridW eminW ((2 * q - 1) * 2 ^ (prec W - t - 1 + j)))
      by (apply on_grid_below with (h := prec W + j); plia).
    assert (YF : (2 * q - 1) * 2 ^ (prec W - t - 1 + j) <= Y)
      by (apply RNz_ge; plia || assumption).
    assert (Pos : 0 < (2 * q - 1) * 2 ^ (prec W - t - 1 + j)) by plia.
    assert (Cases : t <= prec T - 1
                    \/ (t = prec T /\ q = 2 ^ (t - 1)
                        /\ eminT - eminW <= j + prec W - prec T - 1)
                    \/ (t = prec T
                        /\ (2 ^ (t - 1) + 1 <= q
                            \/ (q = 2 ^ (t - 1)
                                /\ eminT - eminW = j + prec W - prec T)))) by plia.
    destruct Cases as [Hs|[(Et & Eq & He)|(Et & Hq2)]].
    + assert (GTF : on_gridT eminW ((2 * q - 1) * 2 ^ (prec W - t - 1 + j)))
        by (apply on_grid_below with (h := prec W + j); plia).
      assert ((2 * q - 1) * 2 ^ (prec W - t - 1 + j) <= RNzT eminW Y)
        by (apply RNz_ge; plia || assumption).
      plia.
    + assert (EqB : q * 2 ^ (prec W - t + j) = 2 ^ (prec W - 1 + j))
        by (rewrite Eq; plia).
      assert (GTF : on_gridT eminW ((2 * q - 1) * 2 ^ (prec W - t - 1 + j)))
        by (apply on_grid_below with (h := prec W - 1 + j); plia).
      assert ((2 * q - 1) * 2 ^ (prec W - t - 1 + j) <= RNzT eminW Y)
        by (apply RNz_ge; plia || assumption).
      plia.
    + apply Z.lt_le_trans with (q * 2 ^ (prec W - t + j)); [plia|].
      assert (E2 : ((2 * q - 1) * 2 ^ (prec W - t - 1) + 1) * 2 ^ j
                   = 2 * (q * 2 ^ (prec W - t - 1 + j))
                     - 2 ^ (prec W - t - 1 + j) + 2 ^ j)
        by (rewrite EH; ring).
      assert (GW2 : on_gridW eminW
                      (((2 * q - 1) * 2 ^ (prec W - t - 1) + 1) * 2 ^ j)).
      { apply on_grid_below with (h := prec W + j); try plia.
        assert (0 <= (2 * q - 1) * 2 ^ (prec W - t - 1))
          by (apply Z.mul_nonneg_nonneg; plia).
        plia. }
      assert (Y2 : ((2 * q - 1) * 2 ^ (prec W - t - 1) + 1) * 2 ^ j <= Y)
        by (apply RNz_ge; try assumption; plia).
      rewrite E2 in Y2.
      apply RNz_from_half; try plia.
      * apply on_grid_below with (h := prec W + j); plia.
      * intros HYL.
        destruct Hq2 as [Hq2|[Eq He]].
        -- assert (2 ^ (prec W - 1 + j) + 2 ^ (prec W - t + j)
                   <= q * 2 ^ (prec W - t + j)).
           { rewrite EBt.
             replace (2 ^ (t - 1) * 2 ^ (prec W - t + j) + 2 ^ (prec W - t + j))
               with ((2 ^ (t - 1) + 1) * 2 ^ (prec W - t + j)) by ring.
             apply Z.mul_le_mono_nonneg_r; plia. }
           rewrite (zexp_binade (prec T) (emax T) eminW Y (prec W - 1 + j)).
           ++ plia.
           ++ plia.
           ++ replace (prec W - 1 + j + 1) with (prec W + j) by plia. plia.
        -- assert (EqB : q * 2 ^ (prec W - t + j) = 2 ^ (prec W - 1 + j))
             by (rewrite Eq; plia).
           rewrite (zexp_binade (prec T) (emax T) eminW Y (prec W - 2 + j)).
           ++ plia.
           ++ plia.
           ++ replace (prec W - 2 + j + 1) with (prec W - 1 + j) by plia. plia.
      * replace (prec W - t + j - 1) with (prec W - t - 1 + j) by plia. plia.
Qed.


(** A normal value [R] of the working format that is not representable
    in [t <= prec T] bits and lies in the normal range of the operand
    type, perturbed by a noise of at most half a unit of the virtual
    precision and narrowed to the operand type: the narrowed value, when
    finite, is within one unit of the virtual precision of [R]; it is
    finite when [R] is below the last binade of the operand type. *)
Lemma narrowed_noise_bound sR mR eR sd md en t :
  1 <= t <= prec T ->
  eminW <= eR ->
  2 ^ (prec W - 1) <= Zpos mR < 2 ^ prec W ->
  Zpos mR mod 2 ^ (prec W - t) <> 0 ->
  eminT <= eR + prec W - prec T ->
  eminW <= en ->
  Zpos md * 2 ^ (en - eminW) <= 2 ^ (prec W - t - 1) * 2 ^ (eR - eminW) ->
  let R := S754_finite sR mR eR in
  let r' := cast T (fadd W R (S754_finite sd md en)) in
  (eR + prec W + 1 <= emax T -> is_finite r' = true)
  /\ (is_finite r' = true ->
      (Qabs (SF2Q r' - SF2Q R) < pow2 (eR + prec W - t))%Q).
Proof.
  intros Ht HeR HmR Hr HeT Hen HN R r'.
  assert (HpT : 0 < prec T) by lia.
  assert (HpW : 0 < prec W) by lia.
  assert (HcT : eminW <= eminT) by (unfold SpecFloat.emin; lia).
  set (c := eminW) in *.
  set (j := eR - c) in *.
  assert (Hj : 0 <= j) by (unfold j; lia).
  destruct (cell_powers j t Hj ltac:(lia))
    as (Pj & EG & EH & Ha & ET & ET1 & EB & ETt & EBt & HH & Pd).
  rewrite <- EH in HN.
  set (XR := Zpos mR * 2 ^ j) in *.
  set (XN := Zpos md * 2 ^ (en - c)) in *.
  assert (PN : 0 < XN).
  { unfold XN. apply Z.mul_pos_pos; [plia | apply Z.pow_pos_nonneg; plia]. }
  assert (E4 : 2 ^ (prec W - 1 + j) = 2 ^ (prec W - 1) * 2 ^ j)
    by (apply Z.pow_add_r; plia).
  assert (E5 : 2 ^ (prec W + j) = 2 ^ prec W * 2 ^ j)
    by (apply Z.pow_add_r; plia).
  assert (HXR : 2 ^ (prec W - 1 + j) <= XR < 2 ^ (prec W + j)).
  { unfold XR. rewrite E4, E5. split.
    - apply Z.mul_le_mono_nonneg_r; plia.
    - apply Z.mul_lt_mono_pos_r; plia. }
  assert (PB : 0 < 2 ^ (prec W - 2 + j)) by (apply Z.pow_pos_nonneg; plia).
  (* the sum at the working precision *)
  assert (Hadd : exists X,
             fadd W R (S754_finite sd md en) = SFofZ (prec W) (emax W) sR c (RNzW c X)
             /\ XR - 2 ^ (prec W - t - 1 + j) <= X
                <= XR + 2 ^ (prec W - t - 1 + j)).
  { unfold fadd, R.
    rewrite (SFadd_finite (prec W) (emax W) HpW c) by (unfold c; plia).
    cbv zeta. unfold Zval. cbn [sign_of Zmag]. fold j XR XN.
    set (S := cond_Zopp sR XR + cond_Zopp sd XN).
    assert (HZabs : XR - 2 ^ (prec W - t - 1 + j) <= Z.abs S
                    <= XR + 2 ^ (prec W - t - 1 + j)).
    { unfold S. destruct sR, sd; simpl; plia. }
    assert (HZneg : (S <? 0) = sR).
    { unfold S. destruct sR, sd; simpl; apply Z.ltb_lt || apply Z.ltb_ge; plia. }
    destruct (Z.eqb_spec S 0) as [S0|_];
      [rewrite S0 in HZabs; simpl in HZabs; plia|].
    rewrite HZneg. exists (Z.abs S). split; [reflexivity | exact HZabs]. }
  destruct Hadd as (X & Hsum & HX).
  set (Y := RNzW c X) in *.
  assert (HX0 : 0 < X) by plia.
  assert (HY0 : 0 < Y).
  { assert (2 ^ (prec W - 2 + j) <= Y); [|plia].
    apply RNz_ge; try plia. apply on_grid_pow2; unfold c; plia. }
  assert (HYg : on_gridW c Y) by (apply RNz_grid; unfold c; plia).
  assert (Hcast : r' = SFofZ (prec T) (emax T) sR c (RNzT c Y)).
  { unfold r'. rewrite Hsum.
    apply (cast_SFofZ T W); try assumption; try plia.
    intros _. exact HYg. }
  pose proof (narrowed_upper j (Zpos mR) t X Hj Ht HmR Hr
                ltac:(unfold j, c; plia) ltac:(fold XR; plia) HY0) as Hup.
  pose proof (narrowed_lower j (Zpos mR) t X Hj Ht HmR Hr
                ltac:(unfold j, c; plia) ltac:(fold XR; plia)) as Hlow.
  fold c Y XR in Hup, Hlow.
  set (Z' := RNzT c Y) in *.
  assert (HG : 2 ^ (prec W - t + j) <= 2 ^ (prec W - 1 + j))
    by (apply Z.pow_le_mono_r; plia).
  assert (HZ0 : 0 < Z') by plia.
  assert (HZg : on_gridT c Z') by (apply RNz_grid; plia).
  rewrite Hcast. unfold Rounding.SFofZ.
  destruct (Z.eqb_spec Z' 0) as [|_]; [plia|].
  split.
  - intros Hov.
    assert (HL : Z.log2 Z' < prec W + j + 1).
    { apply Z.log2_lt_pow2; [plia|]. plia. }
    destruct (Z.leb_spec (Rounding.zexp (prec T) (emax T) c Z')
                (emax T - prec T)) as [|Hbad]; [reflexivity|].
    exfalso. unfold Rounding.zexp, SpecFloat.fexp, SpecFloat.emin in Hbad.
    unfold j, c, SpecFloat.emin in *. plia.
  - destruct (Z.leb_spec (Rounding.zexp (prec T) (emax T) c Z')
                (emax T - prec T)) as [Hok|]; [|discriminate].
    intros _.
    pose proof (SF2Q_SFofZ (prec T) (emax T) sR c Z' HcT HZ0 HZg Hok) as HQ.
    unfold Rounding.SFofZ in HQ.
    destruct (Z.eqb_spec Z' 0) as [|_]; [plia|].
    destruct (Z.leb_spec (Rounding.zexp (prec T) (emax T) c Z')
                (emax T - prec T)) as [_|]; [|plia].
    rewrite HQ.
    assert (HR : (SF2Q R == inject_Z (cond_Zopp sR XR) * pow2 c)%Q).
    { unfold R, SF2Q, XR. rewrite !inject_Z_cond_Zopp.
      rewrite inject_Z_mult, inject_Z_pow2 by plia.
      replace eR with (j + c) at 1 by (unfold j; plia).
      rewrite pow2_add. ring. }
    rewrite HR.
    assert (Hd : (inject_Z (cond_Zopp sR Z') * pow2 c
                  - inject_Z (cond_Zopp sR XR) * pow2 c
                  == inject_Z (cond_Zopp sR (Z' - XR)) * pow2 c)%Q).
    { rewrite !inject_Z_cond_Zopp. unfold Z.sub.
      rewrite inject_Z_plus, inject_Z_opp. ring. }
    rewrite Hd, Qabs_Qmult, Qabs_inject_Z.
    rewrite (Qabs_pos (pow2 c)) by (apply Qlt_le_weak, pow2_pos).
    replace (Z.abs (cond_Zopp sR (Z' - XR))) with (Z.abs (Z' - XR))
      by (destruct sR; simpl; plia).
    assert (Hk : (pow2 (eR + prec W - t)
                  == inject_Z (2 ^ (prec W - t + j)) * pow2 c)%Q).
    { rewrite inject_Z_pow2 by plia.
      rewrite <- pow2_add. apply pow2_eq. unfold j. plia. }
    rewrite Hk.
    apply Qmult_lt_r; [apply pow2_pos|].
    rewrite <- Zlt_Qlt. plia.
Qed.

End Returned.


Lemma widening_facts T W :
  widening T W ->
  2 <= prec T /\ 2 * prec T + 2 <= prec W /\ 3 <= emax T
  /\ emax T <= emax W
  /\ 2 * emax T + 2 * prec T + 1 <= emax W + prec W.
Proof.
  intros [[-> ->]|[-> ->]]; vm_compute; repeat split; congruence.
Qed.

(** A normal value that is not representable in [t] bits has a non-zero
    bit among the [prec W - t] low bits of its mantissa. *)
Lemma not_representable_mantissa W s m e t :
  1 <= t <= prec W - 1 ->
  2 ^ (prec W - 1) <= Zpos m ->
  _IS_REPRESENTABLE W (S754_finite s m e) t = false ->
  Zpos m mod 2 ^ (prec W - t) <> 0.
Proof.
  intros Ht Hm Hr E.
  unfold _IS_REPRESENTABLE, FPCLASSIFY in Hr. cbv zeta in Hr.
  rewrite view_normal in Hr by (unfold PMAN_SIZE; exact Hm).
  destruct (Z.leb_spec (2 ^ PMAN_SIZE W) (Zpos m)) as [_|Hlt];
    [|unfold PMAN_SIZE in Hlt; lia].
  cbn [mantissa] in Hr. unfold low_bits, PMAN_SIZE in Hr.
  replace (Z.max 0 (prec W - 1 - (t - 1))) with (prec W - t) in Hr by lia.
  rewrite Z.land_ones in Hr by lia.
  replace (Zpos m - 2 ^ (prec W - 1))
    with (Zpos m + (- 2 ^ (t - 1)) * 2 ^ (prec W - t)) in Hr.
  2:{ replace (prec W - 1) with (t - 1 + (prec W - t)) by lia.
      rewrite Z.pow_add_r by lia. ring. }
  rewrite Z.mod_add in Hr by (apply Z.pow_nonzero; lia).
  rewrite E in Hr. discriminate.
Qed.

Section WithGen.
Context {G : Type} `{UniformGenOk G}.

(** C4 (as amended).  In mode rr with the relative error mode and
    sparsity 1, for operands that are members of the operand type, let
    [R] be the result computed at the working precision, normal and not
    representable in the virtual precision [t >= 1], and let
    [k = GET_EXP(R) - (t - 1)].  For every draw [u] other than 0.5 the
    driver makes exactly that one draw and returns the narrowing to the
    operand type of [R' = R + noise], the sum being rounded to the
    working format, where the noise is [u - 0.5] as computed in the
    working format, times [2^k]; the noise is not zero and at most
    [2^(k - 1)] in magnitude, [R'] is finite and [|R' - R| < 2^k].  When
    moreover [t] is at most the precision of the operand type, ftz is off
    and [R] is in the normal range of the operand type, the returned value
    [r'] is finite as soon as [R] is below the last binade of the operand
    type, and whenever [r'] is finite, [|r' - R| < 2^k]. *)
Theorem rr_perturbation_bound g T W A B OP ctx (st : rng_state_t G) :
  widening T W ->
  MCALIB_MODE g = mcamode_rr ->
  relErr ctx = true -> absErr ctx = false ->
  sparsity ctx = cast binary32 (S754_finite false 1 0) ->
  valid_binary (prec T) (emax T) A = true ->
  valid_binary (prec T) (emax T) B = true ->
  let t := virtual_precision g W in
  let R := PERFORM_BIN_OP W OP (widen_operand T W ctx A)
             (widen_operand T W ctx B) in
  let k := GET_EXP_FLT W R - (t - 1) in
  let st0 := _init_rng_state_struct st (choose_seed ctx) (seed ctx) false in
  let u := fst (get_rand_double01 st0 global_tid) in
  let noise := fst (_NOISE W k st0) in
  let R' := fadd W R noise in
  let r' := fst (_MCA_BINARY_OP g T W A B OP ctx st) in
  1 <= t ->
  FPCLASSIFY W R = FP_NORMAL ->
  _IS_REPRESENTABLE W R t = false ->
  u <> half binary64 ->
  _MCA_BINARY_OP g T W A B OP ctx st
  = (narrow_result T W ctx R', snd (get_rand_double01 st0 global_tid))
  /\ (SF2Q noise == SF2Q (centred W u) * pow2 k)%Q
  /\ (0 < Qabs (SF2Q noise))%Q
  /\ (Qabs (SF2Q noise) <= pow2 (k - 1))%Q
  /\ is_finite R' = true
  /\ (Qabs (SF2Q R' - SF2Q R) < pow2 k)%Q
  /\ (t <= prec T -> ftz ctx = false -> EXP_MIN T <= GET_EXP_FLT W R ->
      (GET_EXP_FLT W R <= EXP_COMP T - 1 -> is_finite r' = true)
      /\ (is_finite r' = true -> (Qabs (SF2Q r' - SF2Q R) < pow2 k)%Q)).
Proof.
  intros HTW Hm Hrel Habs Hsp HA HB t R k st0 u noise R' r' Ht Hc Hr Hu.
  pose proof (widening_working T W HTW) as HW.
  destruct (working_facts W HW) as (Hp & Hx & Hpe & H2 & Hce & Hc64).
  pose proof (not_representable_precision W R t Hc Hr) as Htp.
  destruct (working_result_range T W ctx A B OP t HTW HA HB Hc Htp)
    as [Hv Hrange].
  fold R in Hv, Hrange.
  assert (E : _INEXACT g W R t ctx st = (R', snd (_NOISE W k st0))).
  { rewrite _INEXACT_rr by assumption. reflexivity. }
  assert (Edrv : _MCA_BINARY_OP g T W A B OP ctx st
                 = (narrow_result T W ctx R',
                    snd (get_rand_double01 st0 global_tid))).
  { rewrite _MCA_BINARY_OP_stages.
    unfold noise_inputs, noise_result. rewrite Hm.
    cbn [mcamode_eqb orb]. fold R.
    rewrite _INEXACT_BINARYN_eq.
    replace (noise_width W) with W
      by (destruct HW as [->| ->]; reflexivity).
    fold t. rewrite E. rewrite (_NOISE_centred W k st0 HW). reflexivity. }
  destruct (_INEXACT_rr_bound g W R t ctx st HW Hm Hrel Habs Hsp Ht Hv Hc Hr
              Hrange Hu) as [Hfin Hbnd].
  rewrite E in Hfin, Hbnd. cbn [fst] in Hfin, Hbnd.
  destruct (normal_valid_fields W R HW Hv Hc) as (s & m & e & ER & Hmb & He).
  assert (EK : GET_EXP_FLT W R = e + prec W - 1).
  { rewrite ER. apply GET_EXP_FLT_normal; [assumption | unfold PMAN_SIZE|]; lia. }
  unfold EXP_MIN, EXP_COMP in Hrange. rewrite EK in Hrange.
  assert (Ek : k = e + prec W - t) by (unfold k; lia).
  destruct (_NOISE_value W k st0 HW Hu ltac:(lia))
    as (sd & md & ed & Hcen & Hn & Hmd & Hed & Hmag).
  fold u in Hcen. fold noise in Hn.
  split; [exact Edrv|].
  split.
  { rewrite Hn, Hcen. unfold SF2Q. rewrite pow2_add. ring. }
  split.
  { rewrite Hn. unfold SF2Q. rewrite Qabs_Qmult, Qabs_inject_Z.
    rewrite (Qabs_pos (pow2 _)) by (apply Qlt_le_weak, pow2_pos).
    replace (Z.abs (cond_Zopp sd (Zpos md))) with (Zpos md)
      by (destruct sd; reflexivity).
    apply Qmult_lt_0_compat; [|apply pow2_pos].
    change 0%Q with (inject_Z 0). rewrite <- Zlt_Qlt. lia. }
  split.
  { rewrite Hn. unfold SF2Q. rewrite Qabs_Qmult, Qabs_inject_Z.
    rewrite (Qabs_pos (pow2 _)) by (apply Qlt_le_weak, pow2_pos).
    replace (Z.abs (cond_Zopp sd (Zpos md))) with (Zpos md)
      by (destruct sd; reflexivity).
    replace (k - 1) with (prec W + 52 + (- 53 - prec W + k)) by lia.
    rewrite (pow2_add (prec W + 52)), <- (inject_Z_pow2 (prec W + 52)) by lia.
    replace (ed + k) with (ed + prec W + 53 + (- 53 - prec W + k)) by lia.
    rewrite (pow2_add (ed + prec W + 53)), <- (inject_Z_pow2 (ed + prec W + 53))
      by lia.
    rewrite Qmult_assoc, <- inject_Z_mult.
    apply Qmult_le_compat_r; [|apply Qlt_le_weak, pow2_pos].
    rewrite <- Zle_Qle. exact Hmag. }
  split; [exact Hfin|].
  split; [exact Hbnd|].
  intros HtT Hftz HminT.
  destruct (widening_facts T W HTW) as (W1 & W2 & W3 & W4 & W5).
  assert (Er' : r' = cast T R').
  { unfold r'. rewrite Edrv. cbn [fst]. unfold narrow_result.
    rewrite Hftz. reflexivity. }
  assert (HN : Zpos md * 2 ^ (ed + k - fmt_emin W)
               <= 2 ^ (prec W - t - 1) * 2 ^ (e - fmt_emin W)).
  { set (c := fmt_emin W) in *.
    replace (ed + k - c) with (ed + prec W + 53 + (e - t - c - 53)) by lia.
    rewrite Z.pow_add_r, Z.mul_assoc by lia.
    assert (P : 0 < 2 ^ (e - t - c - 53)) by (apply Z.pow_pos_nonneg; lia).
    apply Z.le_trans with (2 ^ (prec W + 52) * 2 ^ (e - t - c - 53)); [nia|].
    rewrite <- !Z.pow_add_r by lia. apply Z.pow_le_mono_r; lia. }
  rewrite EK in HminT. unfold EXP_MIN in HminT.
  assert (Hlow : Zpos m mod 2 ^ (prec W - t) <> 0).
  { apply (not_representable_mantissa W s m e t); try lia.
    rewrite <- ER. exact Hr. }
  unfold fmt_emin in *.
  destruct (narrowed_noise_bound T W W1 W2 W3 W4 W5 s m e sd md (ed + k) t
              ltac:(lia) ltac:(lia) Hmb Hlow
              ltac:(unfold SpecFloat.emin; lia) ltac:(lia) HN)
    as [F1 F2].
  rewrite <- Hn, <- ER in F1, F2. fold R' in F1, F2. rewrite <- Er' in F1, F2.
  split.
  - intros Htop. apply F1. rewrite EK in Htop. unfold EXP_COMP in Htop. lia.
  - intros Hf. rewrite Ek. apply F2. exact Hf.
Qed.

End WithGen.


(** 1/3 in binary32 at the default precision, with the draw 0.25: the
    noise is -0.25 * 2^-25, and the value returned is within 2^-25 of the
    binary64 quotient. *)
Lemma rr_perturbation_bound_witness :
  let R := fdiv binary64 (cast binary64 one32) (cast binary64 f3) in
  let noise := S754_finite true (2 ^ 52) (- 79) in
  let r' := fst (_MCA_BINARY_OP rr_defaults binary32 binary64 one32 f3 mca_div
                   init_context (CycleGen.seeded_at 0)) in
  r' = cast binary32 (fadd binary64 R noise)
  /\ is_finite r' = true
  /\ (Qabs (SF2Q r' - SF2Q R) < pow2 (- 2 - (24 - 1)))%Q.
Proof.
  destruct (rr_perturbation_bound (G := nat) rr_defaults binary32 binary64
              one32 f3 mca_div init_context (CycleGen.seeded_at 0))
    as (E & _ & _ & _ & _ & _ & S); try reflexivity.
  - left. split; reflexivity.
  - vm_compute. discriminate.
  - vm_compute. discriminate.
  - destruct S as [F1 F2].
    + vm_compute. discriminate.
    + reflexivity.
    + vm_compute. discriminate.
    + split; [|split].
      * rewrite E. vm_compute. reflexivity.
      * apply F1. vm_compute. discriminate.
      * apply F2. apply F1. vm_compute. discriminate.
Defined.

(** The side conditions on the returned value cannot be dropped.  With
    the virtual precision of binary32 set to 40, 1/3 is returned as the
    nearest binary32 value: it is further from the binary64 quotient
    than 2^(GET_EXP - 39), although the draw is 0.25.  At the default
    precision 24, the sum of the largest binary32 value and 2^103 is
    2^128 - 2^103 at the working precision; with the draw 0.75 it is
    perturbed to 2^128 - 2^102, which is returned as +inf.  With ftz and
    the virtual precision 20, the product of 1 + 2^-23 and 2^-126 is
    perturbed, with the draw 0.25, to 2^-126 - 3 * 2^-149, subnormal in
    binary32, and +0 is returned.  At the default precision, the product
    of 1 + 2^-23 and 2^-127 + 2^-149 lies below the normal range of
    binary32; with the draw 0.25 the value returned is 2^-127 + 2^-149,
    further from the product than 2^(GET_EXP - 23). *)
Definition rr_t40 : mcalib :=
  {| MCALIB_MODE := mcamode_rr; MCALIB_BINARY32_T := 40;
     MCALIB_BINARY64_T := 53 |}.

Definition rr_t20 : mcalib :=
  {| MCALIB_MODE := mcamode_rr; MCALIB_BINARY32_T := 20;
     MCALIB_BINARY64_T := 53 |}.

Definition max32 : spec_float := S754_finite false (2 ^ 24 - 1) 104.

Definition half_ulp_max32 : spec_float := cast binary32 (S754_finite false 1 103).

Definition next32 : spec_float := S754_finite false (2 ^ 23 + 1) (- 23).

Definition min_normal32 : spec_float := S754_finite false (2 ^ 23) (- 149).

Definition subnormal32 : spec_float := S754_finite false (2 ^ 22 + 1) (- 149).

Lemma rr_perturbation_bound_counterexample :
  let R := fdiv binary64 (cast binary64 one32) (cast binary64 f3) in
  let r' := fst (_mca_binary32_binary_op rr_t40 one32 f3 mca_div init_context
                   (CycleGen.seeded_at 0)) in
  let S := fadd binary64 (cast binary64 max32) (cast binary64 half_ulp_max32) in
  let s' := fst (_mca_binary32_binary_op rr_defaults max32 half_ulp_max32
                   mca_add init_context (CycleGen.seeded_at 1)) in
  let P := fmul binary64 (cast binary64 next32) (cast binary64 min_normal32) in
  let p' := fst (_mca_binary32_binary_op rr_t20 next32 min_normal32 mca_mul
                   (set_ftz init_context) (CycleGen.seeded_at 0)) in
  let Q := fmul binary64 (cast binary64 next32) (cast binary64 subnormal32) in
  let q' := fst (_mca_binary32_binary_op rr_defaults next32 subnormal32 mca_mul
                   init_context (CycleGen.seeded_at 0)) in
  (CycleGen.draw 0 = CycleGen.quarter
   /\ FPCLASSIFY binary64 R = FP_NORMAL
   /\ _IS_REPRESENTABLE binary64 R 40 = false
   /\ GET_EXP_FLT binary64 R = - 2
   /\ Qle_bool (pow2 (- 2 - (40 - 1))) (Qabs (SF2Q r' - SF2Q R)) = true)
  /\ (in_open01 (CycleGen.draw 1) = true
      /\ valid_binary 24 128 max32 = true
      /\ valid_binary 24 128 half_ulp_max32 = true
      /\ S = S754_finite false (2 ^ 53 - 2 ^ 28) 75
      /\ FPCLASSIFY binary64 S = FP_NORMAL
      /\ _IS_REPRESENTABLE binary64 S 24 = false
      /\ GET_EXP_FLT binary64 S = 127
      /\ s' = S754_infinity false)
  /\ (valid_binary 24 128 next32 = true
      /\ valid_binary 24 128 min_normal32 = true
      /\ FPCLASSIFY binary64 P = FP_NORMAL
      /\ _IS_REPRESENTABLE binary64 P 20 = false
      /\ GET_EXP_FLT binary64 P = EXP_MIN binary32
      /\ p' = S754_zero false
      /\ Qle_bool (pow2 (- 126 - (20 - 1))) (Qabs (SF2Q p' - SF2Q P)) = true)
  /\ (valid_binary 24 128 subnormal32 = true
      /\ FPCLASSIFY binary64 Q = FP_NORMAL
      /\ _IS_REPRESENTABLE binary64 Q 24 = false
      /\ GET_EXP_FLT binary64 Q = - 127
      /\ q' = S754_finite false (2 ^ 22 + 1) (- 149)
      /\ Qle_bool (pow2 (- 127 - (24 - 1))) (Qabs (SF2Q q' - SF2Q Q)) = true).
Proof. repeat split; vm_compute; reflexivity. Qed.

End RrProofs.

(** * The option tables and the information header *)

Module Header.
Import Mca.

(** The names of the options. *)
Definition key_prec_b32_str : string := "precision-binary32".
Definition key_prec_b64_str : string := "precision-binary64".
Definition key_mode_str : string := "mode".
Definition key_err_mode_str : string := "error-mode".
Definition key_err_exp_str : string := "max-abs-error-exponent".
Definition key_seed_str : string := "seed".
Definition key_daz_str : string := "daz".
Definition key_ftz_str : string := "ftz".
Definition key_sparsity_str : string := "sparsity".

Definition MCA_MODE_STR : list string := ["ieee"; "mca"; "pb"; "rr"]%string.

(** The available error modes. *)
Inductive mca_err_mode :=
  | mca_err_mode_rel
  | mca_err_mode_abs
  | mca_err_mode_all.

Definition MCA_ERR_MODE_STR : list string := ["rel"; "abs"; "all"]%string.

(** The integer value of an enumerator, used as an index in the tables. *)
Definition mcamode_index (m : mcamode) : nat :=
  match m with
  | mcamode_ieee => 0
  | mcamode_mca => 1
  | mcamode_pb => 2
  | mcamode_rr => 3
  | _mcamode_end_ => 4
  end.

Definition mca_err_mode_index (m : mca_err_mode) : nat :=
  match m with
  | mca_err_mode_rel => 0
  | mca_err_mode_abs => 1
  | mca_err_mode_all => 2
  end.

(** An argument of a printf-like call. *)
Inductive printf_arg :=
  | arg_s (s : string)
  | arg_d (d : Z)
  | arg_f (x : spec_float).

(** [MCA_MODE_STR[MCALIB_MODE]]: nothing when the index is outside the
    table. *)
Definition mode_name (g : mcalib) : option string :=
  nth_error MCA_MODE_STR (mcamode_index (MCALIB_MODE g)).

(** The name of the error mode, as the header selects it. *)
Definition err_mode_name (ctx : t_context) : option string :=
  if relErr ctx && negb (absErr ctx)
  then nth_error MCA_ERR_MODE_STR (mca_err_mode_index mca_err_mode_rel)
  else if negb (relErr ctx) && absErr ctx
  then nth_error MCA_ERR_MODE_STR (mca_err_mode_index mca_err_mode_abs)
  else if relErr ctx && absErr ctx
  then nth_error MCA_ERR_MODE_STR (mca_err_mode_index mca_err_mode_all)
  else nth_error MCA_ERR_MODE_STR (mca_err_mode_index mca_err_mode_rel).

Definition bool_name (b : bool) : string := if b then "true" else "false".

Definition header_format : string :=
  "load backend with %s = %d, %s = %d, %s = %s, %s = %s, %s = %d, %s = %s, %s = %s and %s = %f"
  ++ String (ascii_of_nat 10) EmptyString.

(** The call of [logger_info] in [print_information_header]: the format
    and its arguments, in order. *)
Definition print_information_header (g : mcalib) (ctx : t_context)
    : option (string * list printf_arg) :=
  match mode_name g, err_mode_name ctx with
  | Some mode, Some err_mode =>
      Some (header_format,
            [ arg_s key_prec_b32_str; arg_d (MCALIB_BINARY32_T g);
              arg_s key_prec_b64_str; arg_d (MCALIB_BINARY64_T g);
              arg_s key_mode_str; arg_s mode;
              arg_s key_err_mode_str; arg_s err_mode;
              arg_s key_err_exp_str; arg_d (absErr_exp ctx);
              arg_s key_daz_str; arg_s (bool_name (daz ctx));
              arg_s key_ftz_str; arg_s (bool_name (ftz ctx));
              arg_s key_sparsity_str; arg_f (sparsity ctx) ])
  | _, _ => None
  end.

End Header.

(** * The configuration after initialisation *)

Module ConfigProofs.
Import FloatStruct FloatUtils Rng Mca Header.

(** ** Comparison of names without regard to case *)

Fixpoint lower_string (s : string) : string :=
  match s with
  | EmptyString => EmptyString
  | String c r => String (Libc.lower c) (lower_string r)
  end.

Lemma strcasecmp_eq_lower a : forall b,
  Libc.strcasecmp_eq a b = true <-> lower_string a = lower_string b.
Proof.
  induction a as [|x a IH]; intros [|y b]; simpl; split; intros E;
    try reflexivity; try discriminate.
  - apply andb_true_iff in E. destruct E as [E1 E2].
    apply Ascii.eqb_eq in E1. apply IH in E2. congruence.
  - injection E as E1 E2. apply andb_true_iff. split.
    + apply Ascii.eqb_eq. exact E1.
    + apply IH. exact E2.
Qed.

(** Two names that differ after lowering are not both matched. *)
Lemma strcasecmp_eq_other a b arg :
  lower_string a <> lower_string b ->
  Libc.strcasecmp_eq a arg = true -> Libc.strcasecmp_eq b arg = false.
Proof.
  intros Hne Ha. apply strcasecmp_eq_lower in Ha.
  destruct (Libc.strcasecmp_eq b arg) eqn:Hb; [|reflexivity].
  apply strcasecmp_eq_lower in Hb. congruence.
Qed.

Definition with_mode (g : mcalib) (m : mcamode) : mcalib :=
  {| MCALIB_MODE := m;
     MCALIB_BINARY32_T := MCALIB_BINARY32_T g;
     MCALIB_BINARY64_T := MCALIB_BINARY64_T g |}.

(** ** What one option changes *)

Lemma set_precision_range p lo hi t :
  _set_precision p lo hi = Ok t -> t = p /\ lo <= p <= hi.
Proof.
  unfold _set_precision.
  destruct (Z.ltb_spec p lo); destruct (Z.ltb_spec hi p); simpl;
    try discriminate.
  intros E. inversion E. lia.
Qed.

Lemma set_binary32_range g p g' :
  _set_mca_precision_binary32 g p = Ok g' ->
  g' = {| MCALIB_MODE := MCALIB_MODE g; MCALIB_BINARY32_T := p;
          MCALIB_BINARY64_T := MCALIB_BINARY64_T g |}
  /\ MCA_PRECISION_BINARY32_MIN <= p <= MCA_PRECISION_BINARY32_MAX.
Proof.
  unfold _set_mca_precision_binary32.
  destruct (_set_precision p _ _) as [t|] eqn:E; simpl; [|discriminate].
  apply set_precision_range in E. destruct E as [-> R].
  intros E. inversion E. auto.
Qed.

Lemma set_binary64_range g p g' :
  _set_mca_precision_binary64 g p = Ok g' ->
  g' = {| MCALIB_MODE := MCALIB_MODE g;
          MCALIB_BINARY32_T := MCALIB_BINARY32_T g;
          MCALIB_BINARY64_T := p |}
  /\ MCA_PRECISION_BINARY64_MIN <= p <= MCA_PRECISION_BINARY64_MAX.
Proof.
  unfold _set_mca_precision_binary64.
  destruct (_set_precision p _ _) as [t|] eqn:E; simpl; [|discriminate].
  apply set_precision_range in E. destruct E as [-> R].
  intros E. inversion E. auto.
Qed.

(** The successful runs of the callback, option by option. *)
Ltac parse_opt_cases E :=
  unfold parse_opt in E;
  cbn [bind _set_mca_mode mcamode_eqb] in E;
  repeat match type of E with
         | context [Libc.strtol ?a] => destruct (Libc.strtol a) as [[? ?] ?]
         | context [Libc.strtoull ?a] => destruct (Libc.strtoull a) as [[? ?] ?]
         | context [Libc.strtof ?a] => destruct (Libc.strtof a) as [[? ?] ?]
         | context [if ?c then _ else _] => destruct c eqn:?
         | context [bind ?x _] => destruct x eqn:?; cbn [bind] in E
         end;
  try discriminate; inversion E; subst; clear E;
  repeat match goal with
         | H : _set_mca_precision_binary32 _ _ = Ok _ |- _ =>
             apply set_binary32_range in H; destruct H as [-> ?]
         | H : _set_mca_precision_binary64 _ _ = Ok _ |- _ =>
             apply set_binary64_range in H; destruct H as [-> ?]
         end.

Lemma parse_opt_returns key arg ctx g err ctx' g' :
  parse_opt key arg ctx g = Ok (err, ctx', g') ->
  (err = 0 /\ forall k, key <> KEY_OTHER k)
  \/ (err = ARGP_ERR_UNKNOWN /\ exists k, key = KEY_OTHER k).
Proof.
  intros E. destruct key; try (left; parse_opt_cases E;
    (split; [reflexivity | intros k; discriminate])).
  right. simpl in E. inversion E. eauto.
Qed.

Lemma parse_opt_frame_aux key arg ctx g err ctx' g' :
  parse_opt key arg ctx g = Ok (err, ctx', g') ->
  (key <> KEY_MODE -> MCALIB_MODE g' = MCALIB_MODE g)
  /\ (key <> KEY_PREC_B32 -> MCALIB_BINARY32_T g' = MCALIB_BINARY32_T g)
  /\ (key <> KEY_PREC_B64 -> MCALIB_BINARY64_T g' = MCALIB_BINARY64_T g)
  /\ (key <> KEY_ERR_MODE ->
      relErr ctx' = relErr ctx /\ absErr ctx' = absErr ctx)
  /\ (key <> KEY_ERR_EXP -> absErr_exp ctx' = absErr_exp ctx)
  /\ (key <> KEY_SEED ->
      choose_seed ctx' = choose_seed ctx /\ seed ctx' = seed ctx)
  /\ (key <> KEY_DAZ -> daz ctx' = daz ctx)
  /\ (key <> KEY_FTZ -> ftz ctx' = ftz ctx)
  /\ (key <> KEY_SPARSITY -> sparsity ctx' = sparsity ctx).
Proof.
  intros E.
  destruct key; parse_opt_cases E;
    repeat split; intros; try reflexivity; try congruence.
Qed.

(** ** The option list *)

Lemma key_args_eq_dec (a b : key_args) : {a = b} + {a <> b}.
Proof. decide equality. apply Z.eq_dec. Qed.

Lemma argp_parse_cons key arg rest ctx g ctx' g' :
  argp_parse ((key, arg) :: rest) ctx g = Ok (ctx', g') ->
  exists ctx1 g1,
    parse_opt key arg ctx g = Ok (0, ctx1, g1)
    /\ argp_parse rest ctx1 g1 = Ok (ctx', g').
Proof.
  simpl. destruct (parse_opt key arg ctx g) as [[[err c1] g1]|m]; simpl;
    [|discriminate].
  destruct (Z.eqb_spec err 0) as [->|]; [|discriminate].
  intros E. exists c1, g1. auto.
Qed.

(** Options are handled from left to right, and a fatal error in a prefix
    is the outcome of the whole list. *)
Lemma argp_parse_app argv1 : forall argv2 ctx g,
  argp_parse (argv1 ++ argv2) ctx g
  = (r <- argp_parse argv1 ctx g ;; argp_parse argv2 (fst r) (snd r)).
Proof.
  induction argv1 as [|[key arg] rest IH]; intros argv2 ctx g.
  - reflexivity.
  - simpl. destruct (parse_opt key arg ctx g) as [[[err c1] g1]|m]; simpl;
      [|reflexivity].
    destruct (err =? 0); [apply IH | reflexivity].
Qed.

Section Init.
Context {G : Type} `{UniformGen G}.

Lemma interflop_init_parse argv (st : rng_state_t G) ctx g st' :
  interflop_init argv st = Ok (ctx, g, st') ->
  argp_parse argv init_context mcalib_static = Ok (ctx, g).
Proof.
  unfold interflop_init.
  change (_set_mca_precision_binary32 mcalib_static
            MCA_PRECISION_BINARY32_DEFAULT) with (Ok mcalib_static).
  cbn [bind].
  change (_set_mca_precision_binary64 mcalib_static
            MCA_PRECISION_BINARY64_DEFAULT) with (Ok mcalib_static).
  cbn [bind].
  change (_set_mca_mode mcalib_static MCA_MODE_DEFAULT) with (Ok mcalib_static).
  cbn [bind].
  destruct (argp_parse argv init_context mcalib_static) as [[c1 g1]|m];
    cbn [bind]; [|discriminate].
  intros E. inversion E. reflexivity.
Qed.

End Init.

(** ** The invariant of the configuration *)

(** The virtual precisions are within their bounds, the mode is one of
    the four modes, one of the two kinds of error is enabled and the
    sparsity is not below or equal to zero. *)
Definition configured (ctx : t_context) (g : mcalib) : Prop :=
  MCA_PRECISION_BINARY32_MIN <= MCALIB_BINARY32_T g <= MCA_PRECISION_BINARY32_MAX
  /\ MCA_PRECISION_BINARY64_MIN <= MCALIB_BINARY64_T g <= MCA_PRECISION_BINARY64_MAX
  /\ MCALIB_MODE g <> _mcamode_end_
  /\ relErr ctx || absErr ctx = true
  /\ SFleb (sparsity ctx) (S754_zero false) = false.

Lemma parse_opt_configured key arg ctx g err ctx' g' :
  parse_opt key arg ctx g = Ok (err, ctx', g') ->
  configured ctx g -> configured ctx' g'.
Proof.
  intros E (H32 & H64 & Hm & He & Hs).
  destruct key; parse_opt_cases E; unfold configured;
    cbn [MCALIB_MODE MCALIB_BINARY32_T MCALIB_BINARY64_T relErr absErr
         sparsity set_err_mode set_absErr_exp set_seed set_daz set_ftz
         set_sparsity orb] in *;
    repeat split; try assumption; try lia; try discriminate; try reflexivity.
  destruct (SFleb s (S754_zero false)); [discriminate | reflexivity].
Qed.

Lemma argp_parse_configured argv : forall ctx g ctx' g',
  argp_parse argv ctx g = Ok (ctx', g') ->
  configured ctx g -> configured ctx' g'.
Proof.
  induction argv as [|[key arg] rest IH]; intros ctx g ctx' g' E Hc.
  - simpl in E. inversion E; subst. exact Hc.
  - apply argp_parse_cons in E. destruct E as (c1 & g1 & P & E).
    apply (IH c1 g1 ctx' g' E).
    apply (parse_opt_configured key arg ctx g 0 c1 g1 P Hc).
Qed.

Lemma configured_static : configured init_context mcalib_static.
Proof. unfold configured. repeat split; vm_compute; congruence. Qed.

(** ** Flags *)

Lemma argp_parse_flag (f : t_context -> bool) (k : key_args) :
  (forall key arg ctx g e ctx' g',
     parse_opt key arg ctx g = Ok (e, ctx', g') -> key <> k -> f ctx' = f ctx) ->
  (forall arg ctx g e ctx' g',
     parse_opt k arg ctx g = Ok (e, ctx', g') -> f ctx' = true) ->
  forall argv ctx g ctx' g',
    argp_parse argv ctx g = Ok (ctx', g') ->
    (f ctx' = true <-> f ctx = true \/ In k (map fst argv)).
Proof.
  intros Hother Hset.
  induction argv as [|[key arg] rest IH]; intros ctx g ctx' g' E.
  - simpl in E. inversion E; subst. simpl. tauto.
  - apply argp_parse_cons in E. destruct E as (c1 & g1 & P & E).
    rewrite (IH c1 g1 ctx' g' E). simpl.
    destruct (key_args_eq_dec key k) as [->|Hne].
    + rewrite (Hset arg ctx g 0 c1 g1 P). tauto.
    + rewrite (Hother key arg ctx g 0 c1 g1 P Hne).
      intuition congruence.
Qed.

(** ** The setting an option puts in effect *)

(** What an accepted option [key] with argument [arg] leaves in the
    configuration (nothing is said of a key the callback does not
    know). *)
Definition in_effect (key : key_args) (arg : string) (ctx : t_context)
    (g : mcalib) : Prop :=
  match key with
  | KEY_PREC_B32 =>
      MCALIB_BINARY32_T g = Libc.int_of_long (fst (fst (Libc.strtol arg)))
  | KEY_PREC_B64 =>
      MCALIB_BINARY64_T g = Libc.int_of_long (fst (fst (Libc.strtol arg)))
  | KEY_ERR_EXP =>
      absErr_exp ctx = Libc.int_of_long (fst (fst (Libc.strtol arg)))
  | KEY_MODE =>
      exists name,
        mode_name g = Some name /\ Libc.strcasecmp_eq name arg = true
  | KEY_ERR_MODE =>
      exists name,
        err_mode_name ctx = Some name /\ Libc.strcasecmp_eq name arg = true
  | KEY_SEED =>
      choose_seed ctx = true /\ seed ctx = fst (fst (Libc.strtoull arg))
  | KEY_DAZ => daz ctx = true
  | KEY_FTZ => ftz ctx = true
  | KEY_SPARSITY => sparsity ctx = fst (fst (Libc.strtof arg))
  | KEY_OTHER _ => True
  end.

Lemma parse_opt_in_effect key arg ctx g ctx' g' :
  parse_opt key arg ctx g = Ok (0, ctx', g') -> in_effect key arg ctx' g'.
Proof.
  intros E. destruct key; unfold in_effect;
    try (unfold parse_opt in E; cbn [bind _set_mca_mode mcamode_eqb] in E).
  - destruct (Libc.strtol arg) as [[v e] n]. cbn [fst].
    destruct (_ || _); [discriminate|].
    destruct (_set_mca_precision_binary32 g _) eqn:S; cbn [bind] in E;
      [|discriminate].
    apply set_binary32_range in S. destruct S as [-> _].
    inversion E. reflexivity.
  - destruct (Libc.strtol arg) as [[v e] n]. cbn [fst].
    destruct (_ || _); [discriminate|].
    destruct (_set_mca_precision_binary64 g _) eqn:S; cbn [bind] in E;
      [|discriminate].
    apply set_binary64_range in S. destruct S as [-> _].
    inversion E. reflexivity.
  - destruct (Libc.strtol arg) as [[v e] n]. cbn [fst].
    destruct (errno_set n); [discriminate|]. inversion E. reflexivity.
  - destruct (Libc.strcasecmp_eq "ieee" arg) eqn:E1;
      [inversion E; exists "ieee"%string; auto|].
    destruct (Libc.strcasecmp_eq "mca" arg) eqn:E2;
      [inversion E; exists "mca"%string; auto|].
    destruct (Libc.strcasecmp_eq "pb" arg) eqn:E3;
      [inversion E; exists "pb"%string; auto|].
    destruct (Libc.strcasecmp_eq "rr" arg) eqn:E4;
      [inversion E; exists "rr"%string; auto|].
    discriminate.
  - destruct (Libc.strcasecmp_eq "rel" arg) eqn:E1;
      [inversion E; exists "rel"%string; auto|].
    destruct (Libc.strcasecmp_eq "abs" arg) eqn:E2;
      [inversion E; exists "abs"%string; auto|].
    destruct (Libc.strcasecmp_eq "all" arg) eqn:E3;
      [inversion E; exists "all"%string; auto|].
    discriminate.
  - destruct (Libc.strtoull arg) as [[v e] n]. cbn [fst].
    destruct (errno_set n); [discriminate|]. inversion E. auto.
  - inversion E. reflexivity.
  - inversion E. reflexivity.
  - destruct (Libc.strtof arg) as [[v e] n]. cbn [fst].
    destruct (errno_set _); [discriminate|]. inversion E. reflexivity.
  - exact I.
Qed.

Lemma in_effect_kept key arg key' arg' ctx g err ctx' g' :
  parse_opt key' arg' ctx g = Ok (err, ctx', g') ->
  key' <> key ->
  in_effect key arg ctx g -> in_effect key arg ctx' g'.
Proof.
  intros P Hne.
  destruct (parse_opt_frame_aux key' arg' ctx g err ctx' g' P)
    as (Fm & F32 & F64 & Fe & Fx & Fs & Fd & Ff & Fp).
  destruct key; unfold in_effect, mode_name, err_mode_name.
  - rewrite F32 by congruence. auto.
  - rewrite F64 by congruence. auto.
  - rewrite Fx by congruence. auto.
  - rewrite Fm by congruence. auto.
  - destruct Fe as [-> ->]; [congruence|]. auto.
  - destruct Fs as [-> ->]; [congruence|]. auto.
  - rewrite Fd by congruence. auto.
  - rewrite Ff by congruence. auto.
  - rewrite Fp by congruence. auto.
  - auto.
Qed.

Lemma argp_parse_in_effect key arg argv : forall ctx g ctx' g',
  argp_parse argv ctx g = Ok (ctx', g') ->
  ~ In key (map fst argv) ->
  in_effect key arg ctx g -> in_effect key arg ctx' g'.
Proof.
  induction argv as [|[key' arg'] rest IH]; intros ctx g ctx' g' E Hn Hk.
  - simpl in E. inversion E; subst. exact Hk.
  - apply argp_parse_cons in E. destruct E as (c1 & g1 & P & E).
    simpl in Hn.
    apply (IH c1 g1 ctx' g' E); [tauto|].
    apply (in_effect_kept key arg key' arg' ctx g 0 c1 g1 P); [|exact Hk].
    intros ->. tauto.
Qed.

(** ** Theorems *)

(** Each option changes the setting it names and nothing else: after a
    successful call of the callback, the mode, the two virtual
    precisions, the error mode, the exponent of the absolute error, the
    seed, the two flush flags and the sparsity are those of before, except
    for the one the key designates. *)
Theorem parse_opt_frame key arg ctx g err ctx' g' :
  parse_opt key arg ctx g = Ok (err, ctx', g') ->
  (key <> KEY_MODE -> MCALIB_MODE g' = MCALIB_MODE g)
  /\ (key <> KEY_PREC_B32 -> MCALIB_BINARY32_T g' = MCALIB_BINARY32_T g)
  /\ (key <> KEY_PREC_B64 -> MCALIB_BINARY64_T g' = MCALIB_BINARY64_T g)
  /\ (key <> KEY_ERR_MODE ->
      relErr ctx' = relErr ctx /\ absErr ctx' = absErr ctx)
  /\ (key <> KEY_ERR_EXP -> absErr_exp ctx' = absErr_exp ctx)
  /\ (key <> KEY_SEED ->
      choose_seed ctx' = choose_seed ctx /\ seed ctx' = seed ctx)
  /\ (key <> KEY_DAZ -> daz ctx' = daz ctx)
  /\ (key <> KEY_FTZ -> ftz ctx' = ftz ctx)
  /\ (key <> KEY_SPARSITY -> sparsity ctx' = sparsity ctx).
Proof.
  intros E.
  destruct key; parse_opt_cases E;
    repeat split; intros; try reflexivity; try congruence.
Qed.

(** Every name of the table of modes, in any letter case, is accepted by
    the mode option; it selects the mode whose index in the table is that
    of the name, which the header then prints under that name, and it
    changes nothing else. *)
Theorem mode_option_round_trip m name arg ctx g :
  nth_error MCA_MODE_STR (mcamode_index m) = Some name ->
  Libc.strcasecmp_eq name arg = true ->
  parse_opt KEY_MODE arg ctx g = Ok (0, ctx, with_mode g m)
  /\ mode_name (with_mode g m) = Some name.
Proof.
  intros Hn Ha. split; [|exact Hn].
  unfold parse_opt.
  destruct m; simpl in Hn; inversion Hn; subst name; clear Hn.
  - rewrite Ha. reflexivity.
  - rewrite (strcasecmp_eq_other "mca" "ieee" arg) by (assumption || discriminate).
    rewrite Ha. reflexivity.
  - rewrite (strcasecmp_eq_other "pb" "ieee" arg) by (assumption || discriminate).
    rewrite (strcasecmp_eq_other "pb" "mca" arg) by (assumption || discriminate).
    rewrite Ha. reflexivity.
  - rewrite (strcasecmp_eq_other "rr" "ieee" arg) by (assumption || discriminate).
    rewrite (strcasecmp_eq_other "rr" "mca" arg) by (assumption || discriminate).
    rewrite (strcasecmp_eq_other "rr" "pb" arg) by (assumption || discriminate).
    rewrite Ha. reflexivity.
Qed.

(** Every name of the table of error modes, in any letter case, is
    accepted by the error-mode option: rel enables the relative error
    only, abs the absolute error only, all both; the header then prints
    the error mode under that name. *)
Theorem error_mode_option_round_trip em name arg ctx g :
  nth_error MCA_ERR_MODE_STR (mca_err_mode_index em) = Some name ->
  Libc.strcasecmp_eq name arg = true ->
  exists ctx',
    parse_opt KEY_ERR_MODE arg ctx g = Ok (0, ctx', g)
    /\ err_mode_name ctx' = Some name
    /\ relErr ctx' = match em with mca_err_mode_abs => false | _ => true end
    /\ absErr ctx' = match em with mca_err_mode_rel => false | _ => true end.
Proof.
  intros Hn Ha. unfold parse_opt.
  destruct em; simpl in Hn; inversion Hn; subst name; clear Hn.
  - rewrite Ha. eexists. split; [reflexivity|]. repeat split.
  - rewrite (strcasecmp_eq_other "abs" "rel" arg) by (assumption || discriminate).
    rewrite Ha. eexists. split; [reflexivity|]. repeat split.
  - rewrite (strcasecmp_eq_other "all" "rel" arg) by (assumption || discriminate).
    rewrite (strcasecmp_eq_other "all" "abs" arg) by (assumption || discriminate).
    rewrite Ha. eexists. split; [reflexivity|]. repeat split.
Qed.

(** The mode option and the error-mode option end the process exactly
    when their argument is none of the names of their table, compared
    without regard to letter case. *)
Theorem names_outside_table_rejected arg ctx g :
  is_fatal (parse_opt KEY_MODE arg ctx g)
  = negb (existsb (fun name => Libc.strcasecmp_eq name arg) MCA_MODE_STR)
  /\ is_fatal (parse_opt KEY_ERR_MODE arg ctx g)
     = negb (existsb (fun name => Libc.strcasecmp_eq name arg) MCA_ERR_MODE_STR).
Proof.
  unfold parse_opt, MCA_MODE_STR, MCA_ERR_MODE_STR. cbn [existsb].
  split.
  - destruct (Libc.strcasecmp_eq "ieee" arg); [reflexivity|].
    destruct (Libc.strcasecmp_eq "mca" arg); [reflexivity|].
    destruct (Libc.strcasecmp_eq "pb" arg); [reflexivity|].
    destruct (Libc.strcasecmp_eq "rr" arg); reflexivity.
  - destruct (Libc.strcasecmp_eq "rel" arg); [reflexivity|].
    destruct (Libc.strcasecmp_eq "abs" arg); [reflexivity|].
    destruct (Libc.strcasecmp_eq "all" arg); reflexivity.
Qed.

Section InitTheorems.
Context {G : Type} `{UniformGen G}.

(** Whatever the options, a successful initialisation leaves the
    virtual precision of binary32 in [1, 53] and that of binary64 in
    [1, 112], a mode that is one of ieee, mca, pb and rr, at least one of
    the relative and absolute errors enabled, and a sparsity that is not
    below or equal to zero. *)
Theorem init_configuration_invariant argv (st : rng_state_t G) ctx g st' :
  interflop_init argv st = Ok (ctx, g, st') ->
  1 <= MCALIB_BINARY32_T g <= 53
  /\ 1 <= MCALIB_BINARY64_T g <= 112
  /\ MCALIB_MODE g <> _mcamode_end_
  /\ relErr ctx || absErr ctx = true
  /\ SFleb (sparsity ctx) (S754_zero false) = false.
Proof.
  intros E. apply interflop_init_parse in E.
  apply (argp_parse_configured argv _ _ _ _ E configured_static).
Qed.

(** After a successful initialisation the header is printed without
    reading outside the tables of names, the mode it names is one of the
    table, and the error mode it names is the one in effect: rel when only
    the relative error is enabled, abs when only the absolute error is,
    all when both are. *)
Theorem header_after_init argv (st : rng_state_t G) ctx g st' :
  interflop_init argv st = Ok (ctx, g, st') ->
  exists mode err_mode,
    print_information_header g ctx
    = Some (header_format,
            [ arg_s "precision-binary32"; arg_d (MCALIB_BINARY32_T g);
              arg_s "precision-binary64"; arg_d (MCALIB_BINARY64_T g);
              arg_s "mode"; arg_s mode;
              arg_s "error-mode"; arg_s err_mode;
              arg_s "max-abs-error-exponent"; arg_d (absErr_exp ctx);
              arg_s "daz"; arg_s (bool_name (daz ctx));
              arg_s "ftz"; arg_s (bool_name (ftz ctx));
              arg_s "sparsity"; arg_f (sparsity ctx) ])
    /\ nth_error MCA_MODE_STR (mcamode_index (MCALIB_MODE g)) = Some mode
    /\ (err_mode = "rel"%string <-> relErr ctx = true /\ absErr ctx = false)
    /\ (err_mode = "abs"%string <-> relErr ctx = false /\ absErr ctx = true)
    /\ (err_mode = "all"%string <-> relErr ctx = true /\ absErr ctx = true).
Proof.
  intros E. apply interflop_init_parse in E.
  destruct (argp_parse_configured argv _ _ _ _ E configured_static)
    as (_ & _ & Hm & He & _).
  unfold print_information_header, mode_name, err_mode_name.
  destruct (MCALIB_MODE g) eqn:M; try congruence;
    destruct (relErr ctx), (absErr ctx); try discriminate;
    cbn [mcamode_index mca_err_mode_index nth_error MCA_MODE_STR
         MCA_ERR_MODE_STR andb negb];
    do 2 eexists; (split; [reflexivity|]); (split; [reflexivity|]);
    repeat split; intros; try discriminate; try tauto;
    match goal with H : _ /\ _ |- _ => destruct H; discriminate end.
Qed.

(** After a successful initialisation the flag daz is set exactly when
    the option daz is among the options, ftz exactly when the option ftz
    is, and the seed is a chosen one exactly when the option seed is: no
    option clears one of them. *)
Theorem init_flags argv (st : rng_state_t G) ctx g st' :
  interflop_init argv st = Ok (ctx, g, st') ->
  (daz ctx = true <-> In KEY_DAZ (map fst argv))
  /\ (ftz ctx = true <-> In KEY_FTZ (map fst argv))
  /\ (choose_seed ctx = true <-> In KEY_SEED (map fst argv)).
Proof.
  intros E. apply interflop_init_parse in E.
  assert (F : forall (f : t_context -> bool) k,
             f init_context = false ->
             (forall key arg ctx g e ctx' g',
                parse_opt key arg ctx g = Ok (e, ctx', g') -> key <> k ->
                f ctx' = f ctx) ->
             (forall arg ctx g e ctx' g',
                parse_opt k arg ctx g = Ok (e, ctx', g') -> f ctx' = true) ->
             (f ctx = true <-> In k (map fst argv))).
  { intros f k H0 H1 H2.
    rewrite (argp_parse_flag f k H1 H2 argv _ _ _ _ E). rewrite H0.
    split; [intros [?|?]; [discriminate | assumption] | auto]. }
  assert (K : forall k key arg c0 g0 e c1 g1,
             parse_opt key arg c0 g0 = Ok (e, c1, g1) -> key <> k ->
             (k = KEY_DAZ -> daz c1 = daz c0)
             /\ (k = KEY_FTZ -> ftz c1 = ftz c0)
             /\ (k = KEY_SEED -> choose_seed c1 = choose_seed c0)).
  { intros k key arg c0 g0 e c1 g1 P Hk.
    destruct (parse_opt_frame_aux key arg c0 g0 e c1 g1 P)
      as (_ & _ & _ & _ & _ & Fs & Fd & Ff & _).
    repeat split; intros ->; [apply Fd | apply Ff | apply Fs]; exact Hk. }
  split; [|split].
  - apply (F daz KEY_DAZ); [reflexivity | |].
    + intros key arg c0 g0 e c1 g1 P Hk.
      apply (K KEY_DAZ key arg c0 g0 e c1 g1 P Hk). reflexivity.
    + intros arg c0 g0 e c1 g1 P. simpl in P. inversion P. reflexivity.
  - apply (F ftz KEY_FTZ); [reflexivity | |].
    + intros key arg c0 g0 e c1 g1 P Hk.
      apply (K KEY_FTZ key arg c0 g0 e c1 g1 P Hk). reflexivity.
    + intros arg c0 g0 e c1 g1 P. simpl in P. inversion P. reflexivity.
  - apply (F choose_seed KEY_SEED); [reflexivity | |].
    + intros key arg c0 g0 e c1 g1 P Hk.
      apply (K KEY_SEED key arg c0 g0 e c1 g1 P Hk). reflexivity.
    + intros arg c0 g0 e c1 g1 P.
      apply (parse_opt_in_effect KEY_SEED arg c0 g0 c1 g1).
      destruct (parse_opt_returns KEY_SEED arg c0 g0 e c1 g1 P)
        as [[-> _]|[_ [k Hk]]]; [exact P | discriminate].
Qed.

(** When an option occurs several times, or after other options, its
    last occurrence decides: after a successful initialisation, if no
    later option has the same key, the setting is the one this occurrence
    gives (the value read from its argument; for the mode and the error
    mode, the name that the header prints matches the argument up to letter
    case). *)
Theorem last_option_wins pre key arg post (st : rng_state_t G) ctx g st' :
  interflop_init (pre ++ (key, arg) :: post) st = Ok (ctx, g, st') ->
  ~ In key (map fst post) ->
  in_effect key arg ctx g.
Proof.
  intros E Hn. apply interflop_init_parse in E.
  rewrite argp_parse_app in E.
  destruct (argp_parse pre init_context mcalib_static) as [[c0 g0]|m];
    cbn [bind fst snd] in E; [|discriminate].
  apply argp_parse_cons in E. destruct E as (c1 & g1 & P & E).
  apply (argp_parse_in_effect key arg post c1 g1 ctx g E Hn).
  apply (parse_opt_in_effect key arg c0 g0 c1 g1 P).
Qed.

End InitTheorems.

(** A command line: 30 bits for binary32, the absolute error, flushed
    inputs, the seed 7, and the mode given twice. *)
Definition sample_argv : list (key_args * string) :=
  [ (KEY_MODE, "pb"); (KEY_PREC_B32, "30"); (KEY_ERR_MODE, "ABS");
    (KEY_DAZ, EmptyString); (KEY_MODE, "Rr"); (KEY_SEED, "7") ]%string.

Definition sample_context : t_context :=
  {| relErr := false; absErr := true; absErr_exp := 112;
     choose_seed := true; seed := 7; daz := true; ftz := false;
     sparsity := cast binary32 (S754_finite false 1 0) |}.

Definition sample_mcalib : mcalib :=
  {| MCALIB_MODE := mcamode_rr; MCALIB_BINARY32_T := 30;
     MCALIB_BINARY64_T := 53 |}.

(** The static configuration after an option that sets 30 bits for
    binary32. *)
Definition static_30 : mcalib :=
  {| MCALIB_MODE := mcamode_mca; MCALIB_BINARY32_T := 30;
     MCALIB_BINARY64_T := 53 |}.

Lemma parse_opt_frame_witness :
  MCALIB_MODE static_30 = MCALIB_MODE mcalib_static
  /\ MCALIB_BINARY64_T static_30 = MCALIB_BINARY64_T mcalib_static.
Proof.
  destruct (parse_opt_frame KEY_PREC_B32 "30" init_context mcalib_static 0
              init_context static_30)
    as (Fm & _ & F64 & _).
  - vm_compute. reflexivity.
  - split.
    + apply Fm. discriminate.
    + apply F64. discriminate.
Defined.

Lemma mode_option_round_trip_witness :
  parse_opt KEY_MODE "Rr" init_context mcalib_static
  = Ok (0, init_context, with_mode mcalib_static mcamode_rr)
  /\ mode_name (with_mode mcalib_static mcamode_rr) = Some "rr"%string.
Proof.
  apply (mode_option_round_trip mcamode_rr "rr" "Rr" init_context
           mcalib_static); reflexivity.
Defined.

Lemma error_mode_option_round_trip_witness :
  exists ctx',
    parse_opt KEY_ERR_MODE "ALL" init_context mcalib_static
    = Ok (0, ctx', mcalib_static)
    /\ err_mode_name ctx' = Some "all"%string
    /\ relErr ctx' = true
    /\ absErr ctx' = true.
Proof.
  apply (error_mode_option_round_trip mca_err_mode_all "all" "ALL"
           init_context mcalib_static); reflexivity.
Defined.

Lemma init_configuration_invariant_witness :
  1 <= MCALIB_BINARY32_T sample_mcalib <= 53
  /\ 1 <= MCALIB_BINARY64_T sample_mcalib <= 112
  /\ MCALIB_MODE sample_mcalib <> _mcamode_end_
  /\ relErr sample_context || absErr sample_context = true
  /\ SFleb (sparsity sample_context) (S754_zero false) = false.
Proof.
  apply (init_configuration_invariant (G := nat) sample_argv
           (CycleGen.seeded_at 0) sample_context sample_mcalib
           (CycleGen.seeded_at 0)).
  vm_compute. reflexivity.
Defined.

Lemma header_after_init_witness :
  exists mode err_mode,
    print_information_header sample_mcalib sample_context
    = Some (header_format,
            [ arg_s "precision-binary32"; arg_d 30;
              arg_s "precision-binary64"; arg_d 53;
              arg_s "mode"; arg_s mode;
              arg_s "error-mode"; arg_s err_mode;
              arg_s "max-abs-error-exponent"; arg_d 112;
              arg_s "daz"; arg_s "true";
              arg_s "ftz"; arg_s "false";
              arg_s "sparsity"; arg_f (sparsity sample_context) ])
    /\ mode = "rr"%string /\ err_mode = "abs"%string.
Proof.
  destruct (header_after_init (G := nat) sample_argv (CycleGen.seeded_at 0)
              sample_context sample_mcalib (CycleGen.seeded_at 0))
    as (mode & err_mode & Hh & Hm & _ & Habs & _).
  - vm_compute. reflexivity.
  - exists mode, err_mode. split; [exact Hh|]. split.
    + vm_compute in Hm. congruence.
    + apply Habs. split; reflexivity.
Defined.

Lemma init_flags_witness :
  daz sample_context = true /\ choose_seed sample_context = true.
Proof.
  destruct (init_flags (G := nat) sample_argv (CycleGen.seeded_at 0)
              sample_context sample_mcalib (CycleGen.seeded_at 0))
    as (Hd & _ & Hs).
  - vm_compute. reflexivity.
  - split; [apply Hd | apply Hs]; simpl; auto 10.
Defined.

Lemma last_option_wins_witness :
  in_effect KEY_MODE "Rr" sample_context sample_mcalib.
Proof.
  apply (last_option_wins (G := nat)
           [ (KEY_MODE, "pb"); (KEY_PREC_B32, "30"); (KEY_ERR_MODE, "ABS");
             (KEY_DAZ, EmptyString) ]%string
           KEY_MODE "Rr" [ (KEY_SEED, "7"%string) ]
           (CycleGen.seeded_at 0) sample_context sample_mcalib
           (CycleGen.seeded_at 0)).
  - vm_compute. reflexivity.
  - simpl. intros [E|[]]. discriminate.
Defined.

(** ** Reconfiguration by user calls *)

Section UserCalls.
Context {G : Type} `{UniformGen G}.

(** A user call never changes the mode.  The two calls that set a
    virtual precision end the process unless the precision is in the range
    of its type, leave the other one and the generator as they are and
    touch no value; the other calls leave both virtual precisions as they
    are.  So the bounds of the virtual precisions established by the
    initialisation hold after every user call. *)
Theorem user_call_keeps_configuration g ctx call (st : rng_state_t G)
    g' v st' :
  _interflop_user_call g ctx call st = Ok (g', v, st') ->
  MCALIB_MODE g' = MCALIB_MODE g
  /\ match call with
     | INTERFLOP_SET_PRECISION_BINARY32 p =>
         1 <= p <= 53 /\ MCALIB_BINARY32_T g' = p
         /\ MCALIB_BINARY64_T g' = MCALIB_BINARY64_T g
         /\ v = None /\ st' = st
     | INTERFLOP_SET_PRECISION_BINARY64 p =>
         1 <= p <= 112 /\ MCALIB_BINARY64_T g' = p
         /\ MCALIB_BINARY32_T g' = MCALIB_BINARY32_T g
         /\ v = None /\ st' = st
     | INTERFLOP_INEXACT_ID _ _ _ => g' = g
     | INTERFLOP_OTHER_ID _ => g' = g /\ v = None /\ st' = st
     end.
Proof.
  intros E. destruct call as [ft x p|p|p|id]; simpl in E.
  - destruct (_interflop_usercall_inexact g ctx ft x p st) as [x' s'].
    inversion E. auto.
  - destruct (_set_mca_precision_binary32 g p) as [g1|] eqn:S; simpl in E;
      [|discriminate].
    apply set_binary32_range in S. destruct S as [-> R].
    inversion E; subst. simpl. repeat split; apply R.
  - destruct (_set_mca_precision_binary64 g p) as [g1|] eqn:S; simpl in E;
      [|discriminate].
    apply set_binary64_range in S. destruct S as [-> R].
    inversion E; subst. simpl. repeat split; apply R.
  - inversion E. auto.
Qed.

End UserCalls.

Lemma user_call_keeps_configuration_witness :
  MCALIB_MODE (with_mode mcalib_static mcamode_mca) = MCALIB_MODE mcalib_static
  /\ 1 <= 40 <= 112
  /\ MCALIB_BINARY64_T
       {| MCALIB_MODE := mcamode_mca; MCALIB_BINARY32_T := 24;
          MCALIB_BINARY64_T := 40 |} = 40.
Proof.
  destruct (user_call_keeps_configuration (G := nat) mcalib_static
              init_context (INTERFLOP_SET_PRECISION_BINARY64 40)
              (CycleGen.seeded_at 0)
              {| MCALIB_MODE := mcamode_mca; MCALIB_BINARY32_T := 24;
                 MCALIB_BINARY64_T := 40 |}
              None (CycleGen.seeded_at 0))
    as (Hm & Hr & Ht & _).
  - vm_compute. reflexivity.
  - split; [reflexivity|]. split; [exact Hr | exact Ht].
Defined.

End ConfigProofs.

(** * Widening, and the size of the perturbations *)

Module PerturbProofs.
Import FloatStruct FloatUtils Rng Mca Rounding RoundingOps MCAProofs NoiseProofs.
Import DoubleRounding IeeeProofs RrProofs.

(** ** The conversion of an operand to the working type *)

(** A finite non-zero member of the operand type is converted to a normal
    member of the working type with the same value. *)
Lemma widened_operand T W s m e :
  widening T W ->
  valid_binary (prec T) (emax T) (S754_finite s m e) = true ->
  exists m' e',
    cast W (S754_finite s m e) = S754_finite s m' e'
    /\ valid_binary (prec W) (emax W) (S754_finite s m' e') = true
    /\ 2 ^ (prec W - 1) <= Zpos m' < 2 ^ prec W
    /\ fmt_emin W <= e' <= e
    /\ Zpos m' = Zpos m * 2 ^ (e - e')
    /\ 2 * fmt_emin T - 3 <= e' + prec W - 1 <= 2 * emax T + prec T.
Proof.
  intros HTW Hv.
  assert (HH : 1 <= prec T /\ 2 * prec T + 2 <= prec W /\ 3 <= emax T
               /\ emax T <= emax W
               /\ 2 * emax T + 2 * prec T + 1 <= emax W + prec W
               /\ prec W - 1 <= fmt_emin T - fmt_emin W).
  { destruct HTW as [[-> ->]|[-> ->]]; vm_compute; repeat split; congruence. }
  destruct HH as (H1 & H2 & H3 & H4 & H5 & H6).
  destruct (widen_finite T W H1 H2 H3 H4 H5 s m e Hv)
    as (m' & e' & Hc & He & Hm & Hv').
  pose proof (in_range_widened T W H1 H2 H3 H4 H5 s s m e m' e' Hv He Hm Hv')
    as [_ Hr].
  destruct (mantissa_bound T H1 s m e Hv) as [HmT HeT].
  destruct (mantissa_bound W ltac:(lia) s m' e' Hv') as [HmW HeW].
  pose proof (canonical_digits (prec W) (emax W) s m' e' Hv') as [Hcan _].
  assert (Hfull : 2 ^ (prec W - 1) <= Zpos m').
  { destruct (Z.le_gt_cases (2 ^ (prec W - 1)) (Zpos m')) as [|Hlt];
      [assumption|].
    exfalso.
    assert (Hl : Z.log2 (Zpos m') < prec W - 1)
      by (apply Z.log2_lt_pow2; lia).
    assert (Ee : e' = SpecFloat.emin (prec W) (emax W))
      by (unfold SpecFloat.fexp in Hcan; lia).
    assert (Hp : 2 ^ (prec W - 1) <= 2 ^ (e - e')).
    { apply Z.pow_le_mono_r; [lia|]. unfold fmt_emin in H6. lia. }
    assert (0 < 2 ^ (e - e')) by (apply Z.pow_pos_nonneg; lia).
    nia. }
  exists m', e'. unfold fmt_emin.
  repeat split; try lia; try assumption.
  - apply Hc.
  - apply (Hr s m' e' eq_refl Hfull).
  - apply (Hr s m' e' eq_refl Hfull).
Qed.

Lemma SF2Q_scaled s m e m' e' :
  e' <= e -> Zpos m' = Zpos m * 2 ^ (e - e') ->
  (SF2Q (S754_finite s m' e') == SF2Q (S754_finite s m e))%Q.
Proof.
  intros He Hm. unfold SF2Q. rewrite Hm.
  rewrite <- cond_Zopp_scale, inject_Z_mult, inject_Z_pow2 by lia.
  rewrite <- Qmult_assoc, <- pow2_add.
  replace (e - e' + e') with e by lia. reflexivity.
Qed.

Lemma widening_hypotheses T W :
  widening T W ->
  1 <= prec T /\ 2 * prec T + 2 <= prec W /\ 3 <= emax T
  /\ emax T <= emax W
  /\ 2 * emax T + 2 * prec T + 1 <= emax W + prec W.
Proof.
  intros [[-> ->]|[-> ->]]; vm_compute; repeat split; congruence.
Qed.

(** ** Scaling by a power of two *)

(** [x * 2^k], as long as the exponent stays in the range of the
    format. *)
Definition scale2 (k : Z) (x : spec_float) : spec_float :=
  match x with
  | S754_finite s m e => S754_finite s m (e + k)
  | _ => x
  end.

(** The value of [scale2 k x] is the value of [x] times [2^k]. *)
Lemma scale2_value k x : (SF2Q (scale2 k x) == SF2Q x * pow2 k)%Q.
Proof.
  destruct x as [| | |s m e]; simpl; try ring.
  rewrite pow2_add. ring.
Qed.

Section Scaling.
Variables prec emax : Z.
Hypothesis prec_pos : 0 < prec.

Local Abbreviation emin := (SpecFloat.emin prec emax).
Local Abbreviation zexp := (Rounding.zexp prec emax).
Local Abbreviation RNz := (Rounding.RNz prec emax).
Local Abbreviation SFofZ := (Rounding.SFofZ prec emax).

(** Above the subnormal range the exponent of the rounding follows the
    magnitude. *)
Lemma zexp_normal c X :
  emin <= Z.log2 X + 1 + c - prec -> zexp c X = Z.log2 X + 1 + c - prec.
Proof. unfold Rounding.zexp, SpecFloat.fexp. lia. Qed.

Lemma RNz_rescale c1 c2 X :
  emin <= Z.log2 X + 1 + c1 - prec ->
  emin <= Z.log2 X + 1 + c2 - prec ->
  RNz c1 X = RNz c2 X.
Proof.
  intros H1 H2. unfold Rounding.RNz. cbv zeta.
  rewrite !zexp_normal by assumption.
  replace (Z.log2 X + 1 + c1 - prec - c1) with (Z.log2 X + 1 - prec) by lia.
  replace (Z.log2 X + 1 + c2 - prec - c2) with (Z.log2 X + 1 - prec) by lia.
  reflexivity.
Qed.

Lemma SFofZ_rescale s c1 c2 Y :
  0 < Y ->
  emin <= Z.log2 Y + 1 + c1 - prec ->
  emin <= Z.log2 Y + 1 + c2 - prec ->
  Z.log2 Y + 1 + c1 <= emax ->
  Z.log2 Y + 1 + c2 <= emax ->
  SFofZ s c2 Y = scale2 (c2 - c1) (SFofZ s c1 Y).
Proof.
  intros HY H1 H2 O1 O2. unfold Rounding.SFofZ.
  destruct (Z.eqb_spec Y 0); [lia|].
  rewrite !zexp_normal by assumption.
  destruct (Z.leb_spec (Z.log2 Y + 1 + c1 - prec) (emax - prec)); [|lia].
  destruct (Z.leb_spec (Z.log2 Y + 1 + c2 - prec) (emax - prec)); [|lia].
  unfold scale2.
  replace (Z.log2 Y + 1 + c1 - prec - c1) with (Z.log2 Y + 1 - prec) by lia.
  replace (Z.log2 Y + 1 + c2 - prec - c2) with (Z.log2 Y + 1 - prec) by lia.
  f_equal. lia.
Qed.

(** Shifting the exponents of both terms of a sum by [k] shifts the
    exponent of the sum by [k], when the sum stays between [2^lo] and
    [2^hi], above the subnormal range and below the overflow threshold. *)
Lemma SFadd_rescale c k sx mx ex sy my ey lo hi :
  c <= emin -> c + k <= emin -> c <= ex -> c <= ey ->
  let Z := cond_Zopp sx (Zpos mx * 2 ^ (ex - c))
           + cond_Zopp sy (Zpos my * 2 ^ (ey - c)) in
  2 ^ lo <= Z.abs Z <= 2 ^ hi ->
  emin <= lo + 1 + c - prec -> emin <= lo + 1 + c + k - prec ->
  hi + 1 + c <= emax -> hi + 1 + c + k <= emax ->
  SFadd prec emax (S754_finite sx mx (ex + k)) (S754_finite sy my (ey + k))
  = scale2 k (SFadd prec emax (S754_finite sx mx ex) (S754_finite sy my ey)).
Proof.
  intros Hc Hck Hx Hy Z HZ L1 L2 O1 O2.
  assert (Hlo : 0 <= lo) by (unfold SpecFloat.emin in *; lia).
  assert (Plo : 0 < 2 ^ lo) by (apply Z.pow_pos_nonneg; lia).
  rewrite (SFadd_finite prec emax prec_pos c sx mx ex sy my ey) by assumption.
  rewrite (SFadd_finite prec emax prec_pos (c + k) sx mx (ex + k) sy my (ey + k))
    by lia.
  cbv zeta. unfold Zval, Zmag, sign_of.
  replace (ex + k - (c + k)) with (ex - c) by lia.
  replace (ey + k - (c + k)) with (ey - c) by lia.
  fold Z.
  destruct (Z.eqb_spec Z 0) as [E0|_]; [rewrite E0 in HZ; simpl in HZ; lia|].
  set (X := Z.abs Z) in *.
  assert (HX : 0 < X) by lia.
  assert (LX : lo <= Z.log2 X) by (apply Z.log2_le_pow2; lia).
  rewrite (RNz_rescale (c + k) c X) by lia.
  destruct (RNz_bounds prec emax prec_pos c X lo hi Hc ltac:(lia) HZ)
    as [Y1 Y2].
  set (Y := RNz c X) in *.
  assert (HY : 0 < Y) by lia.
  assert (LY : lo <= Z.log2 Y) by (apply Z.log2_le_pow2; lia).
  assert (UY : Z.log2 Y <= hi).
  { destruct (Z.le_gt_cases 0 hi) as [Hh|Hh].
    - rewrite <- (Z.log2_pow2 hi) by assumption. apply Z.log2_le_mono. lia.
    - rewrite Z.pow_neg_r in Y2 by lia. lia. }
  rewrite (SFofZ_rescale (Z <? 0) c (c + k) Y) by lia.
  f_equal. lia.
Qed.

End Scaling.

(** ** One perturbation *)

Section WithGen.
Context {G : Type} `{UniformGenOk G}.

Local Abbreviation rng := (rng_state_t G).

(** The state in which an inexact operator draws. *)
Definition ready (ctx : t_context) (st : rng) : rng :=
  _init_rng_state_struct st (choose_seed ctx) (seed ctx) false.

Lemma ready_drawn ctx (st : rng) tid :
  ready ctx (snd (get_rand_double01 st tid)) = snd (get_rand_double01 st tid).
Proof.
  unfold ready, _init_rng_state_struct, seeded, get_rand_double01.
  destruct (gen_double01 _) as [u g']. reflexivity.
Qed.

Lemma _NOISE_state W k (st : rng) :
  working W -> snd (_NOISE W k st) = snd (get_rand_double01 st global_tid).
Proof. intros HW. rewrite _NOISE_centred by assumption. reflexivity. Qed.

(** Adding the noise of exponent [GET_EXP(X) - (t - 1)] to a normal
    member [X] of the working format displaces it by less than
    [2^(GET_EXP(X) - (t - 1))]. *)
Lemma noise_added W X t (st : rng) :
  working W ->
  valid_binary (prec W) (emax W) X = true ->
  FPCLASSIFY W X = FP_NORMAL ->
  1 <= t <= prec W - 1 ->
  EXP_MIN W + 53 + t <= GET_EXP_FLT W X <= EXP_COMP W - 1 ->
  fst (get_rand_double01 st global_tid) <> half binary64 ->
  let X' := fadd W X (fst (_NOISE W (GET_EXP_FLT W X - (t - 1)) st)) in
  is_finite X' = true
  /\ (Qabs (SF2Q X' - SF2Q X) < pow2 (GET_EXP_FLT W X - (t - 1)))%Q.
Proof.
  intros HW Hv Hc Ht Hrange Hu X'.
  destruct (working_facts W HW) as (Hp & Hx & Hpe & H2 & Hce & Hc64).
  destruct (normal_valid_fields W X HW Hv Hc) as (s & m & e & -> & Hmb & He).
  unfold X'.
  rewrite GET_EXP_FLT_normal in * by (unfold PMAN_SIZE; lia || assumption).
  unfold EXP_MIN, EXP_COMP in Hrange.
  destruct (_NOISE_value W (e + prec W - 1 - (t - 1)) st HW Hu ltac:(lia))
    as (sd & md & ed & _ & Hn & Hmd & Hed & Hmag).
  rewrite Hn.
  replace (e + prec W - 1 - (t - 1)) with (e + prec W - t) by lia.
  apply add_noise_Q; try lia.
  set (c := fmt_emin W) in *.
  replace (ed + (e + prec W - t) - c)
    with (ed + prec W + 53 + (e - t - c - 53)) by lia.
  rewrite Z.pow_add_r, Z.mul_assoc by lia.
  assert (P : 0 < 2 ^ (e - t - c - 53)) by (apply Z.pow_pos_nonneg; lia).
  apply Z.le_trans with (2 ^ (prec W + 52) * 2 ^ (e - t - c - 53)); [nia|].
  rewrite <- !Z.pow_add_r by lia. apply Z.pow_le_mono_r; lia.
Qed.

(** The guarded operator on a value that must be noised, with a sparsity
    of 1 or more:
    one noise per enabled kind of error, the relative one first. *)
Lemma _INEXACT_noised g W X t ctx (st : rng) :
  _MUST_NOT_BE_NOISED g W X t = false ->
  SFleb one32 (sparsity ctx) = true ->
  _INEXACT g W X t ctx st =
  let st0 := ready ctx st in
  let '(X1, st1) :=
    if relErr ctx then
      let n := _NOISE W (GET_EXP_FLT W X - (t - 1)) st0 in
      (fadd W X (fst n), snd n)
    else (X, st0) in
  if absErr ctx then
    let n := _NOISE W (absErr_exp ctx) st1 in (fadd W X1 (fst n), snd n)
  else (X1, st1).
Proof.
  intros Hn Hs. unfold _INEXACT, _mca_skip_eval, ready. rewrite Hn.
  change (cast binary32 (S754_finite false 1 0)) with one32. rewrite Hs.
  cbv iota beta zeta.
  destruct (relErr ctx).
  - destruct (_NOISE W _ _) as [n1 s1]. cbn [fst snd].
    destruct (absErr ctx); [|reflexivity].
    destruct (_NOISE W _ _) as [n2 s2]. reflexivity.
  - destruct (absErr ctx); [|reflexivity].
    destruct (_NOISE W _ _) as [n2 s2]. reflexivity.
Qed.

Lemma must_be_noised g W X t :
  MCALIB_MODE g = mcamode_pb \/ MCALIB_MODE g = mcamode_mca ->
  FPCLASSIFY W X = FP_NORMAL ->
  _MUST_NOT_BE_NOISED g W X t = false.
Proof.
  intros Hm Hc. unfold _MUST_NOT_BE_NOISED. rewrite Hc.
  destruct Hm as [-> | ->]; reflexivity.
Qed.

(** [X] with the relative noise of the virtual precision [t], for the
    draw made in the state [st]. *)
Definition perturbed (W : format) (X : spec_float) (t : Z) (st : rng)
    : spec_float :=
  fadd W X (fst (_NOISE W (GET_EXP_FLT W X - (t - 1)) st)).

(** An operand that is normal once converted leaves room for the noise. *)
Lemma widened_range T W ctx X t :
  widening T W ->
  valid_binary (prec T) (emax T) X = true ->
  FPCLASSIFY W (widen_operand T W ctx X) = FP_NORMAL ->
  t <= prec W - 1 ->
  valid_binary (prec W) (emax W) (widen_operand T W ctx X) = true
  /\ EXP_MIN W + 53 + t <= GET_EXP_FLT W (widen_operand T W ctx X)
     <= EXP_COMP W - 1.
Proof.
  intros HTW HX HcX Ht. unfold widen_operand in *.
  pose proof (widening_working T W HTW) as HW.
  assert (HX' : valid_binary (prec T) (emax T)
                  (if daz ctx then DAZ T X else X) = true)
    by (destruct (daz ctx); [apply DAZ_valid|]; assumption).
  destruct (if daz ctx then DAZ T X else X) as [| | |s m e];
    try discriminate.
  destruct (widened_operand T W s m e HTW HX')
    as (m' & e' & Hc & Hv' & Hmm & He & _ & Hr).
  rewrite Hc. split; [exact Hv'|].
  rewrite GET_EXP_FLT_normal by (unfold PMAN_SIZE; lia || assumption).
  destruct HTW as [[-> ->]|[-> ->]];
    unfold EXP_MIN, EXP_COMP, fmt_emin in *;
    cbn [prec emax binary32 binary64 binary128] in *;
    unfold SpecFloat.emin in Hr; lia.
Qed.

(** ** Theorems *)

(** The noise of exponent [k] that the two generators of noise return
    for a draw other than 0.5, when [k] keeps the exponent field in the
    normal range: a normal member of the working format whose magnitude
    lies between [2^(k-54)] and [2^(k-1)], for one draw of the
    generator. *)
Theorem noise_magnitude W k (st : rng) :
  working W ->
  fst (get_rand_double01 st global_tid) <> half binary64 ->
  fmt_emin W + 53 + prec W <= k <= emax W ->
  exists s m e,
    _NOISE W k st = (S754_finite s m e, snd (get_rand_double01 st global_tid))
    /\ valid_binary (prec W) (emax W) (S754_finite s m e) = true
    /\ (pow2 (k - 54) <= Qabs (SF2Q (S754_finite s m e)))%Q
    /\ (Qabs (SF2Q (S754_finite s m e)) <= pow2 (k - 1))%Q.
Proof.
  intros HW Hu Hk.
  destruct (working_facts W HW) as (Hp & He & Hpe & H2 & Hc & Hc64).
  destruct (_NOISE_value W k st HW Hu Hk)
    as (sd & md & ed & _ & Hn & Hmd & Hed & Hmag).
  exists sd, md, (ed + k).
  assert (Hlog : Z.log2 (Zpos md) = prec W - 1).
  { apply Z.log2_unique; [lia|]. unfold Z.succ.
    replace (prec W - 1 + 1) with (prec W) by lia. exact Hmd. }
  split; [|split; [|split]].
  - rewrite <- Hn, <- (_NOISE_state W k st HW). apply surjective_pairing.
  - simpl. unfold bounded, canonical_mantissa.
    rewrite digits2_pos_log2, Hlog.
    unfold SpecFloat.fexp, SpecFloat.emin. unfold fmt_emin, SpecFloat.emin in *.
    apply andb_true_iff. split; [apply Z.eqb_eq | apply Z.leb_le]; lia.
  - unfold SF2Q. rewrite Qabs_Qmult, Qabs_inject_Z.
    rewrite (Qabs_pos (pow2 _)) by (apply Qlt_le_weak, pow2_pos).
    replace (Z.abs (cond_Zopp sd (Zpos md))) with (Zpos md)
      by (destruct sd; reflexivity).
    replace (k - 54) with (prec W - 1 + (- 53 - prec W + k)) by lia.
    rewrite (pow2_add (prec W - 1)), <- (inject_Z_pow2 (prec W - 1)) by lia.
    replace (ed + k) with (ed + 53 + prec W + (- 53 - prec W + k)) by lia.
    rewrite (pow2_add (ed + 53 + prec W)), <- (inject_Z_pow2 (ed + 53 + prec W))
      by lia.
    rewrite Qmult_assoc, <- inject_Z_mult.
    apply Qmult_le_compat_r; [|apply Qlt_le_weak, pow2_pos].
    rewrite <- Zle_Qle.
    assert (0 < 2 ^ (ed + 53 + prec W)) by (apply Z.pow_pos_nonneg; lia).
    nia.
  - unfold SF2Q. rewrite Qabs_Qmult, Qabs_inject_Z.
    rewrite (Qabs_pos (pow2 _)) by (apply Qlt_le_weak, pow2_pos).
    replace (Z.abs (cond_Zopp sd (Zpos md))) with (Zpos md)
      by (destruct sd; reflexivity).
    replace (k - 1) with (prec W + 52 + (- 53 - prec W + k)) by lia.
    rewrite (pow2_add (prec W + 52)), <- (inject_Z_pow2 (prec W + 52)) by lia.
    replace (ed + k) with (ed + prec W + 53 + (- 53 - prec W + k)) by lia.
    rewrite (pow2_add (ed + prec W + 53)), <- (inject_Z_pow2 (ed + prec W + 53))
      by lia.
    rewrite Qmult_assoc, <- inject_Z_mult.
    apply Qmult_le_compat_r; [|apply Qlt_le_weak, pow2_pos].
    rewrite <- Zle_Qle. exact Hmag.
Qed.

(** With the absolute error mode alone and a sparsity of 1 or more, the
    guarded
    operator displaces a normal value [X] that must be noised by less
    than [2^absErr_exp], whatever the virtual precision, when the exponent
    of the error is at most the exponent of [X] and not more than
    [prec - 2] below it; it makes one draw. *)
Theorem inexact_absolute_bound g W X t ctx (st : rng) :
  working W ->
  _MUST_NOT_BE_NOISED g W X t = false ->
  relErr ctx = false -> absErr ctx = true ->
  SFleb (cast binary32 (S754_finite false 1 0)) (sparsity ctx) = true ->
  valid_binary (prec W) (emax W) X = true ->
  FPCLASSIFY W X = FP_NORMAL ->
  GET_EXP_FLT W X - (prec W - 2) <= absErr_exp ctx <= GET_EXP_FLT W X ->
  EXP_MIN W + 54 <= absErr_exp ctx ->
  GET_EXP_FLT W X <= EXP_COMP W - 1 ->
  fst (get_rand_double01 (ready ctx st) global_tid) <> half binary64 ->
  is_finite (fst (_INEXACT g W X t ctx st)) = true
  /\ (Qabs (SF2Q (fst (_INEXACT g W X t ctx st)) - SF2Q X)
      < pow2 (absErr_exp ctx))%Q
  /\ snd (_INEXACT g W X t ctx st)
     = snd (get_rand_double01 (ready ctx st) global_tid).
Proof.
  intros HW Hn Hrel Habs Hsp Hv Hc Ha Hmin Hmax Hu.
  rewrite (_INEXACT_noised g W X t ctx st Hn Hsp). cbv zeta.
  rewrite Hrel, Habs. cbn [fst snd].
  rewrite _NOISE_state by assumption.
  set (t' := GET_EXP_FLT W X - absErr_exp ctx + 1).
  pose proof (noise_added W X t' (ready ctx st) HW Hv Hc
                ltac:(unfold t'; lia) ltac:(unfold t'; lia) Hu) as Hb.
  cbv zeta in Hb.
  replace (GET_EXP_FLT W X - (t' - 1)) with (absErr_exp ctx) in Hb
    by (unfold t'; lia).
  destruct Hb as [Hf Hq]. auto.
Qed.

(** The user call INEXACT on a quad value: in every mode but ieee,
    whatever the error mode, the sparsity and the bits of the value, a
    normal value [v] is replaced by a finite value less than
    [2^(GET_EXP(v) - (p - 1))] away from it, for one draw. *)
Theorem usercall_quad_bound g ctx v p (st : rng) :
  MCALIB_MODE g <> mcamode_ieee ->
  valid_binary (prec binary128) (emax binary128) v = true ->
  FPCLASSIFY binary128 v = FP_NORMAL ->
  1 <= p <= 112 ->
  EXP_MIN binary128 + 53 + p <= GET_EXP_FLT binary128 v
    <= EXP_COMP binary128 - 1 ->
  fst (get_rand_double01 (ready ctx st) global_tid) <> half binary64 ->
  let r := _interflop_usercall_inexact g ctx FQUAD v p st in
  is_finite (fst r) = true
  /\ (Qabs (SF2Q (fst r) - SF2Q v)
      < pow2 (GET_EXP_FLT binary128 v - (p - 1)))%Q
  /\ snd r = snd (get_rand_double01 (ready ctx st) global_tid).
Proof.
  intros Hm Hv Hc Hp Hrange Hu r. unfold r.
  assert (HW : working binary128) by (right; reflexivity).
  unfold _interflop_usercall_inexact, _FAST_INEXACT, _IS_IEEE_MODE,
    _IS_NOT_NORMAL_OR_SUBNORMAL.
  rewrite Hc.
  replace (mcamode_eqb (MCALIB_MODE g) mcamode_ieee) with false
    by (destruct (MCALIB_MODE g); try reflexivity; congruence).
  cbn [fpclass_eqb negb andb orb]. cbv iota.
  fold (ready ctx st).
  destruct (_NOISE binary128 _ _) as [n s1] eqn:En. cbn [fst snd].
  pose proof (noise_added binary128 v p (ready ctx st) HW Hv Hc
                ltac:(cbn [prec binary128]; lia) Hrange Hu) as Hb.
  cbv zeta in Hb. rewrite En in Hb. cbn [fst] in Hb.
  destruct Hb as [Hf Hq]. repeat split; try assumption.
  pose proof (_NOISE_state binary128
                (GET_EXP_FLT binary128 v - (p - 1)) (ready ctx st) HW) as Hs.
  rewrite En in Hs. exact Hs.
Qed.

(** The driver in mode pb with the relative error mode and a sparsity of
    1 or more:
    each operand that is normal at the working precision reaches the
    operation displaced by less than [2^(GET_EXP - (t - 1))], for one draw
    each (none of them 0.5); the operation is the one of the working
    format and its result is narrowed as it is, without a third draw. *)
Theorem pb_perturbation_bound g T W A B OP ctx (st : rng) :
  widening T W ->
  MCALIB_MODE g = mcamode_pb ->
  relErr ctx = true -> absErr ctx = false ->
  SFleb (cast binary32 (S754_finite false 1 0)) (sparsity ctx) = true ->
  valid_binary (prec T) (emax T) A = true ->
  valid_binary (prec T) (emax T) B = true ->
  let t := virtual_precision g W in
  let A0 := widen_operand T W ctx A in
  let B0 := widen_operand T W ctx B in
  1 <= t <= prec W - 1 ->
  FPCLASSIFY W A0 = FP_NORMAL ->
  FPCLASSIFY W B0 = FP_NORMAL ->
  let st1 := snd (get_rand_double01 (ready ctx st) global_tid) in
  fst (get_rand_double01 (ready ctx st) global_tid) <> half binary64 ->
  fst (get_rand_double01 st1 global_tid) <> half binary64 ->
  exists A' B',
    _MCA_BINARY_OP g T W A B OP ctx st
    = (narrow_result T W ctx (PERFORM_BIN_OP W OP A' B'),
       snd (get_rand_double01 st1 global_tid))
    /\ is_finite A' = true /\ is_finite B' = true
    /\ (Qabs (SF2Q A' - SF2Q A0) < pow2 (GET_EXP_FLT W A0 - (t - 1)))%Q
    /\ (Qabs (SF2Q B' - SF2Q B0) < pow2 (GET_EXP_FLT W B0 - (t - 1)))%Q.
Proof.
  intros HTW Hm Hrel Habs Hsp HA HB t A0 B0 Ht HcA HcB st1 Hu1 Hu2.
  pose proof (widening_working T W HTW) as HW.
  destruct (widened_range T W ctx A t HTW HA HcA ltac:(lia)) as [HvA HrA].
  destruct (widened_range T W ctx B t HTW HB HcB ltac:(lia)) as [HvB HrB].
  fold A0 in HvA, HrA. fold B0 in HvB, HrB.
  pose proof (noise_added W A0 t (ready ctx st) HW HvA HcA Ht HrA Hu1) as HbA.
  pose proof (noise_added W B0 t st1 HW HvB HcB Ht HrB Hu2) as HbB.
  cbv zeta in HbA, HbB.
  exists (fadd W A0 (fst (_NOISE W (GET_EXP_FLT W A0 - (t - 1)) (ready ctx st)))),
         (fadd W B0 (fst (_NOISE W (GET_EXP_FLT W B0 - (t - 1)) st1))).
  split; [|tauto].
  rewrite _MCA_BINARY_OP_stages.
  unfold noise_inputs, noise_result. rewrite Hm. cbn [mcamode_eqb orb].
  fold A0 B0.
  rewrite !_INEXACT_BINARYN_eq.
  replace (noise_width W) with W by (destruct HW as [->| ->]; reflexivity).
  fold t.
  rewrite (_INEXACT_noised g W A0 t ctx st)
    by first [exact Hsp | apply must_be_noised; auto].
  cbv zeta. rewrite Hrel, Habs. cbn [fst snd].
  rewrite _NOISE_state by assumption. fold st1.
  rewrite _INEXACT_BINARYN_eq.
  replace (noise_width W) with W by (destruct HW as [->| ->]; reflexivity).
  fold t.
  rewrite (_INEXACT_noised g W B0 t ctx st1)
    by first [exact Hsp | apply must_be_noised; auto].
  cbv zeta. rewrite Hrel, Habs. cbn [fst snd].
  unfold st1 at 1 2. rewrite ready_drawn. fold st1.
  rewrite _NOISE_state by assumption.
  reflexivity.
Qed.

(** The driver in mode mca, the default, with the relative error mode
    and a sparsity of 1 or more, on operands that are normal at the working
    precision: each operand is displaced by less than
    [2^(GET_EXP - (t - 1))] before the operation, and the result [R] of the
    operation on the displaced operands, when it is a normal member of the
    working format with room for the noise, is displaced by less than
    [2^(GET_EXP(R) - (t - 1))] before it is narrowed, whether or not it is
    representable in the virtual precision.  Three draws are made, none of
    them 0.5. *)
Theorem mca_perturbation_bound g T W A B OP ctx (st : rng) :
  widening T W ->
  MCALIB_MODE g = mcamode_mca ->
  relErr ctx = true -> absErr ctx = false ->
  SFleb (cast binary32 (S754_finite false 1 0)) (sparsity ctx) = true ->
  valid_binary (prec T) (emax T) A = true ->
  valid_binary (prec T) (emax T) B = true ->
  let t := virtual_precision g W in
  let A0 := widen_operand T W ctx A in
  let B0 := widen_operand T W ctx B in
  1 <= t <= prec W - 1 ->
  FPCLASSIFY W A0 = FP_NORMAL ->
  FPCLASSIFY W B0 = FP_NORMAL ->
  let st1 := snd (get_rand_double01 (ready ctx st) global_tid) in
  let st2 := snd (get_rand_double01 st1 global_tid) in
  fst (get_rand_double01 (ready ctx st) global_tid) <> half binary64 ->
  fst (get_rand_double01 st1 global_tid) <> half binary64 ->
  fst (get_rand_double01 st2 global_tid) <> half binary64 ->
  let A' := perturbed W A0 t (ready ctx st) in
  let B' := perturbed W B0 t st1 in
  let R := PERFORM_BIN_OP W OP A' B' in
  valid_binary (prec W) (emax W) R = true ->
  FPCLASSIFY W R = FP_NORMAL ->
  EXP_MIN W + 53 + t <= GET_EXP_FLT W R <= EXP_COMP W - 1 ->
  _MCA_BINARY_OP g T W A B OP ctx st
  = (narrow_result T W ctx (perturbed W R t st2),
     snd (get_rand_double01 st2 global_tid))
  /\ is_finite A' = true /\ is_finite B' = true
  /\ is_finite (perturbed W R t st2) = true
  /\ (Qabs (SF2Q A' - SF2Q A0) < pow2 (GET_EXP_FLT W A0 - (t - 1)))%Q
  /\ (Qabs (SF2Q B' - SF2Q B0) < pow2 (GET_EXP_FLT W B0 - (t - 1)))%Q
  /\ (Qabs (SF2Q (perturbed W R t st2) - SF2Q R)
      < pow2 (GET_EXP_FLT W R - (t - 1)))%Q.
Proof.
  intros HTW Hm Hrel Habs Hsp HA HB t A0 B0 Ht HcA HcB st1 st2 Hu1 Hu2 Hu3
    A' B' R HvR HcR HrR.
  pose proof (widening_working T W HTW) as HW.
  destruct (widened_range T W ctx A t HTW HA HcA ltac:(lia)) as [HvA HrA].
  destruct (widened_range T W ctx B t HTW HB HcB ltac:(lia)) as [HvB HrB].
  fold A0 in HvA, HrA. fold B0 in HvB, HrB.
  pose proof (noise_added W A0 t (ready ctx st) HW HvA HcA Ht HrA Hu1) as HbA.
  pose proof (noise_added W B0 t st1 HW HvB HcB Ht HrB Hu2) as HbB.
  pose proof (noise_added W R t st2 HW HvR HcR Ht HrR Hu3) as HbR.
  cbv zeta in HbA, HbB, HbR.
  split; [|unfold A', B', perturbed; tauto].
  rewrite _MCA_BINARY_OP_stages.
  unfold noise_inputs, noise_result. rewrite Hm. cbn [mcamode_eqb orb].
  fold A0 B0.
  rewrite _INEXACT_BINARYN_eq.
  replace (noise_width W) with W by (destruct HW as [->| ->]; reflexivity).
  fold t.
  rewrite (_INEXACT_noised g W A0 t ctx st)
    by first [exact Hsp | apply must_be_noised; auto].
  cbv zeta. rewrite Hrel, Habs. cbn [fst snd].
  rewrite _NOISE_state by assumption. fold st1.
  rewrite _INEXACT_BINARYN_eq.
  replace (noise_width W) with W by (destruct HW as [->| ->]; reflexivity).
  fold t.
  rewrite (_INEXACT_noised g W B0 t ctx st1)
    by first [exact Hsp | apply must_be_noised; auto].
  cbv zeta. rewrite Hrel, Habs. cbn [fst snd].
  unfold st1 at 1 2. rewrite ready_drawn. fold st1.
  rewrite _NOISE_state by assumption. fold st2.
  fold (perturbed W A0 t (ready ctx st)). fold (perturbed W B0 t st1).
  fold A' B' R.
  rewrite _INEXACT_BINARYN_eq.
  replace (noise_width W) with W by (destruct HW as [->| ->]; reflexivity).
  fold t.
  rewrite (_INEXACT_noised g W R t ctx st2)
    by first [exact Hsp | apply must_be_noised; auto].
  cbv zeta. rewrite Hrel, Habs. cbn [fst snd].
  unfold st2 at 1 2. rewrite ready_drawn. fold st2.
  rewrite _NOISE_state by assumption.
  reflexivity.
Qed.

(** The relative noise follows the scale: for one draw, the noised
    [X * 2^k] is the noised [X] times [2^k]. *)
Lemma perturbed_scale W s m e k t (st : rng) :
  working W ->
  2 ^ (prec W - 1) <= Zpos m < 2 ^ prec W ->
  1 <= t <= prec W - 1 ->
  fmt_emin W + 53 + t <= e -> e + 2 <= emax W - prec W ->
  fmt_emin W + 53 + t <= e + k -> e + k + 2 <= emax W - prec W ->
  fst (get_rand_double01 st global_tid) <> half binary64 ->
  perturbed W (S754_finite s m (e + k)) t st
  = scale2 k (perturbed W (S754_finite s m e) t st).
Proof.
  intros HW Hm Ht He1 He2 Hk1 Hk2 Hu.
  destruct (working_facts W HW) as (Hp & Hx & Hpe & H2 & Hce & Hc64).
  unfold perturbed.
  rewrite !GET_EXP_FLT_normal by (unfold PMAN_SIZE; lia || assumption).
  destruct (_NOISE_value W (e + prec W - 1 - (t - 1)) st HW Hu ltac:(lia))
    as (sd & md & ed & Hd & Hn & Hmd & Hed & Hmag).
  destruct (_NOISE_value W (e + k + prec W - 1 - (t - 1)) st HW Hu ltac:(lia))
    as (sd' & md' & ed' & Hd' & Hn' & _).
  rewrite Hd in Hd'. injection Hd' as <- <- <-.
  rewrite Hn, Hn'. unfold fadd.
  replace (ed + (e + k + prec W - 1 - (t - 1)))
    with (ed + (e + prec W - 1 - (t - 1)) + k) by lia.
  set (en := ed + (e + prec W - 1 - (t - 1))).
  set (c := fmt_emin W - Z.abs k).
  set (j := e - c).
  assert (Hj : 0 <= j) by (unfold j, c; lia).
  set (P := 2 ^ (prec W - 2 + j)).
  assert (PP : 0 < P) by (apply Z.pow_pos_nonneg; lia).
  assert (E1 : 2 ^ (prec W - 1) * 2 ^ j = 2 * P).
  { unfold P. rewrite <- Z.pow_add_r by lia.
    replace (prec W - 1 + j) with (prec W - 2 + j + 1) by lia.
    rewrite Z.pow_add_r by lia. lia. }
  assert (E2 : 2 ^ prec W * 2 ^ j = 4 * P).
  { unfold P. rewrite <- Z.pow_add_r by lia.
    replace (prec W + j) with (prec W - 2 + j + 2) by lia.
    rewrite Z.pow_add_r by lia. change (2 ^ 2) with 4. lia. }
  assert (E3 : 2 ^ (prec W + 1 + j) = 8 * P).
  { unfold P.
    replace (prec W + 1 + j) with (prec W - 2 + j + 3) by lia.
    rewrite Z.pow_add_r by lia. change (2 ^ 3) with 8. lia. }
  assert (Pj : 0 < 2 ^ j) by (apply Z.pow_pos_nonneg; lia).
  assert (Ha : 2 * P <= Zpos m * 2 ^ j < 4 * P) by nia.
  assert (Hb : 0 < Zpos md * 2 ^ (en - c) <= P).
  { split.
    - apply Z.mul_pos_pos; [lia|]. apply Z.pow_pos_nonneg; [lia|].
      unfold en, c. lia.
    - replace (en - c) with (ed + prec W + 53 + (e - t - c - 53))
        by (unfold en; lia).
      assert (0 <= e - t - c - 53) by (unfold c; lia).
      rewrite Z.pow_add_r, Z.mul_assoc by lia.
      assert (Q : 0 < 2 ^ (e - t - c - 53)) by (apply Z.pow_pos_nonneg; lia).
      apply Z.le_trans with (2 ^ (prec W + 52) * 2 ^ (e - t - c - 53)); [nia|].
      unfold P. rewrite <- Z.pow_add_r by lia.
      apply Z.pow_le_mono_r; unfold j; lia. }
  apply (SFadd_rescale (prec W) (emax W) ltac:(lia) c k s m e sd md en
           (prec W - 2 + j) (prec W + 1 + j));
    try (unfold c, en, j, fmt_emin in *; lia).
  fold j. fold P. rewrite E3.
  clearbody P. clear E1 E2 E3.
  set (a := Zpos m * 2 ^ j) in *. set (b := Zpos md * 2 ^ (en - c)) in *.
  clearbody a b.
  destruct s, sd; cbn [cond_Zopp]; lia.
Qed.

Lemma noised_scale g W s m e k t :
  2 ^ PMAN_SIZE W <= Zpos m ->
  _MUST_NOT_BE_NOISED g W (S754_finite s m (e + k)) t
  = _MUST_NOT_BE_NOISED g W (S754_finite s m e) t.
Proof.
  intros Hm. unfold _MUST_NOT_BE_NOISED, _IS_REPRESENTABLE, FPCLASSIFY, view.
  destruct (Z.leb_spec (2 ^ PMAN_SIZE W) (Zpos m)); [reflexivity | lia].
Qed.

(** The relative perturbation follows the scale of the value: with the
    relative error mode alone and a sparsity of 1 or more, for a normal
    value [X] that must be noised and a power of two [2^k] that keeps the
    exponent in range, the guarded operator applied to [X * 2^k] returns,
    for the same draw, [2^k] times what it returns for [X], bit for bit,
    and leaves the generator in the same state. *)
Theorem relative_noise_scales g W X k t ctx (st : rng) :
  working W ->
  valid_binary (prec W) (emax W) X = true ->
  FPCLASSIFY W X = FP_NORMAL ->
  _MUST_NOT_BE_NOISED g W X t = false ->
  relErr ctx = true -> absErr ctx = false ->
  SFleb (cast binary32 (S754_finite false 1 0)) (sparsity ctx) = true ->
  1 <= t <= prec W - 1 ->
  EXP_MIN W + 53 + t <= GET_EXP_FLT W X <= EXP_COMP W - 2 ->
  EXP_MIN W + 53 + t <= GET_EXP_FLT W X + k <= EXP_COMP W - 2 ->
  fst (get_rand_double01 (ready ctx st) global_tid) <> half binary64 ->
  _INEXACT g W (scale2 k X) t ctx st
  = (scale2 k (fst (_INEXACT g W X t ctx st)),
     snd (_INEXACT g W X t ctx st)).
Proof.
  intros HW Hv Hc Hn Hrel Habs Hsp Ht Hr Hrk Hu.
  destruct (working_facts W HW) as (Hp & Hx & Hpe & H2 & Hce & Hc64).
  destruct (normal_valid_fields W X HW Hv Hc) as (s & m & e & -> & Hm & He).
  rewrite GET_EXP_FLT_normal in Hr, Hrk
    by (unfold PMAN_SIZE; lia || assumption).
  unfold EXP_MIN, EXP_COMP in Hr, Hrk.
  cbn [scale2].
  rewrite (_INEXACT_noised g W (S754_finite s m e) t ctx st Hn Hsp).
  rewrite (_INEXACT_noised g W (S754_finite s m (e + k)) t ctx st)
    by first [exact Hsp | rewrite noised_scale; [exact Hn | unfold PMAN_SIZE; lia]].
  cbv zeta. rewrite Hrel, Habs. cbn [fst snd].
  rewrite !_NOISE_state by assumption.
  f_equal.
  apply (perturbed_scale W s m e k t (ready ctx st)); try assumption; lia.
Qed.

End WithGen.

(** The conversion of a member of the operand type to the working type
    loses nothing: converting back gives the operand, the converted value
    is a member of the working format with the same value, and a finite
    non-zero operand, subnormal or not, is a normal number of the working
    format. *)
Theorem widen_narrow_round_trip T W x :
  widening T W ->
  valid_binary (prec T) (emax T) x = true ->
  cast T (cast W x) = x
  /\ valid_binary (prec W) (emax W) (cast W x) = true
  /\ (SF2Q (cast W x) == SF2Q x)%Q
  /\ FPCLASSIFY W (cast W x)
     = match x with
       | S754_finite _ _ _ => FP_NORMAL
       | _ => FPCLASSIFY T x
       end.
Proof.
  intros HTW Hv.
  destruct (widening_hypotheses T W HTW) as (H1 & H2 & H3 & H4 & H5).
  split; [apply (narrow_widen T W H1 H2 H3 H4 H5 x Hv)|].
  destruct x as [sx|sx| |s m e]; try (repeat split; reflexivity).
  destruct (widened_operand T W s m e HTW Hv)
    as (m' & e' & Hc & Hv' & Hm & He & Hs & _).
  rewrite Hc. split; [exact Hv'|]. split.
  - apply SF2Q_scaled; lia.
  - unfold FPCLASSIFY, PMAN_SIZE.
    destruct (Z.leb_spec (2 ^ (prec W - 1)) (Zpos m')); [reflexivity | lia].
Qed.

Lemma widen_narrow_round_trip_witness :
  cast binary32 (cast binary64 tiny32) = tiny32
  /\ valid_binary (prec binary64) (emax binary64) (cast binary64 tiny32) = true
  /\ (SF2Q (cast binary64 tiny32) == SF2Q tiny32)%Q
  /\ FPCLASSIFY binary64 (cast binary64 tiny32) = FP_NORMAL.
Proof.
  apply (widen_narrow_round_trip binary32 binary64 tiny32).
  - left. split; reflexivity.
  - reflexivity.
Defined.

(** The noise of exponent -23 for the draw 0.25. *)
Lemma noise_magnitude_witness :
  exists s m e,
    _NOISE binary64 (- 23) (CycleGen.seeded_at 0)
    = (S754_finite s m e,
       snd (get_rand_double01 (CycleGen.seeded_at 0) global_tid))
    /\ valid_binary (prec binary64) (emax binary64) (S754_finite s m e) = true
    /\ (pow2 (- 23 - 54) <= Qabs (SF2Q (S754_finite s m e)))%Q
    /\ (Qabs (SF2Q (S754_finite s m e)) <= pow2 (- 23 - 1))%Q.
Proof.
  apply (noise_magnitude (G := nat) binary64 (- 23) (CycleGen.seeded_at 0)).
  - left. reflexivity.
  - vm_compute. discriminate.
  - vm_compute. split; discriminate.
Defined.

(** The absolute error of exponent -30 on 1.0 in mode pb. *)
Definition abs_context_30 : t_context := set_absErr_exp abs_context (- 30).

Definition d1 : spec_float := cast binary64 (S754_finite false 1 0).

Lemma inexact_absolute_bound_witness :
  is_finite (fst (_INEXACT pb_defaults binary64 d1 24 abs_context_30
                    (CycleGen.seeded_at 0))) = true
  /\ (Qabs (SF2Q (fst (_INEXACT pb_defaults binary64 d1 24 abs_context_30
                         (CycleGen.seeded_at 0))) - SF2Q d1)
      < pow2 (absErr_exp abs_context_30))%Q
  /\ snd (_INEXACT pb_defaults binary64 d1 24 abs_context_30
            (CycleGen.seeded_at 0))
     = snd (get_rand_double01 (ready abs_context_30 (CycleGen.seeded_at 0))
              global_tid).
Proof.
  apply (inexact_absolute_bound (G := nat) pb_defaults binary64 d1 24
           abs_context_30 (CycleGen.seeded_at 0)); try reflexivity.
  - left. reflexivity.
  - vm_compute. split; discriminate.
  - vm_compute. discriminate.
  - vm_compute. discriminate.
  - vm_compute. discriminate.
Defined.

(** The user call on the quad value 1.0 with 10 bits, in mode mca. *)
Lemma usercall_quad_bound_witness :
  is_finite (fst (_interflop_usercall_inexact mca_defaults init_context
                    FQUAD q1 10 (CycleGen.seeded_at 0))) = true
  /\ (Qabs (SF2Q (fst (_interflop_usercall_inexact mca_defaults init_context
                         FQUAD q1 10 (CycleGen.seeded_at 0))) - SF2Q q1)
      < pow2 (GET_EXP_FLT binary128 q1 - (10 - 1)))%Q
  /\ snd (_interflop_usercall_inexact mca_defaults init_context FQUAD q1 10
            (CycleGen.seeded_at 0))
     = snd (get_rand_double01 (ready init_context (CycleGen.seeded_at 0))
              global_tid).
Proof.
  apply (usercall_quad_bound (G := nat) mca_defaults init_context q1 10
           (CycleGen.seeded_at 0)); try reflexivity.
  - discriminate.
  - lia.
  - vm_compute. split; discriminate.
  - vm_compute. discriminate.
Defined.

(** 1.0 + 3.0 in binary32 in mode pb, with the draws 0.25 and 0.75. *)
Lemma pb_perturbation_bound_witness :
  exists A' B',
    _MCA_BINARY_OP pb_defaults binary32 binary64 one32 f3 mca_add
      init_context (CycleGen.seeded_at 0)
    = (narrow_result binary32 binary64 init_context
         (PERFORM_BIN_OP binary64 mca_add A' B'),
       snd (get_rand_double01
              (snd (get_rand_double01
                      (ready init_context (CycleGen.seeded_at 0)) global_tid))
              global_tid))
    /\ is_finite A' = true /\ is_finite B' = true
    /\ (Qabs (SF2Q A' - SF2Q (widen_operand binary32 binary64 init_context one32))
        < pow2 (GET_EXP_FLT binary64
                  (widen_operand binary32 binary64 init_context one32)
                - (virtual_precision pb_defaults binary64 - 1)))%Q
    /\ (Qabs (SF2Q B' - SF2Q (widen_operand binary32 binary64 init_context f3))
        < pow2 (GET_EXP_FLT binary64
                  (widen_operand binary32 binary64 init_context f3)
                - (virtual_precision pb_defaults binary64 - 1)))%Q.
Proof.
  apply (pb_perturbation_bound (G := nat) pb_defaults binary32 binary64
           one32 f3 mca_add init_context (CycleGen.seeded_at 0));
    try reflexivity.
  - left. split; reflexivity.
  - vm_compute. split; discriminate.
  - vm_compute. discriminate.
  - vm_compute. discriminate.
Defined.

(** 1.0 + 3.0 in binary32 in mode mca, with the draws 0.25, 0.75 and
    0.3125. *)
Lemma mca_perturbation_bound_witness :
  _MCA_BINARY_OP mca_defaults binary32 binary64 one32 f3 mca_add
    init_context (CycleGen.seeded_at 0)
  = (narrow_result binary32 binary64 init_context
       (perturbed binary64
          (PERFORM_BIN_OP binary64 mca_add
             (perturbed binary64 (cast binary64 one32) 24
                (CycleGen.seeded_at 0))
             (perturbed binary64 (cast binary64 f3) 24
                (CycleGen.seeded_at 1)))
          24 (CycleGen.seeded_at 2)),
     CycleGen.seeded_at 3)
  /\ (Qabs (SF2Q (perturbed binary64
                    (PERFORM_BIN_OP binary64 mca_add
                       (perturbed binary64 (cast binary64 one32) 24
                          (CycleGen.seeded_at 0))
                       (perturbed binary64 (cast binary64 f3) 24
                          (CycleGen.seeded_at 1)))
                    24 (CycleGen.seeded_at 2))
            - SF2Q (PERFORM_BIN_OP binary64 mca_add
                      (perturbed binary64 (cast binary64 one32) 24
                         (CycleGen.seeded_at 0))
                      (perturbed binary64 (cast binary64 f3) 24
                         (CycleGen.seeded_at 1))))
      < pow2 (2 - (24 - 1)))%Q.
Proof.
  destruct (mca_perturbation_bound (G := nat) mca_defaults binary32 binary64
              one32 f3 mca_add init_context (CycleGen.seeded_at 0))
    as (E & _ & _ & _ & _ & _ & Q); try reflexivity.
  - left. split; reflexivity.
  - vm_compute. split; discriminate.
  - vm_compute. discriminate.
  - vm_compute. discriminate.
  - vm_compute. discriminate.
  - vm_compute. split; discriminate.
  - split; [exact E | exact Q].
Defined.

(** 1.0 and 8.0 at the working precision of binary32, in mode mca, with
    the draw 0.25. *)
Lemma relative_noise_scales_witness :
  _INEXACT mca_defaults binary64 (scale2 3 d1) 24 init_context
    (CycleGen.seeded_at 0)
  = (scale2 3 (fst (_INEXACT mca_defaults binary64 d1 24 init_context
                      (CycleGen.seeded_at 0))),
     snd (_INEXACT mca_defaults binary64 d1 24 init_context
            (CycleGen.seeded_at 0))).
Proof.
  apply (relative_noise_scales (G := nat) mca_defaults binary64 d1 3 24
           init_context (CycleGen.seeded_at 0)); try reflexivity.
  - left. reflexivity.
  - vm_compute. split; discriminate.
  - vm_compute. split; discriminate.
  - vm_compute. split; discriminate.
  - vm_compute. discriminate.
Defined.

(** A conversion returns a member of the format it converts to, whatever
    it is given. *)
Lemma cast_member W x :
  0 < prec W -> valid_binary (prec W) (emax W) (cast W x) = true.
Proof.
  intros Hp. destruct x as [| | |s m e]; try reflexivity.
  unfold cast.
  set (c := Z.min e (SpecFloat.emin (prec W) (emax W))).
  rewrite (binary_normalize_eq (prec W) (emax W) Hp _ e s c)
    by (unfold c; lia).
  replace (cond_Zopp s (Zpos m) =? 0) with false
    by (destruct s; reflexivity).
  replace (Z.abs (cond_Zopp s (Zpos m))) with (Zpos m)
    by (destruct s; reflexivity).
  assert (HX : 0 < Zpos m * 2 ^ (e - c))
    by (apply Z.mul_pos_pos; [lia | apply Z.pow_pos_nonneg; unfold c; lia]).
  apply SFofZ_valid; [unfold c; lia | |].
  - unfold Rounding.RNz. cbv zeta.
    pose proof (zexp_ge (prec W) (emax W) c (Zpos m * 2 ^ (e - c))
                  ltac:(unfold c; lia)).
    apply Z.mul_nonneg_nonneg; [apply rne_nonneg; lia | apply Z.pow_nonneg; lia].
  - intros _. apply (RNz_grid (prec W) (emax W) Hp); [unfold c; lia | exact HX].
Qed.

(** ** The order of the operands *)

Lemma fadd_comm W a b : fadd W a b = fadd W b a.
Proof.
  unfold fadd, SFadd.
  destruct a as [sa|sa| |sa ma ea], b as [sb|sb| |sb mb eb];
    try reflexivity;
    try (destruct sa, sb; reflexivity).
  cbv zeta. rewrite (Z.min_comm ea eb). f_equal. apply Z.add_comm.
Qed.

Lemma fmul_comm W a b : fmul W a b = fmul W b a.
Proof.
  unfold fmul, SFmul.
  destruct a as [sa|sa| |sa ma ea], b as [sb|sb| |sb mb eb];
    try reflexivity;
    try (destruct sa, sb; reflexivity).
  rewrite (xorb_comm sa sb), (Pos.mul_comm ma mb), (Z.add_comm ea eb).
  reflexivity.
Qed.

Section Frame.
Context {G : Type} `{UniformGen G}.

Lemma _INEXACT_mode g g' W X t ctx (st : rng_state_t G) :
  MCALIB_MODE g = MCALIB_MODE g' ->
  _INEXACT g W X t ctx st = _INEXACT g' W X t ctx st.
Proof.
  intros E. unfold _INEXACT, _MUST_NOT_BE_NOISED. rewrite E. reflexivity.
Qed.

(** The driver of binary32 reads the virtual precision of binary32 only,
    and the driver of binary64 that of binary64 only: changing the other
    one changes neither the result nor the draws. *)
Theorem drivers_use_own_precision g t a b op ctx (st : rng_state_t G) :
  _mca_binary32_binary_op
    {| MCALIB_MODE := MCALIB_MODE g;
       MCALIB_BINARY32_T := MCALIB_BINARY32_T g;
       MCALIB_BINARY64_T := t |} a b op ctx st
  = _mca_binary32_binary_op g a b op ctx st
  /\ _mca_binary64_binary_op
       {| MCALIB_MODE := MCALIB_MODE g;
          MCALIB_BINARY32_T := t;
          MCALIB_BINARY64_T := MCALIB_BINARY64_T g |} a b op ctx st
     = _mca_binary64_binary_op g a b op ctx st.
Proof.
  unfold _mca_binary32_binary_op, _mca_binary64_binary_op.
  rewrite !_MCA_BINARY_OP_stages.
  unfold noise_inputs, noise_result.
  cbn [MCALIB_MODE].
  assert (E : forall g' W x s,
             MCALIB_MODE g' = MCALIB_MODE g ->
             virtual_precision g' W = virtual_precision g W ->
             _INEXACT_BINARYN g' W x ctx s = _INEXACT_BINARYN g W x ctx s).
  { intros g' W x s Em Et. rewrite !_INEXACT_BINARYN_eq, Et.
    apply _INEXACT_mode. exact Em. }
  split; rewrite !E by reflexivity; reflexivity.
Qed.

(** On a value that the guarded operator must noise, with the relative
    error mode alone and a sparsity of 1 or more, the guarded operator and
    its fast version return the same value and leave the generator in the
    same state. *)
Theorem fast_inexact_agrees g W X t ctx (st : rng_state_t G) :
  _MUST_NOT_BE_NOISED g W X t = false ->
  relErr ctx = true -> absErr ctx = false ->
  SFleb (cast binary32 (S754_finite false 1 0)) (sparsity ctx) = true ->
  _INEXACT g W X t ctx st = _FAST_INEXACT g W X t ctx st.
Proof.
  intros Hn Hrel Habs Hsp.
  rewrite (_INEXACT_noised g W X t ctx st Hn Hsp). cbv zeta.
  rewrite Hrel, Habs.
  unfold _FAST_INEXACT, _IS_IEEE_MODE, _IS_NOT_NORMAL_OR_SUBNORMAL, ready.
  unfold _MUST_NOT_BE_NOISED in Hn.
  apply orb_false_iff in Hn. destruct Hn as [Hn _].
  rewrite Hn.
  destruct (_NOISE W _ _) as [n s1]. reflexivity.
Qed.

(** Whatever the mode, the options, the draws and the operands, the
    driver of binary32 returns a member of binary32 (a zero, an infinity,
    NaN, or a finite number with a canonical mantissa and exponent) and
    the driver of binary64 a member of binary64: a result can be the
    operand of a later operation. *)
Theorem drivers_return_members g a b op ctx (st : rng_state_t G) :
  valid_binary (prec binary32) (emax binary32)
    (fst (_mca_binary32_binary_op g a b op ctx st)) = true
  /\ valid_binary (prec binary64) (emax binary64)
       (fst (_mca_binary64_binary_op g a b op ctx st)) = true.
Proof.
  unfold _mca_binary32_binary_op, _mca_binary64_binary_op.
  rewrite !_MCA_BINARY_OP_stages.
  split.
  - destruct (noise_inputs g binary64 _ _ ctx st) as [[A' B'] st1].
    destruct (noise_result g binary64 _ ctx st1) as [R st2].
    cbn [fst]. unfold narrow_result. apply cast_member. reflexivity.
  - destruct (noise_inputs g binary128 _ _ ctx st) as [[A' B'] st1].
    destruct (noise_result g binary128 _ ctx st1) as [R st2].
    cbn [fst]. unfold narrow_result. apply cast_member. reflexivity.
Qed.

(** In the modes ieee and rr, where only the result is perturbed, the
    driver returns the same value and leaves the generator in the same
    state when the operands of an addition or of a multiplication are
    exchanged, whatever the operands, the options and the draws. *)
Theorem rr_operand_order g T W A B OP ctx (st : rng_state_t G) :
  MCALIB_MODE g = mcamode_ieee \/ MCALIB_MODE g = mcamode_rr ->
  OP = mca_add \/ OP = mca_mul ->
  _MCA_BINARY_OP g T W A B OP ctx st = _MCA_BINARY_OP g T W B A OP ctx st.
Proof.
  intros Hm Hop. rewrite !_MCA_BINARY_OP_stages.
  unfold noise_inputs.
  replace (mcamode_eqb (MCALIB_MODE g) mcamode_pb
           || mcamode_eqb (MCALIB_MODE g) mcamode_mca) with false
    by (destruct Hm as [-> | ->]; reflexivity).
  replace (PERFORM_BIN_OP W OP (widen_operand T W ctx B)
             (widen_operand T W ctx A))
    with (PERFORM_BIN_OP W OP (widen_operand T W ctx A)
            (widen_operand T W ctx B)).
  - reflexivity.
  - destruct Hop as [-> | ->]; [apply fadd_comm | apply fmul_comm].
Qed.

End Frame.

(** 1.0 at the working precision of binary32, in mode pb. *)
Lemma fast_inexact_agrees_witness :
  _INEXACT pb_defaults binary64 d1 24 init_context (CycleGen.seeded_at 0)
  = _FAST_INEXACT pb_defaults binary64 d1 24 init_context
      (CycleGen.seeded_at 0).
Proof.
  apply (fast_inexact_agrees (G := nat) pb_defaults binary64 d1 24
           init_context (CycleGen.seeded_at 0)); reflexivity.
Defined.

(** 1.0 + 3.0 and 3.0 + 1.0 in binary32 in mode rr. *)
Lemma rr_operand_order_witness :
  _MCA_BINARY_OP rr_defaults binary32 binary64 one32 f3 mca_add init_context
    (CycleGen.seeded_at 0)
  = _MCA_BINARY_OP rr_defaults binary32 binary64 f3 one32 mca_add
      init_context (CycleGen.seeded_at 0).
Proof.
  apply (rr_operand_order (G := nat) rr_defaults binary32 binary64 one32 f3
           mca_add init_context (CycleGen.seeded_at 0)).
  - right. reflexivity.
  - left. reflexivity.
Defined.

End PerturbProofs.
